(** * Cross-reference resolution core of clangd (XRefs.cpp)

    A shallow embedding of the resolution logic of
    [clang-tools-extra/clangd/XRefs.cpp]: the located-symbol pipeline
    ([locateSymbolAt] and its stages), the reference collector
    ([ReferenceFinder]), the nearby-identifier and textual fallbacks and
    the supertype walk of the type hierarchy.

    The parser, the token buffer, the source manager and the symbol index
    are collaborators of this file: they appear as records of the answers
    the code asks them for. *)

From Stdlib Require Import ZArith Lia.
From stdpp Require Import base decidable option list sorting gmap sets strings.

Local Open Scope Z_scope.
#[local] Set Warnings "-clear-no-such-hyp".

(** ** Source locations, tokens and protocol values *)

(** [SourceLocation]: the raw encoding, an unsigned offset; [operator<]
    compares raw encodings. *)
Definition SourceLocation := Z.

(** [index::SymbolRoleSet]: a bit set held in an unsigned integer. *)
Definition SymbolRoleSet := Z.

(** [SymbolID]: the 8-byte fingerprint; the null id is [0]
    ([operator bool] is false on it). *)
Definition SymbolID := Z.
Definition SymbolID_isNull (ID : SymbolID) : bool := ID =? 0.

(** Declarations are handles (pointers) into the AST snapshot. *)
Definition Decl := nat.

Inductive TokenKind :=
| tok_identifier
| tok_kw_auto
| tok_kw_decltype
| tok_string_literal
| tok_other.

#[global] Instance TokenKind_eq_dec : EqDecision TokenKind.
Proof. solve_decision. Defined.

Definition isStringLiteral (K : TokenKind) : bool :=
  bool_decide (K = tok_string_literal).

(** [syntax::Token]: location, length and kind; the text is read from the
    buffer. *)
Record Token := mkToken {
  tok_location : SourceLocation;
  tok_length : Z;
  tok_kind : TokenKind
}.

Record Position := mkPosition { line : Z; character : Z }.
Record Range := mkRange { range_start : Position; range_end : Position }.
Record Location := mkLocation { uri : string; range : Range }.

(** [Range{}]: both ends at line 0, character 0. *)
Definition Range_empty : Range := mkRange (mkPosition 0 0) (mkPosition 0 0).

(** [SymbolLocation]: a location of the index. [operator bool] holds when
    the file URI is not empty. *)
Record SymbolLocation := mkSymbolLocation {
  FileURI : string;
  Start : Position;
  End_ : Position
}.

Definition SymbolLocation_empty : SymbolLocation :=
  mkSymbolLocation "" (mkPosition 0 0) (mkPosition 0 0).

Definition SymbolLocation_bool (Loc : SymbolLocation) : bool :=
  negb (bool_decide (FileURI Loc = "")).

(** [SymbolLocation::Position] packs the line in 20 bits and the column in
    12 bits; the setters saturate. *)
Definition MaxLine : Z := 2 ^ 20 - 1.
Definition MaxColumn : Z := 2 ^ 12 - 1.
Definition setLine (L : Z) : Z := if MaxLine <? L then MaxLine else L.
Definition setColumn (C : Z) : Z := if MaxColumn <? C then MaxColumn else C.

Inductive SymbolKind :=
| SK_Unknown | SK_Namespace | SK_Class | SK_Function | SK_Variable
| SK_Constructor | SK_TypeAlias | SK_Macro
| SK_InstanceMethod | SK_ClassMethod | SK_StaticMethod | SK_Destructor
| SK_ConversionFunction.

#[global] Instance SymbolKind_eq_dec : EqDecision SymbolKind.
Proof. solve_decision. Defined.

(** [Symbol]: a record of the index. *)
Record Symbol := mkSymbol {
  sym_ID : SymbolID;
  sym_Kind : SymbolKind;
  sym_Name : string;
  sym_Scope : string;
  sym_TemplateSpecializationArgs : string;
  sym_CanonicalDeclaration : SymbolLocation;
  sym_Definition : SymbolLocation
}.

(** A default-constructed [Symbol]. *)
Definition Symbol_default : Symbol :=
  mkSymbol 0 SK_Unknown "" "" "" SymbolLocation_empty SymbolLocation_empty.

(** [LocatedSymbol]: the unit of the answers. [ID] may be the null id. *)
Record LocatedSymbol := mkLocatedSymbol {
  Name : string;
  PreferredDeclaration : Location;
  Definition_ : option Location;
  ID : SymbolID
}.

(** A default-constructed [LocatedSymbol]. *)
Definition LocatedSymbol_default : LocatedSymbol :=
  mkLocatedSymbol "" (mkLocation "" Range_empty) None 0.

Definition set_Name (v : string) (R : LocatedSymbol) : LocatedSymbol :=
  mkLocatedSymbol v (PreferredDeclaration R) (Definition_ R) (ID R).
Definition set_PreferredDeclaration (v : Location) (R : LocatedSymbol)
  : LocatedSymbol :=
  mkLocatedSymbol (Name R) v (Definition_ R) (ID R).
Definition set_Definition (v : option Location) (R : LocatedSymbol)
  : LocatedSymbol :=
  mkLocatedSymbol (Name R) (PreferredDeclaration R) v (ID R).
Definition set_ID (v : SymbolID) (R : LocatedSymbol) : LocatedSymbol :=
  mkLocatedSymbol (Name R) (PreferredDeclaration R) (Definition_ R) v.

(** ** The symbol index

    Every query hands its answers to a callback, one call per answer; the
    model gives the queries as functions to the list of answers, in the
    order of the calls. *)

Inductive RelationKind := BaseOf | OverriddenBy.

Record FuzzyFindRequest := mkFuzzyFindRequest {
  Query : string;
  Scopes : list string;
  AnyScope : bool;
  Limit : Z;
  ProximityPaths : list string
}.

Record SymbolIndex := mkSymbolIndex {
  fuzzyFind : FuzzyFindRequest → list Symbol;
  lookup : gset SymbolID → list Symbol;
  relations : RelationKind → gset SymbolID → list (SymbolID * Symbol)
}.

(** ** Library routines the file calls

    [indexToLSPLocation] (an [Expected]: [None] is the error),
    [mergeSymbol] of the index merge, the file-name and URI helpers and the
    quality/relevance score of a symbol. The score is a [float] in the
    code; only its order is used, and the model reads it as an integer
    rank. *)
Record Support := mkSupport {
  indexToLSPLocation : SymbolLocation → string → option Location;
  mergeSymbol : Symbol → Symbol → Symbol;
  mock_symbol_id : SymbolID;
  path_filename : string → string;
  URIForFile_canonicalize : string → string → string;
  evaluateSymbolAndRelevance : Symbol → Z
}.

(** ** The parsed file: source manager, token buffer, declarations *)

Definition FileEntry := string.

Record SourceManager := mkSourceManager {
  bufferData : string;
  isInsideMainFile : SourceLocation → bool;
  getFileLoc : SourceLocation → SourceLocation;
  getSpellingLoc : SourceLocation → SourceLocation;
  isBeforeInTranslationUnit : SourceLocation → SourceLocation → bool;
  getFileEntryRefForID : SourceLocation → option FileEntry;
  getCanonicalPath : FileEntry → option string;
  MeasureTokenLength : SourceLocation → Z;
  halfOpenToRange : SourceLocation → SourceLocation → Range;
  sourceLocationInMainFile : Position → option SourceLocation;
  sourceLocToPosition : SourceLocation → Position;
  getLocForEndOfToken : SourceLocation → SourceLocation;
  toHalfOpenFileRange :
    SourceLocation → SourceLocation → option (SourceLocation * SourceLocation)
}.

(** [SourceManager::isPointWithin]. *)
Definition isPointWithin (SM : SourceManager)
    (Loc Start End : SourceLocation) : bool :=
  (Loc =? Start) || (Loc =? End)
  || (isBeforeInTranslationUnit SM Start Loc
      && isBeforeInTranslationUnit SM Loc End).

(** [SpelledWord]: the word under the cursor, as the lexer-free scan of
    the buffer finds it. *)
Record SpelledWord := mkSpelledWord {
  word_Location : SourceLocation;
  word_Text : string;
  LikelyIdentifier : bool;
  PartOfSpelledToken : option Token;
  ExpandedToken : option Token
}.

Record TokenBuffer := mkTokenBuffer {
  spelledTokens : list Token;
  spelledTokensTouching : SourceLocation → list Token;
  spelledTokenContaining : SourceLocation → option Token;
  (** [expandedTokens(SM.getMacroArgExpandedLocation(Loc))] *)
  expandedTokens : SourceLocation → list Token;
  (** whether [expansionStartingAt(&Tok)] has a value *)
  expansionStartingAt : Token → bool;
  SpelledWord_touching : SourceLocation → option SpelledWord
}.

(** The class of a declaration, as far as the casts of this file tell
    classes apart. *)
Inductive DeclKind :=
| Namespace | Typedef | UsingDecl | FunctionTemplate
| Enum | CXXRecord | ClassTemplateSpecialization
| Var | ParmVar
| Function | CXXMethod
| Field | EnumConstant | NonTypeTemplateParm
| ClassTemplate
| TemplateTypeParm | TemplateTemplateParm
| ObjCMethod
| ObjCInterface | ObjCProtocol | ObjCCategory
| ObjCImplementation | ObjCCategoryImpl.

#[global] Instance DeclKind_eq_dec : EqDecision DeclKind.
Proof. solve_decision. Defined.

Definition isa_TagDecl (K : DeclKind) : bool :=
  match K with
  | Enum | CXXRecord | ClassTemplateSpecialization => true
  | _ => false
  end.
Definition isa_CXXRecordDecl (K : DeclKind) : bool :=
  match K with CXXRecord | ClassTemplateSpecialization => true | _ => false end.
Definition isa_VarDecl (K : DeclKind) : bool :=
  match K with Var | ParmVar => true | _ => false end.
Definition isa_FunctionDecl (K : DeclKind) : bool :=
  match K with Function | CXXMethod => true | _ => false end.
Definition isa_ValueDecl (K : DeclKind) : bool :=
  match K with
  | Var | ParmVar | Function | CXXMethod
  | Field | EnumConstant | NonTypeTemplateParm => true
  | _ => false
  end.
Definition isa_ObjCContainerDecl (K : DeclKind) : bool :=
  match K with
  | ObjCInterface | ObjCProtocol | ObjCCategory
  | ObjCImplementation | ObjCCategoryImpl => true
  | _ => false
  end.
Definition isa (K K' : DeclKind) : bool := bool_decide (K = K').

(** A base specifier, through the two views [typeParents] takes of its
    type: [RT->getAsCXXRecordDecl()] when the type is a record type, and
    the templated class of the template a template specialization type
    names. *)
Record CXXBaseSpecifier := mkCXXBaseSpecifier {
  RecordType_getAsCXXRecordDecl : option Decl;
  TemplateSpecializationType_templatedDecl : option Decl
}.

(** What the file asks of declarations. [decl_getDefinition] is the
    class's own [getDefinition()] (of [TagDecl], [VarDecl],
    [FunctionDecl], [ObjCInterfaceDecl], [ObjCProtocolDecl]);
    [Impl_getMethod Impl MD] is
    [Impl->getMethod(MD->getSelector(), MD->isInstanceMethod())]. *)
Record ASTContext := mkASTContext {
  getKind : Decl → DeclKind;
  getCanonicalDecl : Decl → Decl;
  decl_getDefinition : Decl → option Decl;
  getTemplatedDecl : Decl → option Decl;
  isThisDeclarationADefinition : Decl → bool;
  getDeclContext : Decl → Decl;
  isInvalidDecl : Decl → bool;
  getCorrespondingObjCImpl : Decl → option Decl;
  Impl_getMethod : Decl → Decl → option Decl;
  getLocation : Decl → SourceLocation;
  getBeginLoc : Decl → SourceLocation;
  getEndLoc : Decl → SourceLocation;
  isPureVirtual : Decl → bool;
  isVirtual : Decl → bool;
  overridden_methods : Decl → list Decl;
  getSelectorLocs : Decl → list SourceLocation;
  getOverriddenMethods : Decl → list Decl;
  getSpecializedTemplate : Decl → Decl;
  getClassInterface : Decl → option Decl;
  getName : Decl → string;
  nameLocation : Decl → SourceLocation;
  printName : Decl → string;
  getSymbolID : Decl → SymbolID;
  isDeprecated : Decl → bool;
  getDescribedTemplate : Decl → bool;
  hasDefinition : Decl → bool;
  bases : Decl → list CXXBaseSpecifier
}.

(** ** getDefinition *)

(** The Objective-C method step: [Some r] is [return r], [None] falls
    through to the checks below it. *)
Definition getDefinition_ObjCMethod (Ctx : ASTContext) (MD : Decl)
  : option (option Decl) :=
  if isThisDeclarationADefinition Ctx MD then Some (Some MD)
  else
    let DeclCtx := getDeclContext Ctx MD in
    if isInvalidDecl Ctx DeclCtx then Some None
    else if isa_ObjCContainerDecl (getKind Ctx DeclCtx) then
      match getCorrespondingObjCImpl Ctx DeclCtx with
      | Some Impl => Some (Impl_getMethod Ctx Impl MD)
      | None => None
      end
    else None.

Definition getDefinition (Ctx : ASTContext) (D : Decl) : option Decl :=
  let K := getKind Ctx D in
  if isa_TagDecl K then decl_getDefinition Ctx D
  else if isa_VarDecl K then decl_getDefinition Ctx D
  else if isa_FunctionDecl K then decl_getDefinition Ctx D
  else
    match (if isa K ClassTemplate then getTemplatedDecl Ctx D else None) with
    | Some RD => decl_getDefinition Ctx RD
    | None =>
        match (if isa K ObjCMethod then getDefinition_ObjCMethod Ctx D
               else None) with
        | Some r => r
        | None =>
            if isa_ObjCContainerDecl K then getCorrespondingObjCImpl Ctx D
            else if isa_ValueDecl K || isa K TemplateTypeParm
                    || isa K TemplateTemplateParm
            then Some D
            else None
        end
    end.

(** ** Location conversions *)

Definition toLSPLocation (S : Support) (Loc : SymbolLocation)
    (TUPath : string) : option Location :=
  if negb (SymbolLocation_bool Loc) then None
  else indexToLSPLocation S Loc TUPath.

Definition toIndexLocation (Loc : Location) : SymbolLocation :=
  mkSymbolLocation (uri Loc)
    (mkPosition (setLine (line (range_start (range Loc))))
                (setColumn (character (range_start (range Loc)))))
    (mkPosition (setLine (line (range_end (range Loc))))
                (setColumn (character (range_end (range Loc))))).

Definition mock_symbol (S : Support) (Loc : SymbolLocation) : Symbol :=
  mkSymbol (mock_symbol_id S) SK_Unknown "" "" "" Loc SymbolLocation_empty.

Definition getPreferredLocation (S : Support) (ASTLoc : Location)
    (IdxLoc : SymbolLocation) : SymbolLocation :=
  let ASTSym := mock_symbol S (toIndexLocation ASTLoc) in
  let IdxSym := mock_symbol S IdxLoc in
  sym_CanonicalDeclaration (mergeSymbol S ASTSym IdxSym).

Definition makeLocation (S : Support) (SM : SourceManager)
    (Loc : SourceLocation) (TUPath : string) : option Location :=
  match getFileEntryRefForID SM Loc with
  | None => None
  | Some F =>
      match getCanonicalPath SM F with
      | None => None
      | Some FilePath =>
          let TokLen := MeasureTokenLength SM Loc in
          Some (mkLocation (URIForFile_canonicalize S FilePath TUPath)
                           (halfOpenToRange SM Loc (Loc + TokLen)))
      end
  end.

(** ** getPreferredDecl *)

Definition getPreferredDecl (Ctx : ASTContext) (D : Decl) : Decl :=
  let D := getCanonicalDecl Ctx D in
  match (if isa (getKind Ctx D) ObjCInterface then decl_getDefinition Ctx D
         else None) with
  | Some DefinitionID => DefinitionID
  | None =>
      match (if isa (getKind Ctx D) ObjCProtocol
             then decl_getDefinition Ctx D else None) with
      | Some DefinitionID => DefinitionID
      | None => D
      end
  end.

(** ** The parsed file as a whole *)

Inductive ASTNodeKind :=
| NK_None
| NK_OverrideAttr
| NK_FinalAttr
| NK_OverloadExpr
| NK_CXXDependentScopeMemberExpr
| NK_DependentScopeDeclRefExpr
| NK_Other.

#[global] Instance ASTNodeKind_eq_dec : EqDecision ASTNodeKind.
Proof. solve_decision. Defined.

Definition isSame (K K' : ASTNodeKind) : bool := bool_decide (K = K').

(** [DeclRelationSet]: a bit set over [DeclRelation]. *)
Definition DeclRelationSet := Z.
Definition DeclRelation_Alias : DeclRelationSet := 1.
Definition DeclRelation_Underlying : DeclRelationSet := 2.
Definition DeclRelation_TemplateInstantiation : DeclRelationSet := 4.
Definition DeclRelation_TemplatePattern : DeclRelationSet := 8.

(** A node of a selection tree: its kind, whether it is an attribute, the
    answer of [allTargetDecls] on it, and its parent. *)
#[warnings="-register-all"] Inductive SelectionNode :=
| mkSelectionNode (kind : ASTNodeKind) (isAttr : bool)
    (targets : list (Decl * DeclRelationSet)) (Parent : option SelectionNode).

Definition node_kind (N : SelectionNode) : ASTNodeKind :=
  match N with mkSelectionNode k _ _ _ => k end.
Definition node_isAttr (N : SelectionNode) : bool :=
  match N with mkSelectionNode _ a _ _ => a end.
Definition allTargetDecls (N : SelectionNode) : list (Decl * DeclRelationSet) :=
  match N with mkSelectionNode _ _ t _ => t end.
Definition node_Parent (N : SelectionNode) : option SelectionNode :=
  match N with mkSelectionNode _ _ _ p => p end.

Record Inclusion := mkInclusion {
  Written : string;
  Resolved : string;
  HashOffset : Z;
  HashLine : Z
}.

(** [DefinedMacro], with the symbol id [getSymbolID] computes of it. *)
Record DefinedMacro := mkDefinedMacro {
  macro_Name : string;
  macro_NameLoc : SourceLocation;
  macro_ID : SymbolID
}.

Definition QualType := nat.

(** An occurrence the indexing action reports to a consumer:
    [handleDeclOccurrence]'s arguments. [OrigE_selectorLocs] is set when
    [ASTNode.OrigE] is an [ObjCMessageExpr], [OrigD_selectorLocs] when
    [ASTNode.OrigD] is an [ObjCMethodDecl]; [RefContainer] is
    [SymbolCollector::getRefContainer(ASTNode.Parent, ...)]. *)
Record DeclOccurrence := mkDeclOccurrence {
  occ_D : Decl;
  occ_Roles : SymbolRoleSet;
  occ_Loc : SourceLocation;
  OrigE_selectorLocs : option (list SourceLocation);
  OrigD_selectorLocs : option (list SourceLocation);
  RefContainer : option Decl
}.

(** The parsed main file. [createEach Offset] lists the common ancestor of
    each selection tree [SelectionTree::createEach] builds at a point, in
    the order it builds them; [typeTargetDecl] is [targetDecl] on the
    non-reference type with the template-pattern and alias relations;
    [unwrapFindType_typeForNode N] is [unwrapFindType(typeForNode(N))];
    [indexTopLevelDecls] lists the occurrences the indexing action reports
    over the local top-level declarations. *)
Record ParsedAST := mkParsedAST {
  getSourceManager : SourceManager;
  getTokens : TokenBuffer;
  getASTContext : ASTContext;
  MainFileIncludes : list Inclusion;
  tuPath : string;
  locateMacroAt : Token → option DefinedMacro;
  getDecomposedSpellingLoc : SourceLocation → Z;
  createEach : Z → list (option SelectionNode);
  getDeducedType : SourceLocation → option QualType;
  typeTargetDecl : QualType → list Decl;
  visibleNamespaces : string → list string;
  positionToOffset : Position → option Z;
  unwrapFindType_typeForNode : option SelectionNode → list QualType;
  indexTopLevelDecls : list DeclOccurrence
}.

(** [Tok.text(SM)]: the characters of the token in the buffer. *)
Definition Token_text (SM : SourceManager) (Tok : Token) : string :=
  String.substring (Z.to_nat (tok_location Tok)) (Z.to_nat (tok_length Tok))
    (bufferData SM).

(** ** getDeclAtPositionWithRelations *)

(** The callback run over the trees of [createEach] until it answers
    true; the node kind is written for every tree that has a common
    ancestor. *)
Fixpoint ResultFromTree (Relations : DeclRelationSet)
    (Trees : list (option SelectionNode)) (NodeKind : ASTNodeKind)
  : list (Decl * DeclRelationSet) * ASTNodeKind :=
  match Trees with
  | [] => ([], NodeKind)
  | None :: Trees' => ResultFromTree Relations Trees' NodeKind
  | Some N :: Trees' =>
      let NodeKind := node_kind N in
      let N :=
        match node_isAttr N, node_Parent N with
        | true, Some P => P
        | _, _ => N
        end in
      let Result :=
        filter (λ Entry, Z.land Entry.2 (Z.lnot Relations) = 0)
          (allTargetDecls N) in
      match Result with
      | [] => ResultFromTree Relations Trees' NodeKind
      | _ => (Result, NodeKind)
      end
  end.

Definition getDeclAtPositionWithRelations (AST : ParsedAST)
    (Pos : SourceLocation) (Relations : DeclRelationSet)
    (NodeKind : ASTNodeKind)
  : list (Decl * DeclRelationSet) * ASTNodeKind :=
  let Offset := getDecomposedSpellingLoc AST Pos in
  ResultFromTree Relations (createEach AST Offset) NodeKind.

Definition getDeclAtPosition (AST : ParsedAST) (Pos : SourceLocation)
    (Relations : DeclRelationSet) : list Decl :=
  (getDeclAtPositionWithRelations AST Pos Relations NK_None).1.*1.

(** ** locateFileReferent and locateMacroReferent *)

Fixpoint locateFileReferent_loop (S : Support) (Pos : Position)
    (Includes : list Inclusion) (MainFilePath : string)
  : option LocatedSymbol :=
  match Includes with
  | [] => None
  | Inc :: Includes' =>
      if negb (bool_decide (Resolved Inc = "")) && (HashLine Inc =? line Pos)
      then
        let PreferredDeclaration :=
          mkLocation (URIForFile_canonicalize S (Resolved Inc) MainFilePath)
                     Range_empty in
        Some (mkLocatedSymbol (path_filename S (Resolved Inc))
                PreferredDeclaration (Some PreferredDeclaration) 0)
      else locateFileReferent_loop S Pos Includes' MainFilePath
  end.

Definition locateFileReferent (S : Support) (Pos : Position)
    (AST : ParsedAST) (MainFilePath : string) : option LocatedSymbol :=
  locateFileReferent_loop S Pos (MainFileIncludes AST) MainFilePath.

Definition locateMacroReferent (S : Support) (TouchedIdentifier : Token)
    (AST : ParsedAST) (MainFilePath : string) : option LocatedSymbol :=
  match locateMacroAt AST TouchedIdentifier with
  | Some M =>
      match makeLocation S (getSourceManager AST) (macro_NameLoc M)
              MainFilePath with
      | Some Loc => Some (mkLocatedSymbol (macro_Name M) Loc (Some Loc)
                            (macro_ID M))
      | None => None
      end
  | None => None
  end.

(** ** findImplementors *)

(** The callback of [Index->relations], run on one answer. *)
Definition findImplementors_callback (S : Support) (MainFilePath : string)
    (Results : list LocatedSymbol) (Answer : SymbolID * Symbol)
  : list LocatedSymbol :=
  let Object := Answer.2 in
  match indexToLSPLocation S (sym_CanonicalDeclaration Object)
          MainFilePath with
  | None => Results
  | Some DeclLoc =>
      let Back :=
        set_PreferredDeclaration DeclLoc
          (set_Name (sym_Name Object) LocatedSymbol_default) in
      match indexToLSPLocation S (sym_Definition Object) MainFilePath with
      | None => Results ++ [Back]
      | Some DefLoc => Results ++ [set_Definition (Some DefLoc) Back]
      end
  end.

Definition findImplementors (S : Support) (IDs : gset SymbolID)
    (Predicate : RelationKind) (Index : option SymbolIndex)
    (MainFilePath : string) : list LocatedSymbol :=
  match Index with
  | None => []
  | Some Index =>
      if bool_decide (IDs = ∅) then []
      else foldl (findImplementors_callback S MainFilePath) []
             (relations Index Predicate IDs)
  end.

(** ** enhanceLocatedSymbolsFromIndex *)

(** The first loop: [ResultIndex.try_emplace(ID, I)] keeps the first
    position of an id, [QueryRequest.IDs.insert(ID)] collects the ids. *)
Fixpoint enhance_collect (Result : list LocatedSymbol) (I : nat)
    (ResultIndex : gmap SymbolID nat) (IDs : gset SymbolID)
  : gmap SymbolID nat * gset SymbolID :=
  match Result with
  | [] => (ResultIndex, IDs)
  | R :: Result' =>
      if SymbolID_isNull (ID R)
      then enhance_collect Result' (S I) ResultIndex IDs
      else
        let ResultIndex :=
          match ResultIndex !! ID R with
          | Some _ => ResultIndex
          | None => <[ID R := I]> ResultIndex
          end in
        enhance_collect Result' (S I) ResultIndex ({[ID R]} ∪ IDs)
  end.

(** The body of the lookup callback, on the entry [R] it selected. *)
Definition enhance_entry (S : Support) (MainFilePath : string)
    (Sym : Symbol) (R : LocatedSymbol) : LocatedSymbol :=
  match Definition_ R with
  | Some Def =>
      let R :=
        match toLSPLocation S (sym_CanonicalDeclaration Sym) MainFilePath with
        | Some Loc => set_PreferredDeclaration Loc R
        | None => R
        end in
      match toLSPLocation S
              (getPreferredLocation S Def (sym_Definition Sym))
              MainFilePath with
      | Some Loc => set_Definition (Some Loc) R
      | None => R
      end
  | None =>
      let R :=
        set_Definition (toLSPLocation S (sym_Definition Sym) MainFilePath) R in
      match toLSPLocation S
              (getPreferredLocation S (PreferredDeclaration R)
                 (sym_CanonicalDeclaration Sym))
              MainFilePath with
      | Some Loc => set_PreferredDeclaration Loc R
      | None => R
      end
  end.

(** The lookup callback: [Result[ResultIndex.lookup(Sym.ID)]] is updated in
    place; [DenseMap::lookup] answers [0] for an absent key. *)
Definition enhance_callback (S : Support) (MainFilePath : string)
    (ResultIndex : gmap SymbolID nat)
    (Result : list LocatedSymbol) (Sym : Symbol) : list LocatedSymbol :=
  let I := default 0%nat (ResultIndex !! sym_ID Sym) in
  match Result !! I with
  | Some R => <[I := enhance_entry S MainFilePath Sym R]> Result
  | None => Result
  end.

Definition enhanceLocatedSymbolsFromIndex (S : Support)
    (Result : list LocatedSymbol) (Index : option SymbolIndex)
    (MainFilePath : string) : list LocatedSymbol :=
  let '(ResultIndex, IDs) := enhance_collect Result 0 ∅ ∅ in
  match Index with
  | None => Result
  | Some Index =>
      if bool_decide (IDs = ∅) then Result
      else foldl (enhance_callback S MainFilePath ResultIndex) Result
             (lookup Index IDs)
  end.

(** ** locateASTReferent *)

Definition objcMethodIsTouched (SM : SourceManager) (Ctx : ASTContext)
    (OMD : Decl) (Loc : SourceLocation) : bool :=
  existsb (λ SelLoc, getSpellingLoc SM SelLoc =? Loc)
    (getSelectorLocs Ctx OMD).

(** The lambda [AddResultDecl]: appends the located symbol of [D], or
    nothing when the name location has no file. *)
Definition AddResultDecl (S : Support) (AST : ParsedAST)
    (MainFilePath : string) (Result : list LocatedSymbol) (D : Decl)
  : list LocatedSymbol :=
  let Ctx := getASTContext AST in
  let SM := getSourceManager AST in
  let D := getPreferredDecl Ctx D in
  match makeLocation S SM (nameLocation Ctx D) MainFilePath with
  | None => Result
  | Some Loc =>
      let Def :=
        match getDefinition Ctx D with
        | Some Def => makeLocation S SM (nameLocation Ctx Def) MainFilePath
        | None => None
        end in
      Result ++ [mkLocatedSymbol (printName Ctx D) Loc Def (getSymbolID Ctx D)]
  end.

(** The state of the candidate loop: the results and the pure-virtual
    methods whose overrides are asked of the index. *)
Definition locateASTReferent_state : Type :=
  list LocatedSymbol * gset SymbolID.

(** One turn of the loop over the candidates. *)
Definition locateASTReferent_candidate (S : Support) (AST : ParsedAST)
    (MainFilePath : string) (CurLoc : SourceLocation)
    (TouchedIdentifier : option Token) (NodeKind : ASTNodeKind)
    (NumCandidates : nat)
    (st : locateASTReferent_state) (E : Decl * DeclRelationSet)
  : locateASTReferent_state :=
  let Ctx := getASTContext AST in
  let SM := getSourceManager AST in
  let Add := AddResultDecl S AST MainFilePath in
  let D := E.1 in
  let K := getKind Ctx D in
  let '(Result, VirtualMethods) := st in
  (* virtual void ^method() = 0: jump to all overrides *)
  let VirtualMethods :=
    if isa K CXXMethod && isPureVirtual Ctx D then
      match TouchedIdentifier with
      | Some Tok =>
          if getSpellingLoc SM (getLocation Ctx D) =? tok_location Tok
          then {[getSymbolID Ctx D]} ∪ VirtualMethods
          else VirtualMethods
      | None => VirtualMethods
      end
    else VirtualMethods in
  (* void foo() ^override: jump to the overridden methods *)
  if isa K CXXMethod
     && (isSame NodeKind NK_OverrideAttr || isSame NodeKind NK_FinalAttr)
  then (foldl Add Result (overridden_methods Ctx D), VirtualMethods)
  else
  (* - (void)^method {}: the overrides, then the method *)
  if isa K ObjCMethod && isThisDeclarationADefinition Ctx D
     && match TouchedIdentifier with
        | Some Tok => objcMethodIsTouched SM Ctx D (tok_location Tok)
        | None => false
        end
  then (Add (foldl Add Result (getOverriddenMethods Ctx D)) D, VirtualMethods)
  else
  (* the cursor is on an alias: prefer the other results *)
  if negb (Z.land E.2 DeclRelation_Alias =? 0)
     && bool_decide (1 < NumCandidates)%nat
     && isPointWithin SM
          (match TouchedIdentifier with
           | Some Tok => tok_location Tok
           | None => CurLoc
           end)
          (getBeginLoc Ctx D) (getEndLoc Ctx D)
  then (Result, VirtualMethods)
  else
  (* the point of declaration of a template specialization *)
  if isa K ClassTemplateSpecialization
     && match TouchedIdentifier with
        | Some Tok => getLocation Ctx D =? tok_location Tok
        | None => false
        end
  then (Add Result (getSpecializedTemplate Ctx D), VirtualMethods)
  else
  (* a category whose class name is selected: also its interface *)
  let Result :=
    match (if isa K ObjCCategory then getClassInterface Ctx D else None),
          TouchedIdentifier with
    | Some ID, Some Tok =>
        if (getLocation Ctx D =? tok_location Tok)
           || bool_decide (getName Ctx ID = Token_text SM Tok)
        then Add Result ID
        else Result
    | _, _ => Result
    end in
  (Add Result D, VirtualMethods).

Definition locateASTReferent (S : Support) (CurLoc : SourceLocation)
    (TouchedIdentifier : option Token) (AST : ParsedAST)
    (MainFilePath : string) (Index : option SymbolIndex)
    (NodeKind : ASTNodeKind) : list LocatedSymbol * ASTNodeKind :=
  let Relations :=
    Z.lor DeclRelation_TemplatePattern DeclRelation_Alias in
  let '(Candidates, NodeKind) :=
    getDeclAtPositionWithRelations AST CurLoc Relations NodeKind in
  let '(Result, VirtualMethods) :=
    foldl (locateASTReferent_candidate S AST MainFilePath CurLoc
             TouchedIdentifier NodeKind (length Candidates))
      ([], ∅) Candidates in
  let Result := enhanceLocatedSymbolsFromIndex S Result Index MainFilePath in
  let Overrides :=
    findImplementors S VirtualMethods OverriddenBy Index MainFilePath in
  (Result ++ Overrides, NodeKind).

(** ** locateSymbolForType *)

Definition locateSymbolForType (S : Support) (AST : ParsedAST)
    (Type_ : QualType) (Index : option SymbolIndex) : list LocatedSymbol :=
  let MainFilePath := tuPath AST in
  let Decls := typeTargetDecl AST Type_ in
  match Decls with
  | [] => []
  | _ =>
      let Results := foldl (AddResultDecl S AST MainFilePath) [] Decls in
      enhanceLocatedSymbolsFromIndex S Results Index MainFilePath
  end.

(** ** Lines of the main file

    Line numbers are one-based, in [getSpellingLineNumber] as in
    [translateLineCol]; a location of the main file is its offset. *)

Definition is_newline (c : Ascii.ascii) : bool := Ascii.eqb c (Ascii.ascii_of_nat 10).

(** The number of line breaks among the first [n] characters. *)
Fixpoint count_newlines (s : string) (n : nat) : Z :=
  match n, s with
  | S n', String c s' =>
      (if is_newline c then 1 else 0) + count_newlines s' n'
  | _, _ => 0
  end.

Definition getSpellingLineNumber (SM : SourceManager)
    (Loc : SourceLocation) : Z :=
  1 + count_newlines (bufferData SM) (Z.to_nat Loc).

(** The offset at which the line that is [k] line breaks further starts. *)
Fixpoint line_start (s : string) (k : nat) (off : Z) : option Z :=
  match k with
  | O => Some off
  | S k' =>
      match s with
      | EmptyString => None
      | String c s' =>
          if is_newline c then line_start s' k' (off + 1)
          else line_start s' k (off + 1)
      end
  end.

(** [translateLineCol(File, Line, 1)]: the start of the line, or the last
    character of the buffer when the file has fewer lines. *)
Definition translateLineCol (SM : SourceManager) (Line : Z) : SourceLocation :=
  match line_start (bufferData SM) (Z.to_nat (Line - 1)) 0 with
  | Some off => off
  | None => Z.max 0 (Z.of_nat (String.length (bufferData SM)) - 1)
  end.

(** ** Helpers of the fallbacks *)

Definition tokenSpelledAt (SpellingLoc : SourceLocation) (TB : TokenBuffer)
  : bool :=
  match expandedTokens TB SpellingLoc with [] => false | _ => true end.

Definition sourcePrefix (Loc : SourceLocation) (SM : SourceManager) : string :=
  if Z.of_nat (String.length (bufferData SM)) <? Loc then ""
  else String.substring 0 (Z.to_nat Loc) (bufferData SM).

Definition isDependentName (NodeKind : ASTNodeKind) : bool :=
  isSame NodeKind NK_OverloadExpr
  || isSame NodeKind NK_CXXDependentScopeMemberExpr
  || isSame NodeKind NK_DependentScopeDeclRefExpr.

(** ** locateSymbolTextually *)

Definition ScoredLocatedSymbol : Type := Z * LocatedSymbol.

(** The first part of the callback of [Index->fuzzyFind]: the located
    symbol of an answer, or [None] where the callback returns early. *)
Definition locateSymbolTextually_located (S : Support) (Word : SpelledWord)
    (MainFilePath : string) (Sym : Symbol) : option LocatedSymbol :=
  if negb (bool_decide (sym_Name Sym = word_Text Word)) then None
  else if bool_decide (sym_Kind Sym = SK_Constructor) then None
  else
    match indexToLSPLocation S (sym_CanonicalDeclaration Sym)
            MainFilePath with
    | None => None
    | Some DeclLoc =>
        let Located :=
          mkLocatedSymbol
            (sym_Name Sym +:+ sym_TemplateSpecializationArgs Sym)
            DeclLoc None (sym_ID Sym) in
        if SymbolLocation_bool (sym_Definition Sym) then
          match indexToLSPLocation S (sym_Definition Sym) MainFilePath with
          | None => None
          | Some DefLoc =>
              Some (set_Definition (Some DefLoc)
                      (set_PreferredDeclaration DefLoc Located))
          end
        else Some Located
    end.

(** The callback; the state is [TooMany] and [ScoredResults]. *)
Definition locateSymbolTextually_callback (S : Support) (Word : SpelledWord)
    (MainFilePath : string)
    (st : bool * list ScoredLocatedSymbol) (Sym : Symbol)
  : bool * list ScoredLocatedSymbol :=
  let '(TooMany, ScoredResults) := st in
  match locateSymbolTextually_located S Word MainFilePath Sym with
  | None => st
  | Some Located =>
      if bool_decide (5 ≤ length ScoredResults)%nat
      then (true, ScoredResults)
      else (TooMany,
            ScoredResults ++ [(evaluateSymbolAndRelevance S Sym, Located)])
  end.

(** [llvm::sort] with the comparator [A.first > B.first] leaves no later
    element with a greater score than an earlier one. It is not stable:
    the code leaves the order of candidates of equal score open, and the
    merge sort below settles on one such order. *)
Definition score_not_after (A B : ScoredLocatedSymbol) : Prop := B.1 ≤ A.1.

#[global] Instance score_not_after_dec A B : Decision (score_not_after A B).
Proof. unfold score_not_after. apply _. Defined.

Definition locateSymbolTextually (S : Support) (Word : SpelledWord)
    (AST : ParsedAST) (Index : option SymbolIndex) (MainFilePath : string)
    (NodeKind : ASTNodeKind) : list LocatedSymbol :=
  match Index with
  | None => []
  | Some Index =>
      if (bool_decide (is_Some (ExpandedToken Word))
          && negb (isDependentName NodeKind))
         || negb (LikelyIdentifier Word)
      then []
      else if match PartOfSpelledToken Word with
              | Some Tok => isStringLiteral (tok_kind Tok)
              | None => false
              end
      then []
      else
        let SM := getSourceManager AST in
        let Req :=
          mkFuzzyFindRequest (word_Text Word)
            (visibleNamespaces AST (sourcePrefix (word_Location Word) SM))
            true 10 [MainFilePath] in
        let '(TooMany, ScoredResults) :=
          foldl (locateSymbolTextually_callback S Word MainFilePath)
            (false, []) (fuzzyFind Index Req) in
        if TooMany then []
        else (merge_sort score_not_after ScoredResults).*2
  end.

(** ** findNearbyIdentifier *)

(** Arithmetic on [unsigned]. *)
Definition u32 (x : Z) : Z := x mod 2 ^ 32.

Definition Cost (SM : SourceManager) (WordLine : Z) (Loc : SourceLocation)
  : Z :=
  let Line := getSpellingLineNumber SM Loc in
  if WordLine <=? Line then u32 (Line - WordLine)
  else u32 (2 * u32 (WordLine - Line)).

(** The lambda [Consider]: the flag tells the caller's loop to stop; the
    state is [BestTok] and [BestCost]. *)
Definition Consider (SM : SourceManager) (TB : TokenBuffer)
    (Word : SpelledWord) (WordLine : Z) (LocMin LocMax : SourceLocation)
    (st : option Token * Z) (Tok : Token) : bool * (option Token * Z) :=
  let '(BestTok, BestCost) := st in
  if (tok_location Tok <? LocMin) || (LocMax <? tok_location Tok)
  then (true, st)
  else if negb (bool_decide (tok_kind Tok = tok_identifier)
                && bool_decide (Token_text SM Tok = word_Text Word))
  then (false, st)
  else if tok_location Tok =? word_Location Word then (false, st)
  else
    let TokCost := Cost SM WordLine (tok_location Tok) in
    if BestCost <=? TokCost then (true, st)
    else if negb (tokenSpelledAt (tok_location Tok) TB
                  || expansionStartingAt TB Tok)
    then (false, st)
    else (false, (Some Tok, TokCost)).

(** A loop [for (Tok : Toks) if (Consider(Tok)) break;]. *)
Fixpoint Consider_loop (SM : SourceManager) (TB : TokenBuffer)
    (Word : SpelledWord) (WordLine : Z) (LocMin LocMax : SourceLocation)
    (Toks : list Token) (st : option Token * Z) : option Token * Z :=
  match Toks with
  | [] => st
  | Tok :: Toks' =>
      let '(Stop, st) := Consider SM TB Word WordLine LocMin LocMax st Tok in
      if Stop then st
      else Consider_loop SM TB Word WordLine LocMin LocMax Toks' st
  end.

(** [llvm::partition_point] on the spelled tokens, which are in the order
    of their locations: the tokens before the word, and the rest. *)
Fixpoint partition_point (WordLoc : SourceLocation) (Toks : list Token)
  : list Token * list Token :=
  match Toks with
  | [] => ([], [])
  | T :: Toks' =>
      if tok_location T <? WordLoc then
        let '(Before, After) := partition_point WordLoc Toks' in
        (T :: Before, After)
      else ([], Toks)
  end.

Definition findNearbyIdentifier (SM : SourceManager) (Word : SpelledWord)
    (TB : TokenBuffer) : option Token :=
  if bool_decide (is_Some (ExpandedToken Word)) then None
  else if match PartOfSpelledToken Word with
          | Some Tok => isStringLiteral (tok_kind Tok)
          | None => false
          end
  then None
  else
    let WordLine := getSpellingLineNumber SM (word_Location Word) in
    let BestCost := u32 (-1) in
    let MaxDistance :=
      u32 (Z.shiftl 1 (Z.min (Z.of_nat (String.length (word_Text Word))) 31)) in
    let LineMin :=
      if u32 (WordLine + 1) <=? MaxDistance / 2 then 1
      else u32 (WordLine + 1 - MaxDistance / 2) in
    let LineMax := u32 (WordLine + 1 + MaxDistance) in
    let LocMin := translateLineCol SM LineMin in
    let LocMax := translateLineCol SM LineMax in
    let '(Before, After) :=
      partition_point (word_Location Word) (spelledTokens TB) in
    let st :=
      Consider_loop SM TB Word WordLine LocMin LocMax After (None, BestCost) in
    let st :=
      Consider_loop SM TB Word WordLine LocMin LocMax (reverse Before) st in
    st.1.

(** ** locateSymbolAt

    The function is given with the list of the resolution steps it runs,
    in the order it runs them; [locateSymbolAt] is its answer alone. *)

Inductive Stage :=
| Stage_FileReferent
| Stage_MacroReferent (Tok : Token)
| Stage_DeducedType (Tok : Token)
| Stage_ASTReferent (CurLoc : SourceLocation)
    (TouchedIdentifier : option Token) (NodeKind : ASTNodeKind)
| Stage_NearbyIdentifier (Word : SpelledWord)
| Stage_NearbyMacroReferent (NearbyIdent : Token)
| Stage_NearbyASTReferent (NearbyIdent : Token) (NodeKind : ASTNodeKind)
| Stage_Textual (Word : SpelledWord) (NodeKind : ASTNodeKind).

(** How the loop over the tokens touching the cursor ends: with the
    answer of the function, or with the touched identifier. *)
Inductive TouchingOutcome :=
| Touching_return (Result : list LocatedSymbol)
| Touching_done (TouchedIdentifier : option Token).

Fixpoint locateSymbolAt_touching (S : Support) (AST : ParsedAST)
    (Index : option SymbolIndex) (MainFilePath : string)
    (TokensTouchingCursor : list Token) : list Stage * TouchingOutcome :=
  match TokensTouchingCursor with
  | [] => ([], Touching_done None)
  | Tok :: Toks =>
      if bool_decide (tok_kind Tok = tok_identifier) then
        match locateMacroReferent S Tok AST MainFilePath with
        | Some Macro => ([Stage_MacroReferent Tok], Touching_return [Macro])
        | None => ([Stage_MacroReferent Tok], Touching_done (Some Tok))
        end
      else if bool_decide (tok_kind Tok = tok_kw_auto)
              || bool_decide (tok_kind Tok = tok_kw_decltype) then
        let LocSym :=
          match getDeducedType AST (tok_location Tok) with
          | Some Deduced => locateSymbolForType S AST Deduced Index
          | None => []
          end in
        match LocSym with
        | [] =>
            let '(Stages, Outcome) :=
              locateSymbolAt_touching S AST Index MainFilePath Toks in
            (Stage_DeducedType Tok :: Stages, Outcome)
        | _ => ([Stage_DeducedType Tok], Touching_return LocSym)
        end
      else locateSymbolAt_touching S AST Index MainFilePath Toks
  end.

(** The fallback strategies, once the cursor did not resolve directly. *)
Definition locateSymbolAt_fallback (S : Support) (AST : ParsedAST)
    (Index : option SymbolIndex) (MainFilePath : string)
    (CurLoc : SourceLocation) (NodeKind : ASTNodeKind)
  : list Stage * list LocatedSymbol :=
  let SM := getSourceManager AST in
  match SpelledWord_touching (getTokens AST) CurLoc with
  | None => ([], [])
  | Some Word =>
      let Textual NodeKind :=
        ([Stage_Textual Word NodeKind],
         locateSymbolTextually S Word AST Index MainFilePath NodeKind) in
      match findNearbyIdentifier SM Word (getTokens AST) with
      | Some NearbyIdent =>
          match locateMacroReferent S NearbyIdent AST MainFilePath with
          | Some Macro =>
              ([Stage_NearbyIdentifier Word;
                Stage_NearbyMacroReferent NearbyIdent], [Macro])
          | None =>
              let '(ASTResults, NodeKind') :=
                locateASTReferent S (tok_location NearbyIdent)
                  (Some NearbyIdent) AST MainFilePath Index NodeKind in
              match ASTResults with
              | [] =>
                  let '(Stages, TextualResults) := Textual NodeKind' in
                  (Stage_NearbyIdentifier Word
                   :: Stage_NearbyMacroReferent NearbyIdent
                   :: Stage_NearbyASTReferent NearbyIdent NodeKind
                   :: Stages, TextualResults)
              | _ =>
                  ([Stage_NearbyIdentifier Word;
                    Stage_NearbyMacroReferent NearbyIdent;
                    Stage_NearbyASTReferent NearbyIdent NodeKind],
                   ASTResults)
              end
          end
      | None =>
          let '(Stages, TextualResults) := Textual NodeKind in
          (Stage_NearbyIdentifier Word :: Stages, TextualResults)
      end
  end.

Definition locateSymbolAt_stages (S : Support) (AST : ParsedAST)
    (Pos : Position) (Index : option SymbolIndex)
  : list Stage * list LocatedSymbol :=
  let SM := getSourceManager AST in
  let MainFilePath := tuPath AST in
  match locateFileReferent S Pos AST MainFilePath with
  | Some File => ([Stage_FileReferent], [File])
  | None =>
      match sourceLocationInMainFile SM Pos with
      | None => ([Stage_FileReferent], [])
      | Some CurLoc =>
          let TokensTouchingCursor :=
            spelledTokensTouching (getTokens AST) CurLoc in
          match locateSymbolAt_touching S AST Index MainFilePath
                  TokensTouchingCursor with
          | (Stages, Touching_return Result) =>
              (Stage_FileReferent :: Stages, Result)
          | (Stages, Touching_done TouchedIdentifier) =>
              let '(ASTResults, NodeKind) :=
                locateASTReferent S CurLoc TouchedIdentifier AST
                  MainFilePath Index NK_None in
              let Direct :=
                Stage_FileReferent
                :: Stages ++ [Stage_ASTReferent CurLoc TouchedIdentifier NK_None] in
              match ASTResults with
              | [] =>
                  let '(Fallback, Results) :=
                    locateSymbolAt_fallback S AST Index MainFilePath CurLoc
                      NodeKind in
                  (Direct ++ Fallback, Results)
              | _ => (Direct, ASTResults)
              end
          end
      end
  end.

Definition locateSymbolAt (S : Support) (AST : ParsedAST) (Pos : Position)
    (Index : option SymbolIndex) : list LocatedSymbol :=
  (locateSymbolAt_stages S AST Pos Index).2.

(** What a step yields when it is run on its own. The nearby-identifier
    search yields a token, not symbols. *)
Definition run_stage (S : Support) (AST : ParsedAST) (Pos : Position)
    (Index : option SymbolIndex) (s : Stage) : list LocatedSymbol :=
  let MainFilePath := tuPath AST in
  match s with
  | Stage_FileReferent =>
      option_list (locateFileReferent S Pos AST MainFilePath)
  | Stage_MacroReferent Tok | Stage_NearbyMacroReferent Tok =>
      option_list (locateMacroReferent S Tok AST MainFilePath)
  | Stage_DeducedType Tok =>
      match getDeducedType AST (tok_location Tok) with
      | Some Deduced => locateSymbolForType S AST Deduced Index
      | None => []
      end
  | Stage_ASTReferent CurLoc TouchedIdentifier NodeKind =>
      (locateASTReferent S CurLoc TouchedIdentifier AST MainFilePath Index
         NodeKind).1
  | Stage_NearbyIdentifier _ => []
  | Stage_NearbyASTReferent NearbyIdent NodeKind =>
      (locateASTReferent S (tok_location NearbyIdent) (Some NearbyIdent) AST
         MainFilePath Index NodeKind).1
  | Stage_Textual Word NodeKind =>
      locateSymbolTextually S Word AST Index MainFilePath NodeKind
  end.

(** The place of a step in the order of the function. *)
Definition stage_rank (s : Stage) : nat :=
  match s with
  | Stage_FileReferent => 0
  | Stage_MacroReferent _ | Stage_DeducedType _ => 1
  | Stage_ASTReferent _ _ _ => 2
  | Stage_NearbyIdentifier _ => 3
  | Stage_NearbyMacroReferent _ => 4
  | Stage_NearbyASTReferent _ _ => 5
  | Stage_Textual _ _ => 6
  end.

(** ** findImplementations *)

(** One turn of the loop over the declarations at the position; the state
    is [IDs] and [QueryKind]. *)
Definition findImplementations_decl (Ctx : ASTContext)
    (st : gset SymbolID * RelationKind) (ND : Decl)
  : gset SymbolID * RelationKind :=
  let '(IDs, QueryKind) := st in
  let K := getKind Ctx ND in
  if isa K CXXMethod then
    if isVirtual Ctx ND then ({[getSymbolID Ctx ND]} ∪ IDs, OverriddenBy)
    else st
  else if isa_CXXRecordDecl K then ({[getSymbolID Ctx ND]} ∪ IDs, BaseOf)
  else if isa K ObjCMethod then ({[getSymbolID Ctx ND]} ∪ IDs, OverriddenBy)
  else if isa K ObjCInterface then ({[getSymbolID Ctx ND]} ∪ IDs, BaseOf)
  else st.

Definition findImplementations (S : Support) (AST : ParsedAST)
    (Pos : Position) (Index : option SymbolIndex) : list LocatedSymbol :=
  match Index with
  | None => []
  | Some _ =>
      match sourceLocationInMainFile (getSourceManager AST) Pos with
      | None => []
      | Some CurLoc =>
          let Relations :=
            Z.lor DeclRelation_TemplatePattern DeclRelation_Alias in
          let '(IDs, QueryKind) :=
            foldl (findImplementations_decl (getASTContext AST))
              (∅, OverriddenBy) (getDeclAtPosition AST CurLoc Relations) in
          findImplementors S IDs QueryKind Index (tuPath AST)
      end
  end.

(** ** findType *)

Definition findType_SymbolsFromNode (S : Support) (AST : ParsedAST)
    (Index : option SymbolIndex) (N : option SelectionNode)
  : list LocatedSymbol :=
  foldl (λ LocatedSymbols Type_,
           LocatedSymbols ++ locateSymbolForType S AST Type_ Index)
    [] (unwrapFindType_typeForNode AST N).

(** The callback run over the trees of [createEach] until its result is
    not empty. *)
Fixpoint findType_trees (S : Support) (AST : ParsedAST)
    (Index : option SymbolIndex) (Trees : list (option SelectionNode))
    (Result : list LocatedSymbol) : list LocatedSymbol :=
  match Trees with
  | [] => Result
  | ST :: Trees' =>
      let Result := findType_SymbolsFromNode S AST Index ST in
      match Result with
      | [] => findType_trees S AST Index Trees' Result
      | _ => Result
      end
  end.

Definition findType (S : Support) (AST : ParsedAST) (Pos : Position)
    (Index : option SymbolIndex) : list LocatedSymbol :=
  match positionToOffset AST Pos with
  | None => []
  | Some Offset => findType_trees S AST Index (createEach AST Offset) []
  end.

(** ** The reference collector *)

Module ReferenceFinder.

Record Reference := mkReference {
  SpelledTok : Token;
  Role : SymbolRoleSet;
  Container : option Decl
}.

(** [std::tie(LTok, L.Role) < std::tie(RTok, R.Role)]: the lexicographic
    comparison of tuples, written out as the library defines it. *)
Definition tie_ltb (L R : SourceLocation * SymbolRoleSet) : bool :=
  (L.1 <? R.1) || (negb (R.1 <? L.1) && (L.2 <? R.2)).

Definition tie_eqb (L R : SourceLocation * SymbolRoleSet) : bool :=
  (L.1 =? R.1) && (L.2 =? R.2).

Definition tie (r : Reference) : SourceLocation * SymbolRoleSet :=
  (tok_location (SpelledTok r), Role r).

(** The comparator handed to [llvm::sort]. *)
Definition sort_before (L R : Reference) : bool := tie_ltb (tie L) (tie R).

(** The predicate handed to [llvm::unique]. *)
Definition same_entry (L R : Reference) : bool := tie_eqb (tie L) (tie R).

(** [llvm::sort] with comparator [sort_before] leaves no later element
    strictly before an earlier one; the order it establishes is
    "not after". It is not stable: among references of equal location
    and role the code leaves open which comes first, and so which one
    [llvm::unique] keeps; the merge sort below settles on one such order,
    and what is proved of the result speaks of locations and roles. *)
Definition not_after (L R : Reference) : Prop := sort_before R L = false.

#[global] Instance not_after_dec L R : Decision (not_after L R).
Proof. unfold not_after. apply _. Defined.

Definition sort (References : list Reference) : list Reference :=
  merge_sort not_after References.

(** [llvm::unique]: of each run of consecutive equivalent elements the
    first is kept. *)
Fixpoint unique_from (last : Reference) (l : list Reference)
  : list Reference :=
  match l with
  | [] => []
  | r :: l' =>
      if same_entry last r then unique_from last l'
      else r :: unique_from r l'
  end.

Definition unique (l : list Reference) : list Reference :=
  match l with
  | [] => []
  | r :: l' => r :: unique_from r l'
  end.

Definition take (References : list Reference) : list Reference :=
  unique (sort References).

(** The constructor: the canonical declarations of the targets. *)
Definition TargetDecls (AST : ParsedAST) (Targets : list Decl) : gset Decl :=
  list_to_set (getCanonicalDecl (getASTContext AST) <$> Targets).

(** [handleDeclOccurrence]: the references after the occurrence. *)
Definition handleDeclOccurrence (AST : ParsedAST) (Targets : gset Decl)
    (PerToken : bool) (References : list Reference) (O : DeclOccurrence)
  : list Reference :=
  let SM := getSourceManager AST in
  let TB := getTokens AST in
  let Loc := occ_Loc O in
  if negb (bool_decide
             (getCanonicalDecl (getASTContext AST) (occ_D O) ∈ Targets))
  then References
  else if negb (isInsideMainFile SM Loc) then References
  else
    let Locs :=
      if PerToken then
        let Locs :=
          match OrigE_selectorLocs O, OrigD_selectorLocs O with
          | Some SelLocs, _ => SelLocs
          | None, Some SelLocs => SelLocs
          | None, None => []
          end in
        match Locs with
        | Front :: _ => if Front =? Loc then Locs else []
        | [] => []
        end
      else [] in
    let Locs := match Locs with [] => [Loc] | _ => Locs end in
    foldl (λ References L,
             match spelledTokenContaining TB (getFileLoc SM L) with
             | Some Tok =>
                 References ++ [mkReference Tok (occ_Roles O) (RefContainer O)]
             | None => References
             end)
      References Locs.

End ReferenceFinder.

Definition findRefs (Targets : list Decl) (AST : ParsedAST) (PerToken : bool)
  : list ReferenceFinder.Reference :=
  ReferenceFinder.take
    (foldl (ReferenceFinder.handleDeclOccurrence AST
              (ReferenceFinder.TargetDecls AST Targets) PerToken)
       [] (indexTopLevelDecls AST)).

(** ** The supertypes of the type hierarchy *)

#[warnings="-register-all"] Inductive ResolveParams :=
| mkResolveParams (symbolID : SymbolID)
    (parents : option (list ResolveParams)).

(** [TypeHierarchyItem], without its symbol kind, detail text and
    children, which the supertype walk does not touch. *)
#[warnings="-register-all"] Inductive TypeHierarchyItem :=
| mkTypeHierarchyItem (name : string) (uri : string)
    (range selectionRange : Range) (deprecated : bool)
    (data : ResolveParams) (parents : option (list TypeHierarchyItem)).

Definition item_name (I : TypeHierarchyItem) : string :=
  match I with mkTypeHierarchyItem n _ _ _ _ _ _ => n end.
Definition item_data (I : TypeHierarchyItem) : ResolveParams :=
  match I with mkTypeHierarchyItem _ _ _ _ _ d _ => d end.
Definition item_parents (I : TypeHierarchyItem)
  : option (list TypeHierarchyItem) :=
  match I with mkTypeHierarchyItem _ _ _ _ _ _ p => p end.
Definition data_symbolID (P : ResolveParams) : SymbolID :=
  match P with mkResolveParams i _ => i end.
Definition data_parents (P : ResolveParams) : option (list ResolveParams) :=
  match P with mkResolveParams _ p => p end.

(** [Item.parents.emplace(); Item.data.parents.emplace();] *)
Definition emplace_parents (I : TypeHierarchyItem) : TypeHierarchyItem :=
  match I with
  | mkTypeHierarchyItem n u r sr d (mkResolveParams i _) _ =>
      mkTypeHierarchyItem n u r sr d (mkResolveParams i (Some [])) (Some [])
  end.

(** [Item.data.parents->emplace_back(ParentSym->data);
     Item.parents->emplace_back(ParentSym);] (the item is moved) *)
Definition emplace_back_parent (I ParentSym : TypeHierarchyItem)
  : TypeHierarchyItem :=
  match I with
  | mkTypeHierarchyItem n u r sr d (mkResolveParams i dp) p =>
      mkTypeHierarchyItem n u r sr d
        (mkResolveParams i ((λ l, l ++ [item_data ParentSym]) <$> dp))
        ((λ l, l ++ [ParentSym]) <$> p)
  end.

Definition Position_le (A B : Position) : bool :=
  (line A <? line B) || ((line A =? line B) && (character A <=? character B)).

Definition Range_contains (R Inner : Range) : bool :=
  Position_le (range_start R) (range_start Inner)
  && Position_le (range_end Inner) (range_end R).

Definition declToHierarchyItem (S : Support) (AST : ParsedAST) (ND : Decl)
    (TUPath : string) : option TypeHierarchyItem :=
  let Ctx := getASTContext AST in
  let SM := getSourceManager AST in
  let NameLoc := nameLocation Ctx ND in
  let BeginLoc := getFileLoc SM (getBeginLoc Ctx ND) in
  let EndLoc := getFileLoc SM (getEndLoc Ctx ND) in
  match toHalfOpenFileRange SM BeginLoc EndLoc with
  | None => None
  | Some DeclRange =>
      match getFileEntryRefForID SM NameLoc with
      | None => None
      | Some FE =>
          match getCanonicalPath SM FE with
          | None => None
          | Some FilePath =>
              let NameBegin := sourceLocToPosition SM NameLoc in
              let NameEnd :=
                sourceLocToPosition SM (getLocForEndOfToken SM NameLoc) in
              let range :=
                mkRange (sourceLocToPosition SM DeclRange.1)
                        (sourceLocToPosition SM DeclRange.2) in
              let selectionRange := mkRange NameBegin NameEnd in
              let range :=
                if Range_contains range selectionRange then range
                else selectionRange in
              Some (mkTypeHierarchyItem (printName Ctx ND)
                      (URIForFile_canonicalize S FilePath TUPath)
                      range selectionRange false
                      (mkResolveParams 0 None) None)
          end
      end
  end.

Definition declToTypeHierarchyItem (S : Support) (AST : ParsedAST)
    (ND : Decl) (TUPath : string) : option TypeHierarchyItem :=
  match declToHierarchyItem S AST ND TUPath with
  | Some (mkTypeHierarchyItem n u r sr _ (mkResolveParams _ dp) p) =>
      Some (mkTypeHierarchyItem n u r sr
              (isDeprecated (getASTContext AST) ND)
              (mkResolveParams (getSymbolID (getASTContext AST) ND) dp) p)
  | None => None
  end.

(** [typeParents]. The templated class of a class template is never
    null; the model keeps the record itself should it be. *)
Definition typeParents (Ctx : ASTContext) (CXXRD : Decl) : list Decl :=
  let CXXRD :=
    if isa (getKind Ctx CXXRD) ClassTemplateSpecialization
       && isInvalidDecl Ctx CXXRD
    then default CXXRD (getTemplatedDecl Ctx (getSpecializedTemplate Ctx CXXRD))
    else CXXRD in
  if negb (hasDefinition Ctx CXXRD) then []
  else
    omap (λ Base,
            match RecordType_getAsCXXRecordDecl Base with
            | Some ParentDecl => Some ParentDecl
            | None => TemplateSpecializationType_templatedDecl Base
            end)
      (bases Ctx CXXRD).

Definition RecursionProtectionSet := gset Decl.

(** The loop over the parents, given the function for the recursive
    call; the state is the item and the protection set. *)
Fixpoint fillSuperTypes_parents
    (rec : Decl → TypeHierarchyItem → RecursionProtectionSet
           → option (TypeHierarchyItem * RecursionProtectionSet))
    (declToItem : Decl → option TypeHierarchyItem)
    (Parents : list Decl) (Item : TypeHierarchyItem)
    (RPSet : RecursionProtectionSet)
  : option (TypeHierarchyItem * RecursionProtectionSet) :=
  match Parents with
  | [] => Some (Item, RPSet)
  | ParentDecl :: Parents' =>
      match declToItem ParentDecl with
      | None => fillSuperTypes_parents rec declToItem Parents' Item RPSet
      | Some ParentSym =>
          match rec ParentDecl ParentSym RPSet with
          | None => None
          | Some (ParentSym, RPSet) =>
              fillSuperTypes_parents rec declToItem Parents'
                (emplace_back_parent Item ParentSym) RPSet
          end
      end
  end.

(** [fillSuperTypes]: the item filled and the protection set as the call
    leaves it. The recursion of the code is on the parent chain; the
    model counts the depth of the calls down from [fuel] and answers
    [None] when it runs out. *)
Fixpoint fillSuperTypes (fuel : nat) (S : Support) (AST : ParsedAST)
    (TUPath : string) (CXXRD : Decl) (Item : TypeHierarchyItem)
    (RPSet : RecursionProtectionSet)
  : option (TypeHierarchyItem * RecursionProtectionSet) :=
  match fuel with
  | O => None
  | Datatypes.S fuel' =>
      let Ctx := getASTContext AST in
      let Item := emplace_parents Item in
      let Pattern :=
        if getDescribedTemplate Ctx CXXRD then Some CXXRD else None in
      if match Pattern with
         | Some P => bool_decide (P ∈ RPSet)
         | None => false
         end
      then Some (Item, RPSet)
      else
        let RPSet :=
          match Pattern with Some P => {[P]} ∪ RPSet | None => RPSet end in
        match fillSuperTypes_parents
                (fillSuperTypes fuel' S AST TUPath)
                (λ ParentDecl, declToTypeHierarchyItem S AST ParentDecl TUPath)
                (typeParents Ctx CXXRD) Item RPSet with
        | None => None
        | Some (Item, RPSet) =>
            Some (Item,
                  match Pattern with
                  | Some P => RPSet ∖ {[P]}
                  | None => RPSet
                  end)
        end
  end.

(** * Hierarchies, calls, highlights and references

    The requests of the file besides the located-symbol pipeline. *)

(** ** Further collaborators

    [Library] adds to [Support] what these requests ask of the library:
    [symbolToLocation] (an [Expected]: [None] is the error), the path
    [URIForFile::file()] holds, the [Deprecated] bit of [Symbol::Flags],
    and the text form of a symbol id with its parser (an [Expected]). *)
Record Library := mkLibrary {
  library_Support :> Support;
  symbolToLocation : Symbol → string → option Location;
  URIForFile_file : string → string;
  Symbol_Deprecated : Symbol → bool;
  SymbolID_str : SymbolID → string;
  SymbolID_fromStr : string → option SymbolID
}.

(** [RefKind]: a bit set. *)
Definition RefKind := Z.
Definition RefKind_Declaration : RefKind := 1.
Definition RefKind_Definition : RefKind := 2.
Definition RefKind_Reference : RefKind := 4.
Definition RefKind_All : RefKind := 31.

(** [Ref] and [ContainedRef]: the answers of the reference queries. *)
Record Ref := mkRef {
  ref_Location : SymbolLocation;
  ref_Kind : RefKind;
  ref_Container : SymbolID
}.

Record ContainedRef := mkContainedRef {
  cref_Location : SymbolLocation;
  cref_Kind : RefKind;
  cref_Symbol : SymbolID
}.

(** [RefsRequest]; a default-constructed request has the filter
    [RefKind::All], no limit and wants no container. *)
Record RefsRequest := mkRefsRequest {
  refs_IDs : gset SymbolID;
  refs_Filter : RefKind;
  refs_Limit : option Z;
  refs_WantContainer : bool
}.

(** The index with its reference queries. [refs] answers, besides the
    references it hands to the callback, whether it holds more of them;
    [containedRefs] is asked with a request that sets the id only. *)
Record RefsIndex := mkRefsIndex {
  index_symbols :> SymbolIndex;
  refs : RefsRequest → list Ref * bool;
  containedRefs : SymbolID → list ContainedRef
}.

(** ** The subtypes of the type hierarchy *)

(** A [TypeHierarchyItem] with the fields the subtype walk fills besides
    those of the supertype walk: the detail text and the children. *)
#[warnings="-register-all"] Inductive TypeHierarchyEntry :=
| mkTypeHierarchyEntry (item : TypeHierarchyItem) (detail : string)
    (children : option (list TypeHierarchyEntry)).

Definition entry_item (E : TypeHierarchyEntry) : TypeHierarchyItem :=
  match E with mkTypeHierarchyEntry i _ _ => i end.
Definition entry_detail (E : TypeHierarchyEntry) : string :=
  match E with mkTypeHierarchyEntry _ d _ => d end.
Definition entry_children (E : TypeHierarchyEntry)
  : option (list TypeHierarchyEntry) :=
  match E with mkTypeHierarchyEntry _ _ c => c end.

Definition item_uri (I : TypeHierarchyItem) : string :=
  match I with mkTypeHierarchyItem _ u _ _ _ _ _ => u end.
Definition item_range (I : TypeHierarchyItem) : Range :=
  match I with mkTypeHierarchyItem _ _ r _ _ _ _ => r end.
Definition item_selectionRange (I : TypeHierarchyItem) : Range :=
  match I with mkTypeHierarchyItem _ _ _ sr _ _ _ => sr end.

Definition set_children (c : option (list TypeHierarchyEntry))
    (E : TypeHierarchyEntry) : TypeHierarchyEntry :=
  match E with mkTypeHierarchyEntry i d _ => mkTypeHierarchyEntry i d c end.

Definition set_data (data : ResolveParams) (E : TypeHierarchyEntry)
  : TypeHierarchyEntry :=
  match E with
  | mkTypeHierarchyEntry (mkTypeHierarchyItem n u r sr dep _ p) d c =>
      mkTypeHierarchyEntry (mkTypeHierarchyItem n u r sr dep data p) d c
  end.

Definition set_data_parents (dp : option (list ResolveParams))
    (E : TypeHierarchyEntry) : TypeHierarchyEntry :=
  set_data (mkResolveParams (data_symbolID (item_data (entry_item E))) dp) E.

(** [symbolToHierarchyItem] and [symbolToTypeHierarchyItem]. *)
Definition symbolToTypeHierarchyItem (L : Library) (Sym : Symbol)
    (TUPath : string) : option TypeHierarchyEntry :=
  match symbolToLocation L Sym TUPath with
  | None => None
  | Some Loc =>
      let selectionRange := range Loc in
      Some (mkTypeHierarchyEntry
              (mkTypeHierarchyItem (sym_Name Sym) (uri Loc)
                 selectionRange selectionRange (Symbol_Deprecated L Sym)
                 (mkResolveParams (sym_ID Sym) None) None)
              (sym_Scope Sym +:+ sym_Name Sym) None)
  end.

(** [fillSubTypes]. The code recurses while [Levels > 1], with
    [Levels - 1]; [further] counts the levels still to resolve below the
    one being filled, [Levels - 1] when that is positive and none
    otherwise. *)
Fixpoint fillSubTypes_levels (further : nat) (L : Library)
    (Index : SymbolIndex) (TUPath : string) (ID : SymbolID)
    (SubTypes : list TypeHierarchyEntry) : list TypeHierarchyEntry :=
  foldl (λ SubTypes (Answer : SymbolID * Symbol),
           let Object := Answer.2 in
           match symbolToTypeHierarchyItem L Object TUPath with
           | Some ChildSym =>
               let ChildSym :=
                 match further with
                 | Datatypes.S further' =>
                     set_children
                       (Some (fillSubTypes_levels further' L Index TUPath
                                (sym_ID Object) []))
                       ChildSym
                 | O => ChildSym
                 end in
               SubTypes ++ [ChildSym]
           | None => SubTypes
           end)
    SubTypes (relations Index BaseOf {[ID]}).

Definition fillSubTypes (L : Library) (ID : SymbolID)
    (SubTypes : list TypeHierarchyEntry) (Index : SymbolIndex) (Levels : Z)
    (TUPath : string) : list TypeHierarchyEntry :=
  fillSubTypes_levels (Z.to_nat (Levels - 1)) L Index TUPath ID SubTypes.

(** [subTypes]. *)
Definition subTypes (L : Library) (Item : TypeHierarchyEntry)
    (Index : SymbolIndex) : list TypeHierarchyEntry :=
  let data := item_data (entry_item Item) in
  let Results :=
    fillSubTypes L (data_symbolID data) [] Index 1
      (URIForFile_file L (item_uri (entry_item Item))) in
  set_data_parents (Some [data]) <$> Results.

(** [superTypes]. The first loop builds the request and the table
    [IDToData], in which a later parent of the same id replaces an
    earlier one. The callback reads [*IDToData.lookup(S.ID)], and
    [DenseMap::lookup] answers a null pointer for an id that is not a key:
    the outer [None] is that dereference; the inner option is the
    [std::optional] the function returns. *)
Definition superTypes_request (Parents : list ResolveParams)
  : gset SymbolID * gmap SymbolID ResolveParams :=
  foldl (λ (st : gset SymbolID * gmap SymbolID ResolveParams) Parent,
           ({[data_symbolID Parent]} ∪ st.1,
            <[data_symbolID Parent := Parent]> st.2))
    (∅, ∅) Parents.

Definition superTypes_callback (L : Library) (Item : TypeHierarchyEntry)
    (IDToData : gmap SymbolID ResolveParams)
    (Results : option (list TypeHierarchyEntry)) (Sym : Symbol)
  : option (list TypeHierarchyEntry) :=
  Results ≫= λ Results,
    match symbolToTypeHierarchyItem L Sym
            (URIForFile_file L (item_uri (entry_item Item))) with
    | Some THI =>
        match IDToData !! sym_ID Sym with
        | Some data => Some (Results ++ [set_data data THI])
        | None => None
        end
    | None => Some Results
    end.

Definition superTypes (L : Library) (Item : TypeHierarchyEntry)
    (Index : SymbolIndex) : option (option (list TypeHierarchyEntry)) :=
  match data_parents (item_data (entry_item Item)) with
  | None => Some None
  | Some Parents =>
      if bool_decide (Parents = []) then Some (Some [])
      else
        let '(IDs, IDToData) := superTypes_request Parents in
        Some <$>
          foldl (superTypes_callback L Item IDToData) (Some [])
            (lookup Index IDs)
  end.

Inductive TypeHierarchyDirection :=
| Direction_Children | Direction_Parents | Direction_Both.

#[global] Instance TypeHierarchyDirection_eq_dec
  : EqDecision TypeHierarchyDirection.
Proof. solve_decision. Defined.

(** [resolveTypeHierarchy]: the item after the call. *)
Definition resolveTypeHierarchy (L : Library) (Item : TypeHierarchyEntry)
    (ResolveLevels : Z) (Direction : TypeHierarchyDirection)
    (Index : option SymbolIndex) : TypeHierarchyEntry :=
  match Index with
  | None => Item
  | Some Index =>
      if bool_decide (Direction = Direction_Parents) || (ResolveLevels =? 0)
      then Item
      else
        set_children
          (Some (fillSubTypes L (data_symbolID (item_data (entry_item Item)))
                   [] Index ResolveLevels
                   (URIForFile_file L (item_uri (entry_item Item)))))
          Item
  end.

(** ** References: the answer and what it is made of *)

(** [ReferencesResult::ReferenceAttributes]: the bits of a mask. *)
Definition Attr_Declaration : Z := 1.
Definition Attr_Definition : Z := 2.
Definition Attr_Override : Z := 4.

(** [index::SymbolRole]: the bits the file tests. *)
Definition SymbolRole_Declaration : SymbolRoleSet := 1.
Definition SymbolRole_Definition : SymbolRoleSet := 2.
Definition SymbolRole_Read : SymbolRoleSet := 8.
Definition SymbolRole_Write : SymbolRoleSet := 16.

(** [ReferenceLocation]: a [Location] with the name of the container. *)
Record ReferenceLocation := mkReferenceLocation {
  rl_Location : Location;
  containerName : option string
}.

Record ResultReference := mkResultReference {
  res_Loc : ReferenceLocation;
  Attributes : Z
}.

Record ReferencesResult := mkReferencesResult {
  References : list ResultReference;
  HasMore : bool
}.

#[global] Instance Position_eq_dec : EqDecision Position.
Proof. solve_decision. Defined.
#[global] Instance Range_eq_dec : EqDecision Range.
Proof. solve_decision. Defined.
#[global] Instance Location_eq_dec : EqDecision Location.
Proof. solve_decision. Defined.

(** [MacroOccurrence]: an occurrence of a macro in the main file, with
    the range [toRange(SM)] gives of it. *)
Record MacroOccurrence := mkMacroOccurrence {
  macro_toRange : Range;
  IsDefinition : bool
}.

(** One call of the callback of [include_cleaner::walkUsed]: whether the
    reference is explicit, whether an include is the preferred provider
    of the symbol ([isPreferredProvider] on the providers of the call),
    and the spelled token at the location of the reference, walked up the
    include chain to the main file; the code asserts there is one. *)
Record UsedSymbol := mkUsedSymbol {
  used_Explicit : bool;
  used_isPreferredProvider : Inclusion → bool;
  used_Token : Token
}.

(** ** The call hierarchy *)

Inductive SymbolTag := Tag_Deprecated.

(** [CallHierarchyItem], without its symbol kind. *)
Record CallHierarchyItem := mkCallHierarchyItem {
  chi_name : string;
  chi_detail : string;
  chi_uri : string;
  chi_range : Range;
  chi_selectionRange : Range;
  chi_tags : list SymbolTag;
  chi_data : string
}.

Record CallHierarchyIncomingCall := mkCallHierarchyIncomingCall {
  call_from : CallHierarchyItem;
  in_fromRanges : list Range
}.

Record CallHierarchyOutgoingCall := mkCallHierarchyOutgoingCall {
  call_to : CallHierarchyItem;
  out_fromRanges : list Range
}.

(** The parsed file with the further answers these requests ask of it.
    [isFunctionOrMethod D] is
    [isa<DeclContext>(D) && cast<DeclContext>(D)->isFunctionOrMethod()];
    [getParentFunctionOrMethod D] tells whether the declaration has one;
    [isa_NamedDecl] is the cast of a container to [NamedDecl];
    [walkUsed] lists the calls of the callback of
    [include_cleaner::walkUsed], in their order; [rangeTillEOL Offset] is
    [rangeTillEOL] on the main buffer. *)
Record RequestAST := mkRequestAST {
  request_AST :> ParsedAST;
  isFunctionOrMethod : Decl → bool;
  isLocalVarDecl : Decl → bool;
  spelledIdentifierTouching : SourceLocation → option Token;
  MacroRefs : gmap SymbolID (list MacroOccurrence);
  getParentFunctionOrMethod : Decl → bool;
  isa_NamedDecl : Decl → bool;
  printQualifiedName : Decl → string;
  walkUsed : list UsedSymbol;
  rangeTillEOL : Z → Range
}.

Definition declToCallHierarchyItem (L : Library) (AST : ParsedAST)
    (ND : Decl) (TUPath : string) : option CallHierarchyItem :=
  match declToHierarchyItem L AST ND TUPath with
  | None => None
  | Some Result =>
      let Ctx := getASTContext AST in
      Some (mkCallHierarchyItem (item_name Result) "" (item_uri Result)
              (item_range Result) (item_selectionRange Result)
              (if isDeprecated Ctx ND then [Tag_Deprecated] else [])
              (if SymbolID_isNull (getSymbolID Ctx ND) then ""
               else SymbolID_str L (getSymbolID Ctx ND)))
  end.

Definition symbolToCallHierarchyItem (L : Library) (Sym : Symbol)
    (TUPath : string) : option CallHierarchyItem :=
  match symbolToLocation L Sym TUPath with
  | None => None
  | Some Loc =>
      Some (mkCallHierarchyItem (sym_Name Sym)
              (sym_Scope Sym +:+ sym_Name Sym) (uri Loc)
              (range Loc) (range Loc)
              (if Symbol_Deprecated L Sym then [Tag_Deprecated] else [])
              (SymbolID_str L (sym_ID Sym)))
  end.

(** [prepareCallHierarchy]: the relation set of the query is empty. *)
Definition prepareCallHierarchy (L : Library) (AST : RequestAST)
    (Pos : Position) (TUPath : string) : list CallHierarchyItem :=
  match sourceLocationInMainFile (getSourceManager AST) Pos with
  | None => []
  | Some Loc =>
      foldl (λ Result D,
               let K := getKind (getASTContext AST) D in
               if negb (isFunctionOrMethod AST D)
                  && negb (isa K FunctionTemplate)
                  && negb (isa K Var && negb (isLocalVarDecl AST D))
                  && negb (isa K Field)
               then Result
               else
                 match declToCallHierarchyItem L AST D (tuPath AST) with
                 | Some CHI => Result ++ [CHI]
                 | None => Result
                 end)
        [] (getDeclAtPosition AST Loc 0)
  end.

(** The callback of the reference query of [incomingCalls] and
    [outgoingCalls]: the location of the answer, converted, is filed
    under the id [Key] (the container of a reference, the symbol of a
    contained reference), and the id joins the lookup request. *)
Definition calls_collect (L : Library) (TUPath : string)
    (st : gmap SymbolID (list Location) * gset SymbolID)
    (Key : SymbolID) (Loc : SymbolLocation)
  : gmap SymbolID (list Location) * gset SymbolID :=
  match indexToLSPLocation L Loc TUPath with
  | None => st
  | Some Loc =>
      (<[Key := default [] (st.1 !! Key) ++ [Loc]]> st.1, {[Key]} ∪ st.2)
  end.

(** [std::string]'s [operator<]: the lexicographic order of the
    characters. *)
Definition name_not_after (A B : string) : Prop := String.ltb B A = false.

(** [incomingCalls]. The lookup callback asserts that the caller is a key
    of [CallsIn] and reads the entry: [None] is the failed assert. *)
Definition incomingCalls_caller (L : Library) (TUPath : string)
    (CallsIn : gmap SymbolID (list Location))
    (Results : option (list CallHierarchyIncomingCall)) (Caller : Symbol)
  : option (list CallHierarchyIncomingCall) :=
  Results ≫= λ Results,
    match CallsIn !! sym_ID Caller with
    | None => None
    | Some Locs =>
        match symbolToCallHierarchyItem L Caller TUPath with
        | Some CHI =>
            let FromRanges :=
              range <$> filter (λ Loc, uri Loc = chi_uri CHI) Locs in
            Some (Results ++ [mkCallHierarchyIncomingCall CHI FromRanges])
        | None => Some Results
        end
    end.

#[global] Instance in_name_not_after_dec (A B : CallHierarchyIncomingCall)
  : Decision (name_not_after (chi_name (call_from A)) (chi_name (call_from B))).
Proof. unfold name_not_after. apply _. Defined.

Definition incomingCalls (L : Library) (Item : CallHierarchyItem)
    (Index : option RefsIndex) : option (list CallHierarchyIncomingCall) :=
  match Index with
  | None => Some []
  | Some Index =>
      if bool_decide (chi_data Item = "") then Some []
      else
        match SymbolID_fromStr L (chi_data Item) with
        | None => Some []
        | Some ID =>
            let Request := mkRefsRequest {[ID]} RefKind_Reference None true in
            let TUPath := URIForFile_file L (chi_uri Item) in
            let '(CallsIn, IDs) :=
              foldl (λ st R,
                       calls_collect L TUPath st (ref_Container R)
                         (ref_Location R))
                (∅, ∅) (refs Index Request).1 in
            merge_sort
              (λ A B, name_not_after (chi_name (call_from A))
                        (chi_name (call_from B)))
            <$> foldl (incomingCalls_caller L TUPath CallsIn) (Some [])
                  (lookup Index IDs)
        end
  end.

(** The kinds the lookup callback of [outgoingCalls] asserts of a callee:
    those of symbols the references to which can be calls. *)
Definition isFunctionLike (Kind : SymbolKind) : bool :=
  match Kind with
  | SK_Function | SK_InstanceMethod | SK_ClassMethod | SK_StaticMethod
  | SK_Constructor | SK_Destructor | SK_ConversionFunction => true
  | _ => false
  end.

(** [outgoingCalls]: the ranges kept are those in the file of the item
    the request was made for. The lookup callback asserts that the callee
    is function-like and that it is a key of [CallsOut]: [None] is a
    failed assert. *)
Definition outgoingCalls_callee (L : Library) (Item : CallHierarchyItem)
    (CallsOut : gmap SymbolID (list Location))
    (Results : option (list CallHierarchyOutgoingCall)) (Callee : Symbol)
  : option (list CallHierarchyOutgoingCall) :=
  Results ≫= λ Results,
    if negb (isFunctionLike (sym_Kind Callee)) then None
    else
      match CallsOut !! sym_ID Callee with
      | None => None
      | Some Locs =>
          match symbolToCallHierarchyItem L Callee
                  (URIForFile_file L (chi_uri Item)) with
          | Some CHI =>
              let FromRanges :=
                range <$> filter (λ Loc, uri Loc = chi_uri Item) Locs in
              Some (Results ++ [mkCallHierarchyOutgoingCall CHI FromRanges])
          | None => Some Results
          end
      end.

#[global] Instance out_name_not_after_dec (A B : CallHierarchyOutgoingCall)
  : Decision (name_not_after (chi_name (call_to A)) (chi_name (call_to B))).
Proof. unfold name_not_after. apply _. Defined.

Definition outgoingCalls (L : Library) (Item : CallHierarchyItem)
    (Index : option RefsIndex) : option (list CallHierarchyOutgoingCall) :=
  match Index with
  | None => Some []
  | Some Index =>
      if bool_decide (chi_data Item = "") then Some []
      else
        match SymbolID_fromStr L (chi_data Item) with
        | None => Some []
        | Some ID =>
            let TUPath := URIForFile_file L (chi_uri Item) in
            let '(CallsOut, IDs) :=
              foldl (λ st R,
                       calls_collect L TUPath st (cref_Symbol R)
                         (cref_Location R))
                (∅, ∅) (containedRefs Index ID) in
            merge_sort
              (λ A B, name_not_after (chi_name (call_to A))
                        (chi_name (call_to B)))
            <$> foldl (outgoingCalls_callee L Item CallsOut) (Some [])
                  (lookup Index IDs)
        end
  end.

(** ** getOverriddenMethods

    The two overloads walk the methods a method overrides: of a C++
    method through [overridden_methods()], of an Objective-C method
    through [getOverriddenMethods(Overrides)]. The recursion of the code
    follows the override relation; the model counts the depth of the
    calls down from [fuel] and answers [None] when it runs out. The
    methods the code is called with are not null. *)
Fixpoint getOverriddenMethods_walk (fuel : nat) (Ctx : ASTContext)
    (overridden : Decl → list Decl) (MD : Decl)
    (OverriddenMethods : gset SymbolID) : option (gset SymbolID) :=
  match fuel with
  | O => None
  | Datatypes.S fuel' =>
      foldl (λ OverriddenMethods Base,
               OverriddenMethods ≫= λ OverriddenMethods,
                 let ID := getSymbolID Ctx Base in
                 let OverriddenMethods :=
                   if SymbolID_isNull ID then OverriddenMethods
                   else {[ID]} ∪ OverriddenMethods in
                 getOverriddenMethods_walk fuel' Ctx overridden Base
                   OverriddenMethods)
        (Some OverriddenMethods) (overridden MD)
  end.

Definition getOverriddenMethods_CXXMethod (fuel : nat) (Ctx : ASTContext)
    (CMD : Decl) (OverriddenMethods : gset SymbolID)
  : option (gset SymbolID) :=
  getOverriddenMethods_walk fuel Ctx (overridden_methods Ctx) CMD
    OverriddenMethods.

Definition getOverriddenMethods_ObjCMethod (fuel : nat) (Ctx : ASTContext)
    (OMD : Decl) (OverriddenMethods : gset SymbolID)
  : option (gset SymbolID) :=
  getOverriddenMethods_walk fuel Ctx (getOverriddenMethods Ctx) OMD
    OverriddenMethods.

(** ** findReferences *)

Definition stringifyContainerForMainFileRef (AST : RequestAST)
    (Container : option Decl) : option string :=
  match Container with
  | Some ND =>
      if isa_NamedDecl AST ND then Some (printQualifiedName AST ND) else None
  | None => None
  end.

(** A reference of the answer without container name. *)
Definition plain_reference (Loc : Location) (Attributes : Z)
  : ResultReference :=
  mkResultReference (mkReferenceLocation Loc None) Attributes.

Definition set_containerName (Name : option string) (R : ResultReference)
  : ResultReference :=
  mkResultReference
    (mkReferenceLocation (rl_Location (res_Loc R)) Name) (Attributes R).

(** [maybeFindIncludeReferences]. *)
Definition maybeFindIncludeReferences (AST : RequestAST) (Pos : Position)
    (URIMainFile : string) : option ReferencesResult :=
  match list_find (λ Inc, HashLine Inc = line Pos) (MainFileIncludes AST) with
  | None => None
  | Some (_, IncludeOnLine) =>
      let SM := getSourceManager AST in
      let References :=
        omap (λ Ref,
                if negb (used_Explicit Ref)
                   || negb (used_isPreferredProvider Ref IncludeOnLine)
                then None
                else
                  let Token := used_Token Ref in
                  Some (plain_reference
                          (mkLocation URIMainFile
                             (mkRange
                                (sourceLocToPosition SM (tok_location Token))
                                (sourceLocToPosition SM
                                   (tok_location Token + tok_length Token))))
                          0))
          (walkUsed AST) in
      match References with
      | [] => None
      | _ =>
          Some (mkReferencesResult
                  (References
                   ++ [plain_reference
                         (mkLocation URIMainFile
                            (rangeTillEOL AST (HashOffset IncludeOnLine)))
                         0])
                  false)
      end
  end.

(** The references to a macro in the main file, and the id to query. *)
Definition findReferences_macro (AST : RequestAST) (URIMainFile : string)
    (Macro : DefinedMacro) : list ResultReference * gset SymbolID :=
  if SymbolID_isNull (macro_ID Macro) then ([], ∅)
  else
    ((λ Ref,
        plain_reference (mkLocation URIMainFile (macro_toRange Ref))
          (if IsDefinition Ref
           then Z.lor (Z.lor 0 Attr_Declaration) Attr_Definition
           else 0))
       <$> default [] (MacroRefs AST !! macro_ID Macro),
     {[macro_ID Macro]}).

(** The first loop over the declarations: the targets in the main file
    and the ids to query. *)
Definition findReferences_targets (AST : RequestAST) (Decls : list Decl)
  : list Decl * gset SymbolID :=
  foldl (λ (st : list Decl * gset SymbolID) D,
           let ID := getSymbolID (getASTContext AST) D in
           if SymbolID_isNull ID then st
           else if getParentFunctionOrMethod AST D then (st.1 ++ [D], st.2)
           else (st.1 ++ [D], {[ID]} ∪ st.2))
    ([], ∅) Decls.

(** The second loop, run when there is an index: the subjects of the
    [OverriddenBy] query and the overridden methods. *)
Definition findReferences_overrides (fuel : nat) (AST : RequestAST)
    (Decls : list Decl) : option (gset SymbolID * gset SymbolID) :=
  let Ctx := getASTContext AST in
  foldl (λ st ND,
           st ≫= λ '(Subjects, OverriddenMethods),
             let K := getKind Ctx ND in
             if isa K CXXMethod then
               if isVirtual Ctx ND then
                 let Subjects :=
                   if SymbolID_isNull (getSymbolID Ctx ND) then Subjects
                   else {[getSymbolID Ctx ND]} ∪ Subjects in
                 (Subjects,.) <$>
                   getOverriddenMethods_CXXMethod fuel Ctx ND OverriddenMethods
               else Some (Subjects, OverriddenMethods)
             else if isa K ObjCMethod then
               ({[getSymbolID Ctx ND]} ∪ Subjects,.) <$>
                 getOverriddenMethods_ObjCMethod fuel Ctx ND OverriddenMethods
             else Some (Subjects, OverriddenMethods))
    (Some (∅, ∅)) Decls.

(** [llvm::unique] with the equality of the token locations. *)
Fixpoint unique_location_from (last : ReferenceFinder.Reference)
    (l : list ReferenceFinder.Reference) : list ReferenceFinder.Reference :=
  match l with
  | [] => []
  | r :: l' =>
      if tok_location (ReferenceFinder.SpelledTok last)
         =? tok_location (ReferenceFinder.SpelledTok r)
      then unique_location_from last l'
      else r :: unique_location_from r l'
  end.

Definition unique_location (l : list ReferenceFinder.Reference)
  : list ReferenceFinder.Reference :=
  match l with
  | [] => []
  | r :: l' => r :: unique_location_from r l'
  end.

(** The attributes of a reference of the main file, from its roles. *)
Definition attributes_of_role (Role : SymbolRoleSet) : Z :=
  let Attributes :=
    if Z.land Role SymbolRole_Declaration =? 0 then 0
    else Z.lor 0 Attr_Declaration in
  if Z.land Role SymbolRole_Definition =? 0 then Attributes
  else Z.lor Attributes (Z.lor Attr_Definition Attr_Declaration).

Definition findReferences_mainFileRef (AST : RequestAST)
    (URIMainFile : string) (AddContext : bool)
    (Ref : ReferenceFinder.Reference) : ResultReference :=
  let Tok := ReferenceFinder.SpelledTok Ref in
  mkResultReference
    (mkReferenceLocation
       (mkLocation URIMainFile
          (halfOpenToRange (getSourceManager AST) (tok_location Tok)
             (tok_location Tok + tok_length Tok)))
       (if AddContext
        then stringifyContainerForMainFileRef AST (ReferenceFinder.Container Ref)
        else None))
    (attributes_of_role (ReferenceFinder.Role Ref)).

(** The callback of the [OverriddenBy] query. The state is the
    references, [HasMore], [RefIndexForContainer] (in which
    [DenseMap::insert] keeps an earlier entry) and the ids of the
    container lookup. *)
Definition OverridesState : Type :=
  list ResultReference * bool * gmap SymbolID nat * gset SymbolID.

Definition overrides_push (Object : Symbol) (Loc : Location) (Attributes : Z)
    (st : OverridesState) : OverridesState :=
  let '(Refs, More, RefIndexForContainer, IDs) := st in
  (Refs ++ [plain_reference Loc Attributes], More,
   match RefIndexForContainer !! sym_ID Object with
   | Some _ => RefIndexForContainer
   | None => <[sym_ID Object := length Refs]> RefIndexForContainer
   end,
   {[sym_ID Object]} ∪ IDs).

Definition findReferences_override (L : Library) (MainFilePath : string)
    (Limit : Z) (st : OverridesState) (Answer : SymbolID * Symbol)
  : OverridesState :=
  let '(Refs, More, RefIndexForContainer, IDs) := st in
  let Object := Answer.2 in
  if negb (Limit =? 0) && (Limit <=? Z.of_nat (length Refs))
  then (Refs, true, RefIndexForContainer, IDs)
  else
    let LSPLocDecl :=
      toLSPLocation L (sym_CanonicalDeclaration Object) MainFilePath in
    let LSPLocDef := toLSPLocation L (sym_Definition Object) MainFilePath in
    let st :=
      match LSPLocDecl with
      | Some Loc =>
          if bool_decide (LSPLocDecl ≠ LSPLocDef)
          then overrides_push Object Loc
                 (Z.lor Attr_Declaration Attr_Override) st
          else st
      | None => st
      end in
    match LSPLocDef with
    | Some Loc =>
        overrides_push Object Loc
          (Z.lor (Z.lor Attr_Declaration Attr_Definition) Attr_Override) st
    | None => st
    end.

(** The container lookup after the overrides: the callback asserts that
    the answer is a key of [RefIndexForContainer]; [None] is the failed
    assert. *)
Definition findReferences_overrideContainer
    (RefIndexForContainer : gmap SymbolID nat)
    (Refs : option (list ResultReference)) (Container : Symbol)
  : option (list ResultReference) :=
  Refs ≫= λ Refs,
    match RefIndexForContainer !! sym_ID Container with
    | None => None
    | Some Idx =>
        Some (alter (set_containerName
                       (Some (sym_Scope Container +:+ sym_Name Container)))
                Idx Refs)
    end.

(** The declarations at the cursor: the references in the main file, the
    overrides from the index, and the two sets of ids to query. *)
Definition findReferences_decls (fuel : nat) (L : Library) (AST : RequestAST)
    (CurLoc : SourceLocation) (Limit : Z) (Index : option RefsIndex)
    (AddContext : bool) (URIMainFile : string)
  : option (ReferencesResult * gset SymbolID * gset SymbolID) :=
  let MainFilePath := tuPath AST in
  let Relations := Z.lor DeclRelation_TemplatePattern DeclRelation_Alias in
  let Decls := getDeclAtPosition AST CurLoc Relations in
  let '(TargetsInMainFile, IDsToQuery) := findReferences_targets AST Decls in
  match (match Index with
         | Some _ => findReferences_overrides fuel AST Decls
         | None => Some (∅, ∅)
         end) with
  | None => None
  | Some (Subjects, OverriddenMethods) =>
      let MainFileRefs :=
        unique_location (findRefs TargetsInMainFile AST false) in
      let Refs :=
        findReferences_mainFileRef AST URIMainFile AddContext
          <$> MainFileRefs in
      match Index with
      | Some Index =>
          if bool_decide (Subjects = ∅)
          then Some (mkReferencesResult Refs false, IDsToQuery,
                     OverriddenMethods)
          else
            let '(Refs, More, RefIndexForContainer, IDs) :=
              foldl (findReferences_override L MainFilePath Limit)
                (Refs, false, ∅, ∅)
                (relations Index OverriddenBy Subjects) in
            (λ Refs, (mkReferencesResult Refs More, IDsToQuery,
                      OverriddenMethods))
            <$> (if negb (bool_decide (IDs = ∅)) && AddContext
                 then foldl (findReferences_overrideContainer
                               RefIndexForContainer)
                        (Some Refs) (lookup Index IDs)
                 else Some Refs)
      | None =>
          Some (mkReferencesResult Refs false, IDsToQuery, OverriddenMethods)
      end
  end.

(** The callback of [Index->refs] in the lambda [QueryIndex]. The state is
    the references, the ids of the container lookup and
    [RefIndicesForContainer]. *)
Definition QueryIndex_ref (L : Library) (MainFilePath : string)
    (AddContext AllowAttributes AllowMainFileSymbols : bool)
    (st : list ResultReference * gset SymbolID * gmap SymbolID (list nat))
    (R : Ref)
  : list ResultReference * gset SymbolID * gmap SymbolID (list nat) :=
  let '(Refs, IDs, RefIndicesForContainer) := st in
  match toLSPLocation L (ref_Location R) MainFilePath with
  | None => st
  | Some LSPLoc =>
      if negb AllowMainFileSymbols
         && bool_decide (URIForFile_file L (uri LSPLoc) = MainFilePath)
      then st
      else
        let Attributes :=
          if AllowAttributes then
            let Attributes :=
              if Z.land (ref_Kind R) RefKind_Declaration =? RefKind_Declaration
              then Z.lor 0 Attr_Declaration else 0 in
            if Z.land (ref_Kind R) RefKind_Definition =? RefKind_Definition
            then Z.lor Attributes (Z.lor Attr_Declaration Attr_Definition)
            else Attributes
          else 0 in
        let '(IDs, RefIndicesForContainer) :=
          if AddContext
          then ({[ref_Container R]} ∪ IDs,
                <[ref_Container R :=
                    default [] (RefIndicesForContainer !! ref_Container R)
                    ++ [length Refs]]> RefIndicesForContainer)
          else (IDs, RefIndicesForContainer) in
        (Refs ++ [plain_reference LSPLoc Attributes], IDs,
         RefIndicesForContainer)
  end.

Definition QueryIndex_container
    (RefIndicesForContainer : gmap SymbolID (list nat))
    (Refs : option (list ResultReference)) (Container : Symbol)
  : option (list ResultReference) :=
  Refs ≫= λ Refs,
    match RefIndicesForContainer !! sym_ID Container with
    | None => None
    | Some Indices =>
        let ContainerName := sym_Scope Container +:+ sym_Name Container in
        Some (foldl (λ Refs Idx,
                       alter (set_containerName (Some ContainerName)) Idx Refs)
                Refs Indices)
    end.

(** The lambda [QueryIndex]: the answer after the query. The request
    limit is unset for a [Limit] of zero; otherwise it is what is left
    of the limit, zero when the references are more than the limit. *)
Definition QueryIndex (L : Library) (MainFilePath : string) (Limit : Z)
    (Index : option RefsIndex) (AddContext : bool)
    (Results : ReferencesResult) (IDs : gset SymbolID)
    (AllowAttributes AllowMainFileSymbols : bool)
  : option ReferencesResult :=
  match Index with
  | None => Some Results
  | Some Index =>
      if bool_decide (IDs = ∅) || HasMore Results then Some Results
      else
        let Size := Z.of_nat (length (References Results)) in
        let Req :=
          mkRefsRequest IDs RefKind_All
            (if Limit =? 0 then None
             else if Limit <? Size then Some 0
             else Some (Limit - Size))
            false in
        let '(Refs, ContainerIDs, RefIndicesForContainer) :=
          foldl (QueryIndex_ref L MainFilePath AddContext AllowAttributes
                   AllowMainFileSymbols)
            (References Results, ∅, ∅) (refs Index Req).1 in
        let More := HasMore Results || (refs Index Req).2 in
        (λ Refs, mkReferencesResult Refs More)
        <$> (if negb (bool_decide (ContainerIDs = ∅)) && AddContext
             then foldl (QueryIndex_container RefIndicesForContainer)
                    (Some Refs) (lookup Index ContainerIDs)
             else Some Refs)
  end.

Definition findReferences (fuel : nat) (L : Library) (AST : RequestAST)
    (Pos : Position) (Limit : Z) (Index : option RefsIndex)
    (AddContext : bool) : option ReferencesResult :=
  let SM := getSourceManager AST in
  let MainFilePath := tuPath AST in
  let URIMainFile := URIForFile_canonicalize L MainFilePath MainFilePath in
  match sourceLocationInMainFile SM Pos with
  | None => Some (mkReferencesResult [] false)
  | Some CurLoc =>
      match maybeFindIncludeReferences AST Pos URIMainFile with
      | Some IncludeReferences => Some IncludeReferences
      | None =>
          let IdentifierAtCursor := spelledIdentifierTouching AST CurLoc in
          let Macro := IdentifierAtCursor ≫= locateMacroAt AST in
          match (match Macro with
                 | Some Macro =>
                     let '(Refs, IDsToQuery) :=
                       findReferences_macro AST URIMainFile Macro in
                     Some (mkReferencesResult Refs false, IDsToQuery, ∅)
                 | None =>
                     findReferences_decls fuel L AST CurLoc Limit Index
                       AddContext URIMainFile
                 end) with
          | None => None
          | Some (Results, IDsToQuery, OverriddenMethods) =>
              QueryIndex L MainFilePath Limit Index AddContext Results
                IDsToQuery true false
              ≫= λ Results,
                QueryIndex L MainFilePath Limit Index AddContext Results
                  OverriddenMethods false true
          end
      end
  end.

(** ** Related control flow and document highlights *)

(** The kinds of node the search for control flow tells apart:
    [FK_Function] is a [FunctionDecl], [BlockDecl], [LambdaExpr] or
    [ObjCMethodDecl]; [FK_Loop] a [ForStmt], [CXXForRangeStmt],
    [WhileStmt] or [DoStmt]; [FK_SwitchCase] a [CaseStmt] or a
    [DefaultStmt]; [FK_Other] any other declaration or statement. *)
Inductive FlowKind :=
| FK_Function | FK_Loop | FK_Switch | FK_Return | FK_Break | FK_Continue
| FK_SwitchCase | FK_Throw | FK_Goto | FK_Other.

#[global] Instance FlowKind_eq_dec : EqDecision FlowKind.
Proof. solve_decision. Defined.

(** An entry of the list of cases of a switch: the node of the case, the
    location of its keyword and the node that is its substatement. *)
Record SwitchCase := mkSwitchCase {
  case_node : nat;
  case_KeywordLoc : SourceLocation;
  case_SubStmt : nat
}.

(** A node of the AST. [node] names the node, as its address does;
    [Loc] is the location of the keyword of the statement
    ([getReturnLoc], [getBreakLoc], [getContinueLoc], [getKeywordLoc],
    [getThrowLoc], [getGotoLoc], [getSwitchLoc]); [Label] the location of
    the label a [goto] names, if it names one; [Begin] and [End] are the
    source range; [Body] is [getBody()], which may be null; [Cases] lists
    [getSwitchCaseList()] along [getNextSwitchCase()]; [children] are the
    nodes [RecursiveASTVisitor] traverses from the node, in its order. *)
#[warnings="-register-all"] Inductive FlowNode :=
| mkFlowNode (kind : FlowKind) (node : nat) (Loc : SourceLocation)
    (Label : option SourceLocation) (Begin End : SourceLocation)
    (Body : option FlowNode) (Cases : list SwitchCase)
    (children : list FlowNode).

Definition flow_kind (N : FlowNode) : FlowKind :=
  match N with mkFlowNode k _ _ _ _ _ _ _ _ => k end.
Definition flow_node (N : FlowNode) : nat :=
  match N with mkFlowNode _ n _ _ _ _ _ _ _ => n end.
Definition flow_Loc (N : FlowNode) : SourceLocation :=
  match N with mkFlowNode _ _ l _ _ _ _ _ _ => l end.
Definition flow_Label (N : FlowNode) : option SourceLocation :=
  match N with mkFlowNode _ _ _ l _ _ _ _ _ => l end.
Definition flow_Begin (N : FlowNode) : SourceLocation :=
  match N with mkFlowNode _ _ _ _ b _ _ _ _ => b end.
Definition flow_End (N : FlowNode) : SourceLocation :=
  match N with mkFlowNode _ _ _ _ _ e _ _ _ => e end.
Definition flow_Body (N : FlowNode) : option FlowNode :=
  match N with mkFlowNode _ _ _ _ _ _ b _ _ => b end.
Definition flow_Cases (N : FlowNode) : list SwitchCase :=
  match N with mkFlowNode _ _ _ _ _ _ _ c _ => c end.
Definition flow_children (N : FlowNode) : list FlowNode :=
  match N with mkFlowNode _ _ _ _ _ _ _ _ c => c end.

Definition getFunctionBody (N : FlowNode) : option FlowNode :=
  match flow_kind N with
  | FK_Function => flow_Body N
  | _ => None
  end.

Definition getLoopBody (N : FlowNode) : option FlowNode :=
  match flow_kind N with
  | FK_Loop => flow_Body N
  | _ => None
  end.

(** [SourceRange]: a pair of locations; a location is valid unless it is
    the null location, and a default-constructed range holds two null
    locations. *)
Definition SourceRange : Type := SourceLocation * SourceLocation.

Definition SourceLocation_isValid (Loc : SourceLocation) : bool :=
  negb (Loc =? 0).

Definition SourceRange_isValid (R : SourceRange) : bool :=
  SourceLocation_isValid R.1 && SourceLocation_isValid R.2.

Definition SourceRange_default : SourceRange := (0, 0).

(** [FindControlFlow]: the visitor. [Ignore] is passed down, which is
    what restoring it on the way up amounts to. *)
Module FindControlFlow.

Definition Break : Z := 1.
Definition Continue : Z := 2.
Definition Return : Z := 4.
Definition Case : Z := 8.
Definition Throw : Z := 16.
Definition Goto : Z := 32.
Definition All : Z :=
  Z.lor (Z.lor (Z.lor (Z.lor (Z.lor Break Continue) Return) Case) Throw) Goto.

(** [filterAndTraverse]: the mask for the traversal into [D]. *)
Definition filter_Ignore (Ignore : Z) (D : FlowNode) : Z :=
  if bool_decide (is_Some (getFunctionBody D)) then All
  else if bool_decide (is_Some (getLoopBody D))
  then Z.lor Ignore (Z.lor Continue Break)
  else if bool_decide (flow_kind D = FK_Switch)
  then Z.lor Ignore (Z.lor Break Case)
  else Ignore.

Definition found (SM : SourceManager) (Bounds : SourceRange) (Ignore : Z)
    (T : Z) (Loc : SourceLocation) (Result : list SourceLocation)
  : list SourceLocation :=
  if negb (Z.land T Ignore =? 0) then Result
  else if isBeforeInTranslationUnit SM Loc Bounds.1
          || isBeforeInTranslationUnit SM Bounds.2 Loc
  then Result
  else Result ++ [Loc].

(** The [Visit] methods, by the kind of the node. *)
Definition Visit (SM : SourceManager) (Bounds : SourceRange) (Ignore : Z)
    (N : FlowNode) (Result : list SourceLocation) : list SourceLocation :=
  match flow_kind N with
  | FK_Return => found SM Bounds Ignore Return (flow_Loc N) Result
  | FK_Break => found SM Bounds Ignore Break (flow_Loc N) Result
  | FK_Continue => found SM Bounds Ignore Continue (flow_Loc N) Result
  | FK_SwitchCase => found SM Bounds Ignore Case (flow_Loc N) Result
  | FK_Throw => found SM Bounds Ignore Throw (flow_Loc N) Result
  | FK_Goto =>
      match flow_Label N with
      | Some LD =>
          if isBeforeInTranslationUnit SM LD Bounds.1
             || isBeforeInTranslationUnit SM Bounds.2 LD
          then found SM Bounds Ignore Goto (flow_Loc N) Result
          else Result
      | None => Result
      end
  | _ => Result
  end.

(** [TraverseDecl] and [TraverseStmt]: the subtree is pruned when nothing
    is looked for; otherwise the node is visited and then its children
    are traversed. *)
Fixpoint Traverse (SM : SourceManager) (Bounds : SourceRange) (Ignore : Z)
    (N : FlowNode) (Result : list SourceLocation) {struct N}
  : list SourceLocation :=
  match N with
  | mkFlowNode _ _ _ _ _ _ _ _ children =>
      let Ignore := filter_Ignore Ignore N in
      if Ignore =? All then Result
      else
        foldl (λ Result C, Traverse SM Bounds Ignore C Result)
          (Visit SM Bounds Ignore N Result) children
  end.

End FindControlFlow.

(** [std::partition_point], the binary search: [first] and [len]
    delimit the range still searched. *)
Fixpoint partition_point_search {A} (P : A → bool) (l : list A)
    (fuel first len : nat) : nat :=
  match fuel with
  | O => first
  | Datatypes.S fuel' =>
      match len with
      | O => first
      | _ =>
          let half := (len / 2)%nat in
          let mid := (first + half)%nat in
          match l !! mid with
          | Some x =>
              if P x
              then partition_point_search P l fuel' (mid + 1)
                     (len - (half + 1))
              else partition_point_search P l fuel' first half
          | None => first
          end
      end
  end.

(** [llvm::partition_point]: the index of the answer. The length of the
    range halves at every step, so as many steps as it is long are
    enough. *)
Definition partition_point_index {A} (P : A → bool) (l : list A) : nat :=
  partition_point_search P l (length l) 0 (length l).

(** The comparator [findCaseBounds] hands to [llvm::sort], and the order
    the sort establishes. *)
Definition case_before (SM : SourceManager) (L R : SwitchCase) : bool :=
  isBeforeInTranslationUnit SM (case_KeywordLoc L) (case_KeywordLoc R).

Definition case_not_after (SM : SourceManager) (L R : SwitchCase) : Prop :=
  case_before SM R L = false.

#[global] Instance case_not_after_dec SM L R : Decision (case_not_after SM L R).
Proof. unfold case_not_after. apply _. Defined.

(** The loop that rewinds [CaseBefore] to the first case of a sequence
    [case A: case B: ...]: the index after it. *)
Fixpoint findCaseBounds_rewind (Cases : list SwitchCase) (CaseBefore : nat)
  : nat :=
  match CaseBefore with
  | O => O
  | Datatypes.S Prev =>
      match Cases !! Prev, Cases !! CaseBefore with
      | Some P, Some C =>
          if (case_SubStmt P =? case_node C)%nat
          then findCaseBounds_rewind Cases Prev
          else CaseBefore
      | _, _ => CaseBefore
      end
  end.

Definition findCaseBounds (Switch : FlowNode) (Loc : SourceLocation)
    (SM : SourceManager) : SourceRange :=
  let Cases := merge_sort (case_not_after SM) (flow_Cases Switch) in
  let CaseAfter :=
    partition_point_index
      (λ C, negb (isBeforeInTranslationUnit SM Loc (case_KeywordLoc C)))
      Cases in
  let End :=
    match Cases !! CaseAfter with
    | None => flow_End Switch
    | Some C => case_KeywordLoc C
    end in
  match CaseAfter with
  | O => (flow_Begin Switch, End)
  | Datatypes.S CaseBefore =>
      match Cases !! findCaseBounds_rewind Cases CaseBefore with
      | Some C => (case_KeywordLoc C, End)
      | None => (flow_Begin Switch, End)
      end
  end.

(** The leaf under the cursor that [relatedControlFlow] resolves to a
    root. *)
Inductive Cur :=
| Cur_None | Cur_Break | Cur_Continue | Cur_Return | Cur_Case | Cur_Throw.

#[global] Instance Cur_eq_dec : EqDecision Cur.
Proof. solve_decision. Defined.

(** The walk up the tree for a root: the root, the bounds and the
    locations after it. [Start] is the beginning of the node under the
    cursor. *)
Fixpoint relatedControlFlow_root (SM : SourceManager) (Cursor : Cur)
    (Start : SourceLocation) (Path : list FlowNode)
    (Result : list SourceLocation)
  : option FlowNode * SourceRange * list SourceLocation :=
  match Path with
  | [] => (None, SourceRange_default, Result)
  | P :: Path' =>
      match getFunctionBody P with
      | Some FunctionBody =>
          (if bool_decide (Cursor = Cur_Return ∨ Cursor = Cur_Throw)
           then Some FunctionBody else None,
           SourceRange_default, Result)
      | None =>
          if bool_decide (is_Some (getLoopBody P))
             && bool_decide (Cursor = Cur_None ∨ Cursor = Cur_Break
                             ∨ Cursor = Cur_Continue)
          then (getLoopBody P, SourceRange_default, Result ++ [flow_Begin P])
          else if bool_decide (flow_kind P = FK_Switch)
                  && bool_decide (Cursor = Cur_Break ∨ Cursor = Cur_Case)
          then (flow_Body P, findCaseBounds P Start SM,
                Result ++ [flow_Loc P])
          else if bool_decide (Cursor = Cur_None)
          then (None, SourceRange_default, Result)
          else relatedControlFlow_root SM Cursor Start Path' Result
      end
  end.

(** [relatedControlFlow] on the node [N] whose ancestors in the selection
    tree are [Parents], the nearest first. *)
Definition relatedControlFlow (SM : SourceManager) (N : FlowNode)
    (Parents : list FlowNode) : list SourceLocation :=
  let '(Cursor, Result) :=
    match flow_kind N with
    | FK_Break => (Cur_Break, [])
    | FK_Continue => (Cur_Continue, [])
    | FK_Return => (Cur_Return, [])
    | FK_Throw => (Cur_Throw, [])
    | FK_SwitchCase => (Cur_Case, [])
    | FK_Goto =>
        (Cur_None,
         [flow_Loc N]
         ++ match flow_Label N with Some LD => [LD] | None => [] end)
    | _ => (Cur_None, [])
    end in
  let '(Root, Bounds, Result) :=
    relatedControlFlow_root SM Cursor (flow_Begin N) (N :: Parents) Result in
  match Root with
  | None => Result
  | Some Root =>
      let Bounds :=
        if negb (SourceRange_isValid Bounds)
        then (flow_Begin Root, flow_End Root) else Bounds in
      FindControlFlow.Traverse SM Bounds 0 Root Result
  end.

(** [DocumentHighlight]; a default-constructed one is of the kind
    [Text]. *)
Inductive DocumentHighlightKind := DHK_Text | DHK_Read | DHK_Write.

Record DocumentHighlight := mkDocumentHighlight {
  dh_range : Range;
  dh_kind : DocumentHighlightKind
}.

(** [toHighlight] of a reference. *)
Definition toHighlight (Ref : ReferenceFinder.Reference) (SM : SourceManager)
  : DocumentHighlight :=
  let Tok := ReferenceFinder.SpelledTok Ref in
  mkDocumentHighlight
    (halfOpenToRange SM (tok_location Tok) (tok_location Tok + tok_length Tok))
    (if negb (Z.land (ReferenceFinder.Role Ref) SymbolRole_Write =? 0)
     then DHK_Write
     else if negb (Z.land (ReferenceFinder.Role Ref) SymbolRole_Read =? 0)
     then DHK_Read
     else DHK_Text).

(** [toHighlight] of a location. *)
Definition toHighlight_Loc (Loc : SourceLocation) (SM : SourceManager)
    (TB : TokenBuffer) : option DocumentHighlight :=
  match spelledTokenContaining TB (getFileLoc SM Loc) with
  | Some Tok =>
      Some (mkDocumentHighlight
              (halfOpenToRange SM (tok_location Tok)
                 (tok_location Tok + tok_length Tok))
              DHK_Text)
  | None => None
  end.

(** The parsed file with the AST node of every node of a selection
    tree. *)
Record HighlightAST := mkHighlightAST {
  highlight_AST :> ParsedAST;
  node_ASTNode : SelectionNode → FlowNode
}.

(** The ancestors of a node of a selection tree, the nearest first. *)
Fixpoint node_Parents (N : SelectionNode) : list SelectionNode :=
  match N with
  | mkSelectionNode _ _ _ (Some P) => P :: node_Parents P
  | mkSelectionNode _ _ _ None => []
  end.

(** The callback [TryTree] of [findDocumentHighlights], run over the
    trees until it answers true. *)
Fixpoint findDocumentHighlights_trees (AST : HighlightAST)
    (Trees : list (option SelectionNode)) : list DocumentHighlight :=
  match Trees with
  | [] => []
  | None :: Trees' => findDocumentHighlights_trees AST Trees'
  | Some N :: Trees' =>
      let SM := getSourceManager AST in
      let Relations := Z.lor DeclRelation_TemplatePattern DeclRelation_Alias in
      let TargetDecls :=
        (filter (λ Entry, Z.land Entry.2 (Z.lnot Relations) = 0)
           (allTargetDecls N)).*1 in
      match TargetDecls with
      | _ :: _ => (λ Ref, toHighlight Ref SM) <$> findRefs TargetDecls AST true
      | [] =>
          let ControlFlow :=
            relatedControlFlow SM (node_ASTNode AST N)
              (node_ASTNode AST <$> node_Parents N) in
          match ControlFlow with
          | _ :: _ =>
              omap (λ Loc, toHighlight_Loc Loc SM (getTokens AST)) ControlFlow
          | [] => findDocumentHighlights_trees AST Trees'
          end
      end
  end.

Definition findDocumentHighlights (AST : HighlightAST) (Pos : Position)
  : list DocumentHighlight :=
  match sourceLocationInMainFile (getSourceManager AST) Pos with
  | None => []
  | Some CurLoc =>
      findDocumentHighlights_trees AST
        (createEach AST (getDecomposedSpellingLoc AST CurLoc))
  end.

(** ** getTypeHierarchy *)

(** The parsed file with what the type hierarchy asks of the AST:
    [explicitReferenceTargets] on the node of a selection tree, with the
    relation [Underlying]; the record the type of a variable names
    ([getAsCXXRecordDecl] on its type, which may be null); the class of a
    method; and the pattern a class template specialization was
    instantiated from, which is null for one that was not
    instantiated. *)
Record HierarchyAST := mkHierarchyAST {
  hierarchy_AST :> ParsedAST;
  explicitReferenceTargets : SelectionNode → list Decl;
  getAsCXXRecordDecl : Decl → option Decl;
  getParent : Decl → Decl;
  getTemplateInstantiationPattern : Decl → option Decl
}.

(** The lambda [RecordFromNode] of [findRecordTypeAt]. *)
Definition findRecordTypeAt_RecordFromNode (AST : HierarchyAST)
    (N : option SelectionNode) : list Decl :=
  match N with
  | None => []
  | Some N =>
      foldl (λ Records D,
               let K := getKind (getASTContext AST) D in
               if isa_VarDecl K then
                 match getAsCXXRecordDecl AST D with
                 | Some RD => Records ++ [RD]
                 | None => Records
                 end
               else if isa K CXXMethod then Records ++ [getParent AST D]
               else if isa_CXXRecordDecl K then Records ++ [D]
               else Records)
        [] (explicitReferenceTargets AST N)
  end.

(** The callback of [findRecordTypeAt], run over the trees until it
    answers true; it writes the result for every tree. *)
Fixpoint findRecordTypeAt_trees (AST : HierarchyAST)
    (Trees : list (option SelectionNode)) (Result : list Decl) : list Decl :=
  match Trees with
  | [] => Result
  | N :: Trees' =>
      let Result := findRecordTypeAt_RecordFromNode AST N in
      match Result with
      | _ :: _ => Result
      | [] => findRecordTypeAt_trees AST Trees' Result
      end
  end.

Definition findRecordTypeAt (AST : HierarchyAST) (Pos : Position)
  : list Decl :=
  match positionToOffset AST Pos with
  | None => []
  | Some Offset => findRecordTypeAt_trees AST (createEach AST Offset) []
  end.

(** One turn of the loop of [getTypeHierarchy]. The outer [None] is the
    null pattern dereferenced, or the depth allowed to [fillSuperTypes]
    used up. *)
Definition getTypeHierarchy_record (fuel : nat) (L : Library)
    (AST : HierarchyAST) (ResolveLevels : Z)
    (Direction : TypeHierarchyDirection) (Index : option SymbolIndex)
    (TUPath : string) (Results : option (list TypeHierarchyEntry))
    (CXXRD : Decl) : option (list TypeHierarchyEntry) :=
  Results ≫= λ Results,
    let Ctx := getASTContext AST in
    let WantChildren :=
      bool_decide (Direction = Direction_Children)
      || bool_decide (Direction = Direction_Both) in
    match (if WantChildren
              && isa (getKind Ctx CXXRD) ClassTemplateSpecialization
           then getTemplateInstantiationPattern AST CXXRD
           else Some CXXRD) with
    | None => None
    | Some CXXRD =>
        match declToTypeHierarchyItem L AST CXXRD (tuPath AST) with
        | None => Some Results
        | Some Result =>
            match fillSuperTypes fuel L AST (tuPath AST) CXXRD Result ∅ with
            | None => None
            | Some (Result, _) =>
                let children :=
                  if WantChildren && (0 <? ResolveLevels) then
                    Some (match Index with
                          | Some Index =>
                              if SymbolID_isNull (getSymbolID Ctx CXXRD)
                              then []
                              else fillSubTypes L (getSymbolID Ctx CXXRD) []
                                     Index ResolveLevels TUPath
                          | None => []
                          end)
                  else None in
                Some (Results ++ [mkTypeHierarchyEntry Result "" children])
            end
        end
    end.

Definition getTypeHierarchy (fuel : nat) (L : Library) (AST : HierarchyAST)
    (Pos : Position) (ResolveLevels : Z) (Direction : TypeHierarchyDirection)
    (Index : option SymbolIndex) (TUPath : string)
  : option (list TypeHierarchyEntry) :=
  foldl (getTypeHierarchy_record fuel L AST ResolveLevels Direction Index
           TUPath)
    (Some []) (findRecordTypeAt AST Pos).

(** ** unwrapFindType *)

(** A type, by what [unwrapFindType] asks of it, in the order it asks:
    whether it is null; whether it is (sugar for) a typedef; a pointer, a
    reference, an array or a function; the closure type of a lambda, with
    the return type of its call operator; or any other type, with the
    pointee type the heuristic resolver gives for it ([FT_Null] when it
    gives none). The numbers name the alias and the type. *)
Inductive FoundType :=
| FT_Null
| FT_Typedef (alias : nat)
| FT_Pointer (Pointee : FoundType)
| FT_Reference (Pointee : FoundType)
| FT_Array (Element : FoundType)
| FT_Function (Return : FoundType)
| FT_Lambda (Return : FoundType)
| FT_Other (type : nat) (PointeeType : FoundType).

#[global] Instance FoundType_eq_dec : EqDecision FoundType.
Proof. solve_decision. Defined.

(** [unwrapFindType]: the types after the call. [H] tells whether there
    is a heuristic resolver. *)
Fixpoint unwrapFindType (T : FoundType) (H : bool) (Out : list FoundType)
  : list FoundType :=
  match T with
  | FT_Null => Out
  | FT_Typedef _ => Out ++ [T]
  | FT_Pointer Pointee => unwrapFindType Pointee H Out
  | FT_Reference Pointee => unwrapFindType Pointee H Out
  | FT_Array Element => unwrapFindType Element H Out
  | FT_Function Return => unwrapFindType Return H Out
  | FT_Lambda Return => unwrapFindType Return H Out
  | FT_Other _ PointeeType =>
      if H then
        match PointeeType with
        | FT_Null => Out ++ [T]
        | _ => unwrapFindType PointeeType H Out ++ [T]
        end
      else Out ++ [T]
  end.

(** * Fixtures

    Small concrete files, indexes and library routines on which the
    functions are run. *)

Module Fixture.

(** Library routines: only [file://] URIs resolve to a path; the merge
    keeps the location of its first symbol unless that one is empty; a
    file name is what follows the last slash; the score of a symbol is
    read off its id. *)
Fixpoint after_last_slash (s acc : string) : string :=
  match s with
  | EmptyString => acc
  | String c s' =>
      if Ascii.eqb c (Ascii.ascii_of_nat 47) then after_last_slash s' s'
      else after_last_slash s' acc
  end.

Definition support : Support :=
  {| indexToLSPLocation := λ Loc TUPath,
       if String.prefix "file://" (FileURI Loc)
       then Some (mkLocation (FileURI Loc) (mkRange (Start Loc) (End_ Loc)))
       else None;
     mergeSymbol := λ L R,
       if SymbolLocation_bool (sym_CanonicalDeclaration L) then L else R;
     mock_symbol_id := 4919;
     path_filename := λ Path, after_last_slash Path Path;
     URIForFile_canonicalize := λ Path TUPath, "file://" +:+ Path;
     evaluateSymbolAndRelevance := λ Sym, 10 * sym_ID Sym |}.

Definition main_path : string := "/src/main.cpp".

(** A source manager over one buffer: every location is an offset of the
    main file, a position is read as (line 0, offset). *)
Definition source_manager (buffer : string) : SourceManager :=
  {| bufferData := buffer;
     isInsideMainFile := λ _, true;
     getFileLoc := λ Loc, Loc;
     getSpellingLoc := λ Loc, Loc;
     isBeforeInTranslationUnit := Z.ltb;
     getFileEntryRefForID := λ _, Some main_path;
     getCanonicalPath := λ F, Some F;
     MeasureTokenLength := λ _, 1;
     halfOpenToRange := λ B E, mkRange (mkPosition 0 B) (mkPosition 0 E);
     sourceLocationInMainFile := λ Pos, Some (character Pos);
     sourceLocToPosition := λ Loc, mkPosition 0 Loc;
     getLocForEndOfToken := λ Loc, Loc + 1;
     toHalfOpenFileRange := λ B E, Some (B, E) |}.

Definition touches (Loc : SourceLocation) (T : Token) : bool :=
  (tok_location T <=? Loc) && (Loc <=? tok_location T + tok_length T).

(** A token buffer over the spelled tokens [toks]; the tokens of [dead]
    are in a disabled preprocessor region and have no expanded token. *)
Definition token_buffer (toks : list Token) (dead : list SourceLocation)
    (word : option SpelledWord) : TokenBuffer :=
  {| spelledTokens := toks;
     spelledTokensTouching := λ Loc, filter (λ T, touches Loc T = true) toks;
     spelledTokenContaining := λ Loc,
       head (filter (λ T, touches Loc T = true) toks);
     expandedTokens := λ Loc,
       filter (λ T, tok_location T = Loc ∧ Loc ∉ dead) toks;
     expansionStartingAt := λ _, false;
     SpelledWord_touching := λ _, word |}.

(** A context in which every declaration is of the kind [K], alone in its
    redeclaration chain. *)
Definition uniform_context (K : DeclKind) : ASTContext :=
  {| getKind := λ _, K;
     getCanonicalDecl := λ D, D;
     decl_getDefinition := λ _, None;
     getTemplatedDecl := λ _, None;
     isThisDeclarationADefinition := λ _, false;
     getDeclContext := λ D, D;
     isInvalidDecl := λ _, false;
     getCorrespondingObjCImpl := λ _, None;
     Impl_getMethod := λ _ _, None;
     getLocation := λ D, Z.of_nat D;
     getBeginLoc := λ D, Z.of_nat D;
     getEndLoc := λ D, Z.of_nat D;
     isPureVirtual := λ _, false;
     isVirtual := λ _, false;
     overridden_methods := λ _, [];
     getSelectorLocs := λ _, [];
     getOverriddenMethods := λ _, [];
     getSpecializedTemplate := λ D, D;
     getClassInterface := λ _, None;
     getName := λ _, "";
     nameLocation := λ D, Z.of_nat D;
     printName := λ _, "T";
     getSymbolID := λ D, Z.of_nat D + 1;
     isDeprecated := λ _, false;
     getDescribedTemplate := λ _, false;
     hasDefinition := λ _, true;
     bases := λ _, [] |}.

Definition plain_context : ASTContext := uniform_context Namespace.

(** A parsed file; every point has the one selection tree [tree]. *)
Definition parsed (SM : SourceManager) (TB : TokenBuffer)
    (Ctx : ASTContext) (includes : list Inclusion)
    (macros : Token → option DefinedMacro) (tree : option SelectionNode)
  : ParsedAST :=
  {| getSourceManager := SM;
     getTokens := TB;
     getASTContext := Ctx;
     MainFileIncludes := includes;
     tuPath := main_path;
     locateMacroAt := macros;
     getDecomposedSpellingLoc := λ Loc, Loc;
     createEach := λ _, [tree];
     getDeducedType := λ _, None;
     typeTargetDecl := λ _, [];
     visibleNamespaces := λ _, [""];
     positionToOffset := λ Pos, Some (character Pos);
     unwrapFindType_typeForNode := λ _, [];
     indexTopLevelDecls := [] |}.

Definition file_location (URI : string) (Line : Z) : SymbolLocation :=
  mkSymbolLocation URI (mkPosition Line 0) (mkPosition Line 3).

(** An index symbol [foo] declared in [a.h] at line [ID]. *)
Definition foo (ID : SymbolID) : Symbol :=
  mkSymbol ID SK_Function "foo" "" ""
    (file_location "file:///src/a.h" ID) SymbolLocation_empty.

(** An index that answers every fuzzy query with [matches]. *)
Definition fuzzy_index (matches : list Symbol) : SymbolIndex :=
  {| fuzzyFind := λ _, matches;
     lookup := λ _, [];
     relations := λ _ _, [] |}.

(** The word [foo] at offset 3 of a comment, not a token of the
    preprocessed file. *)
Definition word_foo : SpelledWord :=
  mkSpelledWord 3 "foo" true None None.

Definition comment_file : ParsedAST :=
  parsed (source_manager "// foo") (token_buffer [] [] (Some word_foo))
    plain_context [] (λ _, None) None.

End Fixture.

(** Files for the nearby-identifier search. *)
Module Fixture_Nearby.
Import Fixture.

Definition nl : string := String (Ascii.ascii_of_nat 10) EmptyString.

(** Line 1 declares [x]; line 2 is a comment that names it:
<<
int x;
// x
>> *)
Definition one_line_back : string := "int x;" +:+ nl +:+ "// x" +:+ nl.

Definition one_line_back_tokens : list Token :=
  [mkToken 0 3 tok_other; mkToken 4 1 tok_identifier; mkToken 5 1 tok_other].

Definition word_x (Loc : SourceLocation) : SpelledWord :=
  mkSpelledWord Loc "x" true None None.

(** The same with a name of two letters:
<<
int hi;
// hi
>> *)
Definition two_letters : string := "int hi;" +:+ nl +:+ "// hi" +:+ nl.

Definition two_letters_tokens : list Token :=
  [mkToken 0 3 tok_other; mkToken 4 2 tok_identifier; mkToken 6 1 tok_other].

Definition word_hi : SpelledWord := mkSpelledWord 11 "hi" true None None.

(** A comment on line 1 and the name at the first column of line 4:
<<
// x
(empty)
(empty)
x;
>> *)
Definition three_lines_on : string :=
  "// x" +:+ nl +:+ nl +:+ nl +:+ "x;" +:+ nl.

Definition three_lines_on_tokens : list Token :=
  [mkToken 7 1 tok_identifier; mkToken 8 1 tok_other].

End Fixture_Nearby.

(** A recursive template hierarchy:
<<
template <int N> struct S : S<N + 1> {};
S<0> s;
>>
    Declaration 1 is the pattern [S], declaration 2 the class template,
    declaration 0 the instantiation [S<0>], which is invalid. The base
    [S<N + 1>] is dependent and names the template. *)
Module Fixture_Hierarchy.
Import Fixture.

Definition context : ASTContext :=
  {| getKind := λ D,
       match D with
       | 0%nat => ClassTemplateSpecialization
       | 1%nat => CXXRecord
       | _ => ClassTemplate
       end;
     getCanonicalDecl := λ D, D;
     decl_getDefinition := λ D, Some D;
     getTemplatedDecl := λ D, match D with 2%nat => Some 1%nat | _ => None end;
     isThisDeclarationADefinition := λ _, true;
     getDeclContext := λ D, D;
     isInvalidDecl := λ D, bool_decide (D = 0%nat);
     getCorrespondingObjCImpl := λ _, None;
     Impl_getMethod := λ _ _, None;
     getLocation := λ D, Z.of_nat D;
     getBeginLoc := λ D, Z.of_nat D;
     getEndLoc := λ D, Z.of_nat D;
     isPureVirtual := λ _, false;
     isVirtual := λ _, false;
     overridden_methods := λ _, [];
     getSelectorLocs := λ _, [];
     getOverriddenMethods := λ _, [];
     getSpecializedTemplate := λ _, 2%nat;
     getClassInterface := λ _, None;
     getName := λ _, "S";
     nameLocation := λ D, Z.of_nat D;
     printName := λ D, match D with 0%nat => "S<0>" | _ => "S" end;
     getSymbolID := λ D, 100 + Z.of_nat D;
     isDeprecated := λ _, false;
     getDescribedTemplate := λ D, bool_decide (D = 1%nat);
     hasDefinition := λ D, bool_decide (D = 1%nat);
     bases := λ D,
       match D with
       | 1%nat => [mkCXXBaseSpecifier None (Some 1%nat)]
       | _ => []
       end |}.

Definition file : ParsedAST :=
  parsed (source_manager "") (token_buffer [] [] None) context []
    (λ _, None) None.

Definition root : TypeHierarchyItem :=
  default (mkTypeHierarchyItem "" "" Range_empty Range_empty false
             (mkResolveParams 0 None) None)
    (declToTypeHierarchyItem support file 0%nat main_path).

Definition patterns : gset Decl := {[1%nat]}.

Definition rank (D : Decl) : nat := match D with 0%nat => 1 | _ => 0 end.

End Fixture_Hierarchy.

(** The symbol ids down the chain of first parents of an item. *)
Fixpoint first_parent_chain (I : TypeHierarchyItem) : list SymbolID :=
  match I with
  | mkTypeHierarchyItem _ _ _ _ _ d p =>
      data_symbolID d
      :: match p with
         | Some (P :: _) => first_parent_chain P
         | _ => []
         end
  end.

(** An Objective-C class in three declarations:
<<
@class MyClass;                  // 0, the first
@interface MyClass ... @end      // 1, the definition
@implementation MyClass ... @end // 2
>>
    and a protocol, forward-declared (3) and then defined (4). *)
Module Fixture_ObjC.
Import Fixture.

Definition context : ASTContext :=
  {| getKind := λ D,
       match D with
       | 0%nat | 1%nat => ObjCInterface
       | 2%nat => ObjCImplementation
       | 3%nat | 4%nat => ObjCProtocol
       | _ => Namespace
       end;
     getCanonicalDecl := λ D,
       match D with
       | 1%nat => 0%nat
       | 4%nat => 3%nat
       | _ => D
       end;
     decl_getDefinition := λ D,
       match D with
       | 0%nat | 1%nat => Some 1%nat
       | 3%nat | 4%nat => Some 4%nat
       | _ => None
       end;
     getTemplatedDecl := λ _, None;
     isThisDeclarationADefinition := λ D, bool_decide (D = 1%nat ∨ D = 4%nat);
     getDeclContext := λ D, D;
     isInvalidDecl := λ _, false;
     getCorrespondingObjCImpl := λ D,
       match D with 0%nat | 1%nat => Some 2%nat | _ => None end;
     Impl_getMethod := λ _ _, None;
     getLocation := λ D, Z.of_nat D;
     getBeginLoc := λ D, Z.of_nat D;
     getEndLoc := λ D, Z.of_nat D;
     isPureVirtual := λ _, false;
     isVirtual := λ _, false;
     overridden_methods := λ _, [];
     getSelectorLocs := λ _, [];
     getOverriddenMethods := λ _, [];
     getSpecializedTemplate := λ D, D;
     getClassInterface := λ _, None;
     getName := λ _, "MyClass";
     nameLocation := λ D, Z.of_nat D;
     printName := λ _, "MyClass";
     getSymbolID := λ D, 200 + Z.of_nat (getCanonicalDecl plain_context D);
     isDeprecated := λ _, false;
     getDescribedTemplate := λ _, false;
     hasDefinition := λ _, false;
     bases := λ _, [] |}.

End Fixture_ObjC.

(** A function [f] the AST declares in the main file without a
    definition, and the records an index may hold of it. *)
Module Fixture_Index.
Import Fixture.

Definition f_declared : LocatedSymbol :=
  mkLocatedSymbol "f"
    (mkLocation "file:///src/main.cpp"
       (mkRange (mkPosition 2 5) (mkPosition 2 6)))
    None 7.

(** The index knows the definition in [f.cpp]. *)
Definition f_defined : Symbol :=
  mkSymbol 7 SK_Function "f" "" ""
    (file_location "file:///src/f.h" 1) (file_location "file:///src/f.cpp" 9).

(** The index knows a definition in a file whose URI scheme no handler
    resolves. *)
Definition f_unresolvable : Symbol :=
  mkSymbol 7 SK_Function "f" "" ""
    (file_location "file:///src/f.h" 1)
    (file_location "gen:///out/f.cpp" 9).

(** An index that holds [symbols] and answers a lookup with those of the
    ids asked for. *)
Definition lookup_index (symbols : list Symbol) : SymbolIndex :=
  {| fuzzyFind := λ _, [];
     lookup := λ IDs, filter (λ Sym, sym_ID Sym ∈ IDs) symbols;
     relations := λ _ _, [] |}.

End Fixture_Index.

(** A type alias used in the main file; the index holds its record, with
    the place of the alias as its definition:
<<
typedef int T;   // in t.h
T x;             // main file, the cursor on T at offset 0
>> *)
Module Fixture_Typedef.
Import Fixture.

Definition T_token : Token := mkToken 0 1 tok_identifier.

Definition file : ParsedAST :=
  parsed (source_manager "T x;")
    (token_buffer [T_token; mkToken 2 1 tok_identifier; mkToken 3 1 tok_other]
       [] None)
    (uniform_context Typedef) [] (λ _, None)
    (Some (mkSelectionNode NK_Other false [(0%nat, 0)] None)).

Definition T_indexed : Symbol :=
  mkSymbol 1 SK_TypeAlias "T" "" ""
    (file_location "file:///src/t.h" 1) (file_location "file:///src/t.h" 1).

Definition index : SymbolIndex := Fixture_Index.lookup_index [T_indexed].

Definition cursor : Position := mkPosition 0 0.

End Fixture_Typedef.

(** A main file with one resolved include on line 0 and one that was
    not found on line 1. *)
Module Fixture_Include.
Import Fixture.

Definition includes : list Inclusion :=
  [mkInclusion "<vector>" "/usr/include/c++/vector" 0 0;
   mkInclusion "<missing.h>" "" 18 1].

Definition file : ParsedAST :=
  parsed (source_manager "#include <vector>") (token_buffer [] [] None)
    plain_context includes (λ _, None) None.

End Fixture_Include.

(** The cursor on the use of a macro whose expansion names a variable:
<<
FOO;      // offset 0
>>
    The macro is defined at offset 20; the selection at the cursor finds
    the variable (declaration 0) the expansion refers to. *)
Module Fixture_Macro.
Import Fixture.

Definition FOO_token : Token := mkToken 0 3 tok_identifier.

Definition file : ParsedAST :=
  parsed (source_manager "FOO;")
    (token_buffer [FOO_token; mkToken 3 1 tok_other] [] None)
    (uniform_context Var) []
    (λ Tok, if tok_location Tok =? 0
            then Some (mkDefinedMacro "FOO" 20 77) else None)
    (Some (mkSelectionNode NK_Other false [(0%nat, 0)] None)).

Definition cursor : Position := mkPosition 0 1.

End Fixture_Macro.

(** A class hierarchy in the index: [Base] (id 1), [Derived], which
    derives from it (id 2), and [Leaf], which derives from [Derived]
    (id 3), all declared in [c.h]. *)
Module Fixture_Classes.
Import Fixture.

(** Library routines: a symbol is located at its definition, or at its
    declaration when it has none; the path of a [file://] URI is what
    follows the scheme; an id is written as the one character of its code. *)
Definition library : Library :=
  {| library_Support := support;
     symbolToLocation := λ Sym TUPath,
       indexToLSPLocation support
         (if SymbolLocation_bool (sym_Definition Sym) then sym_Definition Sym
          else sym_CanonicalDeclaration Sym) TUPath;
     URIForFile_file := λ U, String.substring 7 (String.length U - 7) U;
     Symbol_Deprecated := λ _, false;
     SymbolID_str := λ ID,
       String (Ascii.ascii_of_nat (Z.to_nat ID)) EmptyString;
     SymbolID_fromStr := λ s,
       match s with
       | String c EmptyString => Some (Z.of_nat (Ascii.nat_of_ascii c))
       | _ => None
       end |}.

Definition class (ID : SymbolID) (Name : string) : Symbol :=
  mkSymbol ID SK_Class Name "ns::" ""
    (file_location "file:///src/c.h" ID) SymbolLocation_empty.

Definition classes : list Symbol :=
  [class 1 "Base"; class 2 "Derived"; class 3 "Leaf"].

Definition index : SymbolIndex :=
  {| fuzzyFind := λ _, [];
     lookup := λ IDs, filter (λ Sym, sym_ID Sym ∈ IDs) classes;
     relations := λ Predicate Subjects,
       match Predicate with
       | BaseOf =>
           filter (λ A : SymbolID * Symbol, A.1 ∈ Subjects)
             [(1, class 2 "Derived"); (2, class 3 "Leaf")]
       | OverriddenBy => []
       end |}.

(** The item of [Base], as a request for its hierarchy returned it. *)
Definition Base_item : TypeHierarchyEntry :=
  mkTypeHierarchyEntry
    (mkTypeHierarchyItem "Base" "file:///src/c.h"
       (mkRange (mkPosition 1 0) (mkPosition 1 3))
       (mkRange (mkPosition 1 0) (mkPosition 1 3)) false
       (mkResolveParams 1 (Some [])) (Some []))
    "ns::Base" None.

End Fixture_Classes.

(** The calls of a function [callee] (id 10, declared in [a.h]) in the
    index: [run] (id 11, in [m.cpp]) calls it on line 5 and, through a
    macro of [h.h], once more; [boot] (id 12, in [b.cpp]) calls it on
    line 7. *)
Module Fixture_Calls.
Import Fixture.

Definition function (ID : SymbolID) (Name File : string) : Symbol :=
  mkSymbol ID SK_Function Name "" ""
    (file_location File 1) (file_location File 1).

Definition functions : list Symbol :=
  [function 10 "callee" "file:///src/a.h";
   function 11 "run" "file:///src/m.cpp";
   function 12 "boot" "file:///src/b.cpp"].

Definition index : RefsIndex :=
  {| index_symbols :=
       {| fuzzyFind := λ _, [];
          lookup := λ IDs, filter (λ Sym, sym_ID Sym ∈ IDs) functions;
          relations := λ _ _, [] |};
     refs := λ Req,
       (if bool_decide (10 ∈ refs_IDs Req)
        then [mkRef (file_location "file:///src/m.cpp" 5) RefKind_Reference 11;
              mkRef (file_location "file:///src/b.cpp" 7) RefKind_Reference 12;
              mkRef (file_location "file:///src/h.h" 2) RefKind_Reference 11]
        else [],
        false);
     containedRefs := λ ID,
       if ID =? 11
       then [mkContainedRef (file_location "file:///src/m.cpp" 5)
               RefKind_Reference 10;
             mkContainedRef (file_location "file:///src/h.h" 2)
               RefKind_Reference 10]
       else [] |}.

Definition item_of (ID : SymbolID) (Name File : string) : CallHierarchyItem :=
  mkCallHierarchyItem Name "" File
    (mkRange (mkPosition 1 0) (mkPosition 1 3))
    (mkRange (mkPosition 1 0) (mkPosition 1 3)) []
    (SymbolID_str Fixture_Classes.library ID).

Definition callee_item : CallHierarchyItem :=
  item_of 10 "callee" "file:///src/a.h".


End Fixture_Calls.

(** Three virtual methods: [C::f] (declaration 0) overrides [B::f]
    (declaration 1), which overrides [A::f] (declaration 2); the id of a
    declaration is its number plus one. *)
Module Fixture_Methods.
Import Fixture.

Definition context : ASTContext :=
  {| getKind := λ _, CXXMethod;
     getCanonicalDecl := λ D, D;
     decl_getDefinition := λ _, None;
     getTemplatedDecl := λ _, None;
     isThisDeclarationADefinition := λ _, false;
     getDeclContext := λ D, D;
     isInvalidDecl := λ _, false;
     getCorrespondingObjCImpl := λ _, None;
     Impl_getMethod := λ _ _, None;
     getLocation := λ D, Z.of_nat D;
     getBeginLoc := λ D, Z.of_nat D;
     getEndLoc := λ D, Z.of_nat D;
     isPureVirtual := λ _, false;
     isVirtual := λ _, true;
     overridden_methods := λ D,
       match D with
       | 0%nat => [1%nat]
       | 1%nat => [2%nat]
       | _ => []
       end;
     getSelectorLocs := λ _, [];
     getOverriddenMethods := λ _, [];
     getSpecializedTemplate := λ D, D;
     getClassInterface := λ _, None;
     getName := λ _, "f";
     nameLocation := λ D, Z.of_nat D;
     printName := λ _, "f";
     getSymbolID := λ D, Z.of_nat D + 1;
     isDeprecated := λ _, false;
     getDescribedTemplate := λ _, false;
     hasDefinition := λ _, true;
     bases := λ _, [] |}.

(** The depth of a method below the top of the hierarchy. *)
Definition rank (D : Decl) : nat := 2 - D.

End Fixture_Methods.

(** A main file that overrides a virtual method and calls it:
<<
struct B : A { void f() override; }; void g(B &b) { b.f(); }
>>
    over the methods of [Fixture_Methods]: [B::f] is declaration 1 (id
    2), named at offsets 20 and 54; it overrides [A::f] (id 3) and is
    overridden by [C::f] (id 1), which the index knows in [c.h] and
    [c.cpp]. The index holds a reference to [B::f] in [u.cpp], one in
    the main file, and a definition of [A::f] in [a.cpp]; it honours the
    limit of a request. *)
Module Fixture_References.
Import Fixture.

Definition f_declared : Token := mkToken 20 1 tok_identifier.
Definition f_called : Token := mkToken 54 1 tok_identifier.

Definition parsed_file : ParsedAST :=
  {| getSourceManager :=
       source_manager
         "struct B : A { void f() override; }; void g(B &b) { b.f(); }";
     getTokens := token_buffer [f_declared; f_called] [] None;
     getASTContext := Fixture_Methods.context;
     MainFileIncludes := [];
     tuPath := main_path;
     locateMacroAt := λ _, None;
     getDecomposedSpellingLoc := λ Loc, Loc;
     createEach := λ _,
       [Some (mkSelectionNode NK_Other false [(1%nat, 0)] None)];
     getDeducedType := λ _, None;
     typeTargetDecl := λ _, [];
     visibleNamespaces := λ _, [""];
     positionToOffset := λ Pos, Some (character Pos);
     unwrapFindType_typeForNode := λ _, [];
     indexTopLevelDecls :=
       [mkDeclOccurrence 1%nat SymbolRole_Declaration 20 None None
          (Some 7%nat);
        mkDeclOccurrence 1%nat SymbolRole_Read 54 None None (Some 8%nat);
        mkDeclOccurrence 1%nat SymbolRole_Write 54 None None (Some 8%nat)] |}.

(** The requests' view of a parsed file in which the methods are the
    function contexts, no declaration is local to a function and every
    container is named [ns::g]. *)
Definition request (AST : ParsedAST) (used : list UsedSymbol) : RequestAST :=
  {| request_AST := AST;
     isFunctionOrMethod := λ D,
       bool_decide (getKind (getASTContext AST) D = CXXMethod);
     isLocalVarDecl := λ _, false;
     spelledIdentifierTouching := λ Loc,
       head (filter (λ T, touches Loc T = true) (spelledTokens (getTokens AST)));
     MacroRefs := ∅;
     getParentFunctionOrMethod := λ _, false;
     isa_NamedDecl := λ _, true;
     printQualifiedName := λ _, "ns::g";
     walkUsed := used;
     rangeTillEOL := λ Offset,
       mkRange (mkPosition 0 Offset) (mkPosition 0 (Offset + 17)) |}.

Definition file : RequestAST := request parsed_file [].

Definition cursor : Position := mkPosition 0 20.

Definition C_f : Symbol :=
  mkSymbol 1 SK_Function "f" "C::" ""
    (file_location "file:///src/c.h" 3) (file_location "file:///src/c.cpp" 9).

Definition references : list (SymbolID * Ref) :=
  [(2, mkRef (file_location "file:///src/u.cpp" 4) RefKind_Reference 30);
   (2, mkRef (file_location "file:///src/main.cpp" 0) RefKind_Reference 31);
   (3, mkRef (file_location "file:///src/a.cpp" 6)
         (Z.lor RefKind_Declaration RefKind_Definition) 32)].

Definition index : RefsIndex :=
  {| index_symbols :=
       {| fuzzyFind := λ _, [];
          lookup := λ IDs,
            filter (λ Sym, sym_ID Sym ∈ IDs)
              [C_f; Fixture_Calls.function 30 "use" "file:///src/u.cpp"];
          relations := λ Predicate Subjects,
            match Predicate with
            | OverriddenBy =>
                filter (λ A : SymbolID * Symbol, A.1 ∈ Subjects) [(2, C_f)]
            | BaseOf => []
            end |};
     refs := λ Req,
       let Found :=
         (filter (λ A : SymbolID * Ref, A.1 ∈ refs_IDs Req) references).*2 in
       match refs_Limit Req with
       | None => (Found, false)
       | Some n =>
           (take (Z.to_nat n) Found,
            bool_decide (Z.to_nat n < length Found)%nat)
       end;
     containedRefs := λ _, [] |}.

(** The include of [Fixture_Include] on line 0 provides two symbols the
    file names, at offsets 30 and 41; a third use is implicit. *)
Definition including : RequestAST :=
  request Fixture_Include.file
    [mkUsedSymbol true (λ Inc, bool_decide (HashLine Inc = 0))
       (mkToken 30 6 tok_identifier);
     mkUsedSymbol false (λ _, true) (mkToken 38 1 tok_other);
     mkUsedSymbol true (λ Inc, bool_decide (HashLine Inc = 0))
       (mkToken 41 6 tok_identifier)].

End Fixture_References.

(** A function with a loop, a switch and a lambda; the numbers are the
    locations of the keywords:
<<
void f(int x) {            // 10, body 20..400
  while (x) {              // 30, body 40..290
    switch (x) {           // 50, body 55..200
      case 1:              // 60
      case 2:              // 70
        break;             // 80
      case 3:              // 90
        return;            // 100
      default:             // 110
        continue;          // 120
    }
    if (x) break;          // 210
    auto l = [] {          // 220, body 225..240
      return; };           // 230
  }
  throw 1;                 // 300
}
>> *)
Module Fixture_Flow.
Import Fixture.

Definition leaf (kind : FlowKind) (node : nat) (Loc : SourceLocation)
  : FlowNode :=
  mkFlowNode kind node Loc None Loc (Loc + 5) None [] [].

Definition block (node : nat) (Begin End : SourceLocation)
    (children : list FlowNode) : FlowNode :=
  mkFlowNode FK_Other node Begin None Begin End None [] children.

Definition case (node : nat) (Loc : SourceLocation) (SubStmt : FlowNode)
  : FlowNode :=
  mkFlowNode FK_SwitchCase node Loc None Loc (flow_End SubStmt) None []
    [SubStmt].

Definition break_80 : FlowNode := leaf FK_Break 9 80.
Definition case_2 : FlowNode := case 8 70 break_80.
Definition case_1 : FlowNode := case 7 60 case_2.
Definition return_100 : FlowNode := leaf FK_Return 11 100.
Definition case_3 : FlowNode := case 10 90 return_100.
Definition continue_120 : FlowNode := leaf FK_Continue 13 120.
Definition default : FlowNode := case 12 110 continue_120.

Definition switch_body : FlowNode := block 6 55 200 [case_1; case_3; default].

(** The list of cases of the switch, the last one first. *)
Definition switch : FlowNode :=
  mkFlowNode FK_Switch 5 50 None 50 200 (Some switch_body)
    [mkSwitchCase 12 110 13; mkSwitchCase 10 90 11; mkSwitchCase 8 70 9;
     mkSwitchCase 7 60 8]
    [switch_body].

Definition break_210 : FlowNode := leaf FK_Break 14 210.
Definition return_230 : FlowNode := leaf FK_Return 17 230.
Definition lambda_body : FlowNode := block 16 225 240 [return_230].
Definition lambda : FlowNode :=
  mkFlowNode FK_Function 15 220 None 220 240 (Some lambda_body) []
    [lambda_body].

Definition loop_body : FlowNode :=
  block 4 40 290 [switch; block 19 205 215 [break_210]; lambda].
Definition loop : FlowNode :=
  mkFlowNode FK_Loop 3 30 None 30 290 (Some loop_body) [] [loop_body].

Definition throw_300 : FlowNode := leaf FK_Throw 18 300.
Definition function_body : FlowNode := block 2 20 400 [loop; throw_300].
Definition function : FlowNode :=
  mkFlowNode FK_Function 1 10 None 10 400 (Some function_body) []
    [function_body].

Definition SM : SourceManager := source_manager "".

End Fixture_Flow.

(** The file of [Fixture_Hierarchy] with the cursor on a reference to the
    instantiation [S<0>], which was instantiated from the pattern [S]. *)
Module Fixture_TypeHierarchy.
Import Fixture.

Definition file : HierarchyAST :=
  {| hierarchy_AST :=
       parsed (source_manager "") (token_buffer [] [] None)
         Fixture_Hierarchy.context [] (λ _, None)
         (Some (mkSelectionNode NK_Other false [] None));
     explicitReferenceTargets := λ _, [0%nat];
     getAsCXXRecordDecl := λ _, None;
     getParent := λ D, D;
     getTemplateInstantiationPattern := λ D,
       match D with 0%nat => Some 1%nat | _ => None end |}.

End Fixture_TypeHierarchy.

(** * Properties *)

(** ** The reference list is sorted and free of duplicates *)

Section References_sorted.
Import ReferenceFinder.

(** The order of the pairs (token location, role bits). *)
Definition tie_lt (a b : SourceLocation * SymbolRoleSet) : Prop :=
  a.1 < b.1 ∨ (a.1 = b.1 ∧ a.2 < b.2).
Definition tie_le (a b : SourceLocation * SymbolRoleSet) : Prop :=
  a.1 < b.1 ∨ (a.1 = b.1 ∧ a.2 ≤ b.2).

Lemma tie_ltb_spec a b : tie_ltb a b = true ↔ tie_lt a b.
Proof.
  unfold tie_ltb, tie_lt.
  rewrite orb_true_iff, andb_true_iff, negb_true_iff.
  rewrite !Z.ltb_lt, Z.ltb_ge. lia.
Qed.

Lemma tie_eqb_spec a b : tie_eqb a b = true ↔ a = b.
Proof.
  unfold tie_eqb. rewrite andb_true_iff, !Z.eqb_eq.
  destruct a, b; simpl. split; [intros [-> ->]; done | by intros [= -> ->]].
Qed.

Lemma not_after_spec L R : not_after L R ↔ tie_le (tie L) (tie R).
Proof.
  unfold not_after, sort_before.
  rewrite <- not_true_iff_false, tie_ltb_spec.
  unfold tie_lt, tie_le. lia.
Qed.

#[local] Instance not_after_total : Total not_after.
Proof.
  intros L R. rewrite !not_after_spec. unfold tie_le. lia.
Qed.

#[local] Instance not_after_trans : Transitive not_after.
Proof.
  intros A B C. rewrite !not_after_spec. unfold tie_le. lia.
Qed.

Lemma sort_sorted l : StronglySorted not_after (sort l).
Proof. apply StronglySorted_merge_sort; apply _. Qed.

Lemma sort_perm l : sort l ≡ₚ l.
Proof. apply merge_sort_Permutation. Qed.

(** Strictly increasing pairs from [last] on. *)
Definition strictly_after (last r : Reference) : Prop :=
  tie_lt (tie last) (tie r).

Lemma unique_from_elem last l r :
  r ∈ unique_from last l → r ∈ l.
Proof.
  revert last. induction l as [|x l IH]; intros last; simpl; [done|].
  destruct (same_entry last x).
  - intros H. right. by eapply IH.
  - intros [->|H]%elem_of_cons; [left | right; by eapply IH].
Qed.

Lemma unique_from_sorted last l :
  Forall (not_after last) l → StronglySorted not_after l →
  Forall (strictly_after last) (unique_from last l)
  ∧ StronglySorted strictly_after (unique_from last l).
Proof.
  revert last. induction l as [|x l IH]; intros last Hlast Hs; simpl.
  { split; constructor. }
  apply Forall_cons in Hlast as [Hx Hl].
  apply StronglySorted_inv in Hs as [Hs Hxl].
  destruct (same_entry last x) eqn:E.
  - apply IH; done.
  - assert (strictly_after last x) as Hlt.
    { unfold strictly_after. apply not_after_spec in Hx.
      unfold same_entry in E. apply not_true_iff_false in E.
      rewrite tie_eqb_spec in E.
      unfold tie_le in Hx. unfold tie_lt.
      destruct (tie last) as [a1 a2], (tie x) as [b1 b2]; simpl in *.
      destruct (decide (a2 = b2)); [|lia].
      destruct (decide (a1 = b1)); [|lia]. subst. done. }
    destruct (IH x Hxl Hs) as [Hall Hss].
    split.
    + constructor; [done|].
      eapply Forall_impl; [exact Hall|].
      intros r Hr. unfold strictly_after, tie_lt in *. lia.
    + constructor; done.
Qed.

Lemma take_strictly_sorted l : StronglySorted strictly_after (take l).
Proof.
  unfold take, unique.
  pose proof (sort_sorted l) as Hs.
  destruct (sort l) as [|x l']; [constructor|].
  apply StronglySorted_inv in Hs as [Hs Hx].
  destruct (unique_from_sorted x l' Hx Hs) as [H1 H2].
  constructor; done.
Qed.

Lemma unique_from_covers last l r :
  r ∈ l →
  same_entry last r = true
  ∨ ∃ r', r' ∈ unique_from last l ∧ tie r' = tie r.
Proof.
  revert last. induction l as [|x l IH]; intros last; [by intros ?%elem_of_nil|].
  intros [->|Hin]%elem_of_cons; simpl.
  - destruct (same_entry last x) eqn:E; [by left|].
    right. exists x. split; [left|done].
  - destruct (same_entry last x) eqn:E.
    + apply IH; done.
    + destruct (IH x Hin) as [Hs|(r' & Hr' & Ht)].
      * right. exists x. split; [left|].
        unfold same_entry in Hs. by apply tie_eqb_spec in Hs.
      * right. exists r'. split; [by right|done].
Qed.

Lemma take_covers l r :
  r ∈ l → ∃ r', r' ∈ take l ∧ tie r' = tie r.
Proof.
  intros Hin. rewrite <- (sort_perm l) in Hin.
  unfold take, unique. destruct (sort l) as [|x l']; [by apply elem_of_nil in Hin|].
  apply elem_of_cons in Hin as [->|Hin].
  - exists x. split; [left|done].
  - destruct (unique_from_covers x l' r Hin) as [Hs|(r' & Hr' & Ht)].
    + exists x. split; [left|].
      unfold same_entry in Hs. by apply tie_eqb_spec in Hs.
    + exists r'. split; [by right|done].
Qed.

Lemma take_elem l r : r ∈ take l → r ∈ l.
Proof.
  intros Hin. rewrite <- (sort_perm l).
  unfold take, unique in Hin. destruct (sort l) as [|x l']; [done|].
  apply elem_of_cons in Hin as [->|Hin]; [left|right].
  by eapply unique_from_elem.
Qed.

End References_sorted.

(** C2. For every set of targets the list [findRefs] returns (through
    [ReferenceFinder::take]) is non-decreasing in the lexicographic order
    of (token location, role bits), and no two of its entries, at
    different positions, have the same location and the same role bits.
    The list keeps one entry for every (location, role bits) pair that was
    collected and holds collected references only. *)
Theorem findRefs_sorted_and_deduplicated
    (Targets : list Decl) (AST : ParsedAST) (PerToken : bool) :
  let Collected :=
    foldl (ReferenceFinder.handleDeclOccurrence AST
             (ReferenceFinder.TargetDecls AST Targets) PerToken)
      [] (indexTopLevelDecls AST) in
  let Refs := findRefs Targets AST PerToken in
  (∀ i j L R, (i < j)%nat → Refs !! i = Some L → Refs !! j = Some R →
     tie_le (ReferenceFinder.tie L) (ReferenceFinder.tie R))
  ∧ (∀ i j L R, i ≠ j → Refs !! i = Some L → Refs !! j = Some R →
       ¬ (tok_location (ReferenceFinder.SpelledTok L)
            = tok_location (ReferenceFinder.SpelledTok R)
          ∧ ReferenceFinder.Role L = ReferenceFinder.Role R))
  ∧ (∀ r, r ∈ Refs → r ∈ Collected)
  ∧ (∀ r, r ∈ Collected →
       ∃ r', r' ∈ Refs ∧ ReferenceFinder.tie r' = ReferenceFinder.tie r).
Proof.
  intros Collected Refs.
  assert (StronglySorted strictly_after Refs) as Hs
    by apply take_strictly_sorted.
  assert (∀ i j L R, (i < j)%nat → Refs !! i = Some L → Refs !! j = Some R →
            tie_lt (ReferenceFinder.tie L) (ReferenceFinder.tie R)) as Hlt.
  { clear -Hs. induction Hs as [|x l Hs IH Hx]; intros i j L R Hij Hi Hj.
    - by rewrite lookup_nil in Hi.
    - destruct j as [|j]; [lia|]. simpl in Hj.
      destruct i as [|i]; simpl in Hi.
      + injection Hi as <-. rewrite Forall_forall in Hx.
        apply Hx. by eapply list_elem_of_lookup_2.
      + eapply (IH i j); [lia|done..]. }
  split; [|split; [|split]].
  - intros i j L R Hij Hi Hj. specialize (Hlt i j L R Hij Hi Hj).
    unfold tie_lt, tie_le in *. lia.
  - intros i j L R Hne Hi Hj [H1 H2].
    destruct (decide (i < j)%nat).
    + specialize (Hlt i j L R ltac:(done) Hi Hj).
      unfold tie_lt, ReferenceFinder.tie in Hlt; simpl in Hlt. lia.
    + specialize (Hlt j i R L ltac:(lia) Hj Hi).
      unfold tie_lt, ReferenceFinder.tie in Hlt; simpl in Hlt. lia.
  - intros r. apply take_elem.
  - intros r. apply take_covers.
Qed.

(** ** The textual fallback *)

Section Textual.
Context (S : Support) (Word : SpelledWord) (MainFilePath : string).

(** The scored candidates among the answers of the index: those that
    pass the name, kind and location checks of the callback. *)
Definition textual_candidates (Syms : list Symbol)
  : list ScoredLocatedSymbol :=
  omap (λ Sym, (evaluateSymbolAndRelevance S Sym,.)
                 <$> locateSymbolTextually_located S Word MainFilePath Sym)
    Syms.

Lemma textual_fold Syms TooMany ScoredResults :
  (length ScoredResults ≤ 5)%nat →
  foldl (locateSymbolTextually_callback S Word MainFilePath)
    (TooMany, ScoredResults) Syms
  = (TooMany
     || bool_decide (5 < length (ScoredResults ++ textual_candidates Syms))%nat,
     take 5 (ScoredResults ++ textual_candidates Syms)).
Proof.
  revert TooMany ScoredResults.
  induction Syms as [|Sym Syms IH]; intros TooMany acc Hacc; simpl.
  - rewrite app_nil_r, take_ge by done.
    rewrite bool_decide_eq_false_2 by lia. by rewrite orb_false_r.
  - unfold textual_candidates; simpl. fold (textual_candidates Syms).
    destruct (locateSymbolTextually_located S Word MainFilePath Sym)
      as [Located|]; simpl.
    + case_bool_decide as H5.
      * rewrite IH by done.
        assert (length acc = 5)%nat as Hlen by lia.
        f_equal.
        -- rewrite !length_app; simpl.
           rewrite (bool_decide_eq_true_2 (5 < _ + Datatypes.S _)%nat) by lia.
           by rewrite orb_true_r.
        -- rewrite !take_app_le by lia. done.
      * rewrite IH by (rewrite length_app; simpl; lia).
        by rewrite <- !app_assoc.
    + apply IH; done.
Qed.

End Textual.

(** More than five candidates: nothing is returned. Otherwise all the
    candidates are returned, in the order of the sort. *)
Lemma locateSymbolTextually_result (S : Support) (Word : SpelledWord)
    (AST : ParsedAST) (Index : SymbolIndex) (NodeKind : ASTNodeKind)
    (MainFilePath : string) :
  ExpandedToken Word = None → LikelyIdentifier Word = true →
  PartOfSpelledToken Word = None →
  let Req :=
    mkFuzzyFindRequest (word_Text Word)
      (visibleNamespaces AST
         (sourcePrefix (word_Location Word) (getSourceManager AST)))
      true 10 [MainFilePath] in
  let Candidates :=
    textual_candidates S Word MainFilePath (fuzzyFind Index Req) in
  locateSymbolTextually S Word AST (Some Index) MainFilePath NodeKind
  = if bool_decide (5 < length Candidates)%nat then []
    else (merge_sort score_not_after Candidates).*2.
Proof.
  intros HE HL HP Req Candidates. unfold locateSymbolTextually.
  rewrite HE, HL, HP. simpl.
  fold Req. rewrite textual_fold by (simpl; lia). simpl.
  fold Candidates.
  case_bool_decide; [done|].
  rewrite take_ge by lia. done.
Qed.

(** C1, the code at four candidates. With four exact-name candidates in
    the index the fallback returns four located symbols, highest score
    first: more than the three the claim allows. Nothing after the sort
    cuts the list. *)
Theorem locateSymbolTextually_returns_four :
  ID <$> locateSymbolTextually Fixture.support Fixture.word_foo
           Fixture.comment_file
           (Some (Fixture.fuzzy_index
                    [Fixture.foo 2; Fixture.foo 4; Fixture.foo 1;
                     Fixture.foo 3]))
           Fixture.main_path NK_None
  = [4; 3; 2; 1].
Proof. vm_compute. reflexivity. Qed.

(** ** The nearby-identifier search *)

(** The window of the search, as the code computes it: from the start of
    line [WordLine + 1 - 2^(N-1)] (at least line 1) to the start of line
    [WordLine + 1 + 2^N], for a word of [N] characters (at most 31 are
    counted). *)
Definition search_window (SM : SourceManager) (Word : SpelledWord)
  : SourceLocation * SourceLocation :=
  let WordLine := getSpellingLineNumber SM (word_Location Word) in
  let MaxDistance :=
    u32 (Z.shiftl 1 (Z.min (Z.of_nat (String.length (word_Text Word))) 31)) in
  let LineMin :=
    if u32 (WordLine + 1) <=? MaxDistance / 2 then 1
    else u32 (WordLine + 1 - MaxDistance / 2) in
  let LineMax := u32 (WordLine + 1 + MaxDistance) in
  (translateLineCol SM LineMin, translateLineCol SM LineMax).

(** What makes a token a candidate of the search in a window. *)
Definition candidate_in (SM : SourceManager) (TB : TokenBuffer)
    (Word : SpelledWord) (Window : SourceLocation * SourceLocation)
    (Tok : Token) : Prop :=
  Window.1 ≤ tok_location Tok ≤ Window.2
  ∧ tok_kind Tok = tok_identifier
  ∧ Token_text SM Tok = word_Text Word
  ∧ tok_location Tok ≠ word_Location Word
  ∧ (tokenSpelledAt (tok_location Tok) TB || expansionStartingAt TB Tok) = true.

Definition nearby_candidate (SM : SourceManager) (TB : TokenBuffer)
    (Word : SpelledWord) (Tok : Token) : Prop :=
  candidate_in SM TB Word (search_window SM Word) Tok.

Lemma Consider_loop_candidate SM TB Word WordLine LocMin LocMax Toks st :
  (∀ Tok, st.1 = Some Tok →
          candidate_in SM TB Word (LocMin, LocMax) Tok
          ∧ Tok ∈ spelledTokens TB) →
  (∀ Tok, Tok ∈ Toks → Tok ∈ spelledTokens TB) →
  ∀ Tok,
    (Consider_loop SM TB Word WordLine LocMin LocMax Toks st).1 = Some Tok →
    candidate_in SM TB Word (LocMin, LocMax) Tok ∧ Tok ∈ spelledTokens TB.
Proof.
  revert st.
  induction Toks as [|T Toks IH]; intros st Hst HToks; simpl; [done|].
  destruct (Consider SM TB Word WordLine LocMin LocMax st T)
    as [Stop st'] eqn:HC.
  assert (∀ Tok, st'.1 = Some Tok →
            candidate_in SM TB Word (LocMin, LocMax) Tok
            ∧ Tok ∈ spelledTokens TB) as Hst'.
  { unfold Consider in HC. destruct st as [BestTok BestCost].
    repeat (case_match; simplify_eq; try done).
    simpl. intros Tok [= <-]. split; [|apply HToks; left].
    unfold candidate_in. simpl.
    repeat match goal with
           | H : _ || _ = false |- _ => apply orb_false_iff in H as [? ?]
           | H : negb _ = false |- _ => apply negb_false_iff in H
           | H : _ && _ = true |- _ => apply andb_true_iff in H as [? ?]
           | H : bool_decide _ = true |- _ => apply bool_decide_eq_true in H
           | H : (_ <? _) = false |- _ => apply Z.ltb_ge in H
           | H : (_ =? _) = false |- _ => apply Z.eqb_neq in H
           end.
    repeat split; try done; lia. }
  destruct Stop; [done|].
  apply IH; [done|]. intros Tok HTok. apply HToks. by right.
Qed.

Lemma partition_point_elem WordLoc Toks Tok :
  Tok ∈ (partition_point WordLoc Toks).1 ∨ Tok ∈ (partition_point WordLoc Toks).2 →
  Tok ∈ Toks.
Proof.
  induction Toks as [|T Toks IH]; simpl.
  - intros [H|H]; by apply elem_of_nil in H.
  - destruct (tok_location T <? WordLoc); [|by intros [?%elem_of_nil|?]].
    destruct (partition_point WordLoc Toks) as [Before After]. simpl in *.
    intros [[->|H]%elem_of_cons|H]; [left|right; apply IH; by left
                                     |right; apply IH; by right].
Qed.

(** Whatever the search returns is a spelled identifier with the text of
    the word, elsewhere than the word, plausibly part of the AST, inside
    the window as the code computes it. *)
Lemma findNearbyIdentifier_in_window SM Word TB Tok :
  findNearbyIdentifier SM Word TB = Some Tok →
  nearby_candidate SM TB Word Tok ∧ Tok ∈ spelledTokens TB.
Proof.
  unfold findNearbyIdentifier.
  destruct (bool_decide (is_Some (ExpandedToken Word))); [done|].
  destruct (match PartOfSpelledToken Word with
            | Some Tok => isStringLiteral (tok_kind Tok)
            | None => false
            end); [done|].
  pose proof (partition_point_elem (word_Location Word) (spelledTokens TB))
    as HPart.
  destruct (partition_point (word_Location Word) (spelledTokens TB))
    as [Before After]. simpl in HPart.
  unfold nearby_candidate, search_window.
  apply Consider_loop_candidate.
  - apply Consider_loop_candidate; [done|].
    intros T HT. apply HPart. by right.
  - intros T HT. rewrite elem_of_reverse in HT. apply HPart. by left.
Qed.

(** *** The search returns the cheapest candidate of its window *)

Lemma count_newlines_nonneg s n : 0 ≤ count_newlines s n.
Proof.
  revert s. induction n as [|n IH]; intros [|c s]; simpl; try lia.
  specialize (IH s). destruct (is_newline c); lia.
Qed.

Lemma count_newlines_le_length s n :
  count_newlines s n ≤ Z.of_nat (String.length s).
Proof.
  revert s. induction n as [|n IH]; intros [|c s]; simpl; try lia.
  specialize (IH s). destruct (is_newline c); lia.
Qed.

Lemma count_newlines_mono s n m :
  (n ≤ m)%nat → count_newlines s n ≤ count_newlines s m.
Proof.
  revert s m. induction n as [|n IH]; intros s m Hnm.
  - assert (count_newlines s 0 = 0) as -> by (by destruct s).
    apply count_newlines_nonneg.
  - destruct m as [|m]; [lia|]. destruct s as [|c s]; simpl; [lia|].
    specialize (IH s m ltac:(lia)). lia.
Qed.

Lemma getSpellingLineNumber_mono SM a b :
  a ≤ b → getSpellingLineNumber SM a ≤ getSpellingLineNumber SM b.
Proof.
  intros Hab. unfold getSpellingLineNumber.
  pose proof (count_newlines_mono (bufferData SM) (Z.to_nat a) (Z.to_nat b)).
  lia.
Qed.

Lemma getSpellingLineNumber_bounds SM a :
  1 ≤ getSpellingLineNumber SM a
  ≤ 1 + Z.of_nat (String.length (bufferData SM)).
Proof.
  unfold getSpellingLineNumber.
  pose proof (count_newlines_nonneg (bufferData SM) (Z.to_nat a)).
  pose proof (count_newlines_le_length (bufferData SM) (Z.to_nat a)). lia.
Qed.

Lemma StronglySorted_weaken {A} (R R' : relation A) (P : A → Prop) l :
  StronglySorted R l → Forall P l →
  (∀ a b, P a → P b → R a b → R' a b) →
  StronglySorted R' l.
Proof.
  intros Hs HP HR. induction Hs as [|x l Hs IH Hx]; [constructor|].
  apply Forall_cons in HP as [Hpx HP]. constructor; [by apply IH|].
  rewrite Forall_forall in Hx, HP. apply Forall_forall. intros y Hy.
  apply HR; [done|by apply HP|by apply Hx].
Qed.

Lemma StronglySorted_reverse {A} (R : relation A) l :
  StronglySorted R l → StronglySorted (flip R) (reverse l).
Proof.
  induction 1 as [|x l Hs IH Hx]; [constructor|].
  rewrite reverse_cons. apply StronglySorted_app_2; [|done|repeat constructor].
  intros x1 x2 H1 ->%list_elem_of_singleton. rewrite elem_of_reverse in H1.
  rewrite Forall_forall in Hx. by apply Hx.
Qed.

(** On tokens in the order of their locations the partition point
    splits the list at the word. *)
Lemma partition_point_sorted WordLoc Toks :
  StronglySorted (λ A B, tok_location A < tok_location B) Toks →
  Toks = (partition_point WordLoc Toks).1 ++ (partition_point WordLoc Toks).2
  ∧ Forall (λ T, tok_location T < WordLoc) (partition_point WordLoc Toks).1
  ∧ Forall (λ T, WordLoc ≤ tok_location T) (partition_point WordLoc Toks).2.
Proof.
  induction 1 as [|T Toks Hs IH HT]; simpl; [by repeat constructor|].
  destruct (tok_location T <? WordLoc) eqn:E.
  - destruct (partition_point WordLoc Toks) as [Before After]. simpl in *.
    destruct IH as (-> & HB & HA). apply Z.ltb_lt in E.
    split; [done|]. split; [by constructor|done].
  - apply Z.ltb_ge in E. simpl. split; [done|]. split; [constructor|].
    constructor; [done|]. eapply Forall_impl; [exact HT|]. simpl. lia.
Qed.

Section Nearby.
Context (SM : SourceManager) (TB : TokenBuffer) (Word : SpelledWord).

#[local] Abbreviation WordLoc := (word_Location Word).
#[local] Abbreviation WordLine :=
  (getSpellingLineNumber SM (word_Location Word)).
Context (LocMin LocMax : SourceLocation).
#[local] Abbreviation cost :=
  (λ T : Token, Cost SM (getSpellingLineNumber SM (word_Location Word))
                  (tok_location T)).
#[local] Abbreviation candidate :=
  (candidate_in SM TB Word (LocMin, LocMax)).

(** The buffer is shorter than 2^30 characters, so that no cost wraps
    around. *)
Hypothesis buffer_small : Z.of_nat (String.length (bufferData SM)) < 2 ^ 30.

Lemma Cost_value Loc :
  let Line := getSpellingLineNumber SM Loc in
  Cost SM WordLine Loc
  = if WordLine <=? Line then Line - WordLine else 2 * (WordLine - Line).
Proof.
  intros Line. unfold Cost. fold Line.
  pose proof (getSpellingLineNumber_bounds SM Loc) as HL. fold Line in HL.
  pose proof (getSpellingLineNumber_bounds SM WordLoc) as HW.
  assert (2 ^ 30 < 2 ^ 32) by (vm_compute; done).
  assert (2 ^ 32 = 4 * 2 ^ 30) as H4 by (vm_compute; done).
  unfold u32. destruct (WordLine <=? Line) eqn:E.
  - apply Z.leb_le in E. apply Z.mod_small. lia.
  - apply Z.leb_gt in E.
    rewrite (Z.mod_small (WordLine - Line)) by lia.
    apply Z.mod_small. lia.
Qed.

Lemma Cost_below_max Loc : Cost SM WordLine Loc < u32 (-1).
Proof.
  rewrite Cost_value.
  pose proof (getSpellingLineNumber_bounds SM Loc) as HL.
  pose proof (getSpellingLineNumber_bounds SM WordLoc) as HW.
  assert (u32 (-1) = 4 * 2 ^ 30 - 1) as -> by (vm_compute; done).
  case_match; lia.
Qed.

Lemma Cost_forward a b :
  WordLoc ≤ a → a ≤ b → Cost SM WordLine a ≤ Cost SM WordLine b.
Proof.
  intros Ha Hab. rewrite !Cost_value.
  pose proof (getSpellingLineNumber_mono SM WordLoc a Ha).
  pose proof (getSpellingLineNumber_mono SM a b Hab).
  rewrite !(proj2 (Z.leb_le _ _)) by lia. lia.
Qed.

Lemma Cost_backward a b :
  a ≤ WordLoc → b ≤ a → Cost SM WordLine a ≤ Cost SM WordLine b.
Proof.
  intros Ha Hab. rewrite !Cost_value.
  pose proof (getSpellingLineNumber_mono SM a WordLoc Ha).
  pose proof (getSpellingLineNumber_mono SM b a Hab).
  repeat case_match;
    repeat match goal with
           | H : (_ <=? _) = true |- _ => apply Z.leb_le in H
           | H : (_ <=? _) = false |- _ => apply Z.leb_gt in H
           end; lia.
Qed.

(** Along a traversal, the cost does not decrease and the tokens stay
    outside the window once they left it. *)
Definition traversal_order (A B : Token) : Prop :=
  cost A ≤ cost B
  ∧ (tok_location A < LocMin ∨ LocMax < tok_location A →
     tok_location B < LocMin ∨ LocMax < tok_location B).

Lemma Consider_loop_cons T Toks st :
  Consider_loop SM TB Word WordLine LocMin LocMax (T :: Toks) st
  = (let '(Stop, st') := Consider SM TB Word WordLine LocMin LocMax st T in
     if Stop then st'
     else Consider_loop SM TB Word WordLine LocMin LocMax Toks st').
Proof. reflexivity. Qed.

Lemma Consider_loop_stable Toks BestTok BestCost :
  (∀ U, U ∈ Toks → BestCost ≤ cost U) →
  Consider_loop SM TB Word WordLine LocMin LocMax Toks (BestTok, BestCost)
  = (BestTok, BestCost).
Proof.
  induction Toks as [|T Toks IH]; intros HU; [done|].
  rewrite Consider_loop_cons.
  assert (BestCost ≤ cost T) as HT by (apply HU; left).
  unfold Consider.
  rewrite (proj2 (Z.leb_le _ _) HT).
  repeat (case_match; simplify_eq; try done);
    apply IH; intros U HUin; apply HU; by right.
Qed.

(** How a loop ends: it leaves the state alone, no candidate of the
    traversal being cheaper than the best cost so far; or it takes the
    cheapest candidate of the traversal, which is cheaper. *)
Definition loop_outcome (Toks : list Token) (BestTok : option Token)
    (BestCost : Z) (r : option Token * Z) : Prop :=
  (r = (BestTok, BestCost)
   ∧ ∀ U, U ∈ Toks → candidate U → BestCost ≤ cost U)
  ∨ (∃ T, r = (Some T, cost T) ∧ T ∈ Toks ∧ candidate T ∧ cost T < BestCost
          ∧ ∀ U, U ∈ Toks → candidate U → cost T ≤ cost U).

Lemma loop_outcome_skip T Toks BestTok BestCost r :
  ¬ candidate T →
  loop_outcome Toks BestTok BestCost r →
  loop_outcome (T :: Toks) BestTok BestCost r.
Proof.
  intros HnT [[Hr HU]|(T' & Hr & HT' & HcT' & Hlt & HU)].
  - left. split; [done|].
    intros U [->|HUin]%elem_of_cons HcU; [done|by apply HU].
  - right. exists T'. split; [done|]. split; [by right|].
    split; [done|]. split; [done|].
    intros U [->|HUin]%elem_of_cons HcU; [done|by apply HU].
Qed.

Lemma Consider_loop_first Toks BestTok BestCost :
  StronglySorted traversal_order Toks →
  loop_outcome Toks BestTok BestCost
    (Consider_loop SM TB Word WordLine LocMin LocMax Toks (BestTok, BestCost)).
Proof.
  induction Toks as [|T Toks IH]; intros Hs.
  { left. split; [done|]. intros U HU. by apply elem_of_nil in HU. }
  apply StronglySorted_inv in Hs as [Hs HT]. rewrite Forall_forall in HT.
  specialize (IH Hs).
  rewrite Consider_loop_cons.
  unfold Consider.
  destruct ((tok_location T <? LocMin) || (LocMax <? tok_location T)) eqn:Eout.
  { (* too far: the loop stops *)
    left. split; [done|].
    assert (tok_location T < LocMin ∨ LocMax < tok_location T) as Hout.
    { apply orb_true_iff in Eout as [?%Z.ltb_lt|?%Z.ltb_lt]; lia. }
    intros U [->|HU]%elem_of_cons [Hwin _]; simpl in Hwin.
    - lia.
    - destruct (HT U HU) as [_ HW]. specialize (HW Hout). lia. }
  apply orb_false_iff in Eout as [Emin%Z.ltb_ge Emax%Z.ltb_ge].
  destruct (negb (bool_decide (tok_kind T = tok_identifier)
                  && bool_decide (Token_text SM T = word_Text Word))) eqn:Eid.
  { apply loop_outcome_skip; [|exact IH].
    intros (_ & Hk & Ht & _).
    rewrite (bool_decide_eq_true_2 _ Hk), (bool_decide_eq_true_2 _ Ht) in Eid.
    done. }
  apply negb_false_iff, andb_true_iff in Eid as [Hk%bool_decide_eq_true
                                                  Ht%bool_decide_eq_true].
  destruct (tok_location T =? WordLoc) eqn:Eloc.
  { apply loop_outcome_skip; [|exact IH].
    intros (_ & _ & _ & Hne & _). by apply Z.eqb_eq in Eloc. }
  apply Z.eqb_neq in Eloc.
  destruct (BestCost <=? cost T) eqn:Ecost.
  { (* no improvement: the loop stops *)
    apply Z.leb_le in Ecost. left. split; [done|].
    intros U [->|HU]%elem_of_cons _; [done|].
    destruct (HT U HU) as [HC _]. lia. }
  apply Z.leb_gt in Ecost.
  destruct (negb (tokenSpelledAt (tok_location T) TB
                  || expansionStartingAt TB T)) eqn:Epl.
  { apply loop_outcome_skip; [|exact IH].
    intros (_ & _ & _ & _ & Hp). rewrite Hp in Epl. done. }
  apply negb_false_iff in Epl.
  (* the token is taken, and nothing later improves on it *)
  right. exists T.
  rewrite Consider_loop_stable by (intros U HU; by apply HT).
  split; [done|]. split; [left|]. split.
  { unfold candidate_in. simpl. repeat split; try done; lia. }
  split; [done|].
  intros U [->|HU]%elem_of_cons _; [done|]. by apply HT.
Qed.

Lemma traversal_forward After :
  StronglySorted (λ A B, tok_location A < tok_location B) After →
  Forall (λ T, WordLoc ≤ tok_location T) After →
  LocMin ≤ WordLoc →
  StronglySorted traversal_order After.
Proof.
  intros Hs HA Hmin.
  apply (StronglySorted_weaken _ _ _ _ Hs HA).
  intros a b Ha Hb Hab. split.
  - apply Cost_forward; lia.
  - lia.
Qed.

Lemma traversal_backward Before :
  StronglySorted (λ A B, tok_location A < tok_location B) Before →
  Forall (λ T, tok_location T < WordLoc) Before →
  WordLoc ≤ LocMax →
  StronglySorted traversal_order (reverse Before).
Proof.
  intros Hs HB Hmax. apply StronglySorted_reverse in Hs.
  apply (StronglySorted_weaken _ _ (λ T, tok_location T < WordLoc) _ Hs).
  - apply Forall_forall. intros T HT. rewrite elem_of_reverse in HT.
    rewrite Forall_forall in HB. by apply HB.
  - intros a b Ha Hb Hab. unfold flip in Hab. split.
    + apply Cost_backward; lia.
    + lia.
Qed.

End Nearby.

Lemma findNearbyIdentifier_unfold (SM : SourceManager) (Word : SpelledWord)
    (TB : TokenBuffer) :
  ExpandedToken Word = None →
  (∀ Tok, PartOfSpelledToken Word = Some Tok →
          isStringLiteral (tok_kind Tok) = false) →
  findNearbyIdentifier SM Word TB
  = (Consider_loop SM TB Word (getSpellingLineNumber SM (word_Location Word))
       (search_window SM Word).1 (search_window SM Word).2
       (reverse (partition_point (word_Location Word) (spelledTokens TB)).1)
       (Consider_loop SM TB Word
          (getSpellingLineNumber SM (word_Location Word))
          (search_window SM Word).1 (search_window SM Word).2
          (partition_point (word_Location Word) (spelledTokens TB)).2
          (None, u32 (-1)))).1.
Proof.
  intros HE HP. unfold findNearbyIdentifier, search_window. rewrite HE.
  rewrite bool_decide_eq_false_2 by apply is_Some_None.
  assert (match PartOfSpelledToken Word with
          | Some Tok => isStringLiteral (tok_kind Tok)
          | None => false
          end = false) as ->.
  { destruct (PartOfSpelledToken Word); [by apply HP|done]. }
  by destruct (partition_point (word_Location Word) (spelledTokens TB)).
Qed.

(** On a buffer shorter than 2^30 characters, with the spelled tokens in
    the order of their locations and the word inside its own window, the
    search returns a cheapest candidate of the window; a candidate before
    the word is returned only when it is strictly cheaper than every
    candidate after it; and nothing is returned only when the window has
    no candidate. *)
Lemma findNearbyIdentifier_cheapest (SM : SourceManager)
    (TB : TokenBuffer) (Word : SpelledWord) :
  let cost := λ T : Token,
    Cost SM (getSpellingLineNumber SM (word_Location Word)) (tok_location T) in
  Z.of_nat (String.length (bufferData SM)) < 2 ^ 30 →
  StronglySorted (λ A B, tok_location A < tok_location B) (spelledTokens TB) →
  (search_window SM Word).1 ≤ word_Location Word ≤ (search_window SM Word).2 →
  ExpandedToken Word = None →
  (∀ Tok, PartOfSpelledToken Word = Some Tok →
          isStringLiteral (tok_kind Tok) = false) →
  match findNearbyIdentifier SM Word TB with
  | Some Tok =>
      Tok ∈ spelledTokens TB ∧ nearby_candidate SM TB Word Tok
      ∧ (∀ U, U ∈ spelledTokens TB → nearby_candidate SM TB Word U →
              cost Tok ≤ cost U)
      ∧ (tok_location Tok < word_Location Word →
         ∀ U, U ∈ spelledTokens TB → nearby_candidate SM TB Word U →
              word_Location Word ≤ tok_location U → cost Tok < cost U)
  | None => ∀ U, U ∈ spelledTokens TB → ¬ nearby_candidate SM TB Word U
  end.
Proof.
  intros cost Hsmall Hsorted Hwin HE HP. subst cost. cbv beta.
  rewrite (findNearbyIdentifier_unfold SM Word TB HE HP).
  unfold nearby_candidate. revert Hwin.
  destruct (search_window SM Word) as [LocMin LocMax]. simpl.
  intros [Hmin Hmax].
  destruct (partition_point_sorted (word_Location Word) _ Hsorted)
    as (Hsplit & HB & HA).
  destruct (partition_point (word_Location Word) (spelledTokens TB))
    as [Before After]. simpl in Hsplit, HB, HA. cbn [fst snd].
  assert (StronglySorted (λ A B, tok_location A < tok_location B) Before
          ∧ StronglySorted (λ A B, tok_location A < tok_location B) After)
    as [HsB HsA].
  { rewrite Hsplit in Hsorted. apply StronglySorted_app in Hsorted. tauto. }
  pose proof (Consider_loop_first SM TB Word LocMin LocMax After None (u32 (-1))
                (traversal_forward SM Word LocMin LocMax Hsmall After
                   HsA HA Hmin)) as H1.
  assert (∀ U, U ∈ spelledTokens TB ↔ U ∈ After ∨ U ∈ reverse Before) as Hin.
  { intros U. rewrite Hsplit, elem_of_app, elem_of_reverse. tauto. }
  assert (∀ U, U ∈ reverse Before → tok_location U < word_Location Word)
    as HBloc.
  { intros U HU. rewrite elem_of_reverse in HU.
    rewrite Forall_forall in HB. by apply HB. }
  assert (∀ U, U ∈ After → word_Location Word ≤ tok_location U) as HAloc.
  { rewrite Forall_forall in HA. exact HA. }
  destruct H1 as [[-> H1]|(T1 & -> & HT1 & Hc1 & _ & Hm1)].
  - (* nothing after the word *)
    assert (∀ U, U ∈ After → ¬ candidate_in SM TB Word (LocMin, LocMax) U)
      as HnoA.
    { intros U HU Hc. specialize (H1 U HU Hc).
      pose proof (Cost_below_max SM Word Hsmall (tok_location U)). lia. }
    pose proof (Consider_loop_first SM TB Word LocMin LocMax (reverse Before)
                  None (u32 (-1))
                  (traversal_backward SM Word LocMin LocMax Hsmall Before
                     HsB HB Hmax)) as H2.
    destruct H2 as [[-> H2]|(T2 & -> & HT2 & Hc2 & _ & Hm2)]; simpl.
    + intros U [HU|HU]%Hin Hc; [by eapply HnoA|].
      specialize (H2 U HU Hc).
      pose proof (Cost_below_max SM Word Hsmall (tok_location U)). lia.
    + split; [apply Hin; by right|]. split; [done|]. split.
      * intros U [HU|HU]%Hin Hc; [by destruct (HnoA U HU)|by apply Hm2].
      * intros _ U [HU|HU]%Hin Hc HUloc; [by destruct (HnoA U HU)|].
        specialize (HBloc U HU). lia.
  - (* a candidate after the word *)
    pose proof (Consider_loop_first SM TB Word LocMin LocMax (reverse Before)
                  (Some T1)
                  (Cost SM (getSpellingLineNumber SM (word_Location Word))
                     (tok_location T1))
                  (traversal_backward SM Word LocMin LocMax Hsmall Before
                     HsB HB Hmax)) as H2.
    destruct H2 as [[-> H2]|(T2 & -> & HT2 & Hc2 & Hlt & Hm2)]; simpl.
    + split; [apply Hin; by left|]. split; [done|]. split.
      * intros U [HU|HU]%Hin Hc; [by apply Hm1|by apply H2].
      * intros Hbefore. specialize (HAloc T1 HT1). lia.
    + split; [apply Hin; by right|]. split; [done|]. split.
      * intros U [HU|HU]%Hin Hc; [|by apply Hm2].
        specialize (Hm1 U HU Hc). simpl in *. lia.
      * intros _ U [HU|HU]%Hin Hc HUloc.
        -- specialize (Hm1 U HU Hc). simpl in *. lia.
        -- specialize (HBloc U HU). lia.
Qed.


(** C7, the code on a one-letter word. The word [x] stands in a comment
    on line 2; the identifier [x] on line 1, one line (2^(len-1)) back, is
    spelled in the preprocessed file, yet the search returns nothing: the
    window starts at line [WordLine + 1 - 2^(len-1)], the word's own line.
    With two letters the line before is reached. Forward, a token at the
    first column of line [WordLine + 2^len + 1] is still accepted. *)
Theorem findNearbyIdentifier_window_off_by_one :
  let SM := Fixture.source_manager Fixture_Nearby.one_line_back in
  let TB := Fixture.token_buffer Fixture_Nearby.one_line_back_tokens [] None in
  let Word := Fixture_Nearby.word_x 10 in
  let Tok := mkToken 4 1 tok_identifier in
  (getSpellingLineNumber SM (word_Location Word) = 2
   ∧ Tok ∈ spelledTokens TB
   ∧ getSpellingLineNumber SM (tok_location Tok) = 1
   ∧ Token_text SM Tok = word_Text Word
   ∧ tokenSpelledAt (tok_location Tok) TB = true
   ∧ findNearbyIdentifier SM Word TB = None)
  ∧ findNearbyIdentifier
      (Fixture.source_manager Fixture_Nearby.two_letters)
      Fixture_Nearby.word_hi
      (Fixture.token_buffer Fixture_Nearby.two_letters_tokens [] None)
    = Some (mkToken 4 2 tok_identifier)
  ∧ (let SM := Fixture.source_manager Fixture_Nearby.three_lines_on in
     getSpellingLineNumber SM 3 = 1
     ∧ getSpellingLineNumber SM 7 = 4
     ∧ findNearbyIdentifier SM (Fixture_Nearby.word_x 3)
         (Fixture.token_buffer Fixture_Nearby.three_lines_on_tokens [] None)
       = Some (mkToken 7 1 tok_identifier)).
Proof.
  repeat split; try (vm_compute; reflexivity).
  unfold Fixture.token_buffer, Fixture_Nearby.one_line_back_tokens; simpl.
  set_solver.
Qed.

(** ** The supertype walk *)

Section SuperTypes.
Context (S : Support) (AST : ParsedAST) (TUPath : string).

Let Ctx := getASTContext AST.

(** A call that answers, with every depth allowance from some one on, the
    same item and leaves the protection set as it found it. *)
Definition fills (CXXRD : Decl) (RPSet : RecursionProtectionSet) : Prop :=
  ∀ Item, ∃ fuel Item', ∀ fuel', (fuel ≤ fuel')%nat →
    fillSuperTypes fuel' S AST TUPath CXXRD Item RPSet = Some (Item', RPSet).

Lemma fillSuperTypes_parents_fills Parents RPSet :
  (∀ P, P ∈ Parents → fills P RPSet) →
  ∀ Item, ∃ fuel Item', ∀ fuel', (fuel ≤ fuel')%nat →
    fillSuperTypes_parents (fillSuperTypes fuel' S AST TUPath)
      (λ ParentDecl, declToTypeHierarchyItem S AST ParentDecl TUPath)
      Parents Item RPSet
    = Some (Item', RPSet).
Proof.
  induction Parents as [|P Parents IH]; intros HP Item; simpl.
  - exists 0%nat, Item. done.
  - destruct (declToTypeHierarchyItem S AST P TUPath) as [ParentSym|].
    + destruct (HP P (list_elem_of_here _ _) ParentSym) as (f1 & ParentSym' & H1).
      destruct (IH (λ Q HQ, HP Q (list_elem_of_further _ _ _ HQ))
                  (emplace_back_parent Item ParentSym'))
        as (f2 & Item' & H2).
      exists (f1 `max` f2)%nat, Item'. intros fuel' Hf.
      rewrite H1 by lia. apply H2. lia.
    + apply IH. intros Q HQ. apply HP. by right.
Qed.

(** One call, given that the calls on the parents answer. *)
Lemma fillSuperTypes_step CXXRD RPSet :
  let RPSet' :=
    if getDescribedTemplate Ctx CXXRD then {[CXXRD]} ∪ RPSet else RPSet in
  (CXXRD ∉ RPSet ∨ getDescribedTemplate Ctx CXXRD = false →
   ∀ P, P ∈ typeParents Ctx CXXRD → fills P RPSet') →
  fills CXXRD RPSet.
Proof.
  intros RPSet' HP Item.
  destruct (getDescribedTemplate Ctx CXXRD) eqn:HT.
  - destruct (decide (CXXRD ∈ RPSet)) as [Hin|Hin].
    + exists 1%nat, (emplace_parents Item). intros [|fuel'] Hf; [lia|].
      simpl. fold Ctx. rewrite HT. by rewrite bool_decide_eq_true_2.
    + destruct (fillSuperTypes_parents_fills (typeParents Ctx CXXRD) RPSet'
                  (HP (or_introl Hin)) (emplace_parents Item))
        as (f & Item' & Hf).
      exists (Datatypes.S f), Item'. intros [|fuel'] Hfuel; [lia|].
      simpl. fold Ctx. rewrite HT.
      rewrite bool_decide_eq_false_2 by done.
      rewrite Hf by lia. f_equal. f_equal. subst RPSet'. set_solver.
  - destruct (fillSuperTypes_parents_fills (typeParents Ctx CXXRD) RPSet'
                (HP (or_intror eq_refl)) (emplace_parents Item))
      as (f & Item' & Hf).
    exists (Datatypes.S f), Item'. intros [|fuel'] Hfuel; [lia|].
    simpl. fold Ctx. rewrite HT. rewrite Hf by lia. done.
Qed.

Context (Patterns : gset Decl) (rank : Decl → nat).
Hypothesis Patterns_spec :
  ∀ D, getDescribedTemplate Ctx D = true → D ∈ Patterns.
Hypothesis rank_spec :
  ∀ D P, getDescribedTemplate Ctx D = false → P ∈ typeParents Ctx D →
         getDescribedTemplate Ctx P = false → (rank P < rank D)%nat.

Lemma fillSuperTypes_fills_all n :
  ∀ RPSet, size (Patterns ∖ RPSet) = n → ∀ CXXRD, fills CXXRD RPSet.
Proof.
  induction (lt_wf n) as [n _ IHn]. intros RPSet Hn.
  (* the template patterns first *)
  assert (∀ D, getDescribedTemplate Ctx D = true → fills D RPSet) as HA.
  { intros D HT. apply fillSuperTypes_step.
    intros [Hin|?] P _; [|congruence]. rewrite HT.
    apply (IHn (size (Patterns ∖ ({[D]} ∪ RPSet)))); [|done].
    subst n. apply subset_size.
    pose proof (Patterns_spec D HT). set_solver. }
  (* then the other records, along their rank *)
  intros CXXRD. remember (rank CXXRD) as r eqn:Hr. revert CXXRD Hr.
  induction (lt_wf r) as [r _ IHr]. intros CXXRD ->.
  destruct (getDescribedTemplate Ctx CXXRD) eqn:HT; [by apply HA|].
  apply fillSuperTypes_step. intros _ P HP. rewrite HT.
  destruct (getDescribedTemplate Ctx P) eqn:HTP; [by apply HA|].
  apply (IHr (rank P)); [by apply rank_spec | reflexivity].
Qed.

End SuperTypes.

(** C8, as the code has it. Provided the template patterns are finitely
    many and the other records inherit along a rank (no cycle among
    complete classes), [fillSuperTypes] answers on every record, item and
    protection set, from some depth of calls on, and leaves the protection
    set as it found it; and a template pattern that is already in the
    protection set is not expanded: the call only gives the item empty
    parent lists. *)
Theorem fillSuperTypes_terminates_and_guards
    (S : Support) (AST : ParsedAST) (TUPath : string)
    (Patterns : gset Decl) (rank : Decl → nat) :
  (∀ D, getDescribedTemplate (getASTContext AST) D = true → D ∈ Patterns) →
  (∀ D P, getDescribedTemplate (getASTContext AST) D = false →
          P ∈ typeParents (getASTContext AST) D →
          getDescribedTemplate (getASTContext AST) P = false →
          (rank P < rank D)%nat) →
  ∀ CXXRD Item RPSet,
    (∃ fuel Item', ∀ fuel', (fuel ≤ fuel')%nat →
       fillSuperTypes fuel' S AST TUPath CXXRD Item RPSet
       = Some (Item', RPSet))
    ∧ (getDescribedTemplate (getASTContext AST) CXXRD = true →
       CXXRD ∈ RPSet →
       ∀ fuel, fillSuperTypes (Datatypes.S fuel) S AST TUPath CXXRD Item RPSet
               = Some (emplace_parents Item, RPSet)).
Proof.
  intros HPat Hrank CXXRD Item RPSet. split.
  - eapply fillSuperTypes_fills_all; [exact HPat|exact Hrank|reflexivity].
  - intros HT Hin fuel. simpl. rewrite HT.
    by rewrite bool_decide_eq_true_2.
Qed.

(** The theorem on the recursive template of the fixture, from the
    invalid instantiation [S<0>]. *)
Lemma fillSuperTypes_terminates_and_guards_witness :
  (∃ fuel Item', ∀ fuel', (fuel ≤ fuel')%nat →
     fillSuperTypes fuel' Fixture.support Fixture_Hierarchy.file
       Fixture.main_path 0%nat Fixture_Hierarchy.root ∅
     = Some (Item', ∅))
  ∧ (getDescribedTemplate (getASTContext Fixture_Hierarchy.file) 0%nat = true →
     0%nat ∈ (∅ : gset Decl) →
     ∀ fuel, fillSuperTypes (Datatypes.S fuel) Fixture.support
               Fixture_Hierarchy.file Fixture.main_path 0%nat
               Fixture_Hierarchy.root ∅
             = Some (emplace_parents Fixture_Hierarchy.root, ∅)).
Proof.
  apply (fillSuperTypes_terminates_and_guards Fixture.support
           Fixture_Hierarchy.file Fixture.main_path
           Fixture_Hierarchy.patterns Fixture_Hierarchy.rank).
  - intros D HD. simpl in HD. apply bool_decide_eq_true in HD. subst D.
    unfold Fixture_Hierarchy.patterns. set_solver.
  - intros [|[|D]] P HD HP HPd; simpl in *.
    + apply list_elem_of_singleton in HP. subst P. done.
    + done.
    + by apply elem_of_nil in HP.
Defined.

(** C8, the claim as stated fails. From the invalid instantiation [S<0>]
    (id 100) of the recursive template the walk reports the pattern [S]
    (id 101) twice on one parent chain: once expanded and once more, as
    its own parent, with no parents. *)
Lemma fillSuperTypes_repeats_pattern_on_chain :
  (λ r, first_parent_chain r.1)
    <$> fillSuperTypes 3 Fixture.support Fixture_Hierarchy.file
          Fixture.main_path 0%nat Fixture_Hierarchy.root ∅
  = Some [100; 101; 101]
  ∧ ¬ NoDup [101; 101].
Proof.
  split; [vm_compute; reflexivity|].
  intros H. apply NoDup_cons in H as [H _]. apply H. left.
Qed.

(** ** Canonical declarations *)

(** C5. [getPreferredDecl] is idempotent on every declaration, the
    Objective-C interfaces and protocols with a definition included. The
    two premises are the invariants of a redeclaration chain: the
    canonical declaration of a chain is its own canonical declaration,
    and the definition of an interface or protocol is a declaration of
    the same chain. *)
Theorem getPreferredDecl_idempotent (Ctx : ASTContext) :
  (∀ D, getCanonicalDecl Ctx (getCanonicalDecl Ctx D) = getCanonicalDecl Ctx D) →
  (∀ D Def,
     getKind Ctx D = ObjCInterface ∨ getKind Ctx D = ObjCProtocol →
     decl_getDefinition Ctx D = Some Def →
     getCanonicalDecl Ctx Def = getCanonicalDecl Ctx D) →
  ∀ D, getPreferredDecl Ctx (getPreferredDecl Ctx D) = getPreferredDecl Ctx D.
Proof.
  intros Hcanon Hdef D. unfold getPreferredDecl.
  set (C := getCanonicalDecl Ctx D).
  assert (getCanonicalDecl Ctx C = C) as HC by apply Hcanon.
  unfold isa.
  destruct (decide (getKind Ctx C = ObjCInterface)) as [HI|HI].
  - rewrite (bool_decide_eq_true_2 _ HI).
    destruct (decl_getDefinition Ctx C) as [Def|] eqn:HD.
    + rewrite (Hdef C Def (or_introl HI) HD), HC.
      rewrite (bool_decide_eq_true_2 _ HI), HD. done.
    + assert (getKind Ctx C ≠ ObjCProtocol) as HP by congruence.
      rewrite (bool_decide_eq_false_2 _ HP), HC.
      rewrite (bool_decide_eq_true_2 _ HI), HD.
      by rewrite (bool_decide_eq_false_2 _ HP).
  - rewrite (bool_decide_eq_false_2 _ HI).
    destruct (decide (getKind Ctx C = ObjCProtocol)) as [HP|HP].
    + rewrite (bool_decide_eq_true_2 _ HP).
      destruct (decl_getDefinition Ctx C) as [Def|] eqn:HD.
      * rewrite (Hdef C Def (or_intror HP) HD), HC.
        rewrite (bool_decide_eq_false_2 _ HI), (bool_decide_eq_true_2 _ HP).
        by rewrite HD.
      * rewrite HC, (bool_decide_eq_false_2 _ HI).
        by rewrite (bool_decide_eq_true_2 _ HP), HD.
    + rewrite (bool_decide_eq_false_2 _ HP), HC.
      by rewrite (bool_decide_eq_false_2 _ HI), (bool_decide_eq_false_2 _ HP).
Qed.

(** The theorem on the forward declaration of the class of the fixture,
    whose preferred declaration is the interface definition. *)
Lemma getPreferredDecl_idempotent_witness :
  getPreferredDecl Fixture_ObjC.context
    (getPreferredDecl Fixture_ObjC.context 0%nat)
  = getPreferredDecl Fixture_ObjC.context 0%nat.
Proof.
  apply (getPreferredDecl_idempotent Fixture_ObjC.context).
  - intros [|[|[|[|[|D]]]]]; reflexivity.
  - intros [|[|[|[|[|D]]]]] Def HK HD; simpl in *;
      (destruct HK; discriminate) || (injection HD as <-; reflexivity).
Defined.

(** ** Enhancing located symbols from the index *)

(** The definition of an entry once the callback ran on the answer [Sym]:
    a definition the AST gave is replaced by the merge-preferred location
    when that converts, and kept otherwise; without one, the converted
    definition of the answer is taken. *)
Definition merged_definition (S : Support) (MainFilePath : string)
    (Def : option Location) (Sym : Symbol) : option Location :=
  match Def with
  | Some Def =>
      match toLSPLocation S (getPreferredLocation S Def (sym_Definition Sym))
              MainFilePath with
      | Some Loc => Some Loc
      | None => Some Def
      end
  | None => toLSPLocation S (sym_Definition Sym) MainFilePath
  end.

Section Enhance.
Context (S : Support) (MainFilePath : string).

Lemma enhance_entry_ID Sym R : ID (enhance_entry S MainFilePath Sym R) = ID R.
Proof.
  unfold enhance_entry.
  repeat (case_match; simpl; try done).
Qed.

Lemma enhance_entry_from_index Sym R :
  Definition_ R = None →
  Definition_ (enhance_entry S MainFilePath Sym R)
  = toLSPLocation S (sym_Definition Sym) MainFilePath.
Proof.
  intros HR. unfold enhance_entry. rewrite HR.
  case_match; done.
Qed.

Lemma enhance_entry_from_AST Sym R Def :
  Definition_ R = Some Def →
  Definition_ (enhance_entry S MainFilePath Sym R) = Some Def
  ∨ (is_Some (Definition_ (enhance_entry S MainFilePath Sym R))
     ∧ Definition_ (enhance_entry S MainFilePath Sym R)
       = toLSPLocation S (getPreferredLocation S Def (sym_Definition Sym))
           MainFilePath).
Proof.
  intros HR. unfold enhance_entry. rewrite HR.
  destruct (toLSPLocation S (getPreferredLocation S Def (sym_Definition Sym))
              MainFilePath) as [Loc|] eqn:HL.
  - right. case_match; simpl; eauto.
  - left. case_match; simpl; done.
Qed.

Lemma enhance_entry_keeps Sym R :
  is_Some (Definition_ R) →
  is_Some (Definition_ (enhance_entry S MainFilePath Sym R)).
Proof.
  intros [Def HR].
  destruct (enhance_entry_from_AST Sym R Def HR) as [->|[? _]]; eauto.
Qed.

Lemma enhance_entry_takes Sym R :
  is_Some (toLSPLocation S (sym_Definition Sym) MainFilePath) →
  is_Some (Definition_ (enhance_entry S MainFilePath Sym R)).
Proof.
  intros HS. destruct (Definition_ R) eqn:HR.
  - apply enhance_entry_keeps. rewrite HR. eauto.
  - by rewrite enhance_entry_from_index.
Qed.

Lemma enhance_callback_length RI Result Sym :
  length (enhance_callback S MainFilePath RI Result Sym) = length Result.
Proof.
  unfold enhance_callback. case_match; [|done]. by rewrite length_insert.
Qed.

(** What the callback does to the entry at a position. *)
Lemma enhance_callback_lookup RI Result Sym I R :
  Result !! I = Some R →
  enhance_callback S MainFilePath RI Result Sym !! I
  = Some (if decide (I = default 0%nat (RI !! sym_ID Sym))
          then enhance_entry S MainFilePath Sym R else R).
Proof.
  intros HR. unfold enhance_callback.
  set (K := default 0%nat (RI !! sym_ID Sym)).
  destruct (decide (I = K)) as [->|Hne].
  - rewrite HR. apply list_lookup_insert_eq. by eapply lookup_lt_Some.
  - destruct (Result !! K); [|done].
    by rewrite list_lookup_insert_ne.
Qed.

(** A property of the entries that every run of the callback body keeps
    holds of the entries after the lookup. *)
Lemma enhance_foldl_invariant (Inv : nat → LocatedSymbol → Prop) RI Syms :
  (∀ I R Sym, Sym ∈ Syms → Inv I R →
              Inv I (enhance_entry S MainFilePath Sym R)) →
  ∀ Result,
    (∀ I R, Result !! I = Some R → Inv I R) →
    ∀ I R, foldl (enhance_callback S MainFilePath RI) Result Syms !! I = Some R →
           Inv I R.
Proof.
  induction Syms as [|Sym Syms IH]; intros Hstep Result HInv I R; simpl.
  - apply HInv.
  - apply IH.
    + intros ? ? ? ?. apply Hstep. by right.
    + intros J RJ HJ.
      destruct (Result !! J) as [R0|] eqn:H0.
      * rewrite (enhance_callback_lookup _ _ _ _ _ H0) in HJ.
        injection HJ as <-. case_decide.
        -- apply Hstep; [left|by apply HInv].
        -- by apply HInv.
      * apply lookup_ge_None in H0.
        apply lookup_lt_Some in HJ.
        rewrite enhance_callback_length in HJ. lia.
Qed.

Lemma enhance_foldl_length RI Syms Result :
  length (foldl (enhance_callback S MainFilePath RI) Result Syms)
  = length Result.
Proof.
  revert Result. induction Syms as [|Sym Syms IH]; intros Result; simpl;
    [done|]. by rewrite IH, enhance_callback_length.
Qed.

(** Once an answer of the index for the entry at [I] comes with a
    definition that converts, the entry has a definition in the end. *)
Lemma enhance_foldl_takes RI Syms Sym I :
  Sym ∈ Syms → RI !! sym_ID Sym = Some I →
  is_Some (toLSPLocation S (sym_Definition Sym) MainFilePath) →
  ∀ Result R0, Result !! I = Some R0 →
  ∃ R, foldl (enhance_callback S MainFilePath RI) Result Syms !! I = Some R
       ∧ is_Some (Definition_ R).
Proof.
  intros Hin HRI HS.
  induction Syms as [|Sym' Syms IH]; [by apply elem_of_nil in Hin|].
  intros Result R0 HR0. simpl.
  pose proof (enhance_callback_lookup RI Result Sym' I R0 HR0) as Hcb.
  apply elem_of_cons in Hin as [<-|Hin].
  - rewrite HRI in Hcb. simpl in Hcb. rewrite decide_True in Hcb by done.
    set (Result' := enhance_callback S MainFilePath RI Result Sym) in *.
    assert (∃ R, foldl (enhance_callback S MainFilePath RI) Result' Syms !! I
                 = Some R) as [R HR].
    { apply lookup_lt_is_Some. rewrite enhance_foldl_length.
      by eapply lookup_lt_Some. }
    exists R. split; [done|].
    eapply (enhance_foldl_invariant
              (λ J RJ, J = I → is_Some (Definition_ RJ)) RI Syms);
      [| |exact HR|done].
    + intros J RJ ? _ HJ ?. by apply enhance_entry_keeps, HJ.
    + intros J RJ HJ ->. rewrite Hcb in HJ. injection HJ as <-.
      by apply enhance_entry_takes.
  - eapply IH; [done|exact Hcb].
Qed.

(** The index table of the first loop sends an id to the first position
    that carries it. *)
Lemma enhance_collect_first Result :
  ∀ I0 RI IDs K R,
    Result !! K = Some R → ID R ≠ 0 →
    (∀ J R0, (J < K)%nat → Result !! J = Some R0 → ID R0 ≠ ID R) →
    RI !! ID R = None →
    (enhance_collect Result I0 RI IDs).1 !! ID R = Some (I0 + K)%nat
    ∧ ID R ∈ (enhance_collect Result I0 RI IDs).2.
Proof.
  assert (∀ Result I0 RI IDs id i,
            RI !! id = Some i →
            (enhance_collect Result I0 RI IDs).1 !! id = Some i) as Hkeep.
  { clear. induction Result as [|R Result IH]; intros I0 RI IDs id i Hi;
      simpl; [done|].
    destruct (SymbolID_isNull (ID R)); [by apply IH|].
    apply IH. destruct (RI !! ID R) eqn:E; [done|].
    rewrite lookup_insert_ne; [done|]. intros Heq. congruence. }
  assert (∀ Result I0 RI IDs id,
            id ∈ IDs → id ∈ (enhance_collect Result I0 RI IDs).2) as Hsub.
  { clear. induction Result as [|R Result IH]; intros I0 RI IDs id Hi;
      simpl; [done|].
    destruct (SymbolID_isNull (ID R)); [by apply IH|].
    apply IH. set_solver. }
  induction Result as [|R1 Result IH]; intros I0 RI IDs K R HK HID Hfirst HRI.
  { by rewrite lookup_nil in HK. }
  simpl. destruct K as [|K]; simpl in HK.
  - injection HK as ->.
    unfold SymbolID_isNull. rewrite (proj2 (Z.eqb_neq _ _) HID).
    rewrite HRI. split.
    + rewrite Nat.add_0_r. apply Hkeep. apply lookup_insert_eq.
    + apply Hsub. set_solver.
  - assert (ID R1 ≠ ID R) as Hne by (apply (Hfirst 0%nat); [lia|done]).
    replace (I0 + Datatypes.S K)%nat with (Datatypes.S I0 + K)%nat by lia.
    destruct (SymbolID_isNull (ID R1)).
    + apply IH; [done..| |done].
      intros J R0 HJ HR0. apply (Hfirst (Datatypes.S J)); [lia|done].
    + apply IH; [done..| |].
      * intros J R0 HJ HR0. apply (Hfirst (Datatypes.S J)); [lia|done].
      * destruct (RI !! ID R1); [done|]. by rewrite lookup_insert_ne.
Qed.

Lemma enhance_entry_Name Sym R :
  Name (enhance_entry S MainFilePath Sym R) = Name R.
Proof.
  unfold enhance_entry.
  repeat (case_match; simpl; try done).
Qed.

(** The declaration of an entry after one answer of the index. *)
Lemma enhance_entry_PreferredDeclaration Sym R :
  PreferredDeclaration (enhance_entry S MainFilePath Sym R)
  = match Definition_ R with
    | Some _ =>
        default (PreferredDeclaration R)
          (toLSPLocation S (sym_CanonicalDeclaration Sym) MainFilePath)
    | None =>
        default (PreferredDeclaration R)
          (toLSPLocation S
             (getPreferredLocation S (PreferredDeclaration R)
                (sym_CanonicalDeclaration Sym)) MainFilePath)
    end.
Proof.
  unfold enhance_entry.
  repeat (case_match; simpl; try congruence).
Qed.

(** The definition of an entry after one answer of the index. *)
Lemma enhance_entry_Definition Sym R :
  Definition_ (enhance_entry S MainFilePath Sym R)
  = merged_definition S MainFilePath (Definition_ R) Sym.
Proof.
  unfold enhance_entry, merged_definition.
  destruct (Definition_ R) as [Def|] eqn:HR.
  - repeat (case_match; simpl; try congruence).
  - repeat (case_match; simpl; try congruence).
Qed.

Lemma enhance_entries_Definition Syms R :
  Definition_ (foldl (λ R Sym, enhance_entry S MainFilePath Sym R) R Syms)
  = foldl (merged_definition S MainFilePath) (Definition_ R) Syms.
Proof.
  revert R. induction Syms as [|Sym Syms IH]; intros R; simpl; [done|].
  by rewrite IH, enhance_entry_Definition.
Qed.

Lemma enhance_entries_ID Syms R :
  ID (foldl (λ R Sym, enhance_entry S MainFilePath Sym R) R Syms) = ID R.
Proof.
  revert R. induction Syms as [|Sym Syms IH]; intros R; simpl; [done|].
  by rewrite IH, enhance_entry_ID.
Qed.

Lemma enhance_entries_Name Syms R :
  Name (foldl (λ R Sym, enhance_entry S MainFilePath Sym R) R Syms) = Name R.
Proof.
  revert R. induction Syms as [|Sym Syms IH]; intros R; simpl; [done|].
  by rewrite IH, enhance_entry_Name.
Qed.

Lemma merged_definition_keeps Syms Def :
  is_Some Def → is_Some (foldl (merged_definition S MainFilePath) Def Syms).
Proof.
  revert Def. induction Syms as [|Sym Syms IH]; intros Def HDef; simpl; [done|].
  apply IH. destruct HDef as [D ->]. simpl. case_match; eauto.
Qed.

Lemma merged_definition_takes Syms Sym Def :
  Sym ∈ Syms →
  is_Some (toLSPLocation S (sym_Definition Sym) MainFilePath) →
  is_Some (foldl (merged_definition S MainFilePath) Def Syms).
Proof.
  intros Hin HS. revert Def.
  induction Syms as [|Sym' Syms IH]; intros Def; [by apply elem_of_nil in Hin|].
  simpl. apply elem_of_cons in Hin as [<-|Hin]; [|by apply IH].
  apply merged_definition_keeps.
  destruct Def as [D|]; simpl; [case_match; eauto|done].
Qed.

(** A definition the merge ends with was there before, or an answer
    brought one that converts. *)
Lemma merged_definition_only_if Syms Def :
  is_Some (foldl (merged_definition S MainFilePath) Def Syms) →
  is_Some Def
  ∨ ∃ Sym, Sym ∈ Syms
           ∧ is_Some (toLSPLocation S (sym_Definition Sym) MainFilePath).
Proof.
  revert Def. induction Syms as [|Sym Syms IH]; intros Def; simpl; [by left|].
  intros H. destruct (IH _ H) as [HD|(Sym' & Hin & HS)].
  - destruct Def as [D|]; [by eauto|]. simpl in HD.
    right. exists Sym. split; [left|done].
  - right. exists Sym'. split; [by right|done].
Qed.

(** The entry at a position after the lookup: the answers that select the
    position, applied to it in the order of the lookup. *)
Lemma enhance_foldl_lookup RI Syms :
  ∀ Result I R, Result !! I = Some R →
  foldl (enhance_callback S MainFilePath RI) Result Syms !! I
  = Some (foldl (λ R Sym, enhance_entry S MainFilePath Sym R) R
            (filter (λ Sym, default 0%nat (RI !! sym_ID Sym) = I) Syms)).
Proof.
  induction Syms as [|Sym Syms IH]; intros Result I R HR; [done|].
  cbn [foldl]. rewrite filter_cons.
  pose proof (enhance_callback_lookup RI Result Sym I R HR) as Hcb.
  rewrite (IH _ _ _ Hcb).
  destruct (decide (default 0%nat (RI !! sym_ID Sym) = I)) as [Heq|Hne].
  - rewrite decide_True by done. done.
  - rewrite decide_False by (intros ->; done). done.
Qed.

(** The table of the first loop holds the asked ids, and sends an id to
    a position that carries it. *)
Lemma enhance_collect_slots Result :
  ∀ Pre RI IDs,
    (∀ id, id ∈ IDs → is_Some (RI !! id)) →
    (∀ id I, RI !! id = Some I →
             ∃ R, (Pre ++ Result) !! I = Some R ∧ ID R = id) →
    (∀ id, id ∈ (enhance_collect Result (length Pre) RI IDs).2 →
           is_Some ((enhance_collect Result (length Pre) RI IDs).1 !! id))
    ∧ (∀ id I, (enhance_collect Result (length Pre) RI IDs).1 !! id = Some I →
               ∃ R, (Pre ++ Result) !! I = Some R ∧ ID R = id).
Proof.
  induction Result as [|R Result IH]; intros Pre RI IDs HIDs HRI; [done|].
  simpl.
  assert ((Pre ++ [R]) ++ Result = Pre ++ R :: Result) as Happ
    by by rewrite <- app_assoc.
  assert (length (Pre ++ [R]) = Datatypes.S (length Pre)) as Hlen
    by (rewrite length_app; simpl; lia).
  destruct (SymbolID_isNull (ID R)).
  - rewrite <- Hlen, <- Happ. apply IH; [done|]. by rewrite Happ.
  - rewrite <- Hlen, <- Happ. apply IH.
    + intros id [->%elem_of_singleton|Hid]%elem_of_union.
      * destruct (RI !! ID R) eqn:E; [by eauto|]. rewrite lookup_insert_eq. eauto.
      * destruct (RI !! ID R) eqn:E; [by apply HIDs|].
        destruct (decide (id = ID R)) as [->|Hne].
        -- rewrite lookup_insert_eq. eauto.
        -- rewrite lookup_insert_ne by done. by apply HIDs.
    + rewrite Happ. intros id I.
      destruct (RI !! ID R) eqn:E; [by apply HRI|].
      destruct (decide (id = ID R)) as [->|Hne].
      * rewrite lookup_insert_eq. intros [= <-]. exists R. split; [|done].
        by rewrite list_lookup_middle.
      * rewrite lookup_insert_ne by done. by apply HRI.
Qed.

End Enhance.

(** The ids the lookup request carries. *)
Definition QueryRequest_IDs (Result : list LocatedSymbol) : gset SymbolID :=
  (enhance_collect Result 0 ∅ ∅).2.

(** The position whose entry the callback updates on the answer [Sym]:
    [ResultIndex.lookup(Sym.ID)], which is [0] for an id that no entry
    carries. *)
Definition enhance_slot (Result : list LocatedSymbol) (Sym : Symbol) : nat :=
  default 0%nat ((enhance_collect Result 0 ∅ ∅).1 !! sym_ID Sym).

Lemma filter_ext_in {A} (P Q : A → Prop) `{!∀ x, Decision (P x)}
    `{!∀ x, Decision (Q x)} (l : list A) :
  (∀ x, x ∈ l → P x ↔ Q x) → filter P l = filter Q l.
Proof.
  induction l as [|x l IH]; intros Hext; [done|].
  rewrite !filter_cons.
  rewrite IH by (intros y Hy; apply Hext; by right).
  destruct (decide (P x)) as [HP|HP].
  - rewrite decide_True; [done|]. apply Hext; [left|done].
  - rewrite decide_False; [done|]. intros HQ. apply HP, Hext; [left|done].
Qed.

(** For the first entry that carries a non-null id, and an index that
    answers a lookup with symbols of the ids asked for only: the answers
    that select the entry are the answers of its id. *)
Lemma enhance_slot_answers (Result : list LocatedSymbol) (Syms : list Symbol)
    (I : nat) (R : LocatedSymbol) :
  Result !! I = Some R → ID R ≠ 0 →
  (∀ J R0, (J < I)%nat → Result !! J = Some R0 → ID R0 ≠ ID R) →
  (∀ Sym, Sym ∈ Syms → sym_ID Sym ∈ QueryRequest_IDs Result) →
  filter (λ Sym, enhance_slot Result Sym = I) Syms
  = filter (λ Sym, sym_ID Sym = ID R) Syms.
Proof.
  intros HR HID Hfirst Hasked. apply filter_ext_in. intros Sym HSym.
  destruct (enhance_collect_first Result 0%nat ∅ ∅ I R HR HID Hfirst
              (lookup_empty _)) as [HRI _].
  destruct (enhance_collect_slots Result [] ∅ ∅) as [Hdom Hcarry].
  { intros id Hid. by apply elem_of_empty in Hid. }
  { intros id J HJ. by rewrite lookup_empty in HJ. }
  simpl in Hdom, Hcarry. unfold enhance_slot. split.
  - intros Hslot.
    destruct (Hdom _ (Hasked _ HSym)) as [J HJ].
    rewrite HJ in Hslot. simpl in Hslot. subst J.
    destruct (Hcarry _ _ HJ) as (R0 & HR0 & <-). congruence.
  - intros ->. by rewrite HRI.
Qed.

(** C3, as the code has it. After [enhanceLocatedSymbolsFromIndex] the
    entry at a position keeps its id, and its definition is that of the
    entry before, merged in turn with the answers of the index that
    select the position: a definition the AST gave is never cleared (an
    answer leaves it or replaces it by the converted merge-preferred
    location); when the AST gave none, the one answer for the entry sets
    the definition to the converted definition of the index symbol, which
    is empty when the conversion fails; without an answer the entry is
    left as it was. For the first entry with a non-null id, and an index
    that answers with the ids asked for, the answers that select the
    entry are the answers of its id, and the entry has a definition in
    the end whenever one of them has a definition that converts. *)
Theorem enhanceLocatedSymbolsFromIndex_definitions
    (S : Support) (Result : list LocatedSymbol) (Index : SymbolIndex)
    (MainFilePath : string) (I : nat) (R : LocatedSymbol) :
  Result !! I = Some R →
  let Asked := QueryRequest_IDs Result in
  let Answers :=
    filter (λ Sym, enhance_slot Result Sym = I) (lookup Index Asked) in
  ∃ R',
    enhanceLocatedSymbolsFromIndex S Result (Some Index) MainFilePath !! I
    = Some R'
    ∧ ID R' = ID R
    ∧ (is_Some (Definition_ R) → is_Some (Definition_ R'))
    ∧ (∀ Sym,
         ID R ≠ 0 →
         (∀ J R0, (J < I)%nat → Result !! J = Some R0 → ID R0 ≠ ID R) →
         Sym ∈ lookup Index Asked →
         sym_ID Sym = ID R →
         is_Some (toLSPLocation S (sym_Definition Sym) MainFilePath) →
         is_Some (Definition_ R'))
    ∧ (Asked ≠ ∅ →
       Definition_ R'
       = foldl (merged_definition S MainFilePath) (Definition_ R) Answers)
    ∧ (Asked = ∅ ∨ Answers = [] → R' = R)
    ∧ (∀ Sym, Asked ≠ ∅ → Answers = [Sym] →
         (Definition_ R = None →
          Definition_ R' = toLSPLocation S (sym_Definition Sym) MainFilePath)
         ∧ (∀ Def, Definition_ R = Some Def →
              Definition_ R'
              = match toLSPLocation S
                        (getPreferredLocation S Def (sym_Definition Sym))
                        MainFilePath with
                | Some Loc => Some Loc
                | None => Some Def
                end))
    ∧ (ID R ≠ 0 →
       (∀ J R0, (J < I)%nat → Result !! J = Some R0 → ID R0 ≠ ID R) →
       (∀ Sym, Sym ∈ lookup Index Asked → sym_ID Sym ∈ Asked) →
       Asked ≠ ∅
       ∧ Answers = filter (λ Sym, sym_ID Sym = ID R) (lookup Index Asked)).
Proof.
  intros HR Asked Answers.
  assert (ID R ≠ 0 →
          (∀ J R0, (J < I)%nat → Result !! J = Some R0 → ID R0 ≠ ID R) →
          (enhance_collect Result 0 ∅ ∅).1 !! ID R = Some I ∧ ID R ∈ Asked)
    as Hfirst_slot.
  { intros HID0 Hfirst.
    apply (enhance_collect_first Result 0%nat ∅ ∅ I R HR HID0 Hfirst
             (lookup_empty _)). }
  assert (∃ R',
            enhanceLocatedSymbolsFromIndex S Result (Some Index) MainFilePath
              !! I = Some R'
            ∧ (Asked = ∅ → R' = R)
            ∧ (Asked ≠ ∅ →
               R' = foldl (λ R Sym, enhance_entry S MainFilePath Sym R) R
                      Answers)) as (R' & HR' & Hnone & Hsome).
  { unfold enhanceLocatedSymbolsFromIndex. subst Answers Asked.
    unfold enhance_slot, QueryRequest_IDs.
    destruct (enhance_collect Result 0 ∅ ∅) as [RI IDs]. simpl.
    case_bool_decide.
    - exists R. by repeat split.
    - eexists. split; [by apply enhance_foldl_lookup|]. by split. }
  assert (Asked ≠ ∅ →
          Definition_ R'
          = foldl (merged_definition S MainFilePath) (Definition_ R) Answers)
    as HDef.
  { intros HA. rewrite (Hsome HA). apply enhance_entries_Definition. }
  exists R'. split; [done|].
  destruct (decide (Asked = ∅)) as [HA|HA].
  - rewrite (Hnone HA). repeat split; try done.
    + intros Sym HID0 Hfirst. destruct (Hfirst_slot HID0 Hfirst) as [_ Hin].
      rewrite HA in Hin. by apply elem_of_empty in Hin.
    + intros. destruct (Hfirst_slot ltac:(done) ltac:(done)) as [_ Hin].
      rewrite HA in Hin. by apply elem_of_empty in Hin.
    + intros. destruct (Hfirst_slot ltac:(done) ltac:(done)) as [_ Hin].
      rewrite HA in Hin. by apply elem_of_empty in Hin.
  - specialize (HDef HA). specialize (Hsome HA).
    split; [rewrite Hsome; apply enhance_entries_ID|].
    split; [rewrite HDef; apply merged_definition_keeps|].
    split; [|split; [done|split; [|split]]].
    + intros Sym HID0 Hfirst HSym HSID HS.
      destruct (Hfirst_slot HID0 Hfirst) as [HRI _].
      rewrite HDef. apply (merged_definition_takes _ _ _ Sym); [|done].
      subst Answers. apply list_elem_of_filter. split; [|done].
      unfold enhance_slot. by rewrite HSID, HRI.
    + intros [?|HAns]; [done|]. by rewrite Hsome, HAns.
    + intros Sym _ HAns. rewrite HDef, HAns. simpl. split.
      * by intros ->.
      * by intros Def ->.
    + intros HID0 Hfirst Hasked. split; [done|].
      by apply enhance_slot_answers.
Qed.

(** The theorem on the function [f] of the fixture: the AST gave no
    definition, the index answers with one symbol of the id, whose
    definition converts, and the entry has that definition after the
    lookup. *)
Lemma enhanceLocatedSymbolsFromIndex_definitions_witness :
  ∃ R',
    enhanceLocatedSymbolsFromIndex Fixture.support [Fixture_Index.f_declared]
      (Some (Fixture_Index.lookup_index [Fixture_Index.f_defined]))
      Fixture.main_path !! 0%nat
    = Some R'
    ∧ ID R' = 7
    ∧ Definition_ R'
      = Some (mkLocation "file:///src/f.cpp"
                (mkRange (mkPosition 9 0) (mkPosition 9 3))).
Proof.
  destruct (enhanceLocatedSymbolsFromIndex_definitions Fixture.support
              [Fixture_Index.f_declared]
              (Fixture_Index.lookup_index [Fixture_Index.f_defined])
              Fixture.main_path 0%nat Fixture_Index.f_declared eq_refl)
    as (R' & HR' & HID & _ & _ & _ & _ & Hone & _).
  exists R'. split; [exact HR'|]. split; [exact HID|].
  destruct (Hone Fixture_Index.f_defined) as [Hset _].
  - vm_compute. set_solver.
  - vm_compute. reflexivity.
  - rewrite Hset; [|reflexivity]. vm_compute. reflexivity.
Defined.

(** C3, the claim as stated fails. The index symbol of [f] has a
    definition, in a file whose URI does not resolve to a path; the AST
    gave none; after the lookup the entry has no definition. *)
Lemma enhanceLocatedSymbolsFromIndex_drops_unresolvable_definition :
  SymbolLocation_bool (sym_Definition Fixture_Index.f_unresolvable) = true
  ∧ sym_ID Fixture_Index.f_unresolvable = ID Fixture_Index.f_declared
  ∧ Definition_
      <$> enhanceLocatedSymbolsFromIndex Fixture.support
            [Fixture_Index.f_declared]
            (Some (Fixture_Index.lookup_index [Fixture_Index.f_unresolvable]))
            Fixture.main_path
    = [None].
Proof. repeat split; vm_compute; reflexivity. Qed.

(** What [AddResultDecl] appends. *)
Lemma AddResultDecl_spec (S : Support) (AST : ParsedAST)
    (MainFilePath : string) (Result : list LocatedSymbol) (D : Decl) :
  let Ctx := getASTContext AST in
  let SM := getSourceManager AST in
  let D' := getPreferredDecl Ctx D in
  AddResultDecl S AST MainFilePath Result D = Result
  ∨ ∃ Loc,
      makeLocation S SM (nameLocation Ctx D') MainFilePath = Some Loc
      ∧ AddResultDecl S AST MainFilePath Result D
        = Result
          ++ [mkLocatedSymbol (printName Ctx D') Loc
                (match getDefinition Ctx D' with
                 | Some Def =>
                     makeLocation S SM (nameLocation Ctx Def) MainFilePath
                 | None => None
                 end)
                (getSymbolID Ctx D')].
Proof.
  intros Ctx SM D'. unfold AddResultDecl. fold Ctx SM D'.
  destruct (makeLocation S SM (nameLocation Ctx D') MainFilePath) as [Loc|];
    [right; eauto | by left].
Qed.

(** A definition after the lookup was there before it, or an answer of
    the index for the entry brought one that converts; under an index
    that answers with the ids asked for, that answer has the id of the
    entry. *)
Lemma enhanceLocatedSymbolsFromIndex_only_if
    (S : Support) (Result : list LocatedSymbol) (Index : option SymbolIndex)
    (MainFilePath : string) (I : nat) (R' : LocatedSymbol) :
  enhanceLocatedSymbolsFromIndex S Result Index MainFilePath !! I = Some R' →
  ∃ R, Result !! I = Some R
       ∧ ID R' = ID R ∧ Name R' = Name R
       ∧ (is_Some (Definition_ R') →
          is_Some (Definition_ R)
          ∨ ∃ Index' Sym,
              Index = Some Index'
              ∧ Sym ∈ lookup Index' (QueryRequest_IDs Result)
              ∧ is_Some (toLSPLocation S (sym_Definition Sym) MainFilePath)
              ∧ ((∀ Sym', Sym' ∈ lookup Index' (QueryRequest_IDs Result) →
                          sym_ID Sym' ∈ QueryRequest_IDs Result) →
                 sym_ID Sym = ID R')).
Proof.
  unfold enhanceLocatedSymbolsFromIndex, QueryRequest_IDs.
  destruct (enhance_collect_slots Result [] ∅ ∅) as [Hdom Hcarry].
  { intros id Hid. by apply elem_of_empty in Hid. }
  { intros id J HJ. by rewrite lookup_empty in HJ. }
  simpl in Hdom, Hcarry.
  destruct (enhance_collect Result 0 ∅ ∅) as [RI IDs]. simpl in *.
  destruct Index as [Index|]; [|by eauto 10].
  case_bool_decide; [by eauto 10|].
  intros HR'.
  assert (∃ R, Result !! I = Some R) as [R HR].
  { apply lookup_lt_is_Some. apply lookup_lt_Some in HR'.
    by rewrite enhance_foldl_length in HR'. }
  rewrite (enhance_foldl_lookup S MainFilePath RI _ _ _ _ HR) in HR'.
  injection HR' as <-.
  exists R. split; [done|].
  split; [apply enhance_entries_ID|].
  split.
  { apply enhance_entries_Name. }
  rewrite enhance_entries_Definition, enhance_entries_ID.
  intros [HD|(Sym & [Hslot HSym]%list_elem_of_filter & HS)]
           %merged_definition_only_if; [by left|].
  right. exists Index, Sym. split; [done|]. split; [done|]. split; [done|].
  intros Hasked.
  destruct (Hdom _ (Hasked _ HSym)) as [J HJ].
  rewrite HJ in Hslot. simpl in Hslot. subst J.
  destruct (Hcarry _ _ HJ) as (R0 & HR0 & <-). congruence.
Qed.

(** ** Definitions by kind *)

(** The rule of C6 by kind. [getDefinition] answers by kind: for tag,
    variable and function declarations the definition the declaration
    itself knows; for a class template that of its templated class; for
    an Objective-C method that is a definition, the method; for kinds with
    many lawful definitions (namespaces, type aliases, using declarations)
    nothing. For such a declaration the located symbol [AddResultDecl]
    makes carries the name and the id of the declaration and no
    definition, and after the index lookup it has one only if an answer
    of the index brought a definition that converts, an answer of its own
    id when the index answers with the ids asked for. *)
Theorem getDefinition_by_kind (Ctx : ASTContext) (D : Decl) :
  let K := getKind Ctx D in
  (isa_TagDecl K = true ∨ isa_VarDecl K = true ∨ isa_FunctionDecl K = true →
   getDefinition Ctx D = decl_getDefinition Ctx D)
  ∧ (K = ClassTemplate → ∀ RD, getTemplatedDecl Ctx D = Some RD →
     getDefinition Ctx D = decl_getDefinition Ctx RD)
  ∧ (K = ObjCMethod → isThisDeclarationADefinition Ctx D = true →
     getDefinition Ctx D = Some D)
  ∧ (K = Namespace ∨ K = Typedef ∨ K = UsingDecl → getDefinition Ctx D = None)
  ∧ (∀ S AST MainFilePath Result Index I R',
       getASTContext AST = Ctx →
       getPreferredDecl Ctx D = D →
       getDefinition Ctx D = None →
       enhanceLocatedSymbolsFromIndex S
         (AddResultDecl S AST MainFilePath Result D) Index MainFilePath !! I
       = Some R' →
       (length Result ≤ I)%nat →
       Name R' = printName Ctx D
       ∧ ID R' = getSymbolID Ctx D
       ∧ (Index = None → Definition_ R' = None)
       ∧ (is_Some (Definition_ R') →
          ∃ Index' Sym,
            Index = Some Index'
            ∧ Sym ∈ lookup Index'
                      (QueryRequest_IDs
                         (AddResultDecl S AST MainFilePath Result D))
            ∧ is_Some (toLSPLocation S (sym_Definition Sym) MainFilePath)
            ∧ ((∀ Sym', Sym' ∈ lookup Index'
                                 (QueryRequest_IDs
                                    (AddResultDecl S AST MainFilePath Result D)) →
                        sym_ID Sym'
                        ∈ QueryRequest_IDs
                            (AddResultDecl S AST MainFilePath Result D)) →
               sym_ID Sym = ID R'))).
Proof.
  intros K.
  split; [|split; [|split; [|split]]];
    [unfold getDefinition; fold K..|].
  - intros [H|[H|H]].
    + by rewrite H.
    + rewrite H. by destruct (isa_TagDecl K).
    + rewrite H. by destruct (isa_TagDecl K), (isa_VarDecl K).
  - intros -> RD HRD. simpl. rewrite HRD. done.
  - intros -> HD. simpl. unfold getDefinition_ObjCMethod. by rewrite HD.
  - intros [->|[->| ->]]; reflexivity.
  - intros S AST MainFilePath Result Index I R' HCtx HPref HDef HR' HI.
    destruct (enhanceLocatedSymbolsFromIndex_only_if _ _ _ _ _ _ HR')
      as (R & HR & HID & HName & Honly).
    assert (Name R = printName Ctx D ∧ ID R = getSymbolID Ctx D
            ∧ Definition_ R = None) as (HN & HI0 & HD0).
    { destruct (AddResultDecl_spec S AST MainFilePath Result D)
        as [Heq|(Loc & _ & Heq)]; rewrite Heq in HR.
      - apply lookup_lt_Some in HR. lia.
      - rewrite HCtx, HPref, HDef in HR.
        rewrite lookup_app_r in HR by done.
        by apply list_lookup_singleton_Some in HR as [_ <-]. }
    split; [congruence|]. split; [congruence|]. split.
    + intros ->. destruct (Definition_ R') eqn:E; [|done].
      destruct (Honly ltac:(eauto)) as [HRdef|(? & ? & ? & _)]; [|done].
      rewrite HD0 in HRdef. by destruct HRdef.
    + intros Hsome.
      destruct (Honly Hsome) as [HRdef|?]; [|done].
      rewrite HD0 in HRdef. by destruct HRdef.
Qed.

(** C6, the code on a type alias. [getDefinition] answers nothing for a
    type alias, a kind with many lawful definitions, and the comment of
    [getDefinition] says that such kinds will not have definitions
    reported by [locateSymbolAt]; yet the located symbol [locateSymbolAt]
    returns for the alias has one, the definition the index record of the
    alias holds: [enhanceLocatedSymbolsFromIndex] sets it whatever the
    kind. Without an index the symbol has none. *)
Theorem locateSymbolAt_reports_index_definition_of_alias :
  getKind (getASTContext Fixture_Typedef.file) 0%nat = Typedef
  ∧ getDefinition (getASTContext Fixture_Typedef.file) 0%nat = None
  ∧ locateSymbolAt Fixture.support Fixture_Typedef.file
      Fixture_Typedef.cursor (Some Fixture_Typedef.index)
    = [mkLocatedSymbol "T"
         (mkLocation "file:///src/main.cpp"
            (mkRange (mkPosition 0 0) (mkPosition 0 1)))
         (Some (mkLocation "file:///src/t.h"
                  (mkRange (mkPosition 1 0) (mkPosition 1 3))))
         1]
  ∧ Definition_
      <$> locateSymbolAt Fixture.support Fixture_Typedef.file
            Fixture_Typedef.cursor (Some Fixture_Typedef.index)
    = [Some (mkLocation "file:///src/t.h"
               (mkRange (mkPosition 1 0) (mkPosition 1 3)))]
  ∧ Definition_
      <$> locateSymbolAt Fixture.support Fixture_Typedef.file
            Fixture_Typedef.cursor None
    = [None].
Proof. repeat split; vm_compute; reflexivity. Qed.

(** ** The order of the resolution steps *)

(** Every step but the last yields nothing, and the last yields the
    answer. *)
Fixpoint answers_last (run : Stage → list LocatedSymbol)
    (Stages : list Stage) (Result : list LocatedSymbol) : Prop :=
  match Stages with
  | [] => Result = []
  | s :: Stages' =>
      match Stages' with
      | [] => run s = Result
      | _ => run s = [] ∧ answers_last run Stages' Result
      end
  end.

Section Stages.
Context (S : Support) (AST : ParsedAST) (Pos : Position)
        (Index : option SymbolIndex).

#[local] Abbreviation run := (run_stage S AST Pos Index).
#[local] Abbreviation answers_last := (answers_last (run_stage S AST Pos Index)).

Lemma answers_last_app A B Result :
  Forall (λ s, run s = []) A → answers_last B Result →
  answers_last (A ++ B) Result.
Proof.
  induction A as [|a A IH]; intros HA HB; [done|].
  apply Forall_cons in HA as [Ha HA]. specialize (IH HA HB).
  simpl. destruct (A ++ B) eqn:E; [|done].
  simpl in IH. by rewrite IH.
Qed.

Lemma answers_last_nothing A :
  Forall (λ s, run s = []) A → answers_last A [].
Proof.
  intros HA. rewrite <- (app_nil_r A). by apply answers_last_app.
Qed.

Lemma answers_last_prefix Stages Result pre s post :
  answers_last Stages Result → Stages = pre ++ s :: post → post ≠ [] →
  run s = [].
Proof.
  revert Stages. induction pre as [|a pre IH]; intros Stages H -> Hpost; simpl in H.
  - destruct post; [done|]. by destruct H.
  - destruct (pre ++ s :: post) eqn:E; [by destruct pre|].
    destruct H as [_ H]. by eapply IH.
Qed.

Lemma answers_last_last Stages Result :
  answers_last Stages Result →
  Result = match last Stages with Some s => run s | None => [] end.
Proof.
  induction Stages as [|s [|t Stages] IH]; simpl; [done..|].
  intros [_ H]. by apply IH.
Qed.

Lemma answers_last_cons s Stages Result :
  run s = [] → answers_last Stages Result → answers_last (s :: Stages) Result.
Proof.
  intros Hs H. apply (answers_last_app [s]); [by constructor|done].
Qed.

Lemma touching_stages Toks Stages Outcome :
  locateSymbolAt_touching S AST Index (tuPath AST) Toks = (Stages, Outcome) →
  Forall (λ s, stage_rank s = 1%nat) Stages
  ∧ match Outcome with
    | Touching_return Result => answers_last Stages Result ∧ Result ≠ []
    | Touching_done _ => Forall (λ s, run s = []) Stages
    end.
Proof.
  revert Stages Outcome.
  induction Toks as [|Tok Toks IH]; intros Stages Outcome; simpl.
  { intros [= <- <-]. split; constructor. }
  case_bool_decide.
  - destruct (locateMacroReferent S Tok AST (tuPath AST)) as [Macro|] eqn:HM;
      intros [= <- <-]; (split; [by repeat constructor|]).
    + split; [|done]. simpl. simpl. by rewrite HM.
    + repeat constructor. simpl. by rewrite HM.
  - destruct (bool_decide (tok_kind Tok = tok_kw_auto)
              || bool_decide (tok_kind Tok = tok_kw_decltype)); [|by apply IH].
    destruct (match getDeducedType AST (tok_location Tok) with
              | Some Deduced => locateSymbolForType S AST Deduced Index
              | None => []
              end) as [|R LocSym] eqn:HL.
    + destruct (locateSymbolAt_touching S AST Index (tuPath AST) Toks)
        as [Stages' Outcome'].
      intros [= <- <-]. destruct (IH _ _ eq_refl) as [Hrank Hout].
      split; [by constructor|].
      destruct Outcome'.
      * destruct Hout. split; [|done]. by apply answers_last_cons.
      * by constructor.
    + intros [= <- <-]. split; [by repeat constructor|].
      split; [|done]. simpl. simpl. exact HL.
Qed.

(** Closes the goals on the order of concrete steps. *)
Ltac rank_order := repeat first [done | lia | progress simpl | constructor].

Lemma fallback_stages CurLoc NodeKind Stages Results :
  locateSymbolAt_fallback S AST Index (tuPath AST) CurLoc NodeKind
  = (Stages, Results) →
  answers_last Stages Results
  ∧ StronglySorted (λ s t, stage_rank s ≤ stage_rank t)%nat Stages
  ∧ Forall (λ s, 3 ≤ stage_rank s)%nat Stages.
Proof.
  unfold locateSymbolAt_fallback.
  destruct (SpelledWord_touching (getTokens AST) CurLoc) as [Word|].
  2:{ intros [= <- <-]. repeat split; constructor. }
  destruct (findNearbyIdentifier (getSourceManager AST) Word (getTokens AST))
    as [NearbyIdent|].
  2:{ intros [= <- <-]. split; [|split].
      - simpl. done.
      - rank_order.
      - rank_order. }
  destruct (locateMacroReferent S NearbyIdent AST (tuPath AST))
    as [Macro|] eqn:HM.
  { intros [= <- <-]. split; [|split].
    - simpl. split; [done|]. simpl. by rewrite HM.
    - rank_order.
    - rank_order. }
  destruct (locateASTReferent S (tok_location NearbyIdent) (Some NearbyIdent)
              AST (tuPath AST) Index NodeKind) as [ASTResults NodeKind'] eqn:HA.
  destruct ASTResults as [|R ASTResults]; intros [= <- <-].
  - split; [|split].
    + simpl. simpl. rewrite HM, HA. done.
    + rank_order.
    + rank_order.
  - split; [|split].
    + simpl. simpl. rewrite HM, HA. done.
    + rank_order.
    + rank_order.
Qed.

Lemma locateSymbolAt_stages_spec :
  let Stages := (locateSymbolAt_stages S AST Pos Index).1 in
  let Result := (locateSymbolAt_stages S AST Pos Index).2 in
  answers_last Stages Result
  ∧ StronglySorted (λ s t, stage_rank s ≤ stage_rank t)%nat Stages
  ∧ head Stages = Some Stage_FileReferent.
Proof.
  unfold locateSymbolAt_stages.
  destruct (locateFileReferent S Pos AST (tuPath AST)) as [File|] eqn:HF.
  { simpl. split; [|split; [|done]].
    - simpl. by rewrite HF.
    - rank_order. }
  assert (run Stage_FileReferent = []) as HFile.
  { simpl. by rewrite HF. }
  destruct (sourceLocationInMainFile (getSourceManager AST) Pos) as [CurLoc|].
  2:{ simpl. split; [done|]. split; [|done]. repeat constructor. }
  destruct (locateSymbolAt_touching S AST Index (tuPath AST)
              (spelledTokensTouching (getTokens AST) CurLoc))
    as [Stages Outcome] eqn:HT.
  destruct (touching_stages _ _ _ HT) as [Hrank Hout].
  assert (StronglySorted (λ s t, stage_rank s ≤ stage_rank t)%nat Stages)
    as Hsorted.
  { clear -Hrank. induction Hrank as [|s l Hs Hl IH]; constructor; [done|].
    eapply Forall_impl; [exact Hl|]. simpl. intros. lia. }
  destruct Outcome as [Result|TouchedIdentifier].
  { destruct Hout as [Hout _]. simpl. split; [|split; [|done]].
    - destruct Stages as [|s0 Stages0].
      + simpl in Hout. rewrite HF, Hout. done.
      + split; [by rewrite HF|exact Hout].
    - constructor; [done|].
      eapply Forall_impl; [exact Hrank|]. simpl. intros. lia. }
  destruct (locateASTReferent S CurLoc TouchedIdentifier AST (tuPath AST)
              Index NK_None) as [ASTResults NodeKind] eqn:HA.
  set (Direct := Stage_FileReferent
                 :: Stages ++ [Stage_ASTReferent CurLoc TouchedIdentifier NK_None]).
  assert (StronglySorted (λ s t, stage_rank s ≤ stage_rank t)%nat Direct)
    as HDsorted.
  { subst Direct. constructor.
    - apply StronglySorted_app_2; [|done|repeat constructor].
      intros x1 x2 H1 ->%list_elem_of_singleton.
      rewrite Forall_forall in Hrank. rewrite (Hrank _ H1). simpl. lia.
    - apply Forall_app. split.
      + eapply Forall_impl; [exact Hrank|]. simpl. intros. lia.
      + rank_order. }
  assert (Forall (λ s, stage_rank s ≤ 2)%nat Direct) as HDrank.
  { subst Direct. constructor; [simpl; lia|]. apply Forall_app. split.
    - eapply Forall_impl; [exact Hrank|]. simpl. intros. lia.
    - rank_order. }
  destruct ASTResults as [|R ASTResults].
  - destruct (locateSymbolAt_fallback S AST Index (tuPath AST) CurLoc NodeKind)
      as [Fallback Results] eqn:HFb.
    destruct (fallback_stages _ _ _ _ HFb) as (HFl & HFs & HFr).
    change (answers_last (Direct ++ Fallback) Results
            ∧ StronglySorted (λ s t, stage_rank s ≤ stage_rank t)%nat
                (Direct ++ Fallback)
            ∧ head (Direct ++ Fallback) = Some Stage_FileReferent).
    split; [|split; [|done]].
    + apply answers_last_app; [|done]. subst Direct.
      constructor; [done|]. apply Forall_app. split; [done|].
      repeat constructor. simpl. by rewrite HA.
    + apply StronglySorted_app_2; [|done..].
      intros x1 x2 H1 H2. rewrite Forall_forall in HDrank, HFr.
      specialize (HDrank _ H1). specialize (HFr _ H2). lia.
  - change (answers_last Direct (R :: ASTResults)
            ∧ StronglySorted (λ s t, stage_rank s ≤ stage_rank t)%nat Direct
            ∧ head Direct = Some Stage_FileReferent).
    split; [|split; [|done]]; [|exact HDsorted].
    subst Direct. rewrite app_comm_cons.
    apply answers_last_app.
    + constructor; [done|]. done.
    + simpl. by rewrite HA.
Qed.

End Stages.

(** The symbols of the type deduced at an [auto] or [decltype] token. *)
Definition deduced_symbols (S : Support) (AST : ParsedAST)
    (Index : option SymbolIndex) (Tok : Token) : list LocatedSymbol :=
  match getDeducedType AST (tok_location Tok) with
  | Some Deduced => locateSymbolForType S AST Deduced Index
  | None => []
  end.

(** A token touching the cursor that the loop of [locateSymbolAt] passes
    over: no identifier, and, when it is [auto] or [decltype], without a
    symbol for the deduced type. *)
Definition passed_over (S : Support) (AST : ParsedAST)
    (Index : option SymbolIndex) (Tok : Token) : Prop :=
  tok_kind Tok ≠ tok_identifier
  ∧ (tok_kind Tok = tok_kw_auto ∨ tok_kind Tok = tok_kw_decltype →
     deduced_symbols S AST Index Tok = []).

(** The touched identifier the loop leaves: the first identifier token,
    when the tokens before it are passed over and it names no macro; none
    when every token is passed over. *)
Definition touched_identifier (S : Support) (AST : ParsedAST)
    (Index : option SymbolIndex) (Toks : list Token)
    (TouchedIdentifier : option Token) : Prop :=
  (TouchedIdentifier = None ∧ Forall (passed_over S AST Index) Toks)
  ∨ ∃ pre Tok post,
      Toks = pre ++ Tok :: post
      ∧ Forall (passed_over S AST Index) pre
      ∧ tok_kind Tok = tok_identifier
      ∧ locateMacroReferent S Tok AST (tuPath AST) = None
      ∧ TouchedIdentifier = Some Tok.

Section Answer.
Context (S : Support) (AST : ParsedAST) (Pos : Position)
        (Index : option SymbolIndex).

#[local] Abbreviation touching :=
  (locateSymbolAt_touching S AST Index (tuPath AST)).

Lemma touching_passed_over pre Toks :
  Forall (passed_over S AST Index) pre →
  (touching (pre ++ Toks)).2 = (touching Toks).2.
Proof.
  induction 1 as [|Tok pre [Hid Hauto] _ IH]; [done|].
  cbn [app locateSymbolAt_touching].
  rewrite (bool_decide_eq_false_2 _ Hid).
  destruct (bool_decide (tok_kind Tok = tok_kw_auto)
            || bool_decide (tok_kind Tok = tok_kw_decltype)) eqn:E; [|done].
  fold (deduced_symbols S AST Index Tok). rewrite Hauto.
  - by destruct (touching (pre ++ Toks)).
  - apply orb_true_iff in E as [E|E]; apply bool_decide_eq_true in E; eauto.
Qed.

Lemma touching_macro pre Tok post Macro :
  Forall (passed_over S AST Index) pre → tok_kind Tok = tok_identifier →
  locateMacroReferent S Tok AST (tuPath AST) = Some Macro →
  (touching (pre ++ Tok :: post)).2 = Touching_return [Macro].
Proof.
  intros Hpre Hid HM. rewrite touching_passed_over by done.
  cbn [locateSymbolAt_touching]. rewrite (bool_decide_eq_true_2 _ Hid), HM.
  done.
Qed.

Lemma touching_deduced pre Tok post :
  Forall (passed_over S AST Index) pre →
  tok_kind Tok = tok_kw_auto ∨ tok_kind Tok = tok_kw_decltype →
  deduced_symbols S AST Index Tok ≠ [] →
  (touching (pre ++ Tok :: post)).2
  = Touching_return (deduced_symbols S AST Index Tok).
Proof.
  intros Hpre Hk HD. rewrite touching_passed_over by done.
  cbn [locateSymbolAt_touching].
  rewrite bool_decide_eq_false_2 by (destruct Hk as [-> | ->]; done).
  assert (bool_decide (tok_kind Tok = tok_kw_auto)
          || bool_decide (tok_kind Tok = tok_kw_decltype) = true) as ->.
  { apply orb_true_iff.
    destruct Hk as [Hk|Hk]; [left|right]; by apply bool_decide_eq_true. }
  fold (deduced_symbols S AST Index Tok).
  by destruct (deduced_symbols S AST Index Tok).
Qed.

Lemma touching_touched Toks TouchedIdentifier :
  touched_identifier S AST Index Toks TouchedIdentifier →
  (touching Toks).2 = Touching_done TouchedIdentifier.
Proof.
  intros [[-> Hall]|(pre & Tok & post & -> & Hpre & Hid & HM & ->)].
  - rewrite <- (app_nil_r Toks). by rewrite touching_passed_over.
  - rewrite touching_passed_over by done.
    cbn [locateSymbolAt_touching]. by rewrite (bool_decide_eq_true_2 _ Hid), HM.
Qed.

(** The loop over the tokens ends in one of three ways. *)
Lemma touching_cases Toks :
  (∃ pre Tok post Macro,
     Toks = pre ++ Tok :: post ∧ Forall (passed_over S AST Index) pre
     ∧ tok_kind Tok = tok_identifier
     ∧ locateMacroReferent S Tok AST (tuPath AST) = Some Macro)
  ∨ (∃ pre Tok post,
       Toks = pre ++ Tok :: post ∧ Forall (passed_over S AST Index) pre
       ∧ (tok_kind Tok = tok_kw_auto ∨ tok_kind Tok = tok_kw_decltype)
       ∧ deduced_symbols S AST Index Tok ≠ [])
  ∨ ∃ TouchedIdentifier,
      touched_identifier S AST Index Toks TouchedIdentifier.
Proof.
  induction Toks as [|Tok Toks IH].
  { right. right. exists None. left. by split. }
  destruct (decide (tok_kind Tok = tok_identifier)) as [Hid|Hid].
  { destruct (locateMacroReferent S Tok AST (tuPath AST)) as [Macro|] eqn:HM.
    - left. exists [], Tok, Toks, Macro. by repeat split.
    - right. right. exists (Some Tok). right.
      exists [], Tok, Toks. by repeat split. }
  destruct (decide (tok_kind Tok = tok_kw_auto ∨ tok_kind Tok = tok_kw_decltype))
    as [Hk|Hk].
  { destruct (decide (deduced_symbols S AST Index Tok = [])) as [HD|HD].
    2:{ right. left. exists [], Tok, Toks. by repeat split. }
    assert (passed_over S AST Index Tok) as HTok by by split.
    destruct IH as [(pre & T & post & M & -> & Hpre & ?)
                   |[(pre & T & post & -> & Hpre & ?)
                    |[TI [[-> Hall]|(pre & T & post & -> & Hpre & ?)]]]].
    - left. exists (Tok :: pre), T, post, M. split; [done|]. split; [|done].
      by constructor.
    - right. left. exists (Tok :: pre), T, post. split; [done|].
      split; [|done]. by constructor.
    - right. right. exists None. left. split; [done|]. by constructor.
    - right. right. exists TI. right. exists (Tok :: pre), T, post.
      split; [done|]. split; [|done]. by constructor. }
  assert (passed_over S AST Index Tok) as HTok by by split.
  destruct IH as [(pre & T & post & M & -> & Hpre & ?)
                 |[(pre & T & post & -> & Hpre & ?)
                  |[TI [[-> Hall]|(pre & T & post & -> & Hpre & ?)]]]].
  - left. exists (Tok :: pre), T, post, M. split; [done|]. split; [|done].
    by constructor.
  - right. left. exists (Tok :: pre), T, post. split; [done|].
    split; [|done]. by constructor.
  - right. right. exists None. left. split; [done|]. by constructor.
  - right. right. exists TI. right. exists (Tok :: pre), T, post.
    split; [done|]. split; [|done]. by constructor.
Qed.

(** The answer of the fallback strategies. *)
Lemma locateSymbolAt_fallback_answer CurLoc NodeKind :
  (locateSymbolAt_fallback S AST Index (tuPath AST) CurLoc NodeKind).2
  = match SpelledWord_touching (getTokens AST) CurLoc with
    | None => []
    | Some Word =>
        match findNearbyIdentifier (getSourceManager AST) Word
                (getTokens AST) with
        | None =>
            locateSymbolTextually S Word AST Index (tuPath AST) NodeKind
        | Some NearbyIdent =>
            match locateMacroReferent S NearbyIdent AST (tuPath AST) with
            | Some Macro => [Macro]
            | None =>
                let Nearby :=
                  locateASTReferent S (tok_location NearbyIdent)
                    (Some NearbyIdent) AST (tuPath AST) Index NodeKind in
                match Nearby.1 with
                | [] =>
                    locateSymbolTextually S Word AST Index (tuPath AST)
                      Nearby.2
                | _ => Nearby.1
                end
            end
        end
    end.
Proof.
  unfold locateSymbolAt_fallback.
  destruct (SpelledWord_touching (getTokens AST) CurLoc) as [Word|]; [|done].
  destruct (findNearbyIdentifier (getSourceManager AST) Word (getTokens AST))
    as [NearbyIdent|]; [|done].
  destruct (locateMacroReferent S NearbyIdent AST (tuPath AST)); [done|].
  destruct (locateASTReferent S (tok_location NearbyIdent) (Some NearbyIdent)
              AST (tuPath AST) Index NodeKind) as [[|R ASTResults] NodeKind'];
    done.
Qed.

(** The answer of [locateSymbolAt] once the position is in the main file
    and on no include. *)
Lemma locateSymbolAt_answer CurLoc :
  locateFileReferent S Pos AST (tuPath AST) = None →
  sourceLocationInMainFile (getSourceManager AST) Pos = Some CurLoc →
  locateSymbolAt S AST Pos Index
  = match (touching (spelledTokensTouching (getTokens AST) CurLoc)).2 with
    | Touching_return Result => Result
    | Touching_done TouchedIdentifier =>
        let Direct :=
          locateASTReferent S CurLoc TouchedIdentifier AST (tuPath AST)
            Index NK_None in
        match Direct.1 with
        | [] =>
            (locateSymbolAt_fallback S AST Index (tuPath AST) CurLoc
               Direct.2).2
        | _ => Direct.1
        end
    end.
Proof.
  intros HF HC. unfold locateSymbolAt, locateSymbolAt_stages.
  rewrite HF, HC.
  destruct (touching (spelledTokensTouching (getTokens AST) CurLoc))
    as [Stages [Result|TouchedIdentifier]]; [done|].
  cbn [snd].
  destruct (locateASTReferent S CurLoc TouchedIdentifier AST (tuPath AST)
              Index NK_None) as [[|R ASTResults] NodeKind]; [|done].
  cbn [fst snd].
  by destruct (locateSymbolAt_fallback S AST Index (tuPath AST) CurLoc
                 NodeKind).
Qed.

End Answer.

(** C4, as the code has it. The steps of [locateSymbolAt] run in this
    order: the include referent; for the tokens touching the cursor, the
    macro referent of the first identifier or the deduced type of an
    [auto] or [decltype]; the direct AST resolution; the nearby-identifier
    search, then the macro referent and the AST resolution of the
    identifier it found; the textual index search. A step runs only when
    every step before it yielded nothing, and the answer is what the last
    step run yielded (first four parts, on the list of the steps run).
    On the answer itself: an include referent is the answer; else a macro
    at the first identifier touching the cursor is the answer, whatever
    the AST resolution would yield, and so are the symbols of the type
    deduced at an [auto] or [decltype] before it; else the direct AST
    resolution answers when it yields something; else the macro at the
    nearby identifier, else the AST resolution there, else the textual
    search; and the loop over the touching tokens always ends in one of
    its three ways, so one of the cases applies. *)
Theorem locateSymbolAt_steps_in_order
    (S : Support) (AST : ParsedAST) (Pos : Position)
    (Index : option SymbolIndex) :
  let Stages := (locateSymbolAt_stages S AST Pos Index).1 in
  let Result := locateSymbolAt S AST Pos Index in
  let run := run_stage S AST Pos Index in
  let SM := getSourceManager AST in
  let Path := tuPath AST in
  head Stages = Some Stage_FileReferent
  ∧ StronglySorted (λ s t, stage_rank s ≤ stage_rank t)%nat Stages
  ∧ (∀ pre s post, Stages = pre ++ s :: post → post ≠ [] → run s = [])
  ∧ Result = match last Stages with Some s => run s | None => [] end
  ∧ (∀ File, locateFileReferent S Pos AST Path = Some File → Result = [File])
  ∧ (locateFileReferent S Pos AST Path = None →
     (sourceLocationInMainFile SM Pos = None → Result = [])
     ∧ ∀ CurLoc, sourceLocationInMainFile SM Pos = Some CurLoc →
       let Toks := spelledTokensTouching (getTokens AST) CurLoc in
       (∀ pre Tok post Macro,
          Toks = pre ++ Tok :: post →
          Forall (passed_over S AST Index) pre →
          tok_kind Tok = tok_identifier →
          locateMacroReferent S Tok AST Path = Some Macro →
          Result = [Macro])
       ∧ (∀ pre Tok post,
            Toks = pre ++ Tok :: post →
            Forall (passed_over S AST Index) pre →
            tok_kind Tok = tok_kw_auto ∨ tok_kind Tok = tok_kw_decltype →
            deduced_symbols S AST Index Tok ≠ [] →
            Result = deduced_symbols S AST Index Tok)
       ∧ (∀ TouchedIdentifier,
            touched_identifier S AST Index Toks TouchedIdentifier →
            let Direct :=
              locateASTReferent S CurLoc TouchedIdentifier AST Path Index
                NK_None in
            (Direct.1 ≠ [] → Result = Direct.1)
            ∧ (Direct.1 = [] →
               (SpelledWord_touching (getTokens AST) CurLoc = None →
                Result = [])
               ∧ ∀ Word,
                   SpelledWord_touching (getTokens AST) CurLoc = Some Word →
                   (findNearbyIdentifier SM Word (getTokens AST) = None →
                    Result
                    = locateSymbolTextually S Word AST Index Path Direct.2)
                   ∧ ∀ NearbyIdent,
                       findNearbyIdentifier SM Word (getTokens AST)
                       = Some NearbyIdent →
                       (∀ Macro,
                          locateMacroReferent S NearbyIdent AST Path
                          = Some Macro →
                          Result = [Macro])
                       ∧ (locateMacroReferent S NearbyIdent AST Path = None →
                          let Nearby :=
                            locateASTReferent S (tok_location NearbyIdent)
                              (Some NearbyIdent) AST Path Index Direct.2 in
                          (Nearby.1 ≠ [] → Result = Nearby.1)
                          ∧ (Nearby.1 = [] →
                             Result
                             = locateSymbolTextually S Word AST Index Path
                                 Nearby.2))))
       ∧ ((∃ pre Tok post Macro,
             Toks = pre ++ Tok :: post
             ∧ Forall (passed_over S AST Index) pre
             ∧ tok_kind Tok = tok_identifier
             ∧ locateMacroReferent S Tok AST Path = Some Macro)
          ∨ (∃ pre Tok post,
               Toks = pre ++ Tok :: post
               ∧ Forall (passed_over S AST Index) pre
               ∧ (tok_kind Tok = tok_kw_auto ∨ tok_kind Tok = tok_kw_decltype)
               ∧ deduced_symbols S AST Index Tok ≠ [])
          ∨ ∃ TouchedIdentifier,
              touched_identifier S AST Index Toks TouchedIdentifier)).
Proof.
  intros Stages Result run SM Path.
  destruct (locateSymbolAt_stages_spec S AST Pos Index) as (Hlast & Hsorted & Hhead).
  split; [exact Hhead|]. split; [exact Hsorted|]. split.
  { intros pre s post. by eapply answers_last_prefix. }
  split; [by apply answers_last_last|].
  split.
  { intros File HF. subst Result.
    unfold locateSymbolAt, locateSymbolAt_stages. fold Path. by rewrite HF. }
  intros HF. split.
  { intros HC. subst Result.
    unfold locateSymbolAt, locateSymbolAt_stages. fold Path SM.
    by rewrite HF, HC. }
  intros CurLoc HC Toks.
  pose proof (locateSymbolAt_answer S AST Pos Index CurLoc HF HC) as HAns.
  fold Result Toks in HAns.
  split; [|split; [|split]].
  - intros pre Tok post Macro -> Hpre Hid HM.
    by rewrite HAns, (touching_macro S AST Index pre Tok post Macro).
  - intros pre Tok post -> Hpre Hk HD.
    by rewrite HAns, (touching_deduced S AST Index pre Tok post).
  - intros TouchedIdentifier HT Direct.
    rewrite (touching_touched S AST Index Toks TouchedIdentifier HT) in HAns.
    fold Path in HAns. cbv zeta in HAns. fold Direct in HAns.
    split.
    { intros HD. rewrite HAns. by destruct (Direct.1). }
    intros HD. rewrite HD in HAns.
    rewrite locateSymbolAt_fallback_answer in HAns. fold Path SM in HAns.
    split.
    { intros HW. by rewrite HAns, HW. }
    intros Word HW. rewrite HW in HAns. split.
    { intros HN. by rewrite HAns, HN. }
    intros NearbyIdent HN. rewrite HN in HAns. split.
    { intros Macro HM. by rewrite HAns, HM. }
    intros HM Nearby. rewrite HM in HAns. cbv zeta in HAns.
    fold Nearby in HAns. split.
    + intros HNe. rewrite HAns. by destruct (Nearby.1).
    + intros HNe. by rewrite HAns, HNe.
  - apply touching_cases.
Qed.

(** C4, the claim as stated fails. On the use of a macro whose expansion
    names a variable, the direct AST resolution at the cursor would yield
    the variable; [locateSymbolAt] answers with the macro and never runs
    the AST resolution: the macro step comes first. *)
Lemma locateSymbolAt_macro_before_AST_resolution :
  (locateSymbolAt_stages Fixture.support Fixture_Macro.file
     Fixture_Macro.cursor None).1
  = [Stage_FileReferent; Stage_MacroReferent Fixture_Macro.FOO_token]
  ∧ Name <$> locateSymbolAt Fixture.support Fixture_Macro.file
               Fixture_Macro.cursor None
    = ["FOO"]
  ∧ Name <$> run_stage Fixture.support Fixture_Macro.file
               Fixture_Macro.cursor None
               (Stage_ASTReferent 1 (Some Fixture_Macro.FOO_token) NK_None)
    = ["T"].
Proof. repeat split; vm_compute; reflexivity. Qed.

(** ** Include lines *)

(** The located symbol of an included file. *)
Definition file_symbol (S : Support) (Inc : Inclusion) (MainFilePath : string)
  : LocatedSymbol :=
  let Start :=
    mkLocation (URIForFile_canonicalize S (Resolved Inc) MainFilePath)
      Range_empty in
  mkLocatedSymbol (path_filename S (Resolved Inc)) Start (Some Start) 0.

Lemma locateFileReferent_loop_Some S Pos Includes MainFilePath File :
  locateFileReferent_loop S Pos Includes MainFilePath = Some File →
  ∃ pre Inc post,
    Includes = pre ++ Inc :: post
    ∧ Forall (λ X, Resolved X = "" ∨ HashLine X ≠ line Pos) pre
    ∧ Resolved Inc ≠ "" ∧ HashLine Inc = line Pos
    ∧ File = file_symbol S Inc MainFilePath.
Proof.
  induction Includes as [|X Includes IH]; simpl; [done|].
  destruct (decide (Resolved X = "")) as [HX|HX].
  - rewrite (bool_decide_eq_true_2 _ HX). simpl. intros H.
    destruct (IH H) as (pre & Inc & post & -> & Hpre & ?).
    exists (X :: pre), Inc, post. split; [done|]. split; [|done].
    constructor; [by left|done].
  - rewrite (bool_decide_eq_false_2 _ HX). simpl.
    destruct (HashLine X =? line Pos) eqn:HL.
    + intros [= <-]. apply Z.eqb_eq in HL.
      exists [], X, Includes. repeat split; done.
    + intros H. apply Z.eqb_neq in HL.
      destruct (IH H) as (pre & Inc & post & -> & Hpre & ?).
      exists (X :: pre), Inc, post. split; [done|]. split; [|done].
      constructor; [by right|done].
Qed.

Lemma locateFileReferent_loop_is_Some S Pos Includes MainFilePath Inc :
  Inc ∈ Includes → Resolved Inc ≠ "" → HashLine Inc = line Pos →
  is_Some (locateFileReferent_loop S Pos Includes MainFilePath).
Proof.
  intros Hin HR HL. induction Includes as [|X Includes IH]; simpl.
  { by apply elem_of_nil in Hin. }
  destruct (negb (bool_decide (Resolved X = "")) && (HashLine X =? line Pos))
    eqn:E; [by eauto|].
  apply elem_of_cons in Hin as [->|Hin]; [|by apply IH].
  rewrite (bool_decide_eq_false_2 _ HR), HL, Z.eqb_refl in E. done.
Qed.

(** C10. When a resolved include of the main file is on the line of the
    position, [locateSymbolAt] returns one located symbol and runs the
    include step alone: the symbol is named after the file of the first
    resolved include of that line (the include itself when no other
    shares the line), its declaration is the start of that file with an
    empty range, and its definition is its declaration. *)
Theorem locateSymbolAt_on_include_line
    (S : Support) (AST : ParsedAST) (Pos : Position)
    (Index : option SymbolIndex) (Inc : Inclusion) :
  Inc ∈ MainFileIncludes AST → Resolved Inc ≠ "" → HashLine Inc = line Pos →
  ∃ pre Inc' post,
    MainFileIncludes AST = pre ++ Inc' :: post
    ∧ Forall (λ X, Resolved X = "" ∨ HashLine X ≠ line Pos) pre
    ∧ Resolved Inc' ≠ "" ∧ HashLine Inc' = line Pos
    ∧ ((∀ X, X ∈ MainFileIncludes AST → Resolved X ≠ "" →
             HashLine X = line Pos → X = Inc) → Inc' = Inc)
    ∧ locateSymbolAt_stages S AST Pos Index
      = ([Stage_FileReferent],
         [mkLocatedSymbol (path_filename S (Resolved Inc'))
            (mkLocation (URIForFile_canonicalize S (Resolved Inc') (tuPath AST))
               Range_empty)
            (Some (mkLocation
                     (URIForFile_canonicalize S (Resolved Inc') (tuPath AST))
                     Range_empty))
            0])
    ∧ locateSymbolAt S AST Pos Index
      = [file_symbol S Inc' (tuPath AST)].
Proof.
  intros Hin HR HL.
  destruct (locateFileReferent_loop_is_Some S Pos (MainFileIncludes AST)
              (tuPath AST) Inc Hin HR HL) as [File HFile].
  destruct (locateFileReferent_loop_Some _ _ _ _ _ HFile)
    as (pre & Inc' & post & Heq & Hpre & HR' & HL' & ->).
  exists pre, Inc', post. split; [done|]. split; [done|].
  split; [done|]. split; [done|]. split.
  - intros Huniq. apply Huniq; [|done..].
    rewrite Heq. apply elem_of_app. right. left.
  - unfold locateSymbolAt, locateSymbolAt_stages, locateFileReferent.
    rewrite HFile. done.
Qed.

(** The theorem on the first line of the fixture, which includes
    [<vector>]. *)
Lemma locateSymbolAt_on_include_line_witness :
  locateSymbolAt Fixture.support Fixture_Include.file (mkPosition 0 12) None
  = [mkLocatedSymbol "vector"
       (mkLocation "file:///usr/include/c++/vector" Range_empty)
       (Some (mkLocation "file:///usr/include/c++/vector" Range_empty)) 0].
Proof.
  destruct (locateSymbolAt_on_include_line Fixture.support
              Fixture_Include.file (mkPosition 0 12) None
              (mkInclusion "<vector>" "/usr/include/c++/vector" 0 0))
    as (pre & Inc' & post & _ & _ & _ & _ & Hsame & _ & Hres).
  - left.
  - discriminate.
  - reflexivity.
  - rewrite Hres, Hsame; [reflexivity|].
    intros X HX HR HL. simpl in HX.
    apply elem_of_cons in HX as [->|HX]; [reflexivity|].
    apply list_elem_of_singleton in HX. subst X. done.
Defined.

(** ** Located symbols carry locations that are known *)

Lemma foldl_invariant {A B} (Inv : A → Prop) (f : A → B → A)
    (l : list B) (a : A) :
  Inv a → (∀ a b, b ∈ l → Inv a → Inv (f a b)) → Inv (foldl f a l).
Proof.
  revert a. induction l as [|b l IH]; intros a Ha Hf; simpl; [done|].
  apply IH.
  - apply Hf; [left|done].
  - intros a' b' Hb'. apply Hf. by right.
Qed.

Lemma toLSPLocation_Some (S : Support) SL MainFilePath L :
  toLSPLocation S SL MainFilePath = Some L →
  SymbolLocation_bool SL = true ∧ indexToLSPLocation S SL MainFilePath = Some L.
Proof.
  unfold toLSPLocation. by destruct (SymbolLocation_bool SL).
Qed.

Section WellLocated.
Context (S : Support) (AST : ParsedAST) (Index : option SymbolIndex).

(** A symbol the index handed to one of the callbacks, for the located
    symbol [R]: an answer of [fuzzyFind] or of [lookup] that has the id
    of [R], or an object of [relations] that has the name of [R], which
    then carries no id. *)
Inductive IndexAnswer (R : LocatedSymbol) : Symbol → Prop :=
| Answer_fuzzyFind Index' Req Sym :
    Index = Some Index' → Sym ∈ fuzzyFind Index' Req →
    ID R = sym_ID Sym →
    Name R = sym_Name Sym +:+ sym_TemplateSpecializationArgs Sym →
    IndexAnswer R Sym
| Answer_lookup Index' IDs Sym :
    Index = Some Index' → Sym ∈ lookup Index' IDs →
    ID R = sym_ID Sym → IndexAnswer R Sym
| Answer_relations Index' Predicate IDs Subject Sym :
    Index = Some Index' → (Subject, Sym) ∈ relations Index' Predicate IDs →
    Name R = sym_Name Sym → ID R = 0 → IndexAnswer R Sym.

(** A declaration location of the located symbol [R] that a conversion
    produced: the start of the included file [R] is named after; the name
    of the macro [R] has the name and id of; the name of the declaration
    [R] has the name and id of; a location of a symbol the index answered
    with for [R]; or what the merge prefers between such a location and
    the canonical declaration of a symbol the index answered with for
    [R]. *)
Inductive ResolvedLocation (R : LocatedSymbol) : Location → Prop :=
| Resolved_include Inc :
    Inc ∈ MainFileIncludes AST → Resolved Inc ≠ "" →
    Name R = path_filename S (Resolved Inc) → ID R = 0 →
    ResolvedLocation R
      (mkLocation (URIForFile_canonicalize S (Resolved Inc) (tuPath AST))
         Range_empty)
| Resolved_macro Tok M L :
    locateMacroAt AST Tok = Some M →
    Name R = macro_Name M → ID R = macro_ID M →
    makeLocation S (getSourceManager AST) (macro_NameLoc M) (tuPath AST)
    = Some L →
    ResolvedLocation R L
| Resolved_declaration D L :
    Name R = printName (getASTContext AST) D →
    ID R = getSymbolID (getASTContext AST) D →
    makeLocation S (getSourceManager AST)
      (nameLocation (getASTContext AST) D) (tuPath AST) = Some L →
    ResolvedLocation R L
| Resolved_index Sym SL L :
    IndexAnswer R Sym →
    SL = sym_CanonicalDeclaration Sym ∨ SL = sym_Definition Sym →
    SymbolLocation_bool SL = true →
    indexToLSPLocation S SL (tuPath AST) = Some L →
    ResolvedLocation R L
| Resolved_merged L0 Sym L :
    ResolvedLocation R L0 → IndexAnswer R Sym →
    toLSPLocation S (getPreferredLocation S L0 (sym_CanonicalDeclaration Sym))
      (tuPath AST) = Some L →
    ResolvedLocation R L.

(** A definition location that is known for the located symbol [R]: the
    included file [R] is named after; the name of the macro [R] has the
    name and id of; the name of the declaration that [getDefinition]
    found for the declaration [R] has the name and id of; the definition
    of a symbol the index answered with for [R]; or what the merge
    prefers between a known definition of [R] and the definition of such
    a symbol. *)
Inductive KnownDefinition (R : LocatedSymbol) : Location → Prop :=
| Known_include Inc :
    Inc ∈ MainFileIncludes AST → Resolved Inc ≠ "" →
    Name R = path_filename S (Resolved Inc) → ID R = 0 →
    KnownDefinition R
      (mkLocation (URIForFile_canonicalize S (Resolved Inc) (tuPath AST))
         Range_empty)
| Known_macro Tok M L :
    locateMacroAt AST Tok = Some M →
    Name R = macro_Name M → ID R = macro_ID M →
    makeLocation S (getSourceManager AST) (macro_NameLoc M) (tuPath AST)
    = Some L →
    KnownDefinition R L
| Known_declaration D Def L :
    Name R = printName (getASTContext AST) D →
    ID R = getSymbolID (getASTContext AST) D →
    getDefinition (getASTContext AST) D = Some Def →
    makeLocation S (getSourceManager AST)
      (nameLocation (getASTContext AST) Def) (tuPath AST) = Some L →
    KnownDefinition R L
| Known_index Sym L :
    IndexAnswer R Sym → SymbolLocation_bool (sym_Definition Sym) = true →
    indexToLSPLocation S (sym_Definition Sym) (tuPath AST) = Some L →
    KnownDefinition R L
| Known_merged Def Sym L :
    KnownDefinition R Def → IndexAnswer R Sym →
    toLSPLocation S (getPreferredLocation S Def (sym_Definition Sym))
      (tuPath AST) = Some L →
    KnownDefinition R L.

Definition WellLocated (R : LocatedSymbol) : Prop :=
  ResolvedLocation R (PreferredDeclaration R)
  ∧ ∀ d, Definition_ R = Some d → KnownDefinition R d.

(** The three relations look at the name and the id of the located
    symbol only. *)
Lemma IndexAnswer_same R R' Sym :
  Name R' = Name R → ID R' = ID R → IndexAnswer R Sym → IndexAnswer R' Sym.
Proof.
  intros HN HI.
  assert (∀ x, Name R = x → Name R' = x) as HN' by congruence.
  assert (∀ x, ID R = x → ID R' = x) as HI' by congruence.
  destruct 1;
    [eapply Answer_fuzzyFind|eapply Answer_lookup|eapply Answer_relations];
    eauto.
Qed.

Lemma ResolvedLocation_same R R' L :
  Name R' = Name R → ID R' = ID R →
  ResolvedLocation R L → ResolvedLocation R' L.
Proof.
  intros HN HI.
  assert (∀ x, Name R = x → Name R' = x) as HN' by congruence.
  assert (∀ x, ID R = x → ID R' = x) as HI' by congruence.
  induction 1;
    [apply Resolved_include|eapply Resolved_macro|eapply Resolved_declaration
    |eapply Resolved_index|eapply Resolved_merged];
    eauto using IndexAnswer_same.
Qed.

Lemma KnownDefinition_same R R' L :
  Name R' = Name R → ID R' = ID R →
  KnownDefinition R L → KnownDefinition R' L.
Proof.
  intros HN HI.
  assert (∀ x, Name R = x → Name R' = x) as HN' by congruence.
  assert (∀ x, ID R = x → ID R' = x) as HI' by congruence.
  induction 1;
    [apply Known_include|eapply Known_macro|eapply Known_declaration
    |eapply Known_index|eapply Known_merged];
    eauto using IndexAnswer_same.
Qed.

Lemma WellLocated_same R R' :
  Name R' = Name R → ID R' = ID R →
  ResolvedLocation R (PreferredDeclaration R') →
  (∀ d, Definition_ R' = Some d → KnownDefinition R d) →
  WellLocated R'.
Proof.
  intros HN HI HP HD. split.
  - by eapply ResolvedLocation_same.
  - intros d Hd. eapply KnownDefinition_same; [done..|]. by apply HD.
Qed.

Lemma WellLocated_enhance_entry Sym R :
  IndexAnswer R Sym → WellLocated R →
  WellLocated (enhance_entry S (tuPath AST) Sym R).
Proof.
  intros HA [HP HD].
  apply (WellLocated_same R);
    [apply enhance_entry_Name|apply enhance_entry_ID| |].
  - rewrite enhance_entry_PreferredDeclaration.
    destruct (Definition_ R) as [Def|].
    + destruct (toLSPLocation S (sym_CanonicalDeclaration Sym) (tuPath AST))
        as [Loc|] eqn:HL; [|done].
      apply toLSPLocation_Some in HL as [HL1 HL2].
      eapply Resolved_index; [done|by left|done..].
    + destruct (toLSPLocation S
                  (getPreferredLocation S (PreferredDeclaration R)
                     (sym_CanonicalDeclaration Sym)) (tuPath AST))
        as [Loc|] eqn:HL; [|done].
      by eapply Resolved_merged.
  - intros d. rewrite enhance_entry_Definition. unfold merged_definition.
    destruct (Definition_ R) as [Def|].
    + destruct (toLSPLocation S (getPreferredLocation S Def (sym_Definition Sym))
                  (tuPath AST)) as [Loc|] eqn:HL; intros [= <-].
      * eapply Known_merged; [|done|exact HL]. by apply HD.
      * by apply HD.
    + intros [H1 H2]%toLSPLocation_Some. by eapply Known_index.
Qed.

Lemma WellLocated_enhance_entries Syms :
  ∀ R, (∀ Sym, Sym ∈ Syms → IndexAnswer R Sym) → WellLocated R →
       WellLocated
         (foldl (λ R Sym, enhance_entry S (tuPath AST) Sym R) R Syms).
Proof.
  induction Syms as [|Sym Syms IH]; intros R HA HR; [done|].
  cbn [foldl]. apply IH.
  - intros Sym' HSym'.
    apply (IndexAnswer_same R);
      [apply enhance_entry_Name|apply enhance_entry_ID|].
    apply HA. by right.
  - apply WellLocated_enhance_entry; [|done]. apply HA. left.
Qed.

Lemma WellLocated_AddResultDecl Result D :
  Forall WellLocated Result →
  Forall WellLocated (AddResultDecl S AST (tuPath AST) Result D).
Proof.
  intros HR.
  destruct (AddResultDecl_spec S AST (tuPath AST) Result D)
    as [->|(Loc & HLoc & ->)]; [done|].
  apply Forall_app. split; [done|]. constructor; [|done].
  split; simpl.
  - by eapply Resolved_declaration.
  - intros d Hd.
    destruct (getDefinition (getASTContext AST)
                (getPreferredDecl (getASTContext AST) D)) as [Def|] eqn:HDef;
      [|done].
    by eapply Known_declaration.
Qed.

Lemma WellLocated_foldl_AddResultDecl Result Ds :
  Forall WellLocated Result →
  Forall WellLocated (foldl (AddResultDecl S AST (tuPath AST)) Result Ds).
Proof.
  intros HR. apply (foldl_invariant (Forall WellLocated)); [done|].
  intros ? ? _. apply WellLocated_AddResultDecl.
Qed.

Lemma WellLocated_candidate CurLoc TouchedIdentifier NodeKind n st E :
  Forall WellLocated st.1 →
  Forall WellLocated
    (locateASTReferent_candidate S AST (tuPath AST) CurLoc TouchedIdentifier
       NodeKind n st E).1.
Proof.
  destruct st as [Result VirtualMethods]. simpl. intros HR.
  unfold locateASTReferent_candidate.
  repeat case_match; simpl;
    repeat first [ done
                 | apply WellLocated_AddResultDecl
                 | apply WellLocated_foldl_AddResultDecl ].
Qed.

Section With_index_conventions.
(** A location of the index that names no file does not convert. *)
Hypothesis indexToLSPLocation_empty :
  Index ≠ None →
  ∀ SL, SymbolLocation_bool SL = false →
        indexToLSPLocation S SL (tuPath AST) = None.
(** The index answers a lookup with symbols of the ids asked for. *)
Hypothesis lookup_answers_asked :
  ∀ Index' IDs Sym,
    Index = Some Index' → Sym ∈ lookup Index' IDs → sym_ID Sym ∈ IDs.

Lemma indexToLSPLocation_names_file SL L :
  Index ≠ None →
  indexToLSPLocation S SL (tuPath AST) = Some L → SymbolLocation_bool SL = true.
Proof.
  intros HI HL. destruct (SymbolLocation_bool SL) eqn:E; [done|].
  rewrite indexToLSPLocation_empty in HL by done. done.
Qed.

Lemma WellLocated_enhance Result :
  Forall WellLocated Result →
  Forall WellLocated
    (enhanceLocatedSymbolsFromIndex S Result Index (tuPath AST)).
Proof.
  intros HR. unfold enhanceLocatedSymbolsFromIndex.
  destruct (enhance_collect_slots Result [] ∅ ∅) as [Hdom Hcarry].
  { intros id Hid. by apply elem_of_empty in Hid. }
  { intros id J HJ. by rewrite lookup_empty in HJ. }
  simpl in Hdom, Hcarry.
  destruct (enhance_collect Result 0 ∅ ∅) as [RI IDs].
  simpl in Hdom, Hcarry.
  destruct Index as [Index'|] eqn:HI; [|done].
  case_bool_decide; [done|].
  apply Forall_lookup. intros I R' HR'.
  assert (∃ R, Result !! I = Some R) as [R HRI].
  { apply lookup_lt_is_Some. apply lookup_lt_Some in HR'.
    by rewrite enhance_foldl_length in HR'. }
  rewrite (enhance_foldl_lookup S (tuPath AST) RI _ _ _ _ HRI) in HR'.
  injection HR' as <-.
  apply WellLocated_enhance_entries; [|by eapply Forall_lookup_1].
  intros Sym [Hslot HSym]%list_elem_of_filter.
  eapply Answer_lookup; [done|exact HSym|].
  destruct (Hdom _ (lookup_answers_asked _ _ _ eq_refl HSym)) as [J HJ].
  rewrite HJ in Hslot. simpl in Hslot. subst J.
  destruct (Hcarry _ _ HJ) as (R0 & HR0 & <-). congruence.
Qed.

Lemma WellLocated_findImplementors IDs Predicate :
  Forall WellLocated (findImplementors S IDs Predicate Index (tuPath AST)).
Proof.
  pose proof indexToLSPLocation_names_file as Hnames.
  unfold findImplementors. destruct Index as [Index'|] eqn:HI; [|done].
  case_bool_decide; [done|].
  apply (foldl_invariant (Forall WellLocated)); [done|].
  intros Results [Subject Object] HA HR.
  unfold findImplementors_callback. simpl.
  destruct (indexToLSPLocation S (sym_CanonicalDeclaration Object) (tuPath AST))
    as [DeclLoc|] eqn:HDecl; [|done].
  assert (∀ R, Name R = sym_Name Object → ID R = 0 →
               ResolvedLocation R DeclLoc) as HRes.
  { intros R HN HID.
    eapply Resolved_index; [by eapply Answer_relations|by left| |exact HDecl].
    by eapply Hnames. }
  destruct (indexToLSPLocation S (sym_Definition Object) (tuPath AST))
    as [DefLoc|] eqn:HDef; apply Forall_app; (split; [done|]);
    (constructor; [|done]); split; simpl; try done; try by apply HRes.
  intros d [= <-].
  eapply Known_index; [by eapply Answer_relations| |done].
  by eapply Hnames.
Qed.

Lemma WellLocated_locateASTReferent CurLoc TouchedIdentifier NodeKind :
  Forall WellLocated
    (locateASTReferent S CurLoc TouchedIdentifier AST (tuPath AST) Index
       NodeKind).1.
Proof.
  unfold locateASTReferent.
  destruct (getDeclAtPositionWithRelations AST CurLoc
              (Z.lor DeclRelation_TemplatePattern DeclRelation_Alias) NodeKind)
    as [Candidates NodeKind'].
  set (st := foldl _ _ Candidates).
  assert (Forall WellLocated st.1) as Hst.
  { subst st. apply (foldl_invariant (λ st, Forall WellLocated st.1)).
    - by constructor.
    - intros st E _. apply WellLocated_candidate. }
  clearbody st. destruct st as [Result VirtualMethods].
  simpl in *. apply Forall_app. split.
  - by apply WellLocated_enhance.
  - apply WellLocated_findImplementors.
Qed.

Lemma WellLocated_locateSymbolForType Type_ :
  Forall WellLocated (locateSymbolForType S AST Type_ Index).
Proof.
  unfold locateSymbolForType. destruct (typeTargetDecl AST Type_); [done|].
  apply WellLocated_enhance. by apply WellLocated_foldl_AddResultDecl.
Qed.

Lemma WellLocated_textual_located Word Index' Req Sym Located :
  Index = Some Index' → Sym ∈ fuzzyFind Index' Req →
  locateSymbolTextually_located S Word (tuPath AST) Sym = Some Located →
  WellLocated Located.
Proof.
  intros HI HSym. unfold locateSymbolTextually_located.
  destruct (negb (bool_decide (sym_Name Sym = word_Text Word))); [done|].
  destruct (bool_decide (sym_Kind Sym = SK_Constructor)); [done|].
  destruct (indexToLSPLocation S (sym_CanonicalDeclaration Sym) (tuPath AST))
    as [DeclLoc|] eqn:HDecl; [|done].
  destruct (SymbolLocation_bool (sym_Definition Sym)) eqn:HB.
  - destruct (indexToLSPLocation S (sym_Definition Sym) (tuPath AST))
      as [DefLoc|] eqn:HDef; [|done].
    intros [= <-].
    assert (IndexAnswer
              (set_Definition (Some DefLoc)
                 (set_PreferredDeclaration DefLoc
                    (mkLocatedSymbol
                       (sym_Name Sym +:+ sym_TemplateSpecializationArgs Sym)
                       DeclLoc None (sym_ID Sym)))) Sym) as HA
      by by eapply Answer_fuzzyFind.
    split; simpl.
    + eapply Resolved_index; [exact HA|by right|done..].
    + intros d [= <-]. by eapply Known_index.
  - intros [= <-]. split; simpl; [|done].
    eapply Resolved_index; [by eapply Answer_fuzzyFind|by left| |exact HDecl].
    eapply indexToLSPLocation_names_file; [|done]. by rewrite HI.
Qed.

Lemma WellLocated_textual_fold Word Index' Req :
  Index = Some Index' →
  Forall (λ X : ScoredLocatedSymbol, WellLocated X.2)
    (foldl (locateSymbolTextually_callback S Word (tuPath AST)) (false, [])
       (fuzzyFind Index' Req)).2.
Proof.
  intros HI.
  apply (foldl_invariant
           (λ st : bool * list ScoredLocatedSymbol,
              Forall (λ X, WellLocated X.2) st.2)).
  - by constructor.
  - intros [TooMany Scored] Sym HSym HInv. simpl in *.
    unfold locateSymbolTextually_callback.
    destruct (locateSymbolTextually_located S Word (tuPath AST) Sym)
      as [Located|] eqn:HL; [|done].
    case_bool_decide; simpl; [done|].
    apply Forall_app. split; [done|]. constructor; [|done]. simpl.
    by eapply WellLocated_textual_located.
Qed.

Lemma WellLocated_locateSymbolTextually Word NodeKind :
  Forall WellLocated
    (locateSymbolTextually S Word AST Index (tuPath AST) NodeKind).
Proof.
  pose proof WellLocated_textual_fold as Hfold.
  unfold locateSymbolTextually. destruct Index as [Index'|] eqn:HI; [|done].
  destruct (_ || _); [done|].
  destruct (match PartOfSpelledToken Word with
            | Some Tok => isStringLiteral (tok_kind Tok)
            | None => false
            end); [done|].
  set (st := foldl _ _ _).
  assert (Forall (λ X : ScoredLocatedSymbol, WellLocated X.2) st.2) as Hst.
  { subst st. by apply Hfold. }
  clearbody st. destruct st as [TooMany Scored]. simpl in Hst.
  destruct TooMany; [done|].
  apply Forall_fmap. by rewrite merge_sort_Permutation.
Qed.

Lemma WellLocated_locateFileReferent Pos File :
  locateFileReferent S Pos AST (tuPath AST) = Some File → WellLocated File.
Proof.
  intros H. apply locateFileReferent_loop_Some in H
    as (pre & Inc & post & Heq & _ & HR & _ & ->).
  assert (Inc ∈ MainFileIncludes AST) as Hin.
  { rewrite Heq. apply elem_of_app. right. left. }
  split; simpl.
  - by apply Resolved_include.
  - intros d [= <-]. by apply Known_include.
Qed.

Lemma WellLocated_locateMacroReferent Tok Macro :
  locateMacroReferent S Tok AST (tuPath AST) = Some Macro → WellLocated Macro.
Proof.
  unfold locateMacroReferent.
  destruct (locateMacroAt AST Tok) as [M|] eqn:HM; [|done].
  destruct (makeLocation S (getSourceManager AST) (macro_NameLoc M) (tuPath AST))
    as [Loc|] eqn:HL; [|done].
  intros [= <-]. split; simpl.
  - by eapply Resolved_macro.
  - intros d [= <-]. by eapply Known_macro.
Qed.

Lemma WellLocated_run_stage Pos s :
  Forall WellLocated (run_stage S AST Pos Index s).
Proof.
  destruct s; simpl.
  - destruct (locateFileReferent S Pos AST (tuPath AST)) eqn:E; [|done].
    constructor; [by eapply WellLocated_locateFileReferent|done].
  - destruct (locateMacroReferent S Tok AST (tuPath AST)) eqn:E; [|done].
    constructor; [by eapply WellLocated_locateMacroReferent|done].
  - destruct (getDeducedType AST (tok_location Tok)); [|done].
    apply WellLocated_locateSymbolForType.
  - apply WellLocated_locateASTReferent.
  - done.
  - destruct (locateMacroReferent S NearbyIdent AST (tuPath AST)) eqn:E;
      [|done].
    constructor; [by eapply WellLocated_locateMacroReferent|done].
  - apply WellLocated_locateASTReferent.
  - apply WellLocated_locateSymbolTextually.
Qed.

Lemma WellLocated_locateSymbolAt Pos :
  Forall WellLocated (locateSymbolAt S AST Pos Index).
Proof.
  destruct (locateSymbolAt_stages_spec S AST Pos Index) as (Hlast & _ & _).
  apply answers_last_last in Hlast. unfold locateSymbolAt. rewrite Hlast.
  destruct (last (locateSymbolAt_stages S AST Pos Index).1); [|done].
  apply WellLocated_run_stage.
Qed.

Lemma WellLocated_findImplementations Pos :
  Forall WellLocated (findImplementations S AST Pos Index).
Proof.
  pose proof WellLocated_findImplementors as HImpl.
  unfold findImplementations. destruct Index as [Index'|] eqn:HI; [|done].
  destruct (sourceLocationInMainFile (getSourceManager AST) Pos); [|done].
  match goal with
  | |- context [foldl ?f ?a ?l] => destruct (foldl f a l) as [IDs QueryKind]
  end.
  apply HImpl.
Qed.

Lemma WellLocated_findType Pos :
  Forall WellLocated (findType S AST Pos Index).
Proof.
  unfold findType. destruct (positionToOffset AST Pos) as [Offset|]; [|done].
  assert (∀ N, Forall WellLocated (findType_SymbolsFromNode S AST Index N))
    as HN.
  { intros N. unfold findType_SymbolsFromNode.
    apply (foldl_invariant (Forall WellLocated)); [done|].
    intros acc T _ Hacc. apply Forall_app. split; [done|].
    apply WellLocated_locateSymbolForType. }
  generalize (createEach AST Offset). intros Trees.
  assert (∀ Result, Forall WellLocated Result →
            Forall WellLocated (findType_trees S AST Index Trees Result)) as HT.
  { induction Trees as [|ST Trees IH]; intros Result HR; simpl; [done|].
    specialize (HN ST).
    destruct (findType_SymbolsFromNode S AST Index ST); [by apply IH|done]. }
  by apply HT.
Qed.

End With_index_conventions.
End WellLocated.

(** Without an index, a definition in the answer of [locateSymbolAt] is
    the included file, the macro, or the name of the declaration that
    [getDefinition] found for the declaration of the symbol: a
    declaration for which [getDefinition] answers nothing gives none. *)
Lemma locateSymbolAt_definitions_without_index
    (S : Support) (AST : ParsedAST) (Pos : Position)
    (R : LocatedSymbol) (d : Location) :
  R ∈ locateSymbolAt S AST Pos None → Definition_ R = Some d →
  (∃ Inc, Inc ∈ MainFileIncludes AST ∧ Resolved Inc ≠ ""
          ∧ Name R = path_filename S (Resolved Inc))
  ∨ (∃ Tok M, locateMacroAt AST Tok = Some M ∧ Name R = macro_Name M
              ∧ ID R = macro_ID M)
  ∨ ∃ D Def,
      Name R = printName (getASTContext AST) D
      ∧ ID R = getSymbolID (getASTContext AST) D
      ∧ getDefinition (getASTContext AST) D = Some Def
      ∧ makeLocation S (getSourceManager AST)
          (nameLocation (getASTContext AST) Def) (tuPath AST) = Some d.
Proof.
  intros HR Hd.
  assert (WellLocated S AST None R) as [_ HK].
  { assert (Forall (WellLocated S AST None) (locateSymbolAt S AST Pos None))
      as HW by (by apply WellLocated_locateSymbolAt).
    rewrite Forall_forall in HW. by apply HW. }
  specialize (HK d Hd). clear -HK.
  assert (∀ Sym, ¬ IndexAnswer None R Sym) as Hno.
  { intros Sym HA. by destruct HA. }
  induction HK as [Inc ? ? ? ?|Tok M L ? ? ? ?|D Def L ? ? ? ?
                  |Sym L HA ? ?|Def Sym L ? ? HA ?].
  - left. by exists Inc.
  - right. left. by exists Tok, M.
  - right. right. by exists D, Def.
  - by destruct (Hno Sym).
  - by destruct (Hno Sym).
Qed.

(** C9. Every located symbol that [locateSymbolAt], [findImplementations]
    (through [findImplementors]), [findType] or the textual fallback
    returns has a preferred declaration that a location conversion
    produced for that symbol, and has a definition only when a definition
    location is known for that symbol: the included file it is named
    after, the name of the macro it has the name and id of, the
    declaration [getDefinition] found for the declaration it has the name
    and id of, or the definition of a symbol the index answered with
    under its id (for [findImplementors], whose symbols carry no id,
    under its name), possibly merged with one of the former. The premises
    are the conventions of the index: a location that names no file does
    not convert, and a lookup is answered with symbols of the ids asked
    for. *)
Theorem located_symbols_are_well_located
    (S : Support) (AST : ParsedAST) (Index : option SymbolIndex) :
  (∀ SL, SymbolLocation_bool SL = false →
         indexToLSPLocation S SL (tuPath AST) = None) →
  (∀ Index' IDs Sym,
     Index = Some Index' → Sym ∈ lookup Index' IDs → sym_ID Sym ∈ IDs) →
  ∀ Pos Word NodeKind R,
    R ∈ locateSymbolAt S AST Pos Index
    ∨ R ∈ findImplementations S AST Pos Index
    ∨ R ∈ findType S AST Pos Index
    ∨ R ∈ locateSymbolTextually S Word AST Index (tuPath AST) NodeKind →
    ResolvedLocation S AST Index R (PreferredDeclaration R)
    ∧ ∀ d, Definition_ R = Some d → KnownDefinition S AST Index R d.
Proof.
  intros Hempty Hasked Pos Word NodeKind R HR.
  change (WellLocated S AST Index R).
  destruct HR as [HR|[HR|[HR|HR]]]; revert R HR; apply Forall_forall.
  - apply WellLocated_locateSymbolAt; first [done | by intros _].
  - apply WellLocated_findImplementations; first [done | by intros _].
  - apply WellLocated_findType; first [done | by intros _].
  - apply WellLocated_locateSymbolTextually; first [done | by intros _].
Qed.

(** The theorem on the type alias of the fixture, located through the AST
    and enhanced from the index: its definition is the definition of the
    index symbol that has its id. *)
Lemma located_symbols_are_well_located_witness :
  let R :=
    mkLocatedSymbol "T"
      (mkLocation "file:///src/main.cpp"
         (mkRange (mkPosition 0 0) (mkPosition 0 1)))
      (Some (mkLocation "file:///src/t.h"
               (mkRange (mkPosition 1 0) (mkPosition 1 3))))
      1 in
  ResolvedLocation Fixture.support Fixture_Typedef.file
    (Some Fixture_Typedef.index) R (PreferredDeclaration R)
  ∧ ∀ d, Definition_ R = Some d →
         KnownDefinition Fixture.support Fixture_Typedef.file
           (Some Fixture_Typedef.index) R d.
Proof.
  intros R.
  apply (located_symbols_are_well_located Fixture.support Fixture_Typedef.file
           (Some Fixture_Typedef.index))
    with (Pos := Fixture_Typedef.cursor) (Word := Fixture.word_foo)
         (NodeKind := NK_None).
  - intros [URI Start End] H. unfold SymbolLocation_bool in H. simpl in *.
    apply negb_false_iff, bool_decide_eq_true in H. subst URI. reflexivity.
  - intros Index' IDs Sym [= <-] HSym. simpl in HSym.
    by apply list_elem_of_filter in HSym as [HSym _].
  - left. vm_compute. left.
Defined.

(** * The other requests *)

(** ** Subtypes from the index *)

(** A fold that appends what a partial function makes of each element
    appends the elements it is defined on, in their order. *)
Lemma foldl_snoc_omap {A B} (f : A → option B) (step : list B → A → list B)
    (l : list A) :
  (∀ acc a, a ∈ l →
     step acc a = match f a with Some b => acc ++ [b] | None => acc end) →
  ∀ acc, foldl step acc l = acc ++ omap f l.
Proof.
  induction l as [|a l IH]; intros Hstep acc; csimpl.
  { by rewrite app_nil_r. }
  rewrite IH by (intros ? ? ?; apply Hstep; by right).
  rewrite Hstep by left.
  destruct (f a); [|done]. by rewrite <- app_assoc.
Qed.

(** The elements a partial function is defined on, against what it makes
    of them. *)
Lemma Forall2_filter_omap {A B} (f : A → option B) (l : list A) :
  Forall2 (λ a b, f a = Some b) (filter (λ a, is_Some (f a)) l) (omap f l).
Proof.
  induction l as [|a l IH]; csimpl; [constructor|].
  rewrite filter_cons. destruct (f a) as [b|] eqn:E.
  - rewrite decide_True by eauto. by constructor.
  - rewrite decide_False; [done|]. by intros [? ?].
Qed.

Lemma Forall2_filter_omap_fmap {A B C} (h : A → option B) (g : A → B → C)
    (l : list A) :
  Forall2 (λ a c, ∃ b, h a = Some b ∧ c = g a b)
    (filter (λ a, is_Some (h a)) l) (omap (λ a, g a <$> h a) l).
Proof.
  induction l as [|a l IH]; csimpl; [constructor|].
  rewrite filter_cons. destruct (decide (is_Some (h a))) as [[b Hb]|Hn].
  - rewrite Hb. csimpl. constructor; [by eauto|done].
  - destruct (h a) eqn:E; [exfalso; eauto|]. by csimpl.
Qed.

(** [fillSubTypes_levels], one level unfolded. *)
Lemma fillSubTypes_levels_unfold (L : Library) (Index : SymbolIndex)
    (TUPath : string) (n : nat) (ID : SymbolID)
    (SubTypes : list TypeHierarchyEntry) :
  fillSubTypes_levels n L Index TUPath ID SubTypes
  = SubTypes
    ++ omap (λ Answer : SymbolID * Symbol,
               (λ ChildSym,
                  match n with
                  | Datatypes.S n' =>
                      set_children
                        (Some (fillSubTypes_levels n' L Index TUPath
                                 (sym_ID Answer.2) []))
                        ChildSym
                  | O => ChildSym
                  end)
               <$> symbolToTypeHierarchyItem L Answer.2 TUPath)
         (relations Index BaseOf {[ID]}).
Proof.
  destruct n as [|n]; cbn [fillSubTypes_levels];
    apply foldl_snoc_omap; intros acc Answer _;
    by destruct (symbolToTypeHierarchyItem L Answer.2 TUPath).
Qed.

(** [fillSubTypes] as the code has it: one entry is appended for each
    answer of the [BaseOf] query that has a location, and when more than
    one level is asked for its children are filled by the call with one
    level less. *)
Lemma fillSubTypes_unfold (L : Library) (ID : SymbolID)
    (SubTypes : list TypeHierarchyEntry) (Index : SymbolIndex) (Levels : Z)
    (TUPath : string) :
  fillSubTypes L ID SubTypes Index Levels TUPath
  = SubTypes
    ++ omap (λ Answer : SymbolID * Symbol,
               (λ ChildSym,
                  if bool_decide (1 < Levels)
                  then set_children
                         (Some (fillSubTypes L (sym_ID Answer.2) [] Index
                                  (Levels - 1) TUPath))
                         ChildSym
                  else ChildSym)
               <$> symbolToTypeHierarchyItem L Answer.2 TUPath)
         (relations Index BaseOf {[ID]}).
Proof.
  unfold fillSubTypes. rewrite fillSubTypes_levels_unfold.
  case_bool_decide as HL.
  - replace (Z.to_nat (Levels - 1))
      with (Datatypes.S (Z.to_nat (Levels - 1 - 1))) by lia.
    done.
  - by replace (Z.to_nat (Levels - 1)) with 0%nat by lia.
Qed.

(** The subtypes of the id [ID], [n] levels below the first one: one
    entry for each answer of the [BaseOf] query for [ID] that has a
    location, in the order of the answers, made of the item of the
    answer, with children exactly when [n] is positive, themselves the
    subtypes of the answer's id with one level less. *)
Fixpoint subtype_tree (L : Library) (Index : SymbolIndex) (TUPath : string)
    (n : nat) (ID : SymbolID) (Es : list TypeHierarchyEntry) : Prop :=
  Forall2 (λ (Answer : SymbolID * Symbol) E,
             ∃ E0,
               symbolToTypeHierarchyItem L Answer.2 TUPath = Some E0
               ∧ entry_item E = entry_item E0
               ∧ entry_detail E = entry_detail E0
               ∧ match n with
                 | O => entry_children E = None
                 | Datatypes.S n' =>
                     ∃ cs, entry_children E = Some cs
                           ∧ subtype_tree L Index TUPath n' (sym_ID Answer.2) cs
                 end)
    (filter (λ Answer : SymbolID * Symbol,
               is_Some (symbolToTypeHierarchyItem L Answer.2 TUPath))
       (relations Index BaseOf {[ID]}))
    Es.

(** What [fillSubTypes] leaves in the list for the id [ID] when [n]
    further levels are resolved: an entry made of an answer of the
    [BaseOf] query for [ID], with children exactly when [n] is positive,
    themselves the subtypes of the answer with one level less. *)
Fixpoint subtype_levels (L : Library) (Index : SymbolIndex) (TUPath : string)
    (n : nat) (ID : SymbolID) (E : TypeHierarchyEntry) : Prop :=
  ∃ Answer E0,
    Answer ∈ relations Index BaseOf {[ID]}
    ∧ symbolToTypeHierarchyItem L Answer.2 TUPath = Some E0
    ∧ entry_item E = entry_item E0
    ∧ entry_detail E = entry_detail E0
    ∧ match n with
      | O => entry_children E = None
      | Datatypes.S n' =>
          ∃ cs, entry_children E = Some cs
                ∧ Forall (subtype_levels L Index TUPath n' (sym_ID Answer.2)) cs
      end.

Lemma symbolToTypeHierarchyItem_children L Sym TUPath E :
  symbolToTypeHierarchyItem L Sym TUPath = Some E → entry_children E = None.
Proof.
  unfold symbolToTypeHierarchyItem.
  destruct (symbolToLocation L Sym TUPath); [|done]. by intros [= <-].
Qed.

Lemma fillSubTypes_levels_spec L Index TUPath n :
  ∀ ID SubTypes,
    Forall (subtype_levels L Index TUPath n ID) SubTypes →
    Forall (subtype_levels L Index TUPath n ID)
      (fillSubTypes_levels n L Index TUPath ID SubTypes).
Proof.
  induction n as [|n IH]; intros ID SubTypes HS.
  - simpl. apply (foldl_invariant (Forall (subtype_levels L Index TUPath 0 ID)));
      [done|].
    intros acc Answer HA Hacc.
    destruct (symbolToTypeHierarchyItem L Answer.2 TUPath) as [E0|] eqn:HE;
      [|done].
    apply Forall_app. split; [done|]. constructor; [|done].
    exists Answer, E0. repeat split; try done.
    by eapply symbolToTypeHierarchyItem_children.
  - simpl.
    apply (foldl_invariant
             (Forall (subtype_levels L Index TUPath (Datatypes.S n) ID)));
      [done|].
    intros acc Answer HA Hacc.
    destruct (symbolToTypeHierarchyItem L Answer.2 TUPath) as [E0|] eqn:HE;
      [|done].
    apply Forall_app. split; [done|]. constructor; [|done].
    exists Answer, E0. destruct E0 as [i d c]. repeat split; try done.
    simpl. eexists. split; [done|]. by apply IH.
Qed.

(** The list [fillSubTypes_levels] fills from empty is the tree of the
    subtypes, level by level. *)
Lemma fillSubTypes_levels_tree L Index TUPath n :
  ∀ ID, subtype_tree L Index TUPath n ID
          (fillSubTypes_levels n L Index TUPath ID []).
Proof.
  induction n as [|n IH]; intros ID; rewrite fillSubTypes_levels_unfold;
    cbn [app subtype_tree];
    (eapply Forall2_impl;
     [apply (Forall2_filter_omap_fmap
               (λ Answer : SymbolID * Symbol,
                  symbolToTypeHierarchyItem L Answer.2 TUPath))|]);
    intros Answer E (E0 & HE0 & ->); exists E0; (split; [done|]).
  - repeat split; try done. by eapply symbolToTypeHierarchyItem_children.
  - destruct E0 as [i d c]. simpl. repeat split; try done.
    eexists. split; [done|]. apply IH.
Qed.

(** X1. [fillSubTypes] resolves [Levels] levels of subtypes and no more.
    It appends to the list one entry for each answer of the index to the
    [BaseOf] query for the id that has a location, in the order of the
    answers; when [Levels] is more than one the children of the entry are
    what [fillSubTypes] gives for the answer's id with one level less,
    else the entry has none. So the list filled from empty is the tree of
    the subtypes down to [Levels] levels, every level holding one entry
    for each located answer, and an entry at the last level has no
    children. A [Levels] of one or less - zero and negative values
    included - still fills one level, without children. The walk ends on
    an index whose relation is cyclic. *)
Theorem fillSubTypes_resolves_levels (L : Library) (Index : SymbolIndex)
    (TUPath : string) (ID : SymbolID) (SubTypes : list TypeHierarchyEntry)
    (Levels : Z) :
  fillSubTypes L ID SubTypes Index Levels TUPath
  = SubTypes
    ++ omap (λ Answer : SymbolID * Symbol,
               (λ ChildSym,
                  if bool_decide (1 < Levels)
                  then set_children
                         (Some (fillSubTypes L (sym_ID Answer.2) [] Index
                                  (Levels - 1) TUPath))
                         ChildSym
                  else ChildSym)
               <$> symbolToTypeHierarchyItem L Answer.2 TUPath)
         (relations Index BaseOf {[ID]})
  ∧ subtype_tree L Index TUPath (Z.to_nat (Levels - 1)) ID
      (fillSubTypes L ID [] Index Levels TUPath)
  ∧ length (fillSubTypes L ID SubTypes Index Levels TUPath)
    = (length SubTypes
       + length (filter (λ Answer : SymbolID * Symbol,
                           is_Some (symbolToTypeHierarchyItem L Answer.2 TUPath))
                   (relations Index BaseOf {[ID]})))%nat
  ∧ Forall (subtype_levels L Index TUPath (Z.to_nat (Levels - 1)) ID)
      (fillSubTypes L ID [] Index Levels TUPath)
  ∧ (Levels ≤ 1 →
     fillSubTypes L ID SubTypes Index Levels TUPath
     = SubTypes
       ++ omap (λ Answer : SymbolID * Symbol,
                  symbolToTypeHierarchyItem L Answer.2 TUPath)
            (relations Index BaseOf {[ID]})
     ∧ Forall (λ E, entry_children E = None)
         (fillSubTypes L ID [] Index Levels TUPath)).
Proof.
  split; [apply fillSubTypes_unfold|].
  split; [apply fillSubTypes_levels_tree|].
  split.
  { unfold fillSubTypes. rewrite fillSubTypes_levels_unfold, length_app.
    f_equal. symmetry. eapply Forall2_length.
    apply (Forall2_filter_omap_fmap
             (λ Answer : SymbolID * Symbol,
                symbolToTypeHierarchyItem L Answer.2 TUPath)). }
  split; [by apply fillSubTypes_levels_spec|].
  intros HL. split.
  - rewrite fillSubTypes_unfold. rewrite bool_decide_eq_false_2 by lia.
    f_equal. induction (relations Index BaseOf {[ID]}) as [|Answer l IH];
      csimpl; [done|].
    destruct (symbolToTypeHierarchyItem L Answer.2 TUPath); csimpl;
      by rewrite IH.
  - unfold fillSubTypes.
    replace (Z.to_nat (Levels - 1)) with 0%nat by lia.
    eapply Forall_impl; [by apply fillSubTypes_levels_spec|].
    intros E (? & ? & _ & _ & _ & _ & HE). exact HE.
Qed.

(** ** Supertypes of an item that was returned before *)

(** The two tables [superTypes] builds of the recorded parents: the ids of
    the request, and the parent recorded last for each id. *)
Lemma superTypes_request_spec (Parents : list ResolveParams) :
  (superTypes_request Parents).1 = list_to_set (data_symbolID <$> Parents)
  ∧ (∀ id P, (superTypes_request Parents).2 !! id = Some P →
             P ∈ Parents ∧ data_symbolID P = id)
  ∧ (∀ id, id ∈ (superTypes_request Parents).1 →
           is_Some ((superTypes_request Parents).2 !! id)).
Proof.
  unfold superTypes_request.
  induction Parents as [|P Parents IH] using rev_ind; simpl.
  - split; [done|]. split; [intros ?? H; by rewrite lookup_empty in H|].
    intros id H. by apply elem_of_empty in H.
  - rewrite foldl_app. simpl. destruct IH as (H1 & H2 & H3).
    split; [|split].
    + rewrite H1, fmap_app, list_to_set_app_L. simpl. set_solver.
    + intros id Q HQ. destruct (decide (data_symbolID P = id)) as [<-|Hne].
      * rewrite lookup_insert_eq in HQ. injection HQ as <-.
        split; [|done]. apply elem_of_app. right. left.
      * rewrite lookup_insert_ne in HQ by done.
        destruct (H2 _ _ HQ) as [? ?]. split; [|done].
        apply elem_of_app. by left.
    + intros id [Hid|Hid]%elem_of_union.
      * apply elem_of_singleton in Hid as ->. rewrite lookup_insert_eq. eauto.
      * destruct (decide (data_symbolID P = id)) as [<-|Hne].
        -- rewrite lookup_insert_eq. eauto.
        -- rewrite lookup_insert_ne by done. by apply H3.
Qed.

(** What an entry of the answer of [superTypes] is: the item of a symbol
    the index answered the lookup with, carrying the data recorded for a
    parent of that id. *)
Definition supertype_of (L : Library) (Index : SymbolIndex)
    (Item : TypeHierarchyEntry) (Parents : list ResolveParams)
    (R : TypeHierarchyEntry) : Prop :=
  ∃ Sym E0 P,
    Sym ∈ lookup Index (list_to_set (data_symbolID <$> Parents))
    ∧ symbolToTypeHierarchyItem L Sym
        (URIForFile_file L (item_uri (entry_item Item))) = Some E0
    ∧ P ∈ Parents ∧ data_symbolID P = sym_ID Sym
    ∧ R = set_data P E0.

Lemma superTypes_spec (L : Library) (Item : TypeHierarchyEntry)
    (Index : SymbolIndex) (Parents : list ResolveParams) :
  (∀ IDs Sym, Sym ∈ lookup Index IDs → sym_ID Sym ∈ IDs) →
  data_parents (item_data (entry_item Item)) = Some Parents →
  ∃ Results,
    superTypes L Item Index = Some (Some Results)
    ∧ Forall (supertype_of L Index Item Parents) Results.
Proof.
  intros Hlookup HP. unfold superTypes. rewrite HP.
  case_bool_decide; [by exists []|].
  destruct (superTypes_request_spec Parents) as (HIDs & Hdata & Hkeys).
  destruct (superTypes_request Parents) as [IDs IDToData].
  simpl in *. subst IDs.
  set (Syms := lookup Index (list_to_set (data_symbolID <$> Parents))).
  assert (∀ Sym, Sym ∈ Syms →
            sym_ID Sym ∈ (list_to_set (data_symbolID <$> Parents) : gset _))
    as HSyms by (intros Sym; apply Hlookup).
  assert (∀ Todo acc,
            (∀ Sym, Sym ∈ Todo → Sym ∈ Syms) →
            Forall (supertype_of L Index Item Parents) acc →
            ∃ Results,
              foldl (superTypes_callback L Item IDToData) (Some acc) Todo
              = Some Results
              ∧ Forall (supertype_of L Index Item Parents) Results) as Hfold.
  { induction Todo as [|Sym Todo IH]; intros acc Hsub Hacc; simpl.
    - by exists acc.
    - assert (Sym ∈ Syms) as HSym by (apply Hsub; left).
      destruct (symbolToTypeHierarchyItem L Sym
                  (URIForFile_file L (item_uri (entry_item Item))))
        as [THI|] eqn:HTHI.
      + destruct (Hkeys (sym_ID Sym) (HSyms _ HSym)) as [data Hd].
        rewrite Hd. apply IH.
        * intros ? ?. apply Hsub. by right.
        * apply Forall_app. split; [done|]. constructor; [|done].
          destruct (Hdata _ _ Hd) as [? ?].
          by exists Sym, THI, data.
      + apply IH; [|done]. intros ? ?. apply Hsub. by right. }
  destruct (Hfold Syms [] ltac:(done) ltac:(done)) as (Results & HR & HF).
  exists Results. by rewrite HR.
Qed.

(** The table of [superTypes] holds, for an id, the parent recorded last
    with it. *)
Lemma superTypes_request_last (Parents : list ResolveParams) (id : SymbolID) :
  (superTypes_request Parents).2 !! id
  = last (filter (λ P, data_symbolID P = id) Parents).
Proof.
  unfold superTypes_request.
  induction Parents as [|P Parents IH] using rev_ind; simpl.
  - apply lookup_empty.
  - rewrite foldl_app, filter_app. simpl. rewrite filter_cons, filter_nil.
    destruct (decide (data_symbolID P = id)) as [<-|Hne].
    + rewrite lookup_insert_eq. by rewrite last_snoc.
    + rewrite lookup_insert_ne by done. by rewrite app_nil_r.
Qed.

(** The entries of the answer of [superTypes], against the answers of
    the lookup that have a location. *)
Lemma superTypes_exact (L : Library) (Item : TypeHierarchyEntry)
    (Index : SymbolIndex) (Parents : list ResolveParams) :
  (∀ IDs Sym, Sym ∈ lookup Index IDs → sym_ID Sym ∈ IDs) →
  data_parents (item_data (entry_item Item)) = Some Parents →
  Parents ≠ [] →
  let File := URIForFile_file L (item_uri (entry_item Item)) in
  ∃ Results,
    superTypes L Item Index = Some (Some Results)
    ∧ Forall2 (λ Sym R,
                 ∃ E0 P,
                   symbolToTypeHierarchyItem L Sym File = Some E0
                   ∧ last (filter (λ P, data_symbolID P = sym_ID Sym) Parents)
                     = Some P
                   ∧ R = set_data P E0)
        (filter (λ Sym, is_Some (symbolToTypeHierarchyItem L Sym File))
           (lookup Index (list_to_set (data_symbolID <$> Parents))))
        Results.
Proof.
  intros Hlookup HP Hne File. unfold superTypes. rewrite HP.
  rewrite bool_decide_eq_false_2 by done.
  destruct (superTypes_request_spec Parents) as (HIDs & _ & Hkeys).
  pose proof (superTypes_request_last Parents) as Hlast.
  destruct (superTypes_request Parents) as [IDs IDToData].
  simpl in *. subst IDs.
  set (Syms := lookup Index (list_to_set (data_symbolID <$> Parents))).
  assert (∀ Sym, Sym ∈ Syms →
            sym_ID Sym ∈ (list_to_set (data_symbolID <$> Parents) : gset _))
    as HSyms by (intros Sym; apply Hlookup).
  clearbody Syms.
  assert (∀ acc,
            ∃ New,
              foldl (superTypes_callback L Item IDToData) (Some acc) Syms
              = Some (acc ++ New)
              ∧ Forall2 (λ Sym R,
                           ∃ E0 P,
                             symbolToTypeHierarchyItem L Sym File = Some E0
                             ∧ last (filter (λ P, data_symbolID P = sym_ID Sym)
                                       Parents) = Some P
                             ∧ R = set_data P E0)
                  (filter (λ Sym, is_Some (symbolToTypeHierarchyItem L Sym File))
                     Syms)
                  New) as Hfold.
  { induction Syms as [|Sym Syms IH]; intros acc.
    - exists []. split; [by rewrite app_nil_r|constructor].
    - cbn [foldl]. rewrite filter_cons. unfold superTypes_callback at 2.
      cbn [mbind option_bind]. fold File.
      destruct (symbolToTypeHierarchyItem L Sym File) as [THI|] eqn:HTHI.
      + destruct (Hkeys (sym_ID Sym) (HSyms _ ltac:(left))) as [data Hd].
        rewrite Hd.
        destruct (IH ltac:(intros ? ?; apply HSyms; by right)
                    (acc ++ [set_data data THI])) as (New & -> & HF).
        exists (set_data data THI :: New). split; [by rewrite <- app_assoc|].
        rewrite decide_True by eauto. constructor; [|done].
        exists THI, data. by rewrite <- Hlast.
      + destruct (IH ltac:(intros ? ?; apply HSyms; by right) acc)
          as (New & -> & HF).
        exists New. split; [done|].
        rewrite decide_False; [done|]. by intros [? ?]. }
  destruct (Hfold []) as (New & -> & HF). by exists New.
Qed.

(** X2. [superTypes] answers from the parents recorded in the item's
    data: without a record ([data.parents] unset) it answers [nullopt];
    with an empty record, the empty list; otherwise - on an index that
    answers a lookup with symbols of the ids asked for - it asks the
    index for the recorded ids and answers one entry for each answer of
    the lookup that has a location, in the order of the answers: the item
    of the answer, carrying the data of the parent recorded last with the
    answer's id. *)
Theorem superTypes_answers_recorded_parents (L : Library)
    (Item : TypeHierarchyEntry) (Index : SymbolIndex) :
  (∀ IDs Sym, Sym ∈ lookup Index IDs → sym_ID Sym ∈ IDs) →
  let File := URIForFile_file L (item_uri (entry_item Item)) in
  match data_parents (item_data (entry_item Item)) with
  | None => superTypes L Item Index = Some None
  | Some [] => superTypes L Item Index = Some (Some [])
  | Some Parents =>
      ∃ Results,
        superTypes L Item Index = Some (Some Results)
        ∧ Forall (supertype_of L Index Item Parents) Results
        ∧ Forall2 (λ Sym R,
                     ∃ E0 P,
                       symbolToTypeHierarchyItem L Sym File = Some E0
                       ∧ last (filter (λ P, data_symbolID P = sym_ID Sym)
                                 Parents) = Some P
                       ∧ R = set_data P E0)
            (filter (λ Sym, is_Some (symbolToTypeHierarchyItem L Sym File))
               (lookup Index (list_to_set (data_symbolID <$> Parents))))
            Results
  end.
Proof.
  intros Hlookup File.
  destruct (data_parents (item_data (entry_item Item))) as [Parents|] eqn:HP.
  - destruct Parents as [|P Parents].
    + unfold superTypes. by rewrite HP.
    + destruct (superTypes_spec L Item Index (P :: Parents) Hlookup HP)
        as (Results & HR & HF).
      destruct (superTypes_exact L Item Index (P :: Parents) Hlookup HP
                  ltac:(done)) as (Results' & HR' & HF2).
      rewrite HR in HR'. injection HR' as <-.
      exists Results. by repeat split.
  - unfold superTypes. by rewrite HP.
Qed.

Lemma Fixture_Classes_lookup IDs Sym :
  Sym ∈ lookup Fixture_Classes.index IDs → sym_ID Sym ∈ IDs.
Proof. simpl. intros H. by apply list_elem_of_filter in H as [? _]. Qed.

(** The theorem on an item of [Derived] that records [Base] as its
    parent: the answer is the item of [Base]. *)
Lemma superTypes_answers_recorded_parents_witness :
  ∃ Results,
    superTypes Fixture_Classes.library
      (set_data_parents
         (Some [item_data (entry_item Fixture_Classes.Base_item)])
         (mkTypeHierarchyEntry
            (mkTypeHierarchyItem "Derived" "file:///src/c.h" Range_empty
               Range_empty false (mkResolveParams 2 None) None)
            "ns::Derived" None))
      Fixture_Classes.index
    = Some (Some Results)
    ∧ item_name ∘ entry_item <$> Results = ["Base"].
Proof.
  pose proof (superTypes_answers_recorded_parents Fixture_Classes.library
                (set_data_parents
                   (Some [item_data (entry_item Fixture_Classes.Base_item)])
                   (mkTypeHierarchyEntry
                      (mkTypeHierarchyItem "Derived" "file:///src/c.h"
                         Range_empty Range_empty false
                         (mkResolveParams 2 None) None)
                      "ns::Derived" None))
                Fixture_Classes.index Fixture_Classes_lookup) as H.
  simpl in H. destruct H as (Results & HR & _).
  exists Results. split; [exact HR|].
  vm_compute in HR. injection HR as <-. reflexivity.
Defined.

(** ** Subtypes of an item, and back *)

Lemma set_data_item_data data E :
  item_data (entry_item (set_data data E)) = data.
Proof. by destruct E as [[] ? ?]. Qed.

Lemma set_data_children data E :
  entry_children (set_data data E) = entry_children E.
Proof. by destruct E as [[] ? ?]. Qed.

Lemma set_data_name data E :
  item_name (entry_item (set_data data E)) = item_name (entry_item E).
Proof. by destruct E as [[] ? ?]. Qed.

Lemma symbolToTypeHierarchyItem_item L Sym TUPath E :
  symbolToTypeHierarchyItem L Sym TUPath = Some E →
  item_name (entry_item E) = sym_Name Sym
  ∧ data_symbolID (item_data (entry_item E)) = sym_ID Sym
  ∧ entry_detail E = sym_Scope Sym +:+ sym_Name Sym
  ∧ item_range (entry_item E) = item_selectionRange (entry_item E).
Proof.
  unfold symbolToTypeHierarchyItem.
  destruct (symbolToLocation L Sym TUPath); [|done]. by intros [= <-].
Qed.

(** X3. [subTypes] answers with one entry for each answer of the index to
    the [BaseOf] query for the item's id that has a location; the entry
    carries the id and the name of the answer, has no children, and
    records the item's own data as its one parent. So the supertypes of
    such an entry resolve back to the item: on an index that answers a
    lookup with symbols of the ids asked for, [superTypes] of the entry
    succeeds and every entry of its answer carries the item's data. *)
Theorem subTypes_record_their_parent (L : Library)
    (Item : TypeHierarchyEntry) (Index : SymbolIndex) :
  (∀ IDs Sym, Sym ∈ lookup Index IDs → sym_ID Sym ∈ IDs) →
  Forall (λ C,
            data_parents (item_data (entry_item C))
            = Some [item_data (entry_item Item)]
            ∧ entry_children C = None
            ∧ (∃ Answer,
                 Answer ∈ relations Index BaseOf
                            {[data_symbolID (item_data (entry_item Item))]}
                 ∧ data_symbolID (item_data (entry_item C)) = sym_ID Answer.2
                 ∧ item_name (entry_item C) = sym_Name Answer.2)
            ∧ ∃ Results,
                superTypes L C Index = Some (Some Results)
                ∧ Forall (λ R, item_data (entry_item R)
                               = item_data (entry_item Item)) Results)
    (subTypes L Item Index).
Proof.
  intros Hlookup. unfold subTypes. apply Forall_fmap.
  eapply Forall_impl; [by apply fillSubTypes_levels_spec|].
  intros E (Answer & E0 & HA & HE0 & Hitem & _ & Hchildren). simpl in *.
  destruct (symbolToTypeHierarchyItem_item _ _ _ _ HE0) as (Hname & HID & _).
  assert (data_parents (item_data (entry_item
            (set_data_parents (Some [item_data (entry_item Item)]) E)))
          = Some [item_data (entry_item Item)]) as Hparents.
  { unfold set_data_parents. by rewrite set_data_item_data. }
  split; [done|]. split; [| split].
  - unfold set_data_parents. by rewrite set_data_children.
  - exists Answer. split; [done|]. unfold set_data_parents.
    rewrite set_data_item_data, set_data_name, Hitem. by simpl.
  - destruct (superTypes_spec L _ Index _ Hlookup Hparents)
      as (Results & HR & HF).
    exists Results. split; [done|].
    eapply Forall_impl; [exact HF|].
    intros R (Sym & E1 & P & _ & _ & HP & _ & ->).
    apply list_elem_of_singleton in HP as ->.
    by rewrite set_data_item_data.
Qed.

(** The theorem on [Base]: its one subtype is [Derived]. *)
Lemma subTypes_record_their_parent_witness :
  item_name ∘ entry_item
    <$> subTypes Fixture_Classes.library Fixture_Classes.Base_item
          Fixture_Classes.index
  = ["Derived"]
  ∧ Forall (λ C,
              data_parents (item_data (entry_item C))
              = Some [item_data (entry_item Fixture_Classes.Base_item)]
              ∧ ∃ Results,
                  superTypes Fixture_Classes.library C Fixture_Classes.index
                  = Some (Some Results)
                  ∧ Forall (λ R, item_data (entry_item R)
                                 = item_data
                                     (entry_item Fixture_Classes.Base_item))
                      Results)
      (subTypes Fixture_Classes.library Fixture_Classes.Base_item
         Fixture_Classes.index).
Proof.
  split; [reflexivity|].
  eapply Forall_impl.
  - exact (subTypes_record_their_parent Fixture_Classes.library
             Fixture_Classes.Base_item Fixture_Classes.index
             Fixture_Classes_lookup).
  - intros C (H1 & _ & _ & H2). by split.
Defined.

(** ** Items of the type hierarchy are consistent *)

Lemma Position_le_refl A : Position_le A A = true.
Proof.
  unfold Position_le. rewrite Z.eqb_refl, (proj2 (Z.leb_le _ _)) by lia.
  apply orb_true_r.
Qed.

Lemma Range_contains_refl R : Range_contains R R = true.
Proof. unfold Range_contains. by rewrite !Position_le_refl. Qed.

Lemma declToHierarchyItem_range S AST ND TUPath Item :
  declToHierarchyItem S AST ND TUPath = Some Item →
  Range_contains (item_range Item) (item_selectionRange Item) = true
  ∧ item_name Item = printName (getASTContext AST) ND.
Proof.
  unfold declToHierarchyItem.
  repeat (case_match; try done); intros [= <-]; simpl;
    (split; [|done]); [done|apply Range_contains_refl].
Qed.

Lemma declToTypeHierarchyItem_range S AST ND TUPath Item :
  declToTypeHierarchyItem S AST ND TUPath = Some Item →
  Range_contains (item_range Item) (item_selectionRange Item) = true
  ∧ item_name Item = printName (getASTContext AST) ND
  ∧ data_symbolID (item_data Item) = getSymbolID (getASTContext AST) ND.
Proof.
  unfold declToTypeHierarchyItem.
  destruct (declToHierarchyItem S AST ND TUPath) as [I|] eqn:HI; [|done].
  apply declToHierarchyItem_range in HI as [HR HN].
  destruct I as [n u r sr dep [i dp] p]. by intros [= <-].
Qed.

(** X4. The range of a hierarchy item contains its selection range,
    whichever way the item was made: from a declaration
    ([declToTypeHierarchyItem], which falls back to the selection range
    when the range clang reports does not contain it), where it also
    carries the printed name and the symbol id of the declaration; or
    from a symbol of the index ([symbolToTypeHierarchyItem]), where the
    range is the selection range, and the entry carries the name and id
    of the symbol and its qualified name as detail. *)
Theorem hierarchy_item_range_contains_selection
    (L : Library) (AST : ParsedAST) (TUPath : string) :
  (∀ ND Item,
     declToTypeHierarchyItem L AST ND TUPath = Some Item →
     Range_contains (item_range Item) (item_selectionRange Item) = true
     ∧ item_name Item = printName (getASTContext AST) ND
     ∧ data_symbolID (item_data Item) = getSymbolID (getASTContext AST) ND)
  ∧ (∀ Sym E,
       symbolToTypeHierarchyItem L Sym TUPath = Some E →
       Range_contains (item_range (entry_item E))
         (item_selectionRange (entry_item E)) = true
       ∧ item_name (entry_item E) = sym_Name Sym
       ∧ data_symbolID (item_data (entry_item E)) = sym_ID Sym
       ∧ entry_detail E = sym_Scope Sym +:+ sym_Name Sym).
Proof.
  split.
  - intros ND Item. apply declToTypeHierarchyItem_range.
  - intros Sym E HE.
    destruct (symbolToTypeHierarchyItem_item _ _ _ _ HE) as (? & ? & ? & HR).
    rewrite HR. by rewrite Range_contains_refl.
Qed.

(** An item all of whose levels are consistent: the range contains the
    selection range, and [data.parents] lists the data of the items of
    [parents], in their order. *)
#[warnings="-register-all"] Inductive item_consistent : TypeHierarchyItem → Prop :=
| item_consistent_intro n u r sr dep i
    (dp : option (list ResolveParams)) (p : option (list TypeHierarchyItem)) :
    Range_contains r sr = true →
    dp = (λ ps : list TypeHierarchyItem, item_data <$> ps) <$> p →
    (∀ ps, p = Some ps → Forall item_consistent ps) →
    item_consistent (mkTypeHierarchyItem n u r sr dep (mkResolveParams i dp) p).

Lemma item_consistent_emplace_parents Item :
  Range_contains (item_range Item) (item_selectionRange Item) = true →
  item_consistent (emplace_parents Item).
Proof.
  destruct Item as [n u r sr dep [i dp] p]. simpl. intros HR.
  constructor; [done..|]. intros ps [= <-]. constructor.
Qed.

Lemma item_consistent_emplace_back Item ParentSym :
  item_consistent Item → item_consistent ParentSym →
  item_consistent (emplace_back_parent Item ParentSym).
Proof.
  intros HI HP. inversion HI as [n u r sr dep i dp p HR Hdp Hps]; subst.
  simpl. constructor; [done| |].
  - destruct p; simpl; [|done]. by rewrite fmap_app.
  - intros ps Hps'. destruct p as [l|]; simplify_eq/=.
    apply Forall_app. split; [by apply Hps|by constructor].
Qed.

Lemma item_consistent_range Item :
  item_consistent Item →
  Range_contains (item_range Item) (item_selectionRange Item) = true.
Proof. by intros []. Qed.

Lemma fillSuperTypes_parents_consistent
    (rec : Decl → TypeHierarchyItem → RecursionProtectionSet
           → option (TypeHierarchyItem * RecursionProtectionSet))
    (declToItem : Decl → option TypeHierarchyItem) :
  (∀ D I, declToItem D = Some I →
          Range_contains (item_range I) (item_selectionRange I) = true) →
  (∀ D I RPSet I' RPSet',
     Range_contains (item_range I) (item_selectionRange I) = true →
     rec D I RPSet = Some (I', RPSet') → item_consistent I') →
  ∀ Parents Item RPSet Item' RPSet',
    item_consistent Item →
    fillSuperTypes_parents rec declToItem Parents Item RPSet
    = Some (Item', RPSet') →
    item_consistent Item'.
Proof.
  intros Hdecl Hrec.
  induction Parents as [|P Parents IH]; intros Item RPSet Item' RPSet' HI;
    simpl.
  - by intros [= <- _].
  - destruct (declToItem P) as [PS|] eqn:HPS; [|by apply IH].
    destruct (rec P PS RPSet) as [[PS' RPSet1]|] eqn:Hr; [|done].
    apply IH. apply item_consistent_emplace_back; [done|].
    eapply Hrec; [|exact Hr]. by eapply Hdecl.
Qed.

Lemma fillSuperTypes_consistent S AST TUPath fuel :
  ∀ CXXRD Item RPSet Item' RPSet',
    Range_contains (item_range Item) (item_selectionRange Item) = true →
    fillSuperTypes fuel S AST TUPath CXXRD Item RPSet = Some (Item', RPSet') →
    item_consistent Item'.
Proof.
  induction fuel as [|fuel IH]; intros CXXRD Item RPSet Item' RPSet' HR;
    simpl; [done|].
  case_match.
  - intros [= <- _]. by apply item_consistent_emplace_parents.
  - match goal with
    | |- context [fillSuperTypes_parents ?r ?d ?ps ?i ?rp] =>
        destruct (fillSuperTypes_parents r d ps i rp) as [[Item1 RPSet1]|]
          eqn:Hloop; [|done]
    end.
    intros [= <- _].
    eapply fillSuperTypes_parents_consistent; [| |
      by apply item_consistent_emplace_parents|exact Hloop].
    + intros D I HD. by apply declToTypeHierarchyItem_range in HD as [? _].
    + intros D I R I' R' HI Hrec. by eapply IH.
Qed.

(** X5. The filled supertype tree is consistent at every level. For a
    class whose item the declaration gave, [fillSuperTypes] returns - given
    finitely many template patterns and acyclic inheritance among the
    other records - an item in which, at every level of parents, the range
    contains the selection range and [data.parents] lists exactly the data
    of the items in [parents], in the same order; [parents] is set on the
    item itself, also when it has no parent. *)
Theorem fillSuperTypes_builds_consistent_tree
    (S : Support) (AST : ParsedAST) (TUPath : string)
    (Patterns : gset Decl) (rank : Decl → nat)
    (CXXRD : Decl) (Item : TypeHierarchyItem) :
  (∀ D, getDescribedTemplate (getASTContext AST) D = true → D ∈ Patterns) →
  (∀ D P, getDescribedTemplate (getASTContext AST) D = false →
          P ∈ typeParents (getASTContext AST) D →
          getDescribedTemplate (getASTContext AST) P = false →
          (rank P < rank D)%nat) →
  declToTypeHierarchyItem S AST CXXRD TUPath = Some Item →
  ∃ fuel Item',
    (∀ fuel', (fuel ≤ fuel')%nat →
       fillSuperTypes fuel' S AST TUPath CXXRD Item ∅ = Some (Item', ∅))
    ∧ item_consistent Item'
    ∧ is_Some (item_parents Item')
    ∧ item_name Item' = printName (getASTContext AST) CXXRD.
Proof.
  intros HPat Hrank HItem.
  destruct (fillSuperTypes_fills_all S AST TUPath Patterns rank HPat Hrank
              _ ∅ eq_refl CXXRD Item) as (fuel & Item' & Hfuel).
  exists fuel, Item'. split; [done|].
  pose proof (Hfuel fuel (le_n _)) as Hrun.
  destruct (declToTypeHierarchyItem_range _ _ _ _ _ HItem) as (HR & HN & _).
  split; [by eapply fillSuperTypes_consistent|].
  destruct fuel as [|fuel]; [done|]. simpl in Hrun.
  assert (∀ Parents I R I' R',
            is_Some (item_parents I) →
            fillSuperTypes_parents (fillSuperTypes fuel S AST TUPath)
              (λ ParentDecl, declToTypeHierarchyItem S AST ParentDecl TUPath)
              Parents I R = Some (I', R') →
            is_Some (item_parents I') ∧ item_name I' = item_name I) as Hloop.
  { induction Parents as [|P Parents IH]; intros I R I' R' HI; simpl.
    - by intros [= <- _].
    - destruct (declToTypeHierarchyItem S AST P TUPath) as [PS|];
        [|by apply IH].
      destruct (fillSuperTypes fuel S AST TUPath P PS R) as [[PS' R1]|];
        [|done].
      intros Hrest. apply IH in Hrest as [? ->].
      + split; [done|]. by destruct I as [? ? ? ? ? [] ?].
      + destruct I as [? ? ? ? ? [] [l|]]; simpl; [eauto|].
        by destruct HI. }
  assert (is_Some (item_parents (emplace_parents Item))
          ∧ item_name (emplace_parents Item) = item_name Item) as [He1 He2].
  { destruct Item as [? ? ? ? ? [] ?]. simpl. eauto. }
  revert Hrun. case_match.
  - intros [= <-]. split; [done|]. by rewrite He2.
  - match goal with
    | |- context [fillSuperTypes_parents ?r ?d ?ps ?i ?rp] =>
        destruct (fillSuperTypes_parents r d ps i rp) as [[I1 R1]|] eqn:Hl;
          [|done]
    end.
    intros [= <- _].
    apply Hloop in Hl as [? ->]; [|done]. split; [done|]. by rewrite He2.
Qed.

(** The theorem on the instantiation [S<0>] of the recursive template. *)
Lemma fillSuperTypes_builds_consistent_tree_witness :
  ∃ fuel Item',
    (∀ fuel', (fuel ≤ fuel')%nat →
       fillSuperTypes fuel' Fixture.support Fixture_Hierarchy.file
         Fixture.main_path 0%nat Fixture_Hierarchy.root ∅
       = Some (Item', ∅))
    ∧ item_consistent Item'
    ∧ is_Some (item_parents Item')
    ∧ item_name Item' = "S<0>".
Proof.
  apply (fillSuperTypes_builds_consistent_tree Fixture.support
           Fixture_Hierarchy.file Fixture.main_path
           Fixture_Hierarchy.patterns Fixture_Hierarchy.rank
           0%nat Fixture_Hierarchy.root).
  - intros D HD. simpl in HD. apply bool_decide_eq_true in HD. subst D.
    unfold Fixture_Hierarchy.patterns. set_solver.
  - intros [|[|D]] P HD HP HPd; simpl in *.
    + apply list_elem_of_singleton in HP. subst P. done.
    + done.
    + by apply elem_of_nil in HP.
  - reflexivity.
Defined.

(** ** The declarations at a position *)

(** The node whose targets are read: the parent of an attribute node that
    has one, the node itself otherwise. *)
Definition targets_node (N : SelectionNode) : SelectionNode :=
  match node_isAttr N, node_Parent N with
  | true, Some P => P
  | _, _ => N
  end.

(** The targets of a tree that the relations asked for allow. *)
Definition permitted_targets (Relations : DeclRelationSet) (N : SelectionNode)
  : list (Decl * DeclRelationSet) :=
  filter (λ Entry, Z.land Entry.2 (Z.lnot Relations) = 0)
    (allTargetDecls (targets_node N)).

Lemma ResultFromTree_first Relations Trees NodeKind :
  (∃ pre N post,
     Trees = pre ++ Some N :: post
     ∧ (∀ M, Some M ∈ pre → permitted_targets Relations M = [])
     ∧ permitted_targets Relations N ≠ []
     ∧ ResultFromTree Relations Trees NodeKind
       = (permitted_targets Relations N, node_kind N))
  ∨ ((ResultFromTree Relations Trees NodeKind).1 = []
     ∧ ∀ M, Some M ∈ Trees → permitted_targets Relations M = []).
Proof.
  revert NodeKind. induction Trees as [|[N|] Trees IH]; intros NodeKind.
  - right. split; [done|]. intros M HM. by apply elem_of_nil in HM.
  - simpl. fold (targets_node N). fold (permitted_targets Relations N).
    destruct (permitted_targets Relations N) as [|E Es] eqn:HN.
    + destruct (IH (node_kind N))
        as [(pre & N' & post & -> & Hpre & Hne & Heq)|[Hnil Hall]].
      * left. exists (Some N :: pre), N', post.
        split; [done|]. split; [|done].
        intros M [[= ->]|HM]%elem_of_cons; [done|by apply Hpre].
      * right. split; [done|].
        intros M [[= ->]|HM]%elem_of_cons; [done|by apply Hall].
    + left. exists [], N, Trees. rewrite HN. split; [done|].
      split; [|done]. intros M HM. by apply elem_of_nil in HM.
  - simpl.
    destruct (IH NodeKind)
      as [(pre & N' & post & -> & Hpre & Hne & Heq)|[Hnil Hall]].
    + left. exists (None :: pre), N', post.
      split; [done|]. split; [|done].
      intros M [[=]|HM]%elem_of_cons. by apply Hpre.
    + right. split; [done|].
      intros M [[=]|HM]%elem_of_cons. by apply Hall.
Qed.

(** X6. The declarations at a position come from one selection tree: the
    first of the trees built at the point that has a target the relations
    asked for allow; they are all of its allowed targets, in their order,
    and the node kind reported is that of the selected node, also when it
    is an attribute and the targets are read from its parent. No
    declaration reached through a relation outside [Relations] is ever
    returned, and the answer is empty exactly when no tree has an allowed
    target. *)
Theorem getDeclAtPosition_first_tree_with_targets
    (AST : ParsedAST) (Pos : SourceLocation) (Relations : DeclRelationSet)
    (NodeKind : ASTNodeKind) :
  let Trees := createEach AST (getDecomposedSpellingLoc AST Pos) in
  let Found := getDeclAtPositionWithRelations AST Pos Relations NodeKind in
  Forall (λ Entry, Z.land Entry.2 (Z.lnot Relations) = 0) Found.1
  ∧ getDeclAtPosition AST Pos Relations
    = (getDeclAtPositionWithRelations AST Pos Relations NK_None).1.*1
  ∧ ((∃ pre N post,
        Trees = pre ++ Some N :: post
        ∧ (∀ M, Some M ∈ pre → permitted_targets Relations M = [])
        ∧ permitted_targets Relations N ≠ []
        ∧ Found = (permitted_targets Relations N, node_kind N))
     ∨ (Found.1 = []
        ∧ ∀ M, Some M ∈ Trees → permitted_targets Relations M = [])).
Proof.
  intros Trees Found. subst Found. unfold getDeclAtPositionWithRelations.
  fold Trees.
  pose proof (ResultFromTree_first Relations Trees NodeKind) as H.
  split; [|split; [done|exact H]].
  destruct H as [(pre & N & post & _ & _ & _ & ->)|[-> _]]; [|done].
  simpl. unfold permitted_targets. apply Forall_forall.
  intros E HE. by apply list_elem_of_filter in HE as [? _].
Qed.

(** ** The references of the main file come from the targets *)

Section References_provenance.
Import ReferenceFinder.
Context (AST : ParsedAST) (Targets : list Decl) (PerToken : bool).

#[local] Abbreviation Ctx := (getASTContext AST).
#[local] Abbreviation SM := (getSourceManager AST).
#[local] Abbreviation TB := (getTokens AST).

(** The locations an occurrence is recorded at: its own, or - per token -
    the selector locations of a message expression or method declaration
    whose first one is the location of the occurrence. *)
Definition recorded_at (O : DeclOccurrence) (L : SourceLocation) : Prop :=
  L = occ_Loc O
  ∨ (PerToken = true
     ∧ ∃ SelLocs,
         (OrigE_selectorLocs O = Some SelLocs
          ∨ (OrigE_selectorLocs O = None
             ∧ OrigD_selectorLocs O = Some SelLocs))
         ∧ head SelLocs = Some (occ_Loc O)
         ∧ L ∈ SelLocs).

(** A reference the collector holds of an occurrence of a target. *)
Definition reference_of_target (r : Reference) : Prop :=
  ∃ O L,
    O ∈ indexTopLevelDecls AST
    ∧ getCanonicalDecl Ctx (occ_D O) ∈ getCanonicalDecl Ctx <$> Targets
    ∧ isInsideMainFile SM (occ_Loc O) = true
    ∧ recorded_at O L
    ∧ spelledTokenContaining TB (getFileLoc SM L) = Some (SpelledTok r)
    ∧ Role r = occ_Roles O
    ∧ Container r = RefContainer O.

Lemma handleDeclOccurrence_sound References O :
  O ∈ indexTopLevelDecls AST →
  Forall reference_of_target References →
  Forall reference_of_target
    (handleDeclOccurrence AST (TargetDecls AST Targets) PerToken References O).
Proof.
  intros HO HR. unfold handleDeclOccurrence.
  case_bool_decide as HT; simpl; [|done].
  destruct (isInsideMainFile SM (occ_Loc O)) eqn:HM; simpl; [|done].
  apply elem_of_list_to_set in HT.
  match goal with
  | |- Forall _ (foldl _ _ ?Locs) =>
      assert (∀ L, L ∈ Locs → recorded_at O L) as HLocs
  end.
  { intros L. unfold recorded_at.
    destruct PerToken; [|intros ->%list_elem_of_singleton; by left].
    destruct (OrigE_selectorLocs O) as [SelLocs|] eqn:HE;
      [|destruct (OrigD_selectorLocs O) as [SelLocs|] eqn:HD];
      try (intros ->%list_elem_of_singleton; by left);
      (destruct SelLocs as [|Front Rest];
         [intros ->%list_elem_of_singleton; by left|]);
      (destruct (Front =? occ_Loc O) eqn:HF;
         [|intros ->%list_elem_of_singleton; by left]);
      apply Z.eqb_eq in HF; subst Front; intros HL; right;
      (split; [done|]); exists (occ_Loc O :: Rest); eauto. }
  match goal with
  | |- Forall _ (foldl _ _ ?Locs) => generalize dependent Locs
  end.
  intros Locs HLocs. revert References HR.
  induction Locs as [|L Locs IH]; intros References HR; simpl; [done|].
  apply IH; [intros; apply HLocs; by right|].
  destruct (spelledTokenContaining TB (getFileLoc SM L)) as [Tok|] eqn:HTok;
    [|done].
  apply Forall_app. split; [done|]. constructor; [|done].
  exists O, L. repeat split; try done. apply HLocs. left.
Qed.

Lemma handleDeclOccurrence_extends Tgts References O :
  ∃ More, handleDeclOccurrence AST Tgts PerToken References O
          = References ++ More.
Proof.
  unfold handleDeclOccurrence.
  destruct (negb _); [by exists []; rewrite app_nil_r|].
  destruct (negb _); [by exists []; rewrite app_nil_r|].
  match goal with
  | |- ∃ _, foldl _ _ ?Locs = _ => generalize Locs
  end.
  intros Locs. revert References.
  induction Locs as [|L Locs IH]; intros References; simpl.
  - exists []. by rewrite app_nil_r.
  - destruct (spelledTokenContaining TB (getFileLoc SM L)) as [Tok|].
    + destruct (IH (References ++ [mkReference Tok (occ_Roles O)
                                     (RefContainer O)])) as [More ->].
      eexists. by rewrite <- app_assoc.
    + apply IH.
Qed.

Lemma collect_extends Tgts Os References :
  ∃ More, foldl (handleDeclOccurrence AST Tgts PerToken) References Os
          = References ++ More.
Proof.
  revert References. induction Os as [|O Os IH]; intros References; simpl.
  - exists []. by rewrite app_nil_r.
  - destruct (handleDeclOccurrence_extends Tgts References O) as [M1 ->].
    destruct (IH (References ++ M1)) as [M2 ->].
    eexists. by rewrite <- app_assoc.
Qed.

End References_provenance.

(** X7. Every reference [findRefs] returns is an occurrence of a target:
    the indexing action reported it for a declaration whose canonical
    declaration is that of a target, at a location inside the main file,
    and the reference holds the spelled token at that location (per
    token, at a selector location of the occurrence), the roles and the
    container of the occurrence. Conversely, without the per-token split,
    every such occurrence that has a spelled token is reported, at that
    token's location and with its roles. *)
Theorem findRefs_reports_occurrences_of_targets
    (Targets : list Decl) (AST : ParsedAST) (PerToken : bool) :
  Forall (reference_of_target AST Targets PerToken)
    (findRefs Targets AST PerToken)
  ∧ (∀ O Tok,
       PerToken = false →
       O ∈ indexTopLevelDecls AST →
       getCanonicalDecl (getASTContext AST) (occ_D O)
         ∈ getCanonicalDecl (getASTContext AST) <$> Targets →
       isInsideMainFile (getSourceManager AST) (occ_Loc O) = true →
       spelledTokenContaining (getTokens AST)
         (getFileLoc (getSourceManager AST) (occ_Loc O)) = Some Tok →
       ∃ r, r ∈ findRefs Targets AST PerToken
            ∧ tok_location (ReferenceFinder.SpelledTok r) = tok_location Tok
            ∧ ReferenceFinder.Role r = occ_Roles O).
Proof.
  split.
  - unfold findRefs. apply Forall_forall. intros r Hr.
    apply take_elem in Hr. revert r Hr. apply Forall_forall.
    apply (foldl_invariant (Forall (reference_of_target AST Targets PerToken)));
      [done|].
    intros acc O HO Hacc. by apply handleDeclOccurrence_sound.
  - intros O Tok -> HO HT HM HTok. unfold findRefs.
    set (Tgts := ReferenceFinder.TargetDecls AST Targets).
    assert (ReferenceFinder.mkReference Tok (occ_Roles O) (RefContainer O)
            ∈ foldl (ReferenceFinder.handleDeclOccurrence AST Tgts false) []
                (indexTopLevelDecls AST)) as Hin.
    { apply list_elem_of_split in HO as (pre & post & ->).
      rewrite foldl_app. simpl.
      set (acc := foldl _ [] pre).
      destruct (collect_extends AST false Tgts post
                  (ReferenceFinder.handleDeclOccurrence AST Tgts false acc O))
        as [More ->].
      apply elem_of_app. left.
      unfold ReferenceFinder.handleDeclOccurrence.
      rewrite bool_decide_eq_true_2
        by (subst Tgts; by apply elem_of_list_to_set).
      rewrite HM. simpl. rewrite HTok. apply elem_of_app. right. left. }
    apply take_covers in Hin as (r' & Hr' & Htie).
    exists r'. split; [done|]. unfold ReferenceFinder.tie in Htie.
    simpl in Htie. by injection Htie as -> ->.
Qed.

(** ** What the textual fallback answers *)

#[local] Instance score_not_after_total : Total score_not_after.
Proof. intros A B. unfold score_not_after. lia. Qed.

#[local] Instance score_not_after_trans : Transitive score_not_after.
Proof. intros A B C. unfold score_not_after. lia. Qed.

(** A scored result of the textual fallback: made of an answer of the
    fuzzy query that is named exactly as the word and is no constructor,
    scored by the library; located at the definition of the symbol when
    the index knows one, and at its declaration otherwise. *)
Definition textual_match (S : Support) (Word : SpelledWord)
    (MainFilePath : string) (Answers : list Symbol)
    (X : ScoredLocatedSymbol) : Prop :=
  ∃ Sym,
    Sym ∈ Answers
    ∧ sym_Name Sym = word_Text Word
    ∧ sym_Kind Sym ≠ SK_Constructor
    ∧ X.1 = evaluateSymbolAndRelevance S Sym
    ∧ ID X.2 = sym_ID Sym
    ∧ Name X.2 = sym_Name Sym +:+ sym_TemplateSpecializationArgs Sym
    ∧ is_Some (indexToLSPLocation S (sym_CanonicalDeclaration Sym) MainFilePath)
    ∧ if SymbolLocation_bool (sym_Definition Sym)
      then indexToLSPLocation S (sym_Definition Sym) MainFilePath
           = Some (PreferredDeclaration X.2)
           ∧ Definition_ X.2 = Some (PreferredDeclaration X.2)
      else indexToLSPLocation S (sym_CanonicalDeclaration Sym) MainFilePath
           = Some (PreferredDeclaration X.2)
           ∧ Definition_ X.2 = None.

Lemma textual_candidates_match S Word MainFilePath Answers :
  Forall (textual_match S Word MainFilePath Answers)
    (textual_candidates S Word MainFilePath Answers).
Proof.
  unfold textual_candidates. apply Forall_forall. intros X HX.
  apply list_elem_of_omap in HX as (Sym & HSym & HX).
  destruct (locateSymbolTextually_located S Word MainFilePath Sym)
    as [Located|] eqn:HL; [|done].
  simpl in HX. injection HX as <-.
  exists Sym. split; [done|]. revert HL. unfold locateSymbolTextually_located.
  case_bool_decide as HN; simpl; [|done].
  case_bool_decide as HK; [done|].
  destruct (indexToLSPLocation S (sym_CanonicalDeclaration Sym) MainFilePath)
    as [DeclLoc|] eqn:HDecl; [|done].
  destruct (SymbolLocation_bool (sym_Definition Sym)).
  - destruct (indexToLSPLocation S (sym_Definition Sym) MainFilePath)
      as [DefLoc|] eqn:HDef; [|done].
    intros [= <-]. simpl. repeat split; eauto.
  - intros [= <-]. simpl. repeat split; eauto.
Qed.

(** X8. The textual fallback answers with at most five symbols, each made
    of an answer of the fuzzy query (for the word's text, in any scope,
    with the limit 10) that is named exactly as the word and is no
    constructor, located at the symbol's definition when the index knows
    one (then the preferred declaration is that definition) and at its
    declaration otherwise; they are in the order of their scores, highest
    first. It answers nothing without an index, for a word that is not a
    likely identifier, for a word that is a token of the preprocessed
    file (unless the name is dependent), and inside a string literal. *)
Theorem locateSymbolTextually_answers_exact_name_matches
    (S : Support) (Word : SpelledWord) (AST : ParsedAST)
    (Index : option SymbolIndex) (MainFilePath : string)
    (NodeKind : ASTNodeKind) :
  let Req :=
    mkFuzzyFindRequest (word_Text Word)
      (visibleNamespaces AST
         (sourcePrefix (word_Location Word) (getSourceManager AST)))
      true 10 [MainFilePath] in
  ∃ Scored : list ScoredLocatedSymbol,
    locateSymbolTextually S Word AST Index MainFilePath NodeKind = Scored.*2
    ∧ (length Scored ≤ 5)%nat
    ∧ StronglySorted (λ A B, B.1 ≤ A.1) Scored
    ∧ Forall (λ X, ∃ Index', Index = Some Index'
                   ∧ textual_match S Word MainFilePath (fuzzyFind Index' Req) X)
        Scored
    ∧ (Index = None
       ∨ LikelyIdentifier Word = false
       ∨ (is_Some (ExpandedToken Word) ∧ isDependentName NodeKind = false)
       ∨ (∃ Tok, PartOfSpelledToken Word = Some Tok
                 ∧ isStringLiteral (tok_kind Tok) = true)
       → Scored = []).
Proof.
  intros Req.
  assert (∃ Scored : list ScoredLocatedSymbol,
            [] = Scored.*2 ∧ (length Scored ≤ 5)%nat
            ∧ StronglySorted (λ A B, B.1 ≤ A.1) Scored
            ∧ Forall (λ X, ∃ Index', Index = Some Index'
                           ∧ textual_match S Word MainFilePath
                               (fuzzyFind Index' Req) X) Scored
            ∧ Scored = []) as Hnone.
  { exists []. split; [done|]. split; [simpl; lia|]. split; [constructor|].
    by split. }
  unfold locateSymbolTextually.
  destruct Index as [Index'|];
    [|destruct Hnone as (Sc & ? & ? & ? & ? & ?); exists Sc; eauto 10].
  destruct (bool_decide (is_Some (ExpandedToken Word))
            && negb (isDependentName NodeKind) || negb (LikelyIdentifier Word))
    eqn:Hgate;
    [destruct Hnone as (Sc & ? & ? & ? & ? & ?); exists Sc; eauto 10|].
  destruct (match PartOfSpelledToken Word with
            | Some Tok => isStringLiteral (tok_kind Tok)
            | None => false
            end) eqn:Hstr;
    [destruct Hnone as (Sc & ? & ? & ? & ? & ?); exists Sc; eauto 10|].
  fold Req. rewrite textual_fold by (simpl; lia). simpl.
  set (Candidates := textual_candidates S Word MainFilePath
                       (fuzzyFind Index' Req)).
  assert (Some Index' = None
          ∨ LikelyIdentifier Word = false
          ∨ (is_Some (ExpandedToken Word) ∧ isDependentName NodeKind = false)
          ∨ (∃ Tok, PartOfSpelledToken Word = Some Tok
                    ∧ isStringLiteral (tok_kind Tok) = true)
          → False) as Hno.
  { apply orb_false_iff in Hgate as [Hg1 Hg2].
    apply negb_false_iff in Hg2.
    intros [HI|[HL|[[HE HD]|(Tok & HT & HS)]]].
    - done.
    - congruence.
    - rewrite bool_decide_eq_true_2, HD in Hg1 by done. done.
    - rewrite HT in Hstr. congruence. }
  destruct (decide (5 < length Candidates)%nat) as [Hlen|Hlen].
  - rewrite bool_decide_eq_true_2 by done.
    exists []. split; [done|]. split; [simpl; lia|]. split; [constructor|].
    split; [done|]. intros H. by destruct (Hno H).
  - rewrite bool_decide_eq_false_2 by done. rewrite take_ge by lia.
    exists (merge_sort score_not_after Candidates).
    split; [done|]. split; [|split; [|split]].
    + rewrite merge_sort_Permutation. lia.
    + apply (StronglySorted_merge_sort score_not_after); apply _.
    + rewrite merge_sort_Permutation.
      eapply Forall_impl; [apply textual_candidates_match|].
      intros X HX. by exists Index'.
    + intros H. by destruct (Hno H).
Qed.

(** ** What the nearby-identifier search answers *)

(** The cost of a token for a word, without the wrap-around of the
    unsigned arithmetic: the distance in lines, doubled when the token is
    on an earlier line. *)
Definition line_cost (SM : SourceManager) (Word : SpelledWord) (T : Token)
  : Z :=
  let WordLine := getSpellingLineNumber SM (word_Location Word) in
  let Line := getSpellingLineNumber SM (tok_location T) in
  if WordLine <=? Line then Line - WordLine else 2 * (WordLine - Line).

(** X9. The nearby-identifier search answers nothing for a word that is a
    token of the preprocessed file or lies in a string literal. Otherwise
    - on a buffer shorter than 2^30 characters, with the spelled tokens in
    the order of their locations and the word inside the window the code
    computes - it answers with a spelled identifier token of the window
    that has the text of the word, is not the word itself and is part of
    the preprocessed file or starts a macro expansion; among these it is
    one of lowest cost (the distance in lines, doubled backwards), a token
    before the word only when it is strictly cheaper than every such token
    after the word; and it answers nothing only when the window holds no
    such token. *)
Theorem findNearbyIdentifier_returns_cheapest_candidate
    (SM : SourceManager) (TB : TokenBuffer) (Word : SpelledWord) :
  Z.of_nat (String.length (bufferData SM)) < 2 ^ 30 →
  StronglySorted (λ A B, tok_location A < tok_location B) (spelledTokens TB) →
  (search_window SM Word).1 ≤ word_Location Word ≤ (search_window SM Word).2 →
  (is_Some (ExpandedToken Word) → findNearbyIdentifier SM Word TB = None)
  ∧ (∀ Part, PartOfSpelledToken Word = Some Part →
             isStringLiteral (tok_kind Part) = true →
             findNearbyIdentifier SM Word TB = None)
  ∧ (ExpandedToken Word = None →
     (∀ Part, PartOfSpelledToken Word = Some Part →
              isStringLiteral (tok_kind Part) = false) →
     match findNearbyIdentifier SM Word TB with
     | Some Tok =>
         Tok ∈ spelledTokens TB ∧ nearby_candidate SM TB Word Tok
         ∧ (∀ U, U ∈ spelledTokens TB → nearby_candidate SM TB Word U →
                 line_cost SM Word Tok ≤ line_cost SM Word U)
         ∧ (tok_location Tok < word_Location Word →
            ∀ U, U ∈ spelledTokens TB → nearby_candidate SM TB Word U →
                 word_Location Word ≤ tok_location U →
                 line_cost SM Word Tok < line_cost SM Word U)
     | None => ∀ U, U ∈ spelledTokens TB → ¬ nearby_candidate SM TB Word U
     end).
Proof.
  intros Hsmall Hsorted Hwin. split; [|split].
  - intros HE. unfold findNearbyIdentifier.
    by rewrite bool_decide_eq_true_2.
  - intros Part HP HS. unfold findNearbyIdentifier. rewrite HP, HS.
    by destruct (bool_decide _).
  - intros HE HP.
    pose proof (findNearbyIdentifier_cheapest SM TB Word Hsmall Hsorted Hwin
                  HE HP) as H.
    assert (∀ T, Cost SM (getSpellingLineNumber SM (word_Location Word))
                   (tok_location T) = line_cost SM Word T) as HC.
    { intros T. unfold line_cost. by rewrite (Cost_value SM Word Hsmall). }
    destruct (findNearbyIdentifier SM Word TB) as [Tok|]; [|exact H].
    cbv zeta in H. destruct H as (H1 & H2 & H3 & H4).
    split; [done|]. split; [done|]. split.
    + intros U HU HUc. rewrite <- !HC. by apply H3.
    + intros HT U HU HUc HUw. rewrite <- !HC. by apply H4.
Qed.

(** The theorem on the two-letter name of the fixture: the search finds
    the declaration one line back. *)
Lemma findNearbyIdentifier_returns_cheapest_candidate_witness :
  let SM := Fixture.source_manager Fixture_Nearby.two_letters in
  let TB := Fixture.token_buffer Fixture_Nearby.two_letters_tokens [] None in
  let Tok := mkToken 4 2 tok_identifier in
  findNearbyIdentifier SM Fixture_Nearby.word_hi TB = Some Tok
  ∧ nearby_candidate SM TB Fixture_Nearby.word_hi Tok
  ∧ line_cost SM Fixture_Nearby.word_hi Tok = 2.
Proof.
  intros SM TB Tok.
  destruct (findNearbyIdentifier_returns_cheapest_candidate SM TB
              Fixture_Nearby.word_hi) as (_ & _ & H).
  - vm_compute. reflexivity.
  - repeat constructor; simpl; lia.
  - vm_compute. split; discriminate.
  - assert (findNearbyIdentifier SM Fixture_Nearby.word_hi TB = Some Tok)
      as HF by (vm_compute; reflexivity).
    rewrite HF in H.
    destruct H as (_ & Hc & _); [reflexivity|intros ? [=]|].
    split; [reflexivity|]. split; [exact Hc|]. vm_compute. reflexivity.
Defined.

(** ** The call hierarchy from the index *)

(** The order of [std::string] is total and transitive. *)
Lemma Ascii_compare_N (a b : Ascii.ascii) :
  Ascii.compare a b = N.compare (Ascii.N_of_ascii a) (Ascii.N_of_ascii b).
Proof. reflexivity. Qed.

Lemma String_compare_trans (a b c : string) :
  String.compare a b ≠ Gt → String.compare b c ≠ Gt → String.compare a c ≠ Gt.
Proof.
  revert b c. induction a as [|x a IH]; intros [|y b] [|z c]; simpl; try done.
  rewrite !Ascii_compare_N.
  destruct (N.compare_spec (Ascii.N_of_ascii x) (Ascii.N_of_ascii y)) as [E|E|E];
    destruct (N.compare_spec (Ascii.N_of_ascii y) (Ascii.N_of_ascii z))
      as [F|F|F];
    destruct (N.compare_spec (Ascii.N_of_ascii x) (Ascii.N_of_ascii z))
      as [G|G|G]; try done; try lia.
  apply IH.
Qed.

Lemma name_not_after_spec (A B : string) :
  name_not_after A B ↔ String.compare A B ≠ Gt.
Proof.
  unfold name_not_after, String.ltb. rewrite (String.compare_antisym A B).
  destruct (String.compare B A); simpl; split; done.
Qed.

#[local] Instance name_not_after_total : Total name_not_after.
Proof.
  intros A B. rewrite !name_not_after_spec.
  rewrite (String.compare_antisym A B).
  destruct (String.compare B A); simpl; auto.
Qed.

#[local] Instance name_not_after_trans : Transitive name_not_after.
Proof.
  intros A B C. rewrite !name_not_after_spec. apply String_compare_trans.
Qed.

Section Calls.
Context (L : Library) (TUPath : string).
Context {A : Type} (key : A → SymbolID) (loc : A → SymbolLocation).

(** The converted locations of the answers filed under an id, in the
    order of the answers. *)
Definition filed_under (Answers : list A) (c : SymbolID) : list Location :=
  omap (λ R, if bool_decide (key R = c)
             then indexToLSPLocation L (loc R) TUPath else None) Answers.

Lemma calls_collect_spec (Answers : list A) :
  let st :=
    foldl (λ st R, calls_collect L TUPath st (key R) (loc R)) (∅, ∅) Answers in
  ∀ c,
    st.1 !! c = (match filed_under Answers c with
                 | [] => None
                 | Locs => Some Locs
                 end)
    ∧ (c ∈ st.2 ↔ filed_under Answers c ≠ []).
Proof.
  induction Answers as [|R Answers IH] using rev_ind; intros st c; subst st.
  - simpl. split; [apply lookup_empty|]. split; [|done].
    intros H. by apply elem_of_empty in H.
  - rewrite foldl_app. simpl. unfold filed_under. rewrite omap_app. simpl.
    fold (filed_under Answers c).
    specialize (IH c). cbv zeta in IH. destruct IH as [IH1 IH2].
    set (st := foldl _ (∅, ∅) Answers) in *.
    unfold calls_collect.
    destruct (indexToLSPLocation L (loc R) TUPath) as [Loc|] eqn:HLoc.
    + simpl. case_bool_decide as HK.
      * subst c. rewrite lookup_insert_eq, IH1. simpl. split.
        -- by destruct (filed_under Answers (key R)).
        -- split; [|set_solver]. intros _. by destruct (filed_under _ _).
      * rewrite lookup_insert_ne by done. simpl. rewrite app_nil_r.
        split; [done|]. rewrite <- IH2. set_solver.
    + simpl. destruct (bool_decide (key R = c)); simpl; rewrite app_nil_r;
        by split.
Qed.

(** Something is filed under an id exactly when an answer of that id has
    a location that converts. *)
Lemma filed_under_nonempty (Answers : list A) (c : SymbolID) :
  filed_under Answers c ≠ []
  ↔ ∃ R, R ∈ Answers ∧ key R = c
         ∧ is_Some (indexToLSPLocation L (loc R) TUPath).
Proof.
  unfold filed_under. split.
  - intros Hne.
    destruct (omap _ Answers) as [|Loc Locs] eqn:E; [done|].
    assert (Loc ∈ omap (λ R, if bool_decide (key R = c)
                             then indexToLSPLocation L (loc R) TUPath
                             else None) Answers) as Hin
      by (rewrite E; left).
    apply list_elem_of_omap in Hin as (R & HR & HLoc).
    exists R. split; [done|]. case_bool_decide; [|done]. by eauto.
  - intros (R & HR & HK & [Loc HLoc]) Hnil.
    assert (Loc ∈ omap (λ R, if bool_decide (key R = c)
                             then indexToLSPLocation L (loc R) TUPath
                             else None) Answers) as Hin.
    { apply list_elem_of_omap. exists R. split; [done|].
      by rewrite bool_decide_eq_true_2. }
    rewrite Hnil in Hin. by apply elem_of_nil in Hin.
Qed.

End Calls.

(** A fold over the answers of a lookup that may fail keeps a property of
    the results and does not fail, when no step fails on results that
    have the property. *)
Lemma foldl_option_invariant {C B} (P : C → Prop)
    (cb : option (list C) → B → option (list C)) (Answers : list B) :
  (∀ Results b, b ∈ Answers → Forall P Results →
     ∃ Results', cb (Some Results) b = Some Results' ∧ Forall P Results') →
  ∀ Results, Forall P Results →
    ∃ Results', foldl cb (Some Results) Answers = Some Results'
                ∧ Forall P Results'.
Proof.
  induction Answers as [|b Answers IH]; intros Hstep Results HR; simpl.
  - by exists Results.
  - destruct (Hstep Results b ltac:(left) HR) as (R1 & -> & HR1).
    apply IH; [|done]. intros ? ? ?. apply Hstep. by right.
Qed.

(** A fold over the answers of a lookup that appends what a partial
    function makes of each answer, where no step fails. *)
Lemma foldl_option_omap {C B} (g : B → option C)
    (cb : option (list C) → B → option (list C)) (Answers : list B) :
  (∀ Results b, b ∈ Answers →
     cb (Some Results) b
     = Some (match g b with Some c => Results ++ [c] | None => Results end)) →
  ∀ Results, foldl cb (Some Results) Answers = Some (Results ++ omap g Answers).
Proof.
  induction Answers as [|b Answers IH]; intros Hstep Results; csimpl.
  { by rewrite app_nil_r. }
  rewrite Hstep by left.
  rewrite IH by (intros ? ? ?; apply Hstep; by right).
  destruct (g b); [|done]. by rewrite <- app_assoc.
Qed.

(** Once a step has failed, the fold has failed. *)
Lemma foldl_option_failed {C B}
    (cb : option (list C) → B → option (list C)) (Answers : list B) :
  (∀ b, cb None b = None) → foldl cb None Answers = None.
Proof.
  intros Hcb. induction Answers as [|b Answers IH]; simpl; [done|].
  by rewrite Hcb.
Qed.

(** An incoming call of the answer: the item of a caller the lookup
    answered with, and the ranges of the references filed under the
    caller that lie in the file of the caller's item. *)
Definition incoming_call_of (L : Library) (Item : CallHierarchyItem)
    (Index : RefsIndex) (ID : SymbolID) (Call : CallHierarchyIncomingCall)
  : Prop :=
  let TUPath := URIForFile_file L (chi_uri Item) in
  let Refs := (refs Index (mkRefsRequest {[ID]} RefKind_Reference None true)).1 in
  ∃ Caller,
    symbolToCallHierarchyItem L Caller TUPath = Some (call_from Call)
    ∧ filed_under L TUPath ref_Container ref_Location Refs (sym_ID Caller) ≠ []
    ∧ in_fromRanges Call
      = range <$> filter (λ Loc, uri Loc = chi_uri (call_from Call))
                    (filed_under L TUPath ref_Container ref_Location Refs
                       (sym_ID Caller)).

(** The incoming call [incomingCalls] makes of a caller: its item, when
    it has a location, with the ranges of the references filed under it
    that lie in the file of that item. *)
Definition incoming_call (L : Library) (Item : CallHierarchyItem)
    (Index : RefsIndex) (ID : SymbolID) (Caller : Symbol)
  : option CallHierarchyIncomingCall :=
  let TUPath := URIForFile_file L (chi_uri Item) in
  let Refs := (refs Index (mkRefsRequest {[ID]} RefKind_Reference None true)).1 in
  (λ CHI,
     mkCallHierarchyIncomingCall CHI
       (range <$> filter (λ Loc, uri Loc = chi_uri CHI)
                    (filed_under L TUPath ref_Container ref_Location Refs
                       (sym_ID Caller))))
  <$> symbolToCallHierarchyItem L Caller TUPath.

(** X10. [incomingCalls] answers from the index alone. Without an index,
    for an item without data or with data that is no symbol id, the
    answer is empty. Otherwise - on an index that answers a lookup with
    symbols of the ids asked for - it asks for the references to the
    item's id with their containers, looks up the containers under which
    a reference with a location that converts is filed, and answers one
    call for each answer of that lookup that has a location, and no
    other: the calls are those, put in the order of the callers' names.
    The call of a caller lists the ranges of the references filed under
    it, in the order the index gave them, leaving out those whose file is
    not the file of the caller's item. *)
Theorem incomingCalls_groups_references_by_caller
    (L : Library) (Item : CallHierarchyItem) (Index : RefsIndex) :
  (∀ IDs Sym, Sym ∈ lookup Index IDs → sym_ID Sym ∈ IDs) →
  incomingCalls L Item None = Some []
  ∧ ∃ Results,
      incomingCalls L Item (Some Index) = Some Results
      ∧ StronglySorted
          (λ A B, name_not_after (chi_name (call_from A))
                    (chi_name (call_from B))) Results
      ∧ (chi_data Item = "" ∨ SymbolID_fromStr L (chi_data Item) = None →
         Results = [])
      ∧ Forall (λ Call, ∃ ID, chi_data Item ≠ ""
                          ∧ SymbolID_fromStr L (chi_data Item) = Some ID
                          ∧ incoming_call_of L Item Index ID Call) Results
      ∧ (∀ ID, chi_data Item ≠ "" →
           SymbolID_fromStr L (chi_data Item) = Some ID →
           let TUPath := URIForFile_file L (chi_uri Item) in
           let Refs :=
             (refs Index (mkRefsRequest {[ID]} RefKind_Reference None true)).1 in
           ∃ Containers : gset SymbolID,
             (∀ c, c ∈ Containers
                   ↔ ∃ R, R ∈ Refs ∧ ref_Container R = c
                          ∧ is_Some (indexToLSPLocation L (ref_Location R)
                                       TUPath))
             ∧ Results
               ≡ₚ omap (λ Caller,
                          (λ CHI,
                             mkCallHierarchyIncomingCall CHI
                               (range
                                <$> filter (λ Loc, uri Loc = chi_uri CHI)
                                      (filed_under L TUPath ref_Container
                                         ref_Location Refs (sym_ID Caller))))
                          <$> symbolToCallHierarchyItem L Caller TUPath)
                    (lookup Index Containers)
             ∧ ∀ Caller CHI,
                 Caller ∈ lookup Index Containers →
                 symbolToCallHierarchyItem L Caller TUPath = Some CHI →
                 mkCallHierarchyIncomingCall CHI
                   (range
                    <$> filter (λ Loc, uri Loc = chi_uri CHI)
                          (filed_under L TUPath ref_Container ref_Location
                             Refs (sym_ID Caller)))
                 ∈ Results).
Proof.
  intros Hlookup. split; [done|]. unfold incomingCalls.
  case_bool_decide as Hdata.
  { exists []. repeat split; try done; constructor. }
  destruct (SymbolID_fromStr L (chi_data Item)) as [ID|] eqn:HID.
  2:{ exists []. repeat split; try done; constructor. }
  set (TUPath := URIForFile_file L (chi_uri Item)).
  set (Refs := (refs Index (mkRefsRequest {[ID]} RefKind_Reference None true)).1).
  pose proof (calls_collect_spec L TUPath ref_Container ref_Location Refs)
    as Hst. cbv zeta in Hst.
  destruct (foldl _ (∅, ∅) Refs) as [CallsIn IDs]. simpl in Hst.
  assert (foldl (incomingCalls_caller L TUPath CallsIn) (Some [])
            (lookup Index IDs)
          = Some ([] ++ omap (incoming_call L Item Index ID) (lookup Index IDs)))
    as HR.
  { apply foldl_option_omap. intros Results Caller HC.
    unfold incomingCalls_caller, incoming_call. simpl. fold TUPath Refs.
    apply Hlookup in HC. destruct (Hst (sym_ID Caller)) as [H1 H2].
    apply H2 in HC. rewrite H1.
    destruct (filed_under L TUPath ref_Container ref_Location Refs
                (sym_ID Caller)) as [|Loc Locs] eqn:HLocs; [done|].
    by destruct (symbolToCallHierarchyItem L Caller TUPath). }
  rewrite HR. simpl. eexists. split; [done|]. split; [|split; [|split]].
  - set (R := λ A B : CallHierarchyIncomingCall,
                name_not_after (chi_name (call_from A))
                  (chi_name (call_from B))).
    assert (Total R) by (intros X Y; apply name_not_after_total).
    assert (Transitive R) by (intros X Y Z; apply name_not_after_trans).
    by apply (StronglySorted_merge_sort R).
  - intros [?|?]; congruence.
  - rewrite merge_sort_Permutation. apply Forall_forall.
    intros Call (Caller & HC & HCall)%list_elem_of_omap.
    exists ID. split; [done|]. split; [done|].
    unfold incoming_call in HCall. simpl in HCall. fold TUPath Refs in HCall.
    destruct (symbolToCallHierarchyItem L Caller TUPath) as [CHI|] eqn:HCHI;
      [|done].
    injection HCall as <-. exists Caller. simpl. fold TUPath Refs.
    split; [done|]. split; [|done].
    apply Hlookup in HC. by apply (Hst (sym_ID Caller)).
  - intros ID' _ [= <-]. cbv zeta. fold TUPath Refs.
    exists IDs. split; [|split].
    + intros c. destruct (Hst c) as [_ ->].
      apply filed_under_nonempty.
    + by rewrite merge_sort_Permutation.
    + intros Caller CHI HC HCHI. rewrite merge_sort_Permutation.
      apply list_elem_of_omap. exists Caller. split; [done|].
      unfold incoming_call. simpl. fold TUPath Refs. by rewrite HCHI.
Qed.

Lemma Fixture_Calls_lookup IDs Sym :
  Sym ∈ lookup Fixture_Calls.index IDs → sym_ID Sym ∈ IDs.
Proof. simpl. intros H. by apply list_elem_of_filter in H as [? _]. Qed.

(** The theorem on [callee]: [boot] comes before [run], and the call
    of [run] through the header is left out of its ranges. *)
Lemma incomingCalls_groups_references_by_caller_witness :
  ∃ Results,
    incomingCalls Fixture_Classes.library Fixture_Calls.callee_item
      (Some Fixture_Calls.index) = Some Results
    ∧ StronglySorted
        (λ A B, name_not_after (chi_name (call_from A))
                  (chi_name (call_from B))) Results
    ∧ (λ C, (chi_name (call_from C), in_fromRanges C)) <$> Results
      = [("boot", [mkRange (mkPosition 7 0) (mkPosition 7 3)]);
         ("run", [mkRange (mkPosition 5 0) (mkPosition 5 3)])].
Proof.
  destruct (incomingCalls_groups_references_by_caller Fixture_Classes.library
              Fixture_Calls.callee_item Fixture_Calls.index
              Fixture_Calls_lookup) as (_ & Results & HR & HS & _ & _).
  exists Results. split; [exact HR|]. split; [exact HS|].
  vm_compute in HR. injection HR as <-. reflexivity.
Defined.




(** The assert of the callback: when the lookup answers with a symbol
    that is not function-like, [outgoingCalls] gives no answer. *)
Lemma outgoingCalls_asserts_function_like
    (L : Library) (Item : CallHierarchyItem) (Index : RefsIndex)
    (ID : SymbolID) :
  chi_data Item ≠ "" → SymbolID_fromStr L (chi_data Item) = Some ID →
  (∃ Callee,
     Callee
     ∈ lookup Index
         (foldl (λ st R,
                   calls_collect L (URIForFile_file L (chi_uri Item)) st
                     (cref_Symbol R) (cref_Location R))
            (∅, ∅) (containedRefs Index ID)).2
     ∧ isFunctionLike (sym_Kind Callee) = false) →
  outgoingCalls L Item (Some Index) = None.
Proof.
  intros Hdata HID (Callee & HC & HK). unfold outgoingCalls.
  rewrite bool_decide_eq_false_2 by done. rewrite HID.
  destruct (foldl _ (∅, ∅) (containedRefs Index ID)) as [CallsOut IDs].
  simpl in HC.
  assert (∀ Results,
            foldl (outgoingCalls_callee L Item CallsOut) Results
              (lookup Index IDs) = None) as ->; [|done].
  induction (lookup Index IDs) as [|S0 Syms IH]; intros Results;
    [by apply elem_of_nil in HC|].
  cbn [foldl]. apply elem_of_cons in HC as [<-|HC]; [|by apply IH].
  replace (outgoingCalls_callee L Item CallsOut Results Callee) with
    (@None (list CallHierarchyOutgoingCall)).
  - by apply foldl_option_failed.
  - unfold outgoingCalls_callee. destruct Results; simpl; [|done].
    by rewrite HK.
Qed.


(** ** The methods a method overrides *)

Section Overridden.
Context (Ctx : ASTContext) (overridden : Decl → list Decl).

(** [B] is reached from [MD] through one or more steps of the override
    relation. *)
Inductive overrides : Decl → Decl → Prop :=
| overrides_direct MD B : B ∈ overridden MD → overrides MD B
| overrides_further MD M B :
    M ∈ overridden MD → overrides M B → overrides MD B.

(** The ids the walk adds from [MD]: the ids, other than the null id, of
    the methods it overrides. *)
Definition overridden_id (MD : Decl) (ID : SymbolID) : Prop :=
  ID ≠ 0 ∧ ∃ B, overrides MD B ∧ getSymbolID Ctx B = ID.

Lemma getOverriddenMethods_walk_sound fuel :
  ∀ MD OM OM',
    getOverriddenMethods_walk fuel Ctx overridden MD OM = Some OM' →
    ∀ ID, ID ∈ OM' ↔ ID ∈ OM ∨ overridden_id MD ID.
Proof.
  induction fuel as [|fuel IH]; intros MD OM OM'; simpl; [done|].
  assert (∀ Bases OM OM',
            foldl (λ OverriddenMethods Base,
                     OverriddenMethods ≫= λ OverriddenMethods,
                       getOverriddenMethods_walk fuel Ctx overridden Base
                         (if SymbolID_isNull (getSymbolID Ctx Base)
                          then OverriddenMethods
                          else {[getSymbolID Ctx Base]} ∪ OverriddenMethods))
              (Some OM) Bases = Some OM' →
            ∀ ID, ID ∈ OM' ↔
                  ID ∈ OM
                  ∨ (ID ≠ 0
                     ∧ ∃ M, M ∈ Bases
                            ∧ (getSymbolID Ctx M = ID
                               ∨ ∃ B, overrides M B ∧ getSymbolID Ctx B = ID)))
    as Hloop.
  { clear MD OM OM'.
    induction Bases as [|Base Bases IHB]; intros OM OM'; simpl.
    - intros [= <-] ID. split; [by left|].
      intros [?|(_ & M & HM & _)]; [done|by apply elem_of_nil in HM].
    - destruct (getOverriddenMethods_walk fuel Ctx overridden Base _)
        as [OM1|] eqn:H1.
      2:{ intros Hnone. exfalso. clear -Hnone.
          induction Bases as [|? ? IHn]; simpl in Hnone; [done|by apply IHn]. }
      intros Hrest ID. rewrite (IHB _ _ Hrest ID), (IH _ _ _ H1 ID).
      unfold overridden_id, SymbolID_isNull.
      destruct (getSymbolID Ctx Base =? 0) eqn:HB.
      + apply Z.eqb_eq in HB. split.
        * intros [[?|(? & B & ? & ?)]|(? & M & ? & ?)]; [by left|..].
          -- right. split; [done|]. exists Base. split; [left|]. eauto.
          -- right. split; [done|]. exists M. split; [by right|done].
        * intros [?|(Hne & M & [->|HM]%elem_of_cons & HID)]; [by left; left|..].
          -- destruct HID as [HID|HID]; [congruence|]. left. right. by split.
          -- right. split; [done|]. by exists M.
      + apply Z.eqb_neq in HB. rewrite elem_of_union, elem_of_singleton. split.
        * intros [[[->|?]|(? & B & ? & ?)]|(? & M & ? & ?)]; [|by left|..].
          -- right. split; [done|]. exists Base. split; [left|]. by left.
          -- right. split; [done|]. exists Base. split; [left|]. eauto.
          -- right. split; [done|]. exists M. split; [by right|done].
        * intros [?|(Hne & M & [->|HM]%elem_of_cons & HID)];
            [by left; left; right|..].
          -- destruct HID as [<-|HID]; [by left; left; left|].
             left. right. by split.
          -- right. split; [done|]. by exists M. }
  intros Hrun ID. rewrite (Hloop _ _ _ Hrun ID). unfold overridden_id.
  split.
  - intros [?|(Hne & M & HM & [<-|(B & HB & <-)])]; [by left|..].
    + right. split; [done|]. exists M. split; [by constructor|done].
    + right. split; [done|]. exists B. split; [|done].
      by eapply overrides_further.
  - intros [?|(Hne & B & HB & <-)]; [by left|]. right. split; [done|].
    inversion HB as [? ? HM|? M ? HM HMB]; subst.
    + exists B. split; [done|]. by left.
    + exists M. split; [done|]. right. by exists B.
Qed.

Context (rank : Decl → nat).
Hypothesis rank_spec : ∀ MD B, B ∈ overridden MD → (rank B < rank MD)%nat.

Lemma getOverriddenMethods_walk_total fuel :
  ∀ MD OM, (rank MD < fuel)%nat →
    is_Some (getOverriddenMethods_walk fuel Ctx overridden MD OM).
Proof.
  induction fuel as [|fuel IH]; intros MD OM Hfuel; [lia|]. simpl.
  assert (∀ Bases, (∀ B, B ∈ Bases → (rank B < fuel)%nat) →
            ∀ OM,
              is_Some
                (foldl (λ OverriddenMethods Base,
                          OverriddenMethods ≫= λ OverriddenMethods,
                            getOverriddenMethods_walk fuel Ctx overridden Base
                              (if SymbolID_isNull (getSymbolID Ctx Base)
                               then OverriddenMethods
                               else {[getSymbolID Ctx Base]}
                                    ∪ OverriddenMethods))
                   (Some OM) Bases)) as Hloop.
  { induction Bases as [|Base Bases IHB]; intros HB OM0; simpl; [by eauto|].
    destruct (IH Base
                (if SymbolID_isNull (getSymbolID Ctx Base) then OM0
                 else {[getSymbolID Ctx Base]} ∪ OM0)) as [OM1 H1].
    { apply HB. left. }
    rewrite H1. apply IHB. intros B ?. apply HB. by right. }
  apply Hloop. intros B HB. apply rank_spec in HB. lia.
Qed.

End Overridden.

(** X12. [getOverriddenMethods] adds to the set the ids of all the methods
    the method overrides, directly or through other methods, in the whole
    hierarchy, and nothing else; the null id is never added. The walk
    ends when the override relation is acyclic: with a rank that
    decreases along it, every depth above the method's rank suffices.
    This holds of the overload for C++ methods (over
    [overridden_methods()]) and of the one for Objective-C methods. *)
Theorem getOverriddenMethods_collects_hierarchy
    (Ctx : ASTContext) (rank : Decl → nat) (MD : Decl)
    (OverriddenMethods : gset SymbolID) :
  (∀ M B, B ∈ overridden_methods Ctx M ∨ B ∈ getOverriddenMethods Ctx M →
          (rank B < rank M)%nat) →
  (∃ Result,
     (∀ fuel, (rank MD < fuel)%nat →
        getOverriddenMethods_CXXMethod fuel Ctx MD OverriddenMethods
        = Some Result)
     ∧ ∀ ID, ID ∈ Result ↔
             ID ∈ OverriddenMethods
             ∨ overridden_id Ctx (overridden_methods Ctx) MD ID)
  ∧ (∃ Result,
       (∀ fuel, (rank MD < fuel)%nat →
          getOverriddenMethods_ObjCMethod fuel Ctx MD OverriddenMethods
          = Some Result)
       ∧ ∀ ID, ID ∈ Result ↔
               ID ∈ OverriddenMethods
               ∨ overridden_id Ctx (getOverriddenMethods Ctx) MD ID).
Proof.
  intros Hrank.
  assert (∀ overridden,
            (∀ M B, B ∈ overridden M → (rank B < rank M)%nat) →
            ∃ Result,
              (∀ fuel, (rank MD < fuel)%nat →
                 getOverriddenMethods_walk fuel Ctx overridden MD
                   OverriddenMethods = Some Result)
              ∧ ∀ ID, ID ∈ Result ↔
                      ID ∈ OverriddenMethods
                      ∨ overridden_id Ctx overridden MD ID) as Hwalk.
  { intros overridden Hr.
    destruct (getOverriddenMethods_walk_total Ctx overridden rank Hr
                (Datatypes.S (rank MD)) MD OverriddenMethods ltac:(lia))
      as [Result HResult].
    pose proof (getOverriddenMethods_walk_sound Ctx overridden _ _ _ _ HResult)
      as Hsound.
    exists Result. split; [|done]. intros fuel Hfuel.
    destruct (getOverriddenMethods_walk_total Ctx overridden rank Hr
                fuel MD OverriddenMethods Hfuel) as [Result' HResult'].
    rewrite HResult'. f_equal. apply set_eq. intros ID.
    rewrite (getOverriddenMethods_walk_sound Ctx overridden _ _ _ _ HResult').
    by rewrite Hsound. }
  split; apply Hwalk; intros M B HB; apply Hrank; eauto.
Qed.

Lemma Fixture_Methods_rank M B :
  B ∈ overridden_methods Fixture_Methods.context M
  ∨ B ∈ getOverriddenMethods Fixture_Methods.context M →
  (Fixture_Methods.rank B < Fixture_Methods.rank M)%nat.
Proof.
  intros [H|H]; simpl in H; [|by apply elem_of_nil in H].
  destruct M as [|[|M]]; [| |by apply elem_of_nil in H];
    apply list_elem_of_singleton in H; subst B;
    unfold Fixture_Methods.rank; lia.
Qed.

(** The theorem on [C::f]: the walk collects the ids of [B::f] and
    [A::f]. *)
Lemma getOverriddenMethods_collects_hierarchy_witness :
  ∃ Result,
    (∀ fuel, (2 < fuel)%nat →
       getOverriddenMethods_CXXMethod fuel Fixture_Methods.context 0%nat ∅
       = Some Result)
    ∧ (∀ ID, ID ∈ Result ↔
             ID ∈ (∅ : gset SymbolID)
             ∨ overridden_id Fixture_Methods.context
                 (overridden_methods Fixture_Methods.context) 0%nat ID)
    ∧ Result = {[2; 3]}.
Proof.
  destruct (getOverriddenMethods_collects_hierarchy Fixture_Methods.context
              Fixture_Methods.rank 0%nat ∅ Fixture_Methods_rank)
    as [(Result & Hrun & Hspec) _].
  exists Result. split; [exact Hrun|]. split; [exact Hspec|].
  specialize (Hrun 3%nat ltac:(unfold Fixture_Methods.rank; simpl; lia)).
  vm_compute in Hrun. injection Hrun as <-. vm_compute. reflexivity.
Defined.

(** ** The answer of findReferences *)

(** What a reference says, apart from the name of its container. *)
Definition reference_key (R : ResultReference) : Location * Z :=
  (rl_Location (res_Loc R), Attributes R).

Lemma alter_containerName_key Name (Idx : nat) (Refs : list ResultReference) :
  reference_key <$> alter (set_containerName Name) Idx Refs
  = reference_key <$> Refs.
Proof.
  apply list_eq. intros j. rewrite !list_lookup_fmap, list_lookup_alter.
  case_decide; [subst j|done]. by destruct (Refs !! Idx).
Qed.

Lemma alter_containerName_length Name (Idx : nat)
    (Refs : list ResultReference) :
  length (alter (set_containerName Name) Idx Refs) = length Refs.
Proof. apply length_alter. Qed.

(** The attributes [QueryIndex] gives a reference of the index. *)
Definition attributes_of_kind (AllowAttributes : bool) (Kind : RefKind) : Z :=
  if AllowAttributes then
    let Attributes :=
      if Z.land Kind RefKind_Declaration =? RefKind_Declaration
      then Z.lor 0 Attr_Declaration else 0 in
    if Z.land Kind RefKind_Definition =? RefKind_Definition
    then Z.lor Attributes (Z.lor Attr_Declaration Attr_Definition)
    else Attributes
  else 0.

(** The reference [QueryIndex] makes of an answer of the index, if any:
    none of a location that does not convert, nor - unless symbols of the
    main file are allowed - of a location in the main file. *)
Definition QueryIndex_reference (L : Library) (MainFilePath : string)
    (AllowAttributes AllowMainFileSymbols : bool) (R : Ref)
  : option ResultReference :=
  match toLSPLocation L (ref_Location R) MainFilePath with
  | None => None
  | Some LSPLoc =>
      if negb AllowMainFileSymbols
         && bool_decide (URIForFile_file L (uri LSPLoc) = MainFilePath)
      then None
      else Some (plain_reference LSPLoc
                   (attributes_of_kind AllowAttributes (ref_Kind R)))
  end.

Section QueryIndex.
Context (L : Library) (MainFilePath : string) (Limit : Z).
Context (AddContext AllowAttributes AllowMainFileSymbols : bool).

Lemma QueryIndex_ref_fold Answers :
  ∀ Refs IDs RI,
    (∀ c, c ∈ IDs → is_Some (RI !! c)) →
    ∃ IDs' RI',
      foldl (QueryIndex_ref L MainFilePath AddContext AllowAttributes
               AllowMainFileSymbols) (Refs, IDs, RI) Answers
      = (Refs ++ omap (QueryIndex_reference L MainFilePath AllowAttributes
                         AllowMainFileSymbols) Answers, IDs', RI')
      ∧ ∀ c, c ∈ IDs' → is_Some (RI' !! c).
Proof.
  induction Answers as [|R Answers IH]; intros Refs IDs RI Hinv; simpl.
  - exists IDs, RI. by rewrite app_nil_r.
  - unfold QueryIndex_reference.
    destruct (toLSPLocation L (ref_Location R) MainFilePath) as [LSPLoc|];
      [|by apply IH].
    destruct (negb AllowMainFileSymbols
              && bool_decide (URIForFile_file L (uri LSPLoc) = MainFilePath));
      [by apply IH|].
    fold (attributes_of_kind AllowAttributes (ref_Kind R)).
    destruct AddContext.
    + edestruct IH as (IDs' & RI' & -> & Hinv').
      2:{ exists IDs', RI'. split; [|done]. simpl. by rewrite <- app_assoc. }
      intros c [Hc|Hc]%elem_of_union.
      * apply elem_of_singleton in Hc as ->. rewrite lookup_insert_eq. eauto.
      * destruct (decide (ref_Container R = c)) as [<-|Hne].
        -- rewrite lookup_insert_eq. eauto.
        -- rewrite lookup_insert_ne by done. by apply Hinv.
    + edestruct IH as (IDs' & RI' & -> & Hinv'); [exact Hinv|].
      exists IDs', RI'. split; [|done]. simpl. by rewrite <- app_assoc.
Qed.

Lemma QueryIndex_container_fold RI Containers :
  (∀ Sym, Sym ∈ Containers → is_Some (RI !! sym_ID Sym)) →
  ∀ Refs,
    ∃ Refs',
      foldl (QueryIndex_container RI) (Some Refs) Containers = Some Refs'
      ∧ reference_key <$> Refs' = reference_key <$> Refs.
Proof.
  induction Containers as [|Sym Containers IH]; intros HRI Refs; simpl.
  - by exists Refs.
  - destruct (HRI Sym ltac:(left)) as [Indices HI]. rewrite HI.
    edestruct IH as (Refs' & -> & Hkey).
    { intros ? ?. apply HRI. by right. }
    exists Refs'. split; [done|]. rewrite Hkey.
    generalize (sym_Scope Sym +:+ sym_Name Sym). intros Name.
    clear. revert Refs.
    induction Indices as [|Idx Indices IHI]; intros Refs; simpl; [done|].
    by rewrite IHI, alter_containerName_key.
Qed.

(** The request [QueryIndex] makes when the answer holds [Size]
    references. *)
Definition QueryIndex_request (Size : Z) (IDs : gset SymbolID) : RefsRequest :=
  mkRefsRequest IDs RefKind_All
    (if Limit =? 0 then None
     else if Limit <? Size then Some 0
     else Some (Limit - Size))
    false.

Lemma QueryIndex_None Results IDs :
  QueryIndex L MainFilePath Limit None AddContext Results IDs
    AllowAttributes AllowMainFileSymbols = Some Results.
Proof. done. Qed.

Lemma QueryIndex_spec (Index : RefsIndex) Results IDs :
  (∀ IDs Sym, Sym ∈ lookup Index IDs → sym_ID Sym ∈ IDs) →
  ∃ Results' New,
    QueryIndex L MainFilePath Limit (Some Index) AddContext Results IDs
      AllowAttributes AllowMainFileSymbols = Some Results'
    ∧ reference_key <$> References Results'
      = reference_key <$> (References Results ++ New)
    ∧ ((New = [] ∧ HasMore Results' = HasMore Results)
       ∨ (HasMore Results = false
          ∧ New = omap (QueryIndex_reference L MainFilePath AllowAttributes
                          AllowMainFileSymbols)
                    (refs Index
                       (QueryIndex_request
                          (Z.of_nat (length (References Results))) IDs)).1
          ∧ HasMore Results'
            = (refs Index
                 (QueryIndex_request
                    (Z.of_nat (length (References Results))) IDs)).2)).
Proof.
  intros Hlookup. unfold QueryIndex.
  destruct (bool_decide (IDs = ∅) || HasMore Results) eqn:Hskip.
  { exists Results, []. rewrite app_nil_r. split; [done|]. split; [done|].
    by left. }
  fold (QueryIndex_request (Z.of_nat (length (References Results))) IDs).
  set (Req := QueryIndex_request _ IDs).
  destruct (QueryIndex_ref_fold (refs Index Req).1 (References Results) ∅ ∅)
    as (CIDs & RI & -> & Hinv).
  { intros c Hc. by apply elem_of_empty in Hc. }
  apply orb_false_iff in Hskip as [_ HM]. rewrite HM. simpl.
  destruct (negb (bool_decide (CIDs = ∅)) && AddContext).
  - destruct (QueryIndex_container_fold RI (lookup Index CIDs))
      with (Refs := References Results
                    ++ omap (QueryIndex_reference L MainFilePath
                               AllowAttributes AllowMainFileSymbols)
                         (refs Index Req).1)
      as (Refs' & -> & Hkey).
    { intros Sym HSym. apply Hinv. by apply Hlookup. }
    eexists _, _. split; [done|]. split; [exact Hkey|]. right. by split.
  - eexists _, _. split; [done|]. split; [done|]. right. by split.
Qed.

End QueryIndex.

Section Overrides.
Context (L : Library) (MainFilePath : string) (Limit : Z).

(** A reference made of an answer of the [OverriddenBy] query: at the
    declaration of the overriding method, when that is not also its
    definition, or at its definition. *)
Definition override_key (Answers : list (SymbolID * Symbol))
    (k : Location * Z) : Prop :=
  ∃ Answer,
    Answer ∈ Answers
    ∧ ((toLSPLocation L (sym_CanonicalDeclaration Answer.2) MainFilePath
        = Some k.1
        ∧ toLSPLocation L (sym_CanonicalDeclaration Answer.2) MainFilePath
          ≠ toLSPLocation L (sym_Definition Answer.2) MainFilePath
        ∧ k.2 = Z.lor Attr_Declaration Attr_Override)
       ∨ (toLSPLocation L (sym_Definition Answer.2) MainFilePath = Some k.1
          ∧ k.2 = Z.lor (Z.lor Attr_Declaration Attr_Definition)
                    Attr_Override)).

Lemma override_key_mono Answers Answers' k :
  (∀ A, A ∈ Answers → A ∈ Answers') →
  override_key Answers k → override_key Answers' k.
Proof. intros H (A & HA & HK). exists A. split; [by apply H|done]. Qed.

(** One run of the callback: at the limit it adds nothing and sets
    [HasMore]; below it, it adds at most two references. *)
Lemma findReferences_override_step Refs More RI IDs Answer :
  (∀ c, c ∈ IDs → is_Some (RI !! c)) →
  ∃ Added More' RI' IDs',
    findReferences_override L MainFilePath Limit (Refs, More, RI, IDs) Answer
    = (Refs ++ Added, More', RI', IDs')
    ∧ Forall (λ R, override_key [Answer] (reference_key R)) Added
    ∧ (∀ c, c ∈ IDs' → is_Some (RI' !! c))
    ∧ (length Added ≤ 2)%nat
    ∧ (Limit ≠ 0 → Limit ≤ Z.of_nat (length Refs) → Added = [])
    ∧ (Limit = 0 → More' = More).
Proof.
  intros Hinv. unfold findReferences_override.
  destruct (negb (Limit =? 0) && (Limit <=? Z.of_nat (length Refs))) eqn:Hlim.
  { exists [], true, RI, IDs. rewrite app_nil_r.
    apply andb_true_iff in Hlim as [H0 H1].
    apply negb_true_iff, Z.eqb_neq in H0.
    split; [done|]. split; [done|]. split; [done|]. split; [simpl; lia|].
    by split. }
  assert (Limit ≠ 0 → Limit ≤ Z.of_nat (length Refs) → False) as Hbelow.
  { intros H0 H1. apply andb_false_iff in Hlim as [H|H].
    - apply negb_false_iff, Z.eqb_eq in H. done.
    - apply Z.leb_gt in H. lia. }
  assert (∀ (Refs0 : list ResultReference) RI0 IDs0 Loc Attrs,
            (∀ c, c ∈ IDs0 → is_Some (RI0 !! c)) →
            ∃ RI1 IDs1,
              overrides_push Answer.2 Loc Attrs (Refs0, More, RI0, IDs0)
              = (Refs0 ++ [plain_reference Loc Attrs], More, RI1, IDs1)
              ∧ ∀ c, c ∈ IDs1 → is_Some (RI1 !! c)) as Hpush.
  { intros Refs0 RI0 IDs0 Loc Attrs Hinv0. unfold overrides_push.
    eexists _, _. split; [done|].
    intros c [Hc|Hc]%elem_of_union.
    - apply elem_of_singleton in Hc as ->.
      destruct (RI0 !! sym_ID Answer.2) eqn:E; [by rewrite E|].
      rewrite lookup_insert_eq. eauto.
    - destruct (RI0 !! sym_ID Answer.2) eqn:E; [by apply Hinv0|].
      destruct (decide (sym_ID Answer.2 = c)) as [<-|Hne].
      + rewrite lookup_insert_eq. eauto.
      + rewrite lookup_insert_ne by done. by apply Hinv0. }
  set (Decl := toLSPLocation L (sym_CanonicalDeclaration Answer.2)
                 MainFilePath).
  set (Def := toLSPLocation L (sym_Definition Answer.2) MainFilePath).
  assert (∃ Added1 RI1 IDs1,
            match Decl with
            | Some Loc =>
                if bool_decide (Decl ≠ Def)
                then overrides_push Answer.2 Loc
                       (Z.lor Attr_Declaration Attr_Override)
                       (Refs, More, RI, IDs)
                else (Refs, More, RI, IDs)
            | None => (Refs, More, RI, IDs)
            end = (Refs ++ Added1, More, RI1, IDs1)
            ∧ Forall (λ R, override_key [Answer] (reference_key R)) Added1
            ∧ (∀ c, c ∈ IDs1 → is_Some (RI1 !! c))
            ∧ (length Added1 ≤ 1)%nat) as (Added1 & RI1 & IDs1 & -> & HF1 & Hinv1 & Hlen1).
  { destruct Decl as [Loc|] eqn:HDecl.
    2:{ exists [], RI, IDs. rewrite app_nil_r. repeat split; try done.
        simpl. lia. }
    case_bool_decide as Hne.
    2:{ exists [], RI, IDs. rewrite app_nil_r. repeat split; try done.
        simpl. lia. }
    destruct (Hpush Refs RI IDs Loc (Z.lor Attr_Declaration Attr_Override) Hinv)
      as (RI1 & IDs1 & -> & Hinv1).
    exists [plain_reference Loc (Z.lor Attr_Declaration Attr_Override)],
      RI1, IDs1.
    split; [done|]. split; [|split; [done|simpl; lia]].
    constructor; [|done]. exists Answer. split; [left|]. left.
    simpl. fold Decl Def. by rewrite HDecl. }
  destruct Def as [Loc|] eqn:HDef.
  - destruct (Hpush (Refs ++ Added1) RI1 IDs1 Loc
                (Z.lor (Z.lor Attr_Declaration Attr_Definition) Attr_Override)
                Hinv1) as (RI2 & IDs2 & -> & Hinv2).
    exists (Added1
            ++ [plain_reference Loc
                  (Z.lor (Z.lor Attr_Declaration Attr_Definition)
                     Attr_Override)]), More, RI2, IDs2.
    rewrite app_assoc. split; [done|]. split; [|split; [done|]].
    + apply Forall_app. split; [done|]. constructor; [|done].
      exists Answer. split; [left|]. right. simpl. fold Def. by rewrite HDef.
    + rewrite length_app. simpl. split; [lia|]. split; [|done].
      intros H0 H1. by destruct (Hbelow H0 H1).
  - exists Added1, More, RI1, IDs1. split; [done|]. split; [done|].
    split; [done|]. split; [lia|]. split; [|done].
    intros H0 H1. by destruct (Hbelow H0 H1).
Qed.

Lemma findReferences_override_fold Answers :
  ∀ Refs More RI IDs,
    (∀ c, c ∈ IDs → is_Some (RI !! c)) →
    ∃ New More' RI' IDs',
      foldl (findReferences_override L MainFilePath Limit)
        (Refs, More, RI, IDs) Answers
      = (Refs ++ New, More', RI', IDs')
      ∧ Forall (λ R, override_key Answers (reference_key R)) New
      ∧ (∀ c, c ∈ IDs' → is_Some (RI' !! c))
      ∧ (Limit ≠ 0 →
         New = [] ∨ Z.of_nat (length (Refs ++ New)) ≤ Limit + 1)
      ∧ (Limit = 0 → More' = More).
Proof.
  induction Answers as [|Answer Answers IH]; intros Refs More RI IDs Hinv;
    cbn [foldl].
  - exists [], More, RI, IDs. rewrite app_nil_r.
    repeat split; try done. by left.
  - destruct (findReferences_override_step Refs More RI IDs Answer Hinv)
      as (Added & More1 & RI1 & IDs1 & -> & HF1 & Hinv1 & Hlen & Hat & HM1).
    destruct (IH (Refs ++ Added) More1 RI1 IDs1 Hinv1)
      as (New & More2 & RI2 & IDs2 & -> & HF2 & Hinv2 & Hbound & HM2).
    exists (Added ++ New), More2, RI2, IDs2. rewrite app_assoc.
    split; [done|]. split; [|split; [done|split]].
    + apply Forall_app. split.
      * eapply Forall_impl; [exact HF1|]. intros R HR.
        eapply override_key_mono; [|exact HR].
        intros A ->%list_elem_of_singleton. left.
      * eapply Forall_impl; [exact HF2|]. intros R HR.
        eapply override_key_mono; [|exact HR]. intros A ?. by right.
    + intros H0. destruct (Hbound H0) as [->|Hle].
      * rewrite !app_nil_r.
        destruct (decide (Limit ≤ Z.of_nat (length Refs))) as [Hge|Hlt].
        -- left. by apply Hat.
        -- right. rewrite length_app. lia.
      * by right.
    + intros H0. by rewrite HM2, HM1.
Qed.

Lemma findReferences_overrideContainer_fold RI Containers :
  (∀ Sym, Sym ∈ Containers → is_Some (RI !! sym_ID Sym)) →
  ∀ Refs,
    ∃ Refs',
      foldl (findReferences_overrideContainer RI) (Some Refs) Containers
      = Some Refs'
      ∧ reference_key <$> Refs' = reference_key <$> Refs.
Proof.
  induction Containers as [|Sym Containers IH]; intros HRI Refs; simpl.
  - by exists Refs.
  - destruct (HRI Sym ltac:(left)) as [Idx HI]. rewrite HI.
    edestruct IH as (Refs' & -> & Hkey).
    { intros ? ?. apply HRI. by right. }
    exists Refs'. split; [done|]. by rewrite Hkey, alter_containerName_key.
Qed.

End Overrides.

Section FindReferences.
Context (L : Library) (AST : RequestAST) (Pos : Position) (AddContext : bool).

(** A reference in the main file: a reference of the AST, of the macro
    table or of an include line. It never carries the override bit, and
    carries the definition bit only with the declaration bit. *)
Definition main_file_reference (R : ResultReference) : Prop :=
  uri (rl_Location (res_Loc R))
  = URIForFile_canonicalize L (tuPath AST) (tuPath AST)
  ∧ (Attributes R = 0 ∨ Attributes R = Attr_Declaration
     ∨ Attributes R = Z.lor Attr_Declaration Attr_Definition).

Lemma attributes_of_role_cases Role :
  attributes_of_role Role = 0 ∨ attributes_of_role Role = Attr_Declaration
  ∨ attributes_of_role Role = Z.lor Attr_Declaration Attr_Definition.
Proof.
  unfold attributes_of_role.
  destruct (Z.land Role SymbolRole_Declaration =? 0),
    (Z.land Role SymbolRole_Definition =? 0); auto.
Qed.

Lemma attributes_of_kind_cases AllowAttributes Kind :
  attributes_of_kind AllowAttributes Kind = 0
  ∨ attributes_of_kind AllowAttributes Kind = Attr_Declaration
  ∨ attributes_of_kind AllowAttributes Kind
    = Z.lor Attr_Declaration Attr_Definition.
Proof.
  unfold attributes_of_kind. destruct AllowAttributes; [|auto].
  destruct (Z.land Kind RefKind_Declaration =? RefKind_Declaration),
    (Z.land Kind RefKind_Definition =? RefKind_Definition); auto.
Qed.

Lemma maybeFindIncludeReferences_main URI R :
  maybeFindIncludeReferences AST Pos URI = Some R →
  HasMore R = false
  ∧ Forall (λ X, uri (rl_Location (res_Loc X)) = URI ∧ Attributes X = 0
                 ∧ containerName (res_Loc X) = None) (References R).
Proof.
  unfold maybeFindIncludeReferences.
  destruct (list_find _ (MainFileIncludes AST)) as [[i Inc]|]; [|done].
  match goal with
  | |- context [omap ?f (walkUsed AST)] =>
      assert (Forall (λ X, uri (rl_Location (res_Loc X)) = URI
                           ∧ Attributes X = 0
                           ∧ containerName (res_Loc X) = None)
                (omap f (walkUsed AST))) as HF;
      [|destruct (omap f (walkUsed AST)) as [|X Xs]; [done|]]
  end.
  { apply Forall_forall. intros X HX.
    apply list_elem_of_omap in HX as (U & _ & HX).
    destruct (negb (used_Explicit U) || _); [done|]. by injection HX as <-. }
  intros [= <-]. simpl. split; [done|].
  apply (Forall_app _ (X :: Xs)). split; [done|]. by constructor.
Qed.

Lemma findReferences_macro_main M :
  Forall main_file_reference
    (findReferences_macro AST
       (URIForFile_canonicalize L (tuPath AST) (tuPath AST)) M).1.
Proof.
  unfold findReferences_macro. destruct (SymbolID_isNull (macro_ID M)); [done|].
  simpl. apply Forall_fmap, Forall_forall. intros Ref _. split; [done|].
  simpl. destruct (IsDefinition Ref); auto.
Qed.

(** The references of the declarations at the cursor in the main file. *)
Definition AST_references (CurLoc : SourceLocation) : list ResultReference :=
  findReferences_mainFileRef AST
    (URIForFile_canonicalize L (tuPath AST) (tuPath AST)) AddContext
  <$> unique_location
        (findRefs
           (findReferences_targets AST
              (getDeclAtPosition AST CurLoc
                 (Z.lor DeclRelation_TemplatePattern DeclRelation_Alias))).1
           AST false).

Lemma AST_references_main CurLoc :
  Forall main_file_reference (AST_references CurLoc).
Proof.
  unfold AST_references. apply Forall_fmap, Forall_forall. intros Ref _.
  split; [done|]. apply attributes_of_role_cases.
Qed.

Lemma findReferences_decls_None fuel CurLoc Limit :
  findReferences_decls fuel L AST CurLoc Limit None AddContext
    (URIForFile_canonicalize L (tuPath AST) (tuPath AST))
  = Some (mkReferencesResult (AST_references CurLoc) false,
          (findReferences_targets AST
             (getDeclAtPosition AST CurLoc
                (Z.lor DeclRelation_TemplatePattern DeclRelation_Alias))).2,
          ∅).
Proof.
  unfold findReferences_decls, AST_references.
  by destruct (findReferences_targets AST _).
Qed.

Context (rank : Decl → nat).
Hypothesis rank_spec :
  ∀ M B, B ∈ overridden_methods (getASTContext AST) M
         ∨ B ∈ getOverriddenMethods (getASTContext AST) M →
         (rank B < rank M)%nat.

Lemma findReferences_overrides_total fuel Decls :
  (∀ D, D ∈ Decls → (rank D < fuel)%nat) →
  is_Some (findReferences_overrides fuel AST Decls).
Proof.
  intros Hfuel. unfold findReferences_overrides.
  assert (∀ st : gset SymbolID * gset SymbolID,
            is_Some
              (foldl (λ st ND,
                        st ≫= λ '(Subjects, OverriddenMethods),
                          let K := getKind (getASTContext AST) ND in
                          if isa K CXXMethod then
                            if isVirtual (getASTContext AST) ND then
                              let Subjects :=
                                if SymbolID_isNull
                                     (getSymbolID (getASTContext AST) ND)
                                then Subjects
                                else {[getSymbolID (getASTContext AST) ND]}
                                     ∪ Subjects in
                              (Subjects,.) <$>
                                getOverriddenMethods_CXXMethod fuel
                                  (getASTContext AST) ND OverriddenMethods
                            else Some (Subjects, OverriddenMethods)
                          else if isa K ObjCMethod then
                            ({[getSymbolID (getASTContext AST) ND]}
                             ∪ Subjects,.) <$>
                              getOverriddenMethods_ObjCMethod fuel
                                (getASTContext AST) ND OverriddenMethods
                          else Some (Subjects, OverriddenMethods))
                 (Some st) Decls)) as H; [|apply H].
  induction Decls as [|D Decls IH]; intros [Subjects OM]; simpl; [by eauto|].
  assert ((rank D < fuel)%nat) as HD by (apply Hfuel; left).
  assert (∀ D', D' ∈ Decls → (rank D' < fuel)%nat) as Hrest
      by (intros; apply Hfuel; by right).
  destruct (isa (getKind (getASTContext AST) D) CXXMethod).
  - destruct (isVirtual (getASTContext AST) D); [|by apply IH].
    unfold getOverriddenMethods_CXXMethod.
    destruct (getOverriddenMethods_walk_total (getASTContext AST)
                (overridden_methods (getASTContext AST)) rank
                ltac:(intros; apply rank_spec; eauto) fuel D OM HD)
      as [OM' ->].
    simpl. by apply IH.
  - destruct (isa (getKind (getASTContext AST) D) ObjCMethod); [|by apply IH].
    unfold getOverriddenMethods_ObjCMethod.
    destruct (getOverriddenMethods_walk_total (getASTContext AST)
                (getOverriddenMethods (getASTContext AST)) rank
                ltac:(intros; apply rank_spec; eauto) fuel D OM HD)
      as [OM' ->].
    simpl. by apply IH.
Qed.

Context (Index : RefsIndex) (Limit : Z).
Hypothesis lookup_spec :
  ∀ IDs Sym, Sym ∈ lookup Index IDs → sym_ID Sym ∈ IDs.

Lemma findReferences_decls_Some fuel CurLoc :
  (∀ D, D ∈ getDeclAtPosition AST CurLoc
              (Z.lor DeclRelation_TemplatePattern DeclRelation_Alias) →
        (rank D < fuel)%nat) →
  ∃ Results OverriddenMethods Over Subjects,
    findReferences_decls fuel L AST CurLoc Limit (Some Index) AddContext
      (URIForFile_canonicalize L (tuPath AST) (tuPath AST))
    = Some (Results,
            (findReferences_targets AST
               (getDeclAtPosition AST CurLoc
                  (Z.lor DeclRelation_TemplatePattern DeclRelation_Alias))).2,
            OverriddenMethods)
    ∧ reference_key <$> References Results
      = reference_key <$> (AST_references CurLoc ++ Over)
    ∧ Forall (λ R, override_key L (tuPath AST)
                     (relations Index OverriddenBy Subjects)
                     (reference_key R)) Over
    ∧ (Limit ≠ 0 →
       Over = []
       ∨ Z.of_nat (length (AST_references CurLoc ++ Over)) ≤ Limit + 1)
    ∧ (Limit = 0 → HasMore Results = false).
Proof.
  intros Hfuel. unfold findReferences_decls, AST_references.
  destruct (findReferences_overrides_total fuel _ Hfuel)
    as [[Subjects OM] HOv].
  destruct (findReferences_targets AST _) as [Targets IDsToQuery].
  rewrite HOv. simpl.
  set (Main := findReferences_mainFileRef AST _ AddContext <$> _).
  case_bool_decide as HSub.
  { exists (mkReferencesResult Main false), OM, [], Subjects.
    rewrite app_nil_r. repeat split; try done. by left. }
  destruct (findReferences_override_fold L (tuPath AST) Limit
              (relations Index OverriddenBy Subjects) Main false ∅ ∅)
    as (New & More & RI & IDs & -> & HF & Hinv & Hbound & HMore).
  { intros c Hc. by apply elem_of_empty in Hc. }
  destruct (negb (bool_decide (IDs = ∅)) && AddContext).
  - destruct (findReferences_overrideContainer_fold RI (lookup Index IDs))
      with (Refs := Main ++ New) as (Refs' & -> & Hkey).
    { intros Sym HSym. apply Hinv. by apply lookup_spec. }
    simpl. exists (mkReferencesResult Refs' More), OM, New, Subjects.
    repeat split; done.
  - simpl. exists (mkReferencesResult (Main ++ New) More), OM, New, Subjects.
    repeat split; done.
Qed.

End FindReferences.

Lemma findReferences_None_spec (L : Library) (AST : RequestAST)
    (Pos : Position) (AddContext : bool) (fuel : nat) (Limit : Z) :
  ∃ Results,
    findReferences fuel L AST Pos Limit None AddContext = Some Results
    ∧ HasMore Results = false
    ∧ Forall (main_file_reference L AST) (References Results)
    ∧ findReferences 0 L AST Pos 0 None AddContext = Some Results.
Proof.
  unfold findReferences.
  destruct (sourceLocationInMainFile (getSourceManager AST) Pos) as [CurLoc|].
  2:{ eexists. repeat split; done. }
  destruct (maybeFindIncludeReferences AST Pos _) as [Inc|] eqn:HInc.
  { exists Inc. apply maybeFindIncludeReferences_main in HInc as [HM HF].
    repeat split; try done. eapply Forall_impl; [exact HF|].
    intros X (HU & HA & _). split; [done|]. by left. }
  destruct (spelledIdentifierTouching AST CurLoc ≫= locateMacroAt AST)
    as [M|].
  - pose proof (findReferences_macro_main L AST M) as HF.
    destruct (findReferences_macro AST _ M) as [Refs IDs]. simpl in *.
    eexists. repeat split; done.
  - rewrite !findReferences_decls_None. simpl.
    eexists. repeat split; try done. apply AST_references_main.
Qed.

(** The shape of the answer with an index: the answer without index,
    then the overrides, then the answers of the two queries for
    references. *)
Lemma findReferences_structure (L : Library) (AST : RequestAST)
    (Pos : Position) (AddContext : bool) (rank : Decl → nat)
    (Index : RefsIndex) (Limit : Z) (fuel : nat) :
  (∀ M B, B ∈ overridden_methods (getASTContext AST) M
          ∨ B ∈ getOverriddenMethods (getASTContext AST) M →
          (rank B < rank M)%nat) →
  (∀ IDs Sym, Sym ∈ lookup Index IDs → sym_ID Sym ∈ IDs) →
  (∀ D, (rank D < fuel)%nat) →
  ∃ R0,
    findReferences 0 L AST Pos 0 None AddContext = Some R0
    ∧ ∃ R Over Idx1 Idx2 Subjects IDs1 IDs2 More1,
        findReferences fuel L AST Pos Limit (Some Index) AddContext = Some R
        ∧ reference_key <$> References R
          = reference_key <$> (References R0 ++ Over ++ Idx1 ++ Idx2)
        ∧ Forall (λ X, override_key L (tuPath AST)
                         (relations Index OverriddenBy Subjects)
                         (reference_key X)) Over
        ∧ (Limit ≠ 0 →
           Over = []
           ∨ Z.of_nat (length (References R0 ++ Over)) ≤ Limit + 1)
        ∧ (Idx1 = []
           ∨ Idx1 = omap (QueryIndex_reference L (tuPath AST) true false)
                      (refs Index
                         (QueryIndex_request Limit
                            (Z.of_nat (length (References R0 ++ Over)))
                            IDs1)).1
             ∧ More1
               = (refs Index
                    (QueryIndex_request Limit
                       (Z.of_nat (length (References R0 ++ Over)))
                       IDs1)).2)
        ∧ (Idx2 = []
           ∨ More1 = false
             ∧ Idx2 = omap (QueryIndex_reference L (tuPath AST) false true)
                        (refs Index
                           (QueryIndex_request Limit
                              (Z.of_nat
                                 (length (References R0 ++ Over ++ Idx1)))
                              IDs2)).1).
Proof.
  intros Hrank Hlookup Hfuel.
  destruct (findReferences_None_spec L AST Pos AddContext 0 0)
    as (R0 & HR0 & HM0 & _ & _).
  unfold findReferences in *.
  destruct (sourceLocationInMainFile (getSourceManager AST) Pos) as [CurLoc|].
  2:{ exists R0. split; [done|].
      injection HR0 as <-.
      exists (mkReferencesResult [] false), [], [], [], ∅, ∅, ∅, false.
      repeat split; try done; auto. }
  destruct (maybeFindIncludeReferences AST Pos _) as [Inc|] eqn:HInc.
  { exists R0. split; [done|]. injection HR0 as <-.
    exists Inc, [], [], [], ∅, ∅, ∅, false. rewrite !app_nil_r.
    repeat split; try done; auto. }
  assert (∀ Results IDsToQuery OverriddenMethods Over Subjects,
            reference_key <$> References Results
            = reference_key <$> (References R0 ++ Over) →
            Forall (λ X, override_key L (tuPath AST)
                           (relations Index OverriddenBy Subjects)
                           (reference_key X)) Over →
            (Limit ≠ 0 →
             Over = []
             ∨ Z.of_nat (length (References R0 ++ Over)) ≤ Limit + 1) →
            ∃ R Idx1 Idx2 IDs1 IDs2 More1,
              QueryIndex L (tuPath AST) Limit (Some Index) AddContext Results
                IDsToQuery true false
              ≫= (λ Results,
                    QueryIndex L (tuPath AST) Limit (Some Index) AddContext
                      Results OverriddenMethods false true) = Some R
              ∧ reference_key <$> References R
                = reference_key <$> (References R0 ++ Over ++ Idx1 ++ Idx2)
              ∧ (Idx1 = []
                 ∨ Idx1 = omap (QueryIndex_reference L (tuPath AST) true false)
                            (refs Index
                               (QueryIndex_request Limit
                                  (Z.of_nat (length (References R0 ++ Over)))
                                  IDs1)).1
                   ∧ More1
                     = (refs Index
                          (QueryIndex_request Limit
                             (Z.of_nat (length (References R0 ++ Over)))
                             IDs1)).2)
              ∧ (Idx2 = []
                 ∨ More1 = false
                   ∧ Idx2 = omap (QueryIndex_reference L (tuPath AST)
                                    false true)
                              (refs Index
                                 (QueryIndex_request Limit
                                    (Z.of_nat
                                       (length
                                          (References R0 ++ Over ++ Idx1)))
                                    IDs2)).1)) as Hqueries.
  { intros Results IDsToQuery OM Over Subjects Hkey HOver Hbound.
    assert (length (References Results) = length (References R0 ++ Over))
      as Hlen.
    { rewrite <- (length_fmap reference_key), Hkey. by rewrite length_fmap. }
    destruct (QueryIndex_spec L (tuPath AST) Limit AddContext true false
                Index Results IDsToQuery Hlookup)
      as (R1 & New1 & -> & Hkey1 & Hcase1).
    cbn [mbind option_bind].
    destruct (QueryIndex_spec L (tuPath AST) Limit AddContext false true
                Index R1 OM Hlookup)
      as (R2 & New2 & -> & Hkey2 & Hcase2).
    assert (length (References R1) = length (References R0 ++ Over ++ New1))
      as Hlen1.
    { rewrite <- (length_fmap reference_key), Hkey1, length_fmap.
      rewrite !length_app. rewrite Hlen, !length_app. lia. }
    exists R2, New1, New2, IDsToQuery, OM, (HasMore R1).
    split; [done|]. split; [|split].
    - rewrite Hkey2, fmap_app, Hkey1, fmap_app, Hkey.
      rewrite !fmap_app. by rewrite <- !app_assoc.
    - destruct Hcase1 as [[-> _]|(_ & -> & ->)]; [by left|].
      right. by rewrite Hlen.
    - destruct Hcase2 as [[-> _]|(HM1 & -> & _)]; [by left|].
      right. split; [done|]. by rewrite Hlen1. }
  destruct (spelledIdentifierTouching AST CurLoc ≫= locateMacroAt AST)
    as [M|].
  - exists R0. split; [done|].
    destruct (findReferences_macro AST _ M) as [Refs IDs].
    injection HR0 as <-.
    destruct (Hqueries (mkReferencesResult Refs false) IDs ∅ [] ∅)
      as (R & Idx1 & Idx2 & IDs1 & IDs2 & More1 & HR & Hkey & H1 & H2).
    { by rewrite app_nil_r. }
    { done. }
    { by left. }
    exists R, [], Idx1, Idx2, ∅, IDs1, IDs2, More1.
    split; [done|]. split; [done|]. split; [done|]. split; [by left|].
    by split.
  - rewrite findReferences_decls_None in HR0. injection HR0 as <-.
    exists (mkReferencesResult (AST_references L AST AddContext CurLoc) false).
    split; [by rewrite findReferences_decls_None|].
    destruct (findReferences_decls_Some L AST AddContext rank Hrank Index
                Limit Hlookup fuel CurLoc)
      as (Results & OM & Over & Subjects & -> & Hkey & HOver & Hbound & _).
    { intros D _. apply Hfuel. }
    cbn [mbind option_bind].
    destruct (Hqueries Results
                (findReferences_targets AST
                   (getDeclAtPosition AST CurLoc
                      (Z.lor DeclRelation_TemplatePattern
                         DeclRelation_Alias))).2
                OM Over Subjects Hkey HOver Hbound)
      as (R & Idx1 & Idx2 & IDs1 & IDs2 & More1 & HR & Hkey' & H1 & H2).
    exists R, Over, Idx1, Idx2, Subjects, IDs1, IDs2, More1.
    split; [exact HR|]. split; [done|]. split; [done|]. split; [done|].
    by split.
Qed.

(** ** One reference for each token of the main file *)

Section Unique_location.
Import ReferenceFinder.

(** The token of [a] starts before the token of [b]. *)
Definition token_before (a b : Reference) : Prop :=
  tok_location (SpelledTok a) < tok_location (SpelledTok b).

Lemma unique_location_from_sorted last l :
  Forall (strictly_after last) l →
  StronglySorted strictly_after l →
  Forall (token_before last) (unique_location_from last l)
  ∧ StronglySorted token_before (unique_location_from last l).
Proof.
  revert last. induction l as [|x l IH]; intros last Hlast Hs; simpl.
  { split; constructor. }
  apply Forall_cons in Hlast as [Hx Hl].
  apply StronglySorted_inv in Hs as [Hs Hxl].
  destruct (tok_location (SpelledTok last) =? tok_location (SpelledTok x))
    eqn:E.
  - apply IH; done.
  - apply Z.eqb_neq in E.
    assert (token_before last x) as Hlt.
    { unfold strictly_after, tie_lt, tie in Hx. unfold token_before.
      simpl in Hx. lia. }
    destruct (IH x Hxl Hs) as [Hall Hss].
    split; [|by constructor].
    constructor; [done|].
    eapply Forall_impl; [exact Hall|].
    intros r Hr. unfold token_before in *. lia.
Qed.

Lemma unique_location_from_elem last l r :
  r ∈ unique_location_from last l → r ∈ l.
Proof.
  revert last. induction l as [|x l IH]; intros last; simpl; [done|].
  destruct (_ =? _).
  - intros H. right. by eapply IH.
  - intros [->|H]%elem_of_cons; [left | right; by eapply IH].
Qed.

Lemma unique_location_from_covers last l r :
  Forall (strictly_after last) l →
  StronglySorted strictly_after l →
  r ∈ l →
  tok_location (SpelledTok last) = tok_location (SpelledTok r)
  ∨ ∃ r', r' ∈ unique_location_from last l
          ∧ tok_location (SpelledTok r') = tok_location (SpelledTok r)
          ∧ Role r' ≤ Role r.
Proof.
  revert last. induction l as [|x l IH]; intros last Hlast Hs;
    [by intros ?%elem_of_nil|].
  apply Forall_cons in Hlast as [Hx Hl].
  apply StronglySorted_inv in Hs as [Hs Hxl].
  intros [->|Hin]%elem_of_cons; simpl.
  - destruct (_ =? _) eqn:E; [left; by apply Z.eqb_eq in E|].
    right. exists x. split; [left|]. split; [done|lia].
  - destruct (_ =? _) eqn:E.
    + apply IH; done.
    + right. destruct (IH x Hxl Hs Hin) as [Heq|(r' & Hr' & Ht & HR)].
      * exists x. split; [left|]. split; [done|].
        rewrite Forall_forall in Hxl. specialize (Hxl r Hin).
        unfold strictly_after, tie_lt, tie in Hxl. simpl in Hxl. lia.
      * exists r'. split; [by right|done].
Qed.

End Unique_location.

(** X13. [findReferences] leaves one reference for each token of the main
    file: after [llvm::unique] by token location the references
    [findRefs] returned are strictly increasing by the location of their
    token, each is one [findRefs] returned, and for every reference of
    [findRefs] the one kept at its token is the one with the least role
    bits (the first in the order of [findRefs]). *)
Theorem findReferences_keeps_one_reference_per_token
    (Targets : list Decl) (AST : ParsedAST) (PerToken : bool) :
  let Found := findRefs Targets AST PerToken in
  StronglySorted token_before (unique_location Found)
  ∧ (∀ r, r ∈ unique_location Found → r ∈ Found)
  ∧ (∀ r, r ∈ Found →
       ∃ r', r' ∈ unique_location Found
             ∧ tok_location (ReferenceFinder.SpelledTok r')
               = tok_location (ReferenceFinder.SpelledTok r)
             ∧ ReferenceFinder.Role r' ≤ ReferenceFinder.Role r).
Proof.
  intros Found. unfold Found, findRefs.
  pose proof (take_strictly_sorted
                (foldl (ReferenceFinder.handleDeclOccurrence AST
                          (ReferenceFinder.TargetDecls AST Targets) PerToken)
                   [] (indexTopLevelDecls AST))) as Hsorted.
  destruct (ReferenceFinder.take _) as [|x l]; simpl.
  { split; [constructor|]. split; [done|]. by intros r ?%elem_of_nil. }
  apply StronglySorted_inv in Hsorted as [Hs Hx].
  destruct (unique_location_from_sorted x l Hx Hs) as [Hall Hss].
  split; [by constructor|]. split.
  - intros r [->|Hr]%elem_of_cons; [left|right].
    by eapply unique_location_from_elem.
  - intros r [->|Hr]%elem_of_cons.
    + exists x. split; [left|]. split; [done|lia].
    + destruct (unique_location_from_covers x l r Hx Hs Hr)
        as [Heq|(r' & Hr' & Ht & HR)].
      * exists x. split; [left|]. split; [done|].
        rewrite Forall_forall in Hx. specialize (Hx r Hr).
        unfold strictly_after, tie_lt, ReferenceFinder.tie in Hx.
        simpl in Hx. lia.
      * exists r'. split; [by right|done].
Qed.

(** ** The answer of findReferences and the index *)

Lemma main_file_reference_attributes (L : Library) (AST : RequestAST)
    (X : ResultReference) :
  main_file_reference L AST X →
  Z.land (Attributes X) Attr_Override = 0
  ∧ (Z.land (Attributes X) Attr_Definition ≠ 0 →
     Z.land (Attributes X) Attr_Declaration ≠ 0).
Proof. intros [_ [H|[H|H]]]; rewrite H; done. Qed.

(** X14. Without an index [findReferences] answers from the main file
    alone, whatever the cursor: every reference is in the main file, none
    is marked as an override, a definition is always marked as a
    declaration too, [HasMore] is not set, and neither the limit nor the
    depth allowed to the walk over the overridden methods changes the
    answer: the limit is not applied to the references of the main
    file. *)
Theorem findReferences_without_index_answers_from_main_file
    (L : Library) (AST : RequestAST) (Pos : Position) (AddContext : bool) :
  ∃ Results,
    (∀ fuel Limit,
       findReferences fuel L AST Pos Limit None AddContext = Some Results)
    ∧ HasMore Results = false
    ∧ Forall (λ X,
                uri (rl_Location (res_Loc X))
                = URIForFile_canonicalize L (tuPath AST) (tuPath AST)
                ∧ Z.land (Attributes X) Attr_Override = 0
                ∧ (Z.land (Attributes X) Attr_Definition ≠ 0 →
                   Z.land (Attributes X) Attr_Declaration ≠ 0))
        (References Results).
Proof.
  destruct (findReferences_None_spec L AST Pos AddContext 0 0)
    as (Results & _ & HMore & HMain & HResults).
  exists Results. split; [|split; [exact HMore|]].
  - intros fuel Limit.
    destruct (findReferences_None_spec L AST Pos AddContext fuel Limit)
      as (Results' & HR' & _ & _ & H0).
    rewrite HResults in H0. by injection H0 as <-.
  - eapply Forall_impl; [exact HMain|]. intros X HX.
    split; [apply HX|]. by eapply main_file_reference_attributes.
Qed.

Lemma QueryIndex_reference_Some (L : Library) (MainFilePath : string)
    (AllowAttributes AllowMainFileSymbols : bool) (R : Ref)
    (X : ResultReference) :
  QueryIndex_reference L MainFilePath AllowAttributes AllowMainFileSymbols R
  = Some X →
  toLSPLocation L (ref_Location R) MainFilePath
  = Some (rl_Location (res_Loc X))
  ∧ Attributes X = attributes_of_kind AllowAttributes (ref_Kind R)
  ∧ (AllowMainFileSymbols = false →
     URIForFile_file L (uri (rl_Location (res_Loc X))) ≠ MainFilePath).
Proof.
  unfold QueryIndex_reference.
  destruct (toLSPLocation L (ref_Location R) MainFilePath) as [LSPLoc|];
    [|done].
  destruct AllowMainFileSymbols; simpl.
  - intros [= <-]. by repeat split.
  - case_bool_decide as HM; [done|]. intros [= <-]. by repeat split.
Qed.

(** What the answer says of a reference taken from the index: it is the
    declaration or the definition of a method that overrides a subject of
    the [OverriddenBy] query, marked as an override; or it is at the
    place of a reference the index returned, either outside the main file
    with the attributes of its kind, or without attributes. *)
Definition index_reference (L : Library) (AST : RequestAST)
    (Index : RefsIndex) (k : Location * Z) : Prop :=
  (∃ Subjects,
     override_key L (tuPath AST) (relations Index OverriddenBy Subjects) k)
  ∨ (∃ Req R,
       R ∈ (refs Index Req).1
       ∧ refs_Filter Req = RefKind_All
       ∧ toLSPLocation L (ref_Location R) (tuPath AST) = Some k.1
       ∧ ((URIForFile_file L (uri k.1) ≠ tuPath AST
           ∧ k.2 = attributes_of_kind true (ref_Kind R))
          ∨ k.2 = 0)).

Lemma QueryIndex_answers_index_reference (L : Library) (AST : RequestAST)
    (Index : RefsIndex) (Limit Size : Z) (IDs : gset SymbolID)
    (AllowAttributes : bool) :
  Forall (λ X, index_reference L AST Index (reference_key X))
    (omap (QueryIndex_reference L (tuPath AST) AllowAttributes
             (negb AllowAttributes))
       (refs Index (QueryIndex_request Limit Size IDs)).1).
Proof.
  apply Forall_forall. intros X (R & HR & HX)%list_elem_of_omap.
  apply QueryIndex_reference_Some in HX as (HLoc & HAttr & HMain).
  right. exists (QueryIndex_request Limit Size IDs), R.
  split; [done|]. split; [done|]. split; [done|]. simpl.
  destruct AllowAttributes; [left|right; done].
  split; [by apply HMain|done].
Qed.

(** X15. With an index [findReferences] answers, up to the names of the
    containers, the references it answers without index, in the same
    order, followed by references taken from the index: declarations and
    definitions of overriding methods, marked as overrides, and places of
    references the index returned - those of the symbol itself never in
    the main file, those of overridden methods without attributes. The
    walk over the overridden methods ends when the override relation is
    acyclic: a rank decreases along it, and the depth allowed to the walk
    is above every rank. The index is taken to answer a lookup with
    symbols that were asked for. *)
Theorem findReferences_appends_index_references
    (L : Library) (AST : RequestAST) (Pos : Position) (AddContext : bool)
    (rank : Decl → nat) (Index : RefsIndex) (Limit : Z) (fuel : nat) :
  (∀ M B, B ∈ overridden_methods (getASTContext AST) M
          ∨ B ∈ getOverriddenMethods (getASTContext AST) M →
          (rank B < rank M)%nat) →
  (∀ IDs Sym, Sym ∈ lookup Index IDs → sym_ID Sym ∈ IDs) →
  (∀ D, (rank D < fuel)%nat) →
  ∃ Results MainFile FromIndex,
    findReferences fuel L AST Pos Limit (Some Index) AddContext
    = Some Results
    ∧ findReferences fuel L AST Pos Limit None AddContext = Some MainFile
    ∧ reference_key <$> References Results
      = reference_key <$> (References MainFile ++ FromIndex)
    ∧ Forall (λ X, index_reference L AST Index (reference_key X))
        FromIndex.
Proof.
  intros Hrank Hlookup Hfuel.
  destruct (findReferences_structure L AST Pos AddContext rank Index Limit
              fuel Hrank Hlookup Hfuel)
    as (R0 & HR0 & R & Over & Idx1 & Idx2 & Subjects & IDs1 & IDs2 & More1
        & HR & Hkey & HOver & _ & H1 & H2).
  exists R, R0, (Over ++ Idx1 ++ Idx2). split; [exact HR|]. split.
  { destruct (findReferences_None_spec L AST Pos AddContext fuel Limit)
      as (R0' & HR0' & _ & _ & H0). rewrite HR0 in H0. by injection H0 as <-. }
  split; [exact Hkey|].
  rewrite !Forall_app. split; [|split].
  - eapply Forall_impl; [exact HOver|]. intros X HX. left. by exists Subjects.
  - destruct H1 as [->|[-> _]]; [done|].
    apply (QueryIndex_answers_index_reference L AST Index Limit _ IDs1 true).
  - destruct H2 as [->|[_ ->]]; [done|].
    apply (QueryIndex_answers_index_reference L AST Index Limit _ IDs2 false).
Qed.

Lemma Fixture_References_lookup IDs Sym :
  Sym ∈ lookup Fixture_References.index IDs → sym_ID Sym ∈ IDs.
Proof. simpl. by intros [? _]%list_elem_of_filter. Qed.

Lemma Fixture_References_fuel (D : Decl) : (Fixture_Methods.rank D < 3)%nat.
Proof. unfold Fixture_Methods.rank. lia. Qed.

(** The theorem with the cursor on [B::f]: the two references of the main
    file, the declaration and the definition of the override [C::f], the
    reference in [u.cpp] (the one the index holds in the main file is
    left out), and the definition of the overridden [A::f], without
    attributes. *)
Lemma findReferences_appends_index_references_witness :
  ∃ Results MainFile FromIndex,
    findReferences 3 Fixture_Classes.library Fixture_References.file
      Fixture_References.cursor 0 (Some Fixture_References.index) true
    = Some Results
    ∧ findReferences 3 Fixture_Classes.library Fixture_References.file
        Fixture_References.cursor 0 None true
      = Some MainFile
    ∧ reference_key <$> References Results
      = reference_key <$> (References MainFile ++ FromIndex)
    ∧ Forall (λ X, index_reference Fixture_Classes.library
                     Fixture_References.file Fixture_References.index
                     (reference_key X)) FromIndex
    ∧ (λ X, (uri (rl_Location (res_Loc X)), Attributes X))
      <$> References Results
      = [("file:///src/main.cpp", 1); ("file:///src/main.cpp", 0);
         ("file:///src/c.h", 5); ("file:///src/c.cpp", 7);
         ("file:///src/u.cpp", 0); ("file:///src/a.cpp", 0)].
Proof.
  destruct (findReferences_appends_index_references Fixture_Classes.library
              Fixture_References.file Fixture_References.cursor true
              Fixture_Methods.rank Fixture_References.index 0 3
              Fixture_Methods_rank Fixture_References_lookup
              Fixture_References_fuel)
    as (Results & MainFile & FromIndex & HR & HM & Hkey & HF).
  exists Results, MainFile, FromIndex.
  split; [exact HR|]. split; [exact HM|]. split; [exact Hkey|].
  split; [exact HF|].
  vm_compute in HR. injection HR as <-. vm_compute. reflexivity.
Defined.

Lemma length_omap_le {A B} (f : A → option B) (l : list A) :
  (length (omap f l) ≤ length l)%nat.
Proof.
  induction l as [|x l IH]; csimpl; [done|]. destruct (f x); csimpl; lia.
Qed.

(** A query of [QueryIndex] to an index that honours the limit of a
    request does not take the answer beyond the limit. *)
Lemma QueryIndex_request_bounded (L : Library) (MainFilePath : string)
    (Index : RefsIndex) (Limit Size : Z) (IDs : gset SymbolID)
    (AllowAttributes AllowMainFileSymbols : bool) :
  Limit ≠ 0 → 0 ≤ Size →
  (∀ Req n, refs_Limit Req = Some n → 0 ≤ n →
            Z.of_nat (length (refs Index Req).1) ≤ n) →
  Size
  + Z.of_nat
      (length
         (omap (QueryIndex_reference L MainFilePath AllowAttributes
                  AllowMainFileSymbols)
            (refs Index (QueryIndex_request Limit Size IDs)).1))
  ≤ Z.max Size Limit.
Proof.
  intros HLimit HSize Hhonours.
  pose proof (length_omap_le
                (QueryIndex_reference L MainFilePath AllowAttributes
                   AllowMainFileSymbols)
                (refs Index (QueryIndex_request Limit Size IDs)).1) as Hle.
  unfold QueryIndex_request in *.
  destruct (Limit =? 0) eqn:H0; [by apply Z.eqb_eq in H0|].
  destruct (Limit <? Size) eqn:HS.
  - apply Z.ltb_lt in HS.
    match type of Hle with
    | (_ ≤ length (refs Index ?Req).1)%nat =>
        pose proof (Hhonours Req 0 eq_refl ltac:(lia))
    end. lia.
  - apply Z.ltb_ge in HS.
    match type of Hle with
    | (_ ≤ length (refs Index ?Req).1)%nat =>
        pose proof (Hhonours Req (Limit - Size) eq_refl ltac:(lia))
    end. lia.
Qed.

(** X16. The limit bounds what [findReferences] takes from the index, not
    the references of the main file: with a limit and an index that
    returns no more references than a request allows, the answer holds
    no more references than the main file alone gives, or than the limit
    plus one - the check before an overriding method is added lets its
    declaration and its definition in together. *)
Theorem findReferences_limit_bounds_index_references
    (L : Library) (AST : RequestAST) (Pos : Position) (AddContext : bool)
    (rank : Decl → nat) (Index : RefsIndex) (Limit : Z) (fuel : nat) :
  (∀ M B, B ∈ overridden_methods (getASTContext AST) M
          ∨ B ∈ getOverriddenMethods (getASTContext AST) M →
          (rank B < rank M)%nat) →
  (∀ IDs Sym, Sym ∈ lookup Index IDs → sym_ID Sym ∈ IDs) →
  (∀ D, (rank D < fuel)%nat) →
  0 < Limit →
  (∀ Req n, refs_Limit Req = Some n → 0 ≤ n →
            Z.of_nat (length (refs Index Req).1) ≤ n) →
  ∃ Results MainFile,
    findReferences fuel L AST Pos Limit (Some Index) AddContext
    = Some Results
    ∧ findReferences fuel L AST Pos Limit None AddContext = Some MainFile
    ∧ Z.of_nat (length (References Results))
      ≤ Z.max (Z.of_nat (length (References MainFile))) (Limit + 1).
Proof.
  intros Hrank Hlookup Hfuel HLimit Hhonours.
  destruct (findReferences_structure L AST Pos AddContext rank Index Limit
              fuel Hrank Hlookup Hfuel)
    as (R0 & HR0 & R & Over & Idx1 & Idx2 & Subjects & IDs1 & IDs2 & More1
        & HR & Hkey & _ & Hbound & H1 & H2).
  exists R, R0. split; [exact HR|]. split.
  { destruct (findReferences_None_spec L AST Pos AddContext fuel Limit)
      as (R0' & HR0' & _ & _ & H0). rewrite HR0 in H0. by injection H0 as <-. }
  apply (f_equal length) in Hkey. rewrite !length_fmap in Hkey.
  rewrite Hkey. clear Hkey HR HR0.
  assert (Z.of_nat (length (References R0 ++ Over))
          ≤ Z.max (Z.of_nat (length (References R0))) (Limit + 1)) as HO.
  { destruct (Hbound ltac:(lia)) as [->|Hle]; [rewrite app_nil_r|]; lia. }
  assert (Z.of_nat (length (References R0 ++ Over ++ Idx1))
          ≤ Z.max (Z.of_nat (length (References R0))) (Limit + 1)) as H1'.
  { destruct H1 as [->|[-> _]]; [by rewrite app_nil_r|].
    rewrite app_assoc, length_app, Nat2Z.inj_add.
    pose proof (QueryIndex_request_bounded L (tuPath AST) Index Limit
                  (Z.of_nat (length (References R0 ++ Over))) IDs1 true false
                  ltac:(lia) ltac:(lia) Hhonours). lia. }
  destruct H2 as [->|[_ ->]]; [by rewrite app_nil_r|].
  rewrite !app_assoc, length_app, Nat2Z.inj_add, <- !app_assoc.
  pose proof (QueryIndex_request_bounded L (tuPath AST) Index Limit
                (Z.of_nat (length (References R0 ++ Over ++ Idx1))) IDs2
                false true ltac:(lia) ltac:(lia) Hhonours). lia.
Qed.

Lemma Fixture_References_honours_limit Req n :
  refs_Limit Req = Some n → 0 ≤ n →
  Z.of_nat (length (refs Fixture_References.index Req).1) ≤ n.
Proof.
  intros HReq Hn. simpl. rewrite HReq. simpl. rewrite length_take. lia.
Qed.

(** The theorem with the cursor on [B::f] and a limit of three: the
    answer holds four references, the two of the main file and the
    declaration and the definition of the override. *)
Lemma findReferences_limit_bounds_index_references_witness :
  ∃ Results MainFile,
    findReferences 3 Fixture_Classes.library Fixture_References.file
      Fixture_References.cursor 3 (Some Fixture_References.index) false
    = Some Results
    ∧ findReferences 3 Fixture_Classes.library Fixture_References.file
        Fixture_References.cursor 3 None false
      = Some MainFile
    ∧ Z.of_nat (length (References Results))
      ≤ Z.max (Z.of_nat (length (References MainFile))) (3 + 1)
    ∧ length (References MainFile) = 2%nat
    ∧ length (References Results) = 4%nat
    ∧ HasMore Results = true.
Proof.
  destruct (findReferences_limit_bounds_index_references
              Fixture_Classes.library Fixture_References.file
              Fixture_References.cursor false Fixture_Methods.rank
              Fixture_References.index 3 3 Fixture_Methods_rank
              Fixture_References_lookup Fixture_References_fuel
              ltac:(lia) Fixture_References_honours_limit)
    as (Results & MainFile & HR & HM & Hle).
  exists Results, MainFile.
  split; [exact HR|]. split; [exact HM|]. split; [exact Hle|].
  vm_compute in HR, HM. injection HR as <-. injection HM as <-.
  repeat split; reflexivity.
Defined.

(** ** The references of an include line *)

(** The reference to a use of a symbol an include provides. *)
Definition used_reference (AST : RequestAST) (URIMainFile : string)
    (U : UsedSymbol) : ResultReference :=
  plain_reference
    (mkLocation URIMainFile
       (mkRange
          (sourceLocToPosition (getSourceManager AST)
             (tok_location (used_Token U)))
          (sourceLocToPosition (getSourceManager AST)
             (tok_location (used_Token U) + tok_length (used_Token U)))))
    0.

(** The uses [maybeFindIncludeReferences] reports for an include: the
    explicit ones of which it is the preferred provider. *)
Definition provided_by (Inc : Inclusion) (U : UsedSymbol) : Prop :=
  used_Explicit U = true ∧ used_isPreferredProvider U Inc = true.

#[local] Instance provided_by_dec Inc U : Decision (provided_by Inc U).
Proof. unfold provided_by. apply _. Defined.

Lemma maybeFindIncludeReferences_uses (AST : RequestAST) (URIMainFile : string)
    (Inc : Inclusion) (f : UsedSymbol → option ResultReference)
    (Used : list UsedSymbol) :
  (∀ U, f U = if negb (used_Explicit U)
                 || negb (used_isPreferredProvider U Inc)
              then None
              else Some (used_reference AST URIMainFile U)) →
  omap f Used = used_reference AST URIMainFile <$> filter (provided_by Inc) Used.
Proof.
  intros Hf. induction Used as [|U Used IH]; [done|]. csimpl.
  rewrite IH, Hf, filter_cons.
  destruct (decide (provided_by Inc U)) as [[HE HP]|HP].
  - by rewrite HE, HP.
  - unfold provided_by in HP.
    destruct (used_Explicit U), (used_isPreferredProvider U Inc); try done.
    by destruct HP.
Qed.

(** X17. With the cursor on the line of an include directive that
    provides a symbol the file uses, [findReferences] answers the uses of
    the symbols the include provides - the explicit references of which
    it is the preferred provider, in the order of the walk - and then the
    include line itself, all in the main file and without attributes.
    The directive is the first one on the line. The index, the limit and
    the identifier under the cursor play no part, and [HasMore] is not
    set. *)
Theorem findReferences_on_include_line_lists_uses
    (L : Library) (AST : RequestAST) (Pos : Position) (i : nat)
    (Inc : Inclusion) (fuel : nat) (Limit : Z) (Index : option RefsIndex)
    (AddContext : bool) :
  is_Some (sourceLocationInMainFile (getSourceManager AST) Pos) →
  list_find (λ Inc, HashLine Inc = line Pos) (MainFileIncludes AST)
  = Some (i, Inc) →
  (∃ U, U ∈ walkUsed AST ∧ provided_by Inc U) →
  let URIMainFile := URIForFile_canonicalize L (tuPath AST) (tuPath AST) in
  findReferences fuel L AST Pos Limit Index AddContext
  = Some (mkReferencesResult
            ((used_reference AST URIMainFile
                <$> filter (provided_by Inc) (walkUsed AST))
             ++ [plain_reference
                   (mkLocation URIMainFile
                      (rangeTillEOL AST (HashOffset Inc)))
                   0])
            false).
Proof.
  intros [CurLoc HCur] HInc (U & HU & HP) URIMainFile.
  unfold findReferences. rewrite HCur.
  unfold maybeFindIncludeReferences. rewrite HInc.
  rewrite (maybeFindIncludeReferences_uses AST URIMainFile Inc)
    by (intros ?; reflexivity).
  assert (U ∈ filter (provided_by Inc) (walkUsed AST)) as Hin
    by (by apply list_elem_of_filter).
  destruct (filter (provided_by Inc) (walkUsed AST)) as [|U' Us];
    [by apply elem_of_nil in Hin|].
  done.
Qed.

(** The theorem on the include of line 0 in [Fixture_References]: the
    two explicit uses, then the line of the directive, with a limit of
    one. *)
Lemma findReferences_on_include_line_lists_uses_witness :
  findReferences 0 Fixture_Classes.library Fixture_References.including
    (mkPosition 0 3) 1 (Some Fixture_References.index) true
  = Some (mkReferencesResult
            [plain_reference
               (mkLocation "file:///src/main.cpp"
                  (mkRange (mkPosition 0 30) (mkPosition 0 36))) 0;
             plain_reference
               (mkLocation "file:///src/main.cpp"
                  (mkRange (mkPosition 0 41) (mkPosition 0 47))) 0;
             plain_reference
               (mkLocation "file:///src/main.cpp"
                  (mkRange (mkPosition 0 0) (mkPosition 0 17))) 0]
            false).
Proof.
  rewrite (findReferences_on_include_line_lists_uses Fixture_Classes.library
             Fixture_References.including (mkPosition 0 3) 0
             (mkInclusion "<vector>" "/usr/include/c++/vector" 0 0) 0 1
             (Some Fixture_References.index) true).
  - reflexivity.
  - simpl. eauto.
  - reflexivity.
  - exists (mkUsedSymbol true (λ Inc, bool_decide (HashLine Inc = 0))
              (mkToken 30 6 tok_identifier)).
    split; [left|]. split; reflexivity.
Defined.

(** ** The roots of the call hierarchy and the resolution of an item *)

(** The declarations [prepareCallHierarchy] makes an item of: function
    contexts, function templates, variables that are not local, and
    fields. *)
Definition call_hierarchy_root (AST : RequestAST) (D : Decl) : Prop :=
  isFunctionOrMethod AST D = true
  ∨ getKind (getASTContext AST) D = FunctionTemplate
  ∨ (getKind (getASTContext AST) D = Var ∧ isLocalVarDecl AST D = false)
  ∨ getKind (getASTContext AST) D = Field.

#[local] Instance call_hierarchy_root_dec AST D :
  Decision (call_hierarchy_root AST D).
Proof. unfold call_hierarchy_root. apply _. Defined.

Lemma prepareCallHierarchy_fold (L : Library) (AST : RequestAST)
    (Decls : list Decl) :
  ∀ Result,
    foldl (λ Result D,
             let K := getKind (getASTContext AST) D in
             if negb (isFunctionOrMethod AST D)
                && negb (isa K FunctionTemplate)
                && negb (isa K Var && negb (isLocalVarDecl AST D))
                && negb (isa K Field)
             then Result
             else
               match declToCallHierarchyItem L AST D (tuPath AST) with
               | Some CHI => Result ++ [CHI]
               | None => Result
               end)
      Result Decls
    = Result
      ++ omap (λ D, declToCallHierarchyItem L AST D (tuPath AST))
           (filter (call_hierarchy_root AST) Decls).
Proof.
  induction Decls as [|D Decls IH]; intros Result; cbn [foldl].
  { by rewrite app_nil_r. }
  rewrite IH, filter_cons. clear IH.
  destruct (decide (call_hierarchy_root AST D)) as [HR|HR];
    unfold call_hierarchy_root in HR.
  - match goal with
    | |- context [if ?c then Result else _] => assert (c = false) as ->
    end.
    { unfold isa.
      destruct (isFunctionOrMethod AST D), (isLocalVarDecl AST D);
        repeat case_bool_decide; simpl; try done; exfalso; naive_solver. }
    csimpl. destruct (declToCallHierarchyItem L AST D (tuPath AST)); [|done].
    by rewrite <- app_assoc.
  - match goal with
    | |- context [if ?c then Result else _] => assert (c = true) as ->
    end.
    { unfold isa.
      destruct (isFunctionOrMethod AST D), (isLocalVarDecl AST D);
        repeat case_bool_decide; simpl; try done; exfalso; naive_solver. }
    done.
Qed.

(** X18. Every item [prepareCallHierarchy] returns is made of a
    declaration at the cursor that is a function context, a function
    template, a variable that is not local, or a field; the items are in
    the order of the declarations. The item carries the name of the
    declaration, its range contains its selection range, and its data
    names the declaration's symbol: when the text form of that id reads
    back as the id and is not empty, the data of the item parses to the
    id, which is what [incomingCalls] and [outgoingCalls] ask the index
    for. Of a declaration without a symbol id the data is empty, and the
    two requests answer nothing for it. The path handed to the function
    is not used: the URIs are made with the path of the file. *)
Theorem prepareCallHierarchy_items_name_their_symbol
    (L : Library) (AST : RequestAST) (Pos : Position) (TUPath : string)
    (CHI : CallHierarchyItem) :
  CHI ∈ prepareCallHierarchy L AST Pos TUPath →
  ∃ Loc D,
    sourceLocationInMainFile (getSourceManager AST) Pos = Some Loc
    ∧ prepareCallHierarchy L AST Pos TUPath
      = omap (λ D, declToCallHierarchyItem L AST D (tuPath AST))
          (filter (call_hierarchy_root AST) (getDeclAtPosition AST Loc 0))
    ∧ D ∈ getDeclAtPosition AST Loc 0
    ∧ call_hierarchy_root AST D
    ∧ chi_name CHI = printName (getASTContext AST) D
    ∧ Range_contains (chi_range CHI) (chi_selectionRange CHI) = true
    ∧ (getSymbolID (getASTContext AST) D = 0 →
       chi_data CHI = ""
       ∧ ∀ Index, incomingCalls L CHI Index = Some []
                  ∧ outgoingCalls L CHI Index = Some [])
    ∧ (getSymbolID (getASTContext AST) D ≠ 0 →
       SymbolID_fromStr L (SymbolID_str L (getSymbolID (getASTContext AST) D))
       = Some (getSymbolID (getASTContext AST) D) →
       SymbolID_fromStr L (chi_data CHI)
       = Some (getSymbolID (getASTContext AST) D)).
Proof.
  unfold prepareCallHierarchy.
  destruct (sourceLocationInMainFile (getSourceManager AST) Pos) as [Loc|];
    [|by intros ?%elem_of_nil].
  rewrite prepareCallHierarchy_fold, app_nil_l.
  intros (D & [HRoot HD]%list_elem_of_filter & HCHI)%list_elem_of_omap.
  exists Loc, D. split; [done|]. split; [done|]. split; [done|].
  split; [done|].
  unfold declToCallHierarchyItem in HCHI.
  destruct (declToHierarchyItem L AST D (tuPath AST)) as [Item|] eqn:HItem;
    [|done].
  apply declToHierarchyItem_range in HItem as [HRange HName].
  injection HCHI as <-. simpl. split; [done|]. split; [done|].
  unfold SymbolID_isNull. split.
  - intros ->. simpl. split; [done|].
    intros [Index|]; unfold incomingCalls, outgoingCalls; simpl; done.
  - intros Hne Hback. by rewrite (proj2 (Z.eqb_neq _ _) Hne).
Qed.

(** The theorem with the cursor on [B::f] in [Fixture_References]: one
    item, whose data reads back as the id of the method. *)
Lemma prepareCallHierarchy_items_name_their_symbol_witness :
  prepareCallHierarchy Fixture_Classes.library Fixture_References.file
    Fixture_References.cursor "/elsewhere"
  = [mkCallHierarchyItem "f" "" "file:///src/main.cpp"
       (mkRange (mkPosition 0 1) (mkPosition 0 2))
       (mkRange (mkPosition 0 1) (mkPosition 0 2)) []
       (SymbolID_str Fixture_Classes.library 2)]
  ∧ SymbolID_fromStr Fixture_Classes.library
      (SymbolID_str Fixture_Classes.library 2) = Some 2.
Proof.
  split; [reflexivity|].
  destruct (prepareCallHierarchy_items_name_their_symbol
              Fixture_Classes.library Fixture_References.file
              Fixture_References.cursor "/elsewhere"
              (mkCallHierarchyItem "f" "" "file:///src/main.cpp"
                 (mkRange (mkPosition 0 1) (mkPosition 0 2))
                 (mkRange (mkPosition 0 1) (mkPosition 0 2)) []
                 (SymbolID_str Fixture_Classes.library 2)))
    as (Loc & D & _ & _ & _ & _ & _ & _ & _ & _).
  - left.
  - reflexivity.
Defined.

Lemma resolveTypeHierarchy_skip (L : Library) (Item : TypeHierarchyEntry)
    (ResolveLevels : Z) (Direction : TypeHierarchyDirection)
    (Index : option SymbolIndex) :
  Index = None ∨ Direction = Direction_Parents ∨ ResolveLevels = 0 →
  resolveTypeHierarchy L Item ResolveLevels Direction Index = Item.
Proof.
  unfold resolveTypeHierarchy. intros [H|[H|H]]; rewrite H; [done|..];
    destruct Index; try done.
  by rewrite orb_true_r.
Qed.

Lemma resolveTypeHierarchy_fill (L : Library) (Item : TypeHierarchyEntry)
    (ResolveLevels : Z) (Direction : TypeHierarchyDirection)
    (Index : SymbolIndex) :
  Direction ≠ Direction_Parents → ResolveLevels ≠ 0 →
  resolveTypeHierarchy L Item ResolveLevels Direction (Some Index)
  = set_children
      (Some (fillSubTypes L (data_symbolID (item_data (entry_item Item)))
               [] Index ResolveLevels
               (URIForFile_file L (item_uri (entry_item Item)))))
      Item.
Proof.
  intros HD HL. unfold resolveTypeHierarchy.
  by rewrite bool_decide_eq_false_2, (proj2 (Z.eqb_neq _ _) HL).
Qed.

(** X19. [resolveTypeHierarchy] replaces the children of the item by the
    subtypes the index holds, down to [ResolveLevels] levels, and leaves
    the rest of the item as it is; so resolving twice gives what
    resolving once gives. It does nothing without an index, for the
    direction [Parents] and for zero levels. Otherwise, for every number
    of levels, the children are what [fillSubTypes] gives for the id of
    the item from the empty list: one entry for each answer of the index
    to the [BaseOf] query for the id that has a location, in the order of
    the answers, its children filled with one level less when more than
    one level is asked for; so the children are the tree of the subtypes
    down to [ResolveLevels] levels. A negative number of levels resolves
    one level, as one does, and the children of one level are the entries
    [subTypes] answers, before those record their parent. *)
Theorem resolveTypeHierarchy_replaces_children
    (L : Library) (Item : TypeHierarchyEntry) (ResolveLevels : Z)
    (Direction : TypeHierarchyDirection) (Index : option SymbolIndex) :
  let Resolved := resolveTypeHierarchy L Item ResolveLevels Direction Index in
  let ID := data_symbolID (item_data (entry_item Item)) in
  let File := URIForFile_file L (item_uri (entry_item Item)) in
  entry_item Resolved = entry_item Item
  ∧ entry_detail Resolved = entry_detail Item
  ∧ resolveTypeHierarchy L Resolved ResolveLevels Direction Index = Resolved
  ∧ (Index = None ∨ Direction = Direction_Parents ∨ ResolveLevels = 0 →
     Resolved = Item)
  ∧ (∀ Idx, Index = Some Idx → Direction ≠ Direction_Parents →
       ResolveLevels ≠ 0 →
       ∃ Children,
         entry_children Resolved = Some Children
         ∧ Children = fillSubTypes L ID [] Idx ResolveLevels File
         ∧ Children
           = omap (λ Answer : SymbolID * Symbol,
                     (λ ChildSym,
                        if bool_decide (1 < ResolveLevels)
                        then set_children
                               (Some (fillSubTypes L (sym_ID Answer.2) [] Idx
                                        (ResolveLevels - 1) File))
                               ChildSym
                        else ChildSym)
                     <$> symbolToTypeHierarchyItem L Answer.2 File)
               (relations Idx BaseOf {[ID]})
         ∧ subtype_tree L Idx File (Z.to_nat (ResolveLevels - 1)) ID Children
         ∧ (ResolveLevels ≤ 1 →
            Resolved = resolveTypeHierarchy L Item 1 Direction Index
            ∧ subTypes L Item Idx
              = set_data_parents (Some [item_data (entry_item Item)])
                <$> Children)).
Proof.
  intros Resolved ID File. unfold Resolved. clear Resolved.
  destruct (decide (Index = None ∨ Direction = Direction_Parents
                    ∨ ResolveLevels = 0)) as [Hskip|Hfill].
  { rewrite !resolveTypeHierarchy_skip by done.
    split; [done|]. split; [done|]. split; [done|]. split; [done|].
    intros Idx -> HD HL. destruct Hskip as [?|[?|?]]; done. }
  destruct Index as [Idx|]; [|by destruct Hfill; left].
  assert (Direction ≠ Direction_Parents) as HD by (intros ?; apply Hfill; auto).
  assert (ResolveLevels ≠ 0) as HL by (intros ?; apply Hfill; auto).
  rewrite !resolveTypeHierarchy_fill by done.
  subst ID File.
  destruct Item as [item detail children]. simpl.
  split; [done|]. split; [done|]. split; [done|].
  split; [by intros ?|].
  intros Idx' [= <-] _ _. eexists. split; [done|]. split; [done|].
  split; [by rewrite fillSubTypes_unfold at 1|].
  split; [apply fillSubTypes_levels_tree|].
  intros Hle. unfold subTypes, fillSubTypes. simpl.
  by replace (Z.to_nat (ResolveLevels - 1)) with 0%nat by lia.
Qed.

(** ** The control flow under a root *)

Section FlowNode_induction.
Variable P : FlowNode → Prop.
Hypothesis step :
  ∀ kind node Loc Label Begin End Body Cases children,
    Forall P children →
    P (mkFlowNode kind node Loc Label Begin End Body Cases children).

Fixpoint FlowNode_children_ind (N : FlowNode) : P N :=
  match N with
  | mkFlowNode kind node Loc Label Begin End Body Cases children =>
      step kind node Loc Label Begin End Body Cases children
        ((fix go (cs : list FlowNode) : Forall P cs :=
            match cs with
            | [] => @List.Forall_nil _ P
            | c :: cs' =>
                @List.Forall_cons _ P c cs' (FlowNode_children_ind c) (go cs')
            end) children)
  end.

End FlowNode_induction.

(** [flow_reaches Root path M]: the traversal from [Root] comes to [M]
    through the nodes of [path], from [Root] down to the parent of
    [M]. *)
Inductive flow_reaches : FlowNode → list FlowNode → FlowNode → Prop :=
| flow_reaches_here N : flow_reaches N [] N
| flow_reaches_child N C path M :
    C ∈ flow_children N → flow_reaches C path M →
    flow_reaches N (N :: path) M.

(** What a node stands for in the search: the kind of target and the
    location of the keyword. A [goto] counts when its label is outside
    the bounds. *)
Definition flow_target (SM : SourceManager) (Bounds : SourceRange)
    (M : FlowNode) : option (Z * SourceLocation) :=
  match flow_kind M with
  | FK_Return => Some (FindControlFlow.Return, flow_Loc M)
  | FK_Break => Some (FindControlFlow.Break, flow_Loc M)
  | FK_Continue => Some (FindControlFlow.Continue, flow_Loc M)
  | FK_SwitchCase => Some (FindControlFlow.Case, flow_Loc M)
  | FK_Throw => Some (FindControlFlow.Throw, flow_Loc M)
  | FK_Goto =>
      match flow_Label M with
      | Some LD =>
          if isBeforeInTranslationUnit SM LD Bounds.1
             || isBeforeInTranslationUnit SM Bounds.2 LD
          then Some (FindControlFlow.Goto, flow_Loc M)
          else None
      | None => None
      end
  | _ => None
  end.

(** The location is neither before the beginning nor after the end of
    the bounds. *)
Definition within_bounds (SM : SourceManager) (Bounds : SourceRange)
    (Loc : SourceLocation) : Prop :=
  isBeforeInTranslationUnit SM Loc Bounds.1 = false
  ∧ isBeforeInTranslationUnit SM Bounds.2 Loc = false.

(** A node on the way hides a target below it: a function, block, lambda
    or method with a body hides everything; a loop hides [break] and
    [continue]; a switch hides [break] and [case]. *)
Definition flow_hides (T : Z) (P : FlowNode) : Prop :=
  is_Some (getFunctionBody P)
  ∨ (is_Some (getLoopBody P)
     ∧ (T = FindControlFlow.Break ∨ T = FindControlFlow.Continue))
  ∨ (flow_kind P = FK_Switch
     ∧ (T = FindControlFlow.Break ∨ T = FindControlFlow.Case)).

Definition is_target (T : Z) : Prop :=
  T = FindControlFlow.Break ∨ T = FindControlFlow.Continue
  ∨ T = FindControlFlow.Return ∨ T = FindControlFlow.Case
  ∨ T = FindControlFlow.Throw ∨ T = FindControlFlow.Goto.

Lemma flow_target_is_target SM Bounds M T Loc :
  flow_target SM Bounds M = Some (T, Loc) → is_target T.
Proof.
  unfold flow_target, is_target.
  destruct (flow_kind M); try done; try (intros [= <- _]; auto 10).
  destruct (flow_Label M); [|done]. destruct (_ || _); [|done].
  intros [= <- _]. auto 10.
Qed.

Lemma flow_target_not_hiding SM Bounds M T Loc I :
  flow_target SM Bounds M = Some (T, Loc) →
  FindControlFlow.filter_Ignore I M = I.
Proof.
  unfold flow_target, FindControlFlow.filter_Ignore, getFunctionBody,
    getLoopBody.
  destruct (flow_kind M) eqn:HK; try done; intros _;
    rewrite !bool_decide_eq_false_2; try done; by intros [? ?].
Qed.

Lemma filter_Ignore_All D :
  FindControlFlow.filter_Ignore FindControlFlow.All D = FindControlFlow.All.
Proof.
  unfold FindControlFlow.filter_Ignore. repeat case_bool_decide; done.
Qed.

Lemma foldl_filter_Ignore_All nodes :
  foldl FindControlFlow.filter_Ignore FindControlFlow.All nodes
  = FindControlFlow.All.
Proof.
  induction nodes as [|D nodes IH]; [done|]. cbn [foldl].
  by rewrite filter_Ignore_All.
Qed.

Lemma is_target_All T : is_target T → Z.land T FindControlFlow.All ≠ 0.
Proof. intros [-> | [-> | [-> | [-> | [-> | ->] ] ] ] ]; done. Qed.

(** The mask lets a target through after a node exactly when it did
    before and the node does not hide the target. *)
Lemma filter_Ignore_hides T I D :
  is_target T →
  Z.land T (FindControlFlow.filter_Ignore I D) = 0
  ↔ Z.land T I = 0 ∧ ¬ flow_hides T D.
Proof.
  intros HT. unfold FindControlFlow.filter_Ignore, flow_hides.
  case_bool_decide as HF.
  { split; [by intros ?%is_target_All|]. intros [_ []]. by left. }
  case_bool_decide as HLoop.
  { assert (flow_kind D ≠ FK_Switch) as HS.
    { unfold getLoopBody in HLoop. destruct (flow_kind D); try done;
        by destruct HLoop. }
    rewrite Z.land_lor_distr_r, Z.lor_eq_0_iff.
    split.
    - intros [HI HT']. split; [done|].
      intros [?|[[_ [->| ->]]|[? _]]]; done.
    - intros [HI Hn]. split; [done|].
      destruct HT as [-> | [-> | [-> | [-> | [-> | ->] ] ] ] ]; try done;
        destruct Hn; right; left; auto. }
  case_bool_decide as HSw.
  { rewrite Z.land_lor_distr_r, Z.lor_eq_0_iff.
    split.
    - intros [HI HT']. split; [done|].
      intros [?|[[? _]|[_ [->| ->]]]]; done.
    - intros [HI Hn]. split; [done|].
      destruct HT as [-> | [-> | [-> | [-> | [-> | ->] ] ] ] ]; try done;
        destruct Hn; right; right; auto. }
  split; [|by intros [? _]]. intros HI. split; [done|].
  intros [?|[[? _]|[? _]]]; done.
Qed.

Lemma foldl_filter_Ignore_hides T nodes :
  is_target T →
  ∀ I, Z.land T (foldl FindControlFlow.filter_Ignore I nodes) = 0
       ↔ Z.land T I = 0 ∧ Forall (λ P, ¬ flow_hides T P) nodes.
Proof.
  intros HT. induction nodes as [|D nodes IH]; intros I; cbn [foldl].
  { split; [by intros ?|by intros [? _]]. }
  rewrite IH, filter_Ignore_hides, Forall_cons by done. tauto.
Qed.

Lemma Visit_spec SM Bounds I N Result Loc :
  Loc ∈ FindControlFlow.Visit SM Bounds I N Result
  ↔ Loc ∈ Result
    ∨ ∃ T, flow_target SM Bounds N = Some (T, Loc)
           ∧ Z.land T I = 0 ∧ within_bounds SM Bounds Loc.
Proof.
  assert (∀ T L,
            Loc ∈ FindControlFlow.found SM Bounds I T L Result
            ↔ Loc ∈ Result
              ∨ (L = Loc ∧ Z.land T I = 0 ∧ within_bounds SM Bounds Loc))
    as Hfound.
  { intros T L. unfold FindControlFlow.found, within_bounds.
    destruct (Z.land T I =? 0) eqn:HI; simpl.
    2:{ apply Z.eqb_neq in HI. split; [by left|]. by intros [?|(_ & ? & _)]. }
    apply Z.eqb_eq in HI.
    destruct (isBeforeInTranslationUnit SM L Bounds.1) eqn:H1; simpl.
    { split; [by left|]. intros [?|(<- & _ & ? & _)]; [done|congruence]. }
    destruct (isBeforeInTranslationUnit SM Bounds.2 L) eqn:H2; simpl.
    { split; [by left|]. intros [?|(<- & _ & _ & ?)]; [done|congruence]. }
    rewrite elem_of_app, list_elem_of_singleton. split.
    - intros [?| ->]; [by left|]. right. done.
    - intros [?|(-> & _)]; [by left|by right]. }
  unfold FindControlFlow.Visit, flow_target.
  destruct (flow_kind N);
    try (rewrite Hfound; split;
         [intros [?|(<- & ? & ?)]; [by left|right; eauto]
         |intros [?|(T & [= <- <-] & ? & ?)]; [by left|by right]]);
    try (split; [by left|by intros [?|(? & ? & _)]]).
  destruct (flow_Label N) as [LD|].
  2:{ split; [by left|by intros [?|(? & ? & _)]]. }
  destruct (_ || _).
  2:{ split; [by left|by intros [?|(? & ? & _)]]. }
  rewrite Hfound; split;
    [intros [?|(<- & ? & ?)]; [by left|right; eauto]
    |intros [?|(T & [= <- <-] & ? & ?)]; [by left|by right]].
Qed.

Lemma Traverse_unfold SM Bounds I N Result :
  FindControlFlow.Traverse SM Bounds I N Result
  = if FindControlFlow.filter_Ignore I N =? FindControlFlow.All then Result
    else foldl (λ Result C,
                  FindControlFlow.Traverse SM Bounds
                    (FindControlFlow.filter_Ignore I N) C Result)
           (FindControlFlow.Visit SM Bounds
              (FindControlFlow.filter_Ignore I N) N Result)
           (flow_children N).
Proof. by destruct N. Qed.

(** What the traversal adds: the keyword of every target it comes to
    that the mask, as the nodes on the way have made it, lets through,
    and that is within the bounds. *)
Lemma Traverse_spec SM Bounds N :
  ∀ I Result Loc,
    Loc ∈ FindControlFlow.Traverse SM Bounds I N Result
    ↔ Loc ∈ Result
      ∨ ∃ path M T,
          flow_reaches N path M
          ∧ flow_target SM Bounds M = Some (T, Loc)
          ∧ Z.land T (foldl FindControlFlow.filter_Ignore I (path ++ [M])) = 0
          ∧ within_bounds SM Bounds Loc.
Proof.
  induction N as [kind node L Label Begin End Body Cases children IH]
    using FlowNode_children_ind.
  intros I Result Loc. rewrite Traverse_unfold.
  set (N := mkFlowNode kind node L Label Begin End Body Cases children).
  set (I' := FindControlFlow.filter_Ignore I N).
  change (flow_children N) with children.
  destruct (I' =? FindControlFlow.All) eqn:HAll.
  { apply Z.eqb_eq in HAll. split; [by left|].
    intros [?|(path & M & T & Hreach & HT & Hmask & _)]; [done|].
    exfalso. apply flow_target_is_target in HT.
    apply (is_target_All T HT). rewrite <- Hmask. f_equal.
    inversion Hreach; subst; cbn [app foldl]; fold N; fold I';
      by rewrite HAll, ?foldl_filter_Ignore_All. }
  assert (∀ cs R0,
            Forall (λ C, ∀ I Result Loc,
                      Loc ∈ FindControlFlow.Traverse SM Bounds I C Result
                      ↔ Loc ∈ Result
                        ∨ ∃ path M T,
                            flow_reaches C path M
                            ∧ flow_target SM Bounds M = Some (T, Loc)
                            ∧ Z.land T
                                (foldl FindControlFlow.filter_Ignore I
                                   (path ++ [M])) = 0
                            ∧ within_bounds SM Bounds Loc) cs →
            Loc ∈ foldl (λ Result C,
                           FindControlFlow.Traverse SM Bounds I' C Result)
                    R0 cs
            ↔ Loc ∈ R0
              ∨ ∃ C path M T,
                  C ∈ cs ∧ flow_reaches C path M
                  ∧ flow_target SM Bounds M = Some (T, Loc)
                  ∧ Z.land T
                      (foldl FindControlFlow.filter_Ignore I' (path ++ [M]))
                    = 0
                  ∧ within_bounds SM Bounds Loc) as Hfold.
  { clear IH. induction cs as [|C cs IHcs]; intros R0 HF; cbn [foldl].
    { split; [by left|].
      intros [?|(? & ? & ? & ? & ?%elem_of_nil & _)]; done. }
    apply Forall_cons in HF as [HC HF]. rewrite (IHcs _ HF), HC. split.
    - intros [[?|(path & M & T & ? & ? & ? & ?)]
             |(C' & path & M & T & ? & ? & ? & ? & ?)].
      + by left.
      + right. exists C, path, M, T. split; [left|done].
      + right. exists C', path, M, T. split; [by right|done].
    - intros [?|(C' & path & M & T & [->|?]%elem_of_cons & ? & ? & ? & ?)].
      + by left; left.
      + left. right. by exists path, M, T.
      + right. by exists C', path, M, T. }
  rewrite (Hfold children _ IH), Visit_spec. split.
  - intros [[?|(T & HT & Hmask & Hin)]
           |(C & path & M & T & HC & Hreach & HT & Hmask & Hin)].
    + by left.
    + right. exists [], N, T. split; [constructor|]. split; [done|].
      split; [|done]. done.
    + right. exists (N :: path), M, T.
      split; [by econstructor|]. split; [done|]. split; [|done]. done.
  - intros [?|(path & M & T & Hreach & HT & Hmask & Hin)]; [by left; left|].
    inversion Hreach as [|? C path' ? HC Hreach']; subst.
    + left. right. by exists T.
    + right. by exists C, path', M, T.
Qed.

(** X20. What the search for control flow under a root reports: the
    location of the keyword of every [return], [break], [continue],
    [case] or [default], [throw] and [goto] statement the traversal comes
    to from the root, provided that the location is within the bounds
    (neither before their beginning nor after their end, the end
    included), that a [goto] names a label outside the bounds, and that
    no node from the root down to the statement hides it: a function,
    block, lambda or method with a body hides every statement in it, a
    loop hides [break] and [continue], a switch hides [break] and [case].
    Nothing else is reported. The root itself counts among the nodes
    that hide. *)
Theorem FindControlFlow_reports_unhidden_targets
    (SM : SourceManager) (Bounds : SourceRange) (Root : FlowNode)
    (Result : list SourceLocation) (Loc : SourceLocation) :
  Loc ∈ FindControlFlow.Traverse SM Bounds 0 Root Result
  ↔ Loc ∈ Result
    ∨ ∃ path M T,
        flow_reaches Root path M
        ∧ flow_target SM Bounds M = Some (T, Loc)
        ∧ Forall (λ P, ¬ flow_hides T P) path
        ∧ within_bounds SM Bounds Loc.
Proof.
  rewrite Traverse_spec. split.
  - intros [?|(path & M & T & Hreach & HT & Hmask & Hin)]; [by left|].
    right. exists path, M, T. split; [done|]. split; [done|].
    split; [|done].
    apply foldl_filter_Ignore_hides in Hmask as [_ HF];
      [|by eapply flow_target_is_target].
    by apply Forall_app in HF as [? _].
  - intros [?|(path & M & T & Hreach & HT & Hpath & Hin)]; [by left|].
    right. exists path, M, T. split; [done|]. split; [done|].
    split; [|done].
    rewrite foldl_app. cbn [foldl].
    rewrite (flow_target_not_hiding _ _ _ _ _ _ HT).
    apply foldl_filter_Ignore_hides; [by eapply flow_target_is_target|].
    split; [|done].
    destruct (flow_target_is_target _ _ _ _ _ HT)
      as [-> | [-> | [-> | [-> | [-> | ->] ] ] ] ]; done.
Qed.

(** ** The bounds of a case *)

(** The binary search on a partitioned list finds the end of the first
    part. *)
Lemma partition_point_search_spec {A} (P : A → bool) (l1 l2 : list A) :
  Forall (λ x, P x = true) l1 → Forall (λ x, P x = false) l2 →
  ∀ fuel first len,
    (len ≤ fuel)%nat → (first ≤ length l1)%nat →
    (length l1 ≤ first + len)%nat → (first + len ≤ length (l1 ++ l2))%nat →
    partition_point_search P (l1 ++ l2) fuel first len = length l1.
Proof.
  intros H1 H2. induction fuel as [|fuel IH]; intros first len Hfuel Hlo Hhi Hlen.
  { simpl. lia. }
  cbn [partition_point_search]. destruct len as [|len']; [lia|].
  set (len := Datatypes.S len') in *.
  assert (len / 2 < len)%nat as Hhalf by (apply Nat.div_lt; lia).
  generalize dependent (len / 2)%nat. intros half Hhalf.
  destruct (lookup_lt_is_Some_2 (l1 ++ l2) (first + half)) as [x Hx]; [lia|].
  rewrite Hx.
  destruct (decide (first + half < length l1)%nat) as [Hin|Hout].
  - rewrite lookup_app_l in Hx by done.
    rewrite Forall_forall in H1.
    rewrite (H1 x) by (by eapply list_elem_of_lookup_2).
    apply IH; lia.
  - rewrite lookup_app_r in Hx by lia.
    rewrite Forall_forall in H2.
    rewrite (H2 x) by (by eapply list_elem_of_lookup_2).
    apply IH; lia.
Qed.

Lemma partition_point_index_spec {A} (P : A → bool) (l1 l2 : list A) :
  Forall (λ x, P x = true) l1 → Forall (λ x, P x = false) l2 →
  partition_point_index P (l1 ++ l2) = length l1.
Proof.
  intros H1 H2. unfold partition_point_index.
  apply partition_point_search_spec; try done; rewrite ?length_app; lia.
Qed.

(** Each case of the run has the next one as its substatement:
    [case A: case B: ...]. *)
Definition case_chain (Run : list SwitchCase) : Prop :=
  ∀ i A B, Run !! i = Some A → Run !! Datatypes.S i = Some B →
           case_SubStmt A = case_node B.

Lemma findCaseBounds_rewind_spec (Cases : list SwitchCase) :
  ∀ n, (n < length Cases)%nat →
    (findCaseBounds_rewind Cases n ≤ n)%nat
    ∧ (∀ i A B, (findCaseBounds_rewind Cases n ≤ i < n)%nat →
                Cases !! i = Some A → Cases !! Datatypes.S i = Some B →
                case_SubStmt A = case_node B)
    ∧ (∀ r A B, findCaseBounds_rewind Cases n = Datatypes.S r →
                Cases !! r = Some A → Cases !! Datatypes.S r = Some B →
                case_SubStmt A ≠ case_node B).
Proof.
  induction n as [|p IH]; intros Hn; cbn [findCaseBounds_rewind].
  { split; [done|]. split; [intros; lia|done]. }
  destruct (lookup_lt_is_Some_2 Cases p) as [P HP]; [lia|].
  destruct (lookup_lt_is_Some_2 Cases (Datatypes.S p)) as [C HC]; [lia|].
  rewrite HP, HC.
  destruct (case_SubStmt P =? case_node C)%nat eqn:Heq.
  - apply Nat.eqb_eq in Heq. destruct (IH ltac:(lia)) as (Hle & Hchain & Hstop).
    split; [lia|]. split; [|done].
    intros i A B Hi HA HB.
    destruct (decide (i = p)) as [->|Hne].
    + rewrite HP in HA. rewrite HC in HB. by injection HA as <-; injection HB as <-.
    + apply (Hchain i); [lia|done..].
  - apply Nat.eqb_neq in Heq. split; [done|]. split; [intros; lia|].
    intros r A B [= <-] HA HB. rewrite HP in HA. rewrite HC in HB.
    by injection HA as <-; injection HB as <-.
Qed.

Section CaseBounds.
Context (SM : SourceManager).
Hypothesis before_spec :
  ∀ a b, isBeforeInTranslationUnit SM a b = (a <? b).

Lemma case_not_after_spec L R :
  case_not_after SM L R ↔ case_KeywordLoc L ≤ case_KeywordLoc R.
Proof.
  unfold case_not_after, case_before. rewrite before_spec. apply Z.ltb_ge.
Qed.

#[local] Instance case_not_after_total : Total (case_not_after SM).
Proof. intros L R. rewrite !case_not_after_spec. lia. Qed.

#[local] Instance case_not_after_trans : Transitive (case_not_after SM).
Proof. intros A B C. rewrite !case_not_after_spec. lia. Qed.

Lemma findCaseBounds_sorted Cases :
  StronglySorted (λ A B, case_KeywordLoc A ≤ case_KeywordLoc B)
    (merge_sort (case_not_after SM) Cases).
Proof.
  eapply (StronglySorted_weaken (case_not_after SM) _ (λ _, True)).
  - apply StronglySorted_merge_sort; apply _.
  - by apply Forall_forall.
  - intros A B _ _. apply case_not_after_spec.
Qed.

Lemma sorted_cases_split (Loc : SourceLocation) Cases :
  StronglySorted (λ A B, case_KeywordLoc A ≤ case_KeywordLoc B) Cases →
  ∃ l1 l2,
    Cases = l1 ++ l2
    ∧ Forall (λ C, case_KeywordLoc C ≤ Loc) l1
    ∧ Forall (λ C, Loc < case_KeywordLoc C) l2.
Proof.
  induction 1 as [|C Cases Hs IH HC].
  { by exists [], []. }
  destruct (decide (case_KeywordLoc C ≤ Loc)) as [Hle|Hgt].
  - destruct IH as (l1 & l2 & -> & H1 & H2).
    exists (C :: l1), l2. split; [done|]. split; [by constructor|done].
  - exists [], (C :: Cases). split; [done|]. split; [done|].
    constructor; [lia|]. eapply Forall_impl; [exact HC|]. simpl. lia.
Qed.

End CaseBounds.

(** X21. [findCaseBounds], on a translation unit whose locations are
    ordered as their numbers are: with the cases of the switch put in
    the order of their keywords, the range ends at the keyword of the
    first case after the location, or at the end of the switch when no
    case follows; it begins at the beginning of the switch when no case
    is at or before the location, and otherwise at the keyword of the
    first case of the run [case A: case B: ...] - every case the
    substatement of the one before - that ends with the last case at or
    before the location; the case before the run, if any, does not have
    the first case of the run as its substatement. So a location in the
    switch is never before the beginning of the range nor at or after
    its end. *)
Theorem findCaseBounds_bounds_the_run_of_cases
    (SM : SourceManager) (Switch : FlowNode) (Loc : SourceLocation) :
  (∀ a b, isBeforeInTranslationUnit SM a b = (a <? b)) →
  ∃ Before Run After,
    Before ++ Run ++ After ≡ₚ flow_Cases Switch
    ∧ StronglySorted (λ A B, case_KeywordLoc A ≤ case_KeywordLoc B)
        (Before ++ Run ++ After)
    ∧ Forall (λ C, case_KeywordLoc C ≤ Loc) (Before ++ Run)
    ∧ Forall (λ C, Loc < case_KeywordLoc C) After
    ∧ case_chain Run
    ∧ (Run = [] → Before = [])
    ∧ (∀ B C, last Before = Some B → head Run = Some C →
              case_SubStmt B ≠ case_node C)
    ∧ findCaseBounds Switch Loc SM
      = (match Run with
         | C :: _ => case_KeywordLoc C
         | [] => flow_Begin Switch
         end,
         match After with
         | C :: _ => case_KeywordLoc C
         | [] => flow_End Switch
         end)
    ∧ (flow_Begin Switch ≤ Loc → (findCaseBounds Switch Loc SM).1 ≤ Loc)
    ∧ (Loc < flow_End Switch → Loc < (findCaseBounds Switch Loc SM).2).
Proof.
  intros Hbefore. unfold findCaseBounds.
  pose proof (findCaseBounds_sorted SM Hbefore (flow_Cases Switch)) as Hsorted.
  pose proof (merge_sort_Permutation (case_not_after SM) (flow_Cases Switch))
    as Hperm.
  destruct (sorted_cases_split Loc _ Hsorted) as (l1 & l2 & HCases & H1 & H2).
  set (Cases := merge_sort (case_not_after SM) (flow_Cases Switch)) in *.
  clearbody Cases. subst Cases.
  rewrite partition_point_index_spec.
  2:{ eapply Forall_impl; [exact H1|]. intros C HC. simpl.
      rewrite Hbefore. apply negb_true_iff, Z.ltb_ge. done. }
  2:{ eapply Forall_impl; [exact H2|]. intros C HC. simpl.
      rewrite Hbefore. apply negb_false_iff, Z.ltb_lt. done. }
  assert ((l1 ++ l2) !! length l1 = head l2) as ->.
  { rewrite lookup_app_r, Nat.sub_diag, head_lookup by lia. done. }
  destruct (length l1) as [|n] eqn:Hlen.
  { apply length_zero_iff_nil in Hlen as ->.
    exists [], [], l2. simpl. split; [done|]. split; [done|].
    split; [done|]. split; [done|]. split; [by intros i A B ?|].
    split; [done|]. split; [done|].
    destruct l2 as [|C l2]; simpl; (split; [done|]); (split; [done|]);
      [done|]. intros _. by apply Forall_cons in H2 as [? _]. }
  destruct (findCaseBounds_rewind_spec (l1 ++ l2) n)
    as (Hle & Hchain & Hstop).
  { rewrite length_app. lia. }
  set (r := findCaseBounds_rewind (l1 ++ l2) n) in *.
  assert (l1 = take r l1 ++ drop r l1) as Hl1 by (by rewrite take_drop).
  assert (∀ i, (i < Datatypes.S n)%nat → (l1 ++ l2) !! i = l1 !! i) as Hin.
  { intros i Hi. apply lookup_app_l. lia. }
  destruct (lookup_lt_is_Some_2 l1 r) as [C0 HC0]; [lia|].
  rewrite (Hin r) by lia. rewrite HC0.
  assert (drop r l1 = C0 :: drop (Datatypes.S r) l1) as Hdrop.
  { by apply drop_S. }
  exists (take r l1), (drop r l1), l2.
  rewrite app_assoc, take_drop.
  split; [done|]. split; [done|]. split; [done|]. split; [done|].
  split; [|split; [|split; [|split; [|split]]]].
  - intros i A B HA HB. rewrite lookup_drop in HA, HB.
    apply (Hchain (r + i)%nat).
    + apply lookup_lt_Some in HB. lia.
    + rewrite Hin; [done|]. apply lookup_lt_Some in HA. lia.
    + replace (Datatypes.S (r + i)) with (r + Datatypes.S i)%nat by lia.
      rewrite Hin; [done|]. apply lookup_lt_Some in HB. lia.
  - by rewrite Hdrop.
  - intros B C HB HC. rewrite last_lookup, length_take_le in HB by lia.
    rewrite head_lookup, lookup_drop, Nat.add_0_r in HC.
    destruct r as [|r'] eqn:Hr; [done|]. simpl in HB.
    rewrite lookup_take_lt in HB by lia.
    apply (Hstop r'); [done| |].
    + rewrite Hin; [done|lia].
    + rewrite Hin; [done|lia].
  - rewrite Hdrop. by destruct l2.
  - intros _. simpl. rewrite Forall_forall in H1. apply H1.
    by eapply list_elem_of_lookup_2.
  - intros HE. simpl. destruct l2 as [|C l2]; [done|].
    by apply Forall_cons in H2 as [? _].
Qed.

(** ** The root of the related control flow *)

(** The leaf [relatedControlFlow] takes the node under the cursor for. *)
Definition flow_cursor (N : FlowNode) : Cur :=
  match flow_kind N with
  | FK_Break => Cur_Break
  | FK_Continue => Cur_Continue
  | FK_Return => Cur_Return
  | FK_Throw => Cur_Throw
  | FK_SwitchCase => Cur_Case
  | _ => Cur_None
  end.

(** An ancestor at which the walk up the tree ends: a function, block,
    lambda or method with a body, for every leaf; a loop, for [break] and
    [continue]; a switch, for [break] and [case]. *)
Definition cursor_binds (Cursor : Cur) (P : FlowNode) : Prop :=
  is_Some (getFunctionBody P)
  ∨ (is_Some (getLoopBody P)
     ∧ (Cursor = Cur_Break ∨ Cursor = Cur_Continue))
  ∨ (flow_kind P = FK_Switch ∧ (Cursor = Cur_Break ∨ Cursor = Cur_Case)).

(** The bounds of the search under a root: those found for a case of a
    switch if they are valid, and the range of the root otherwise. *)
Definition root_bounds (Bounds : SourceRange) (Root : FlowNode) : SourceRange :=
  if negb (SourceRange_isValid Bounds)
  then (flow_Begin Root, flow_End Root) else Bounds.

(** What [relatedControlFlow] answers once the walk has ended at the
    ancestor [P]. *)
Definition related_at (SM : SourceManager) (N P : FlowNode)
  : list SourceLocation :=
  match getFunctionBody P with
  | Some Body =>
      if bool_decide (flow_cursor N = Cur_Return ∨ flow_cursor N = Cur_Throw)
      then FindControlFlow.Traverse SM (flow_Begin Body, flow_End Body) 0
             Body []
      else []
  | None =>
      match getLoopBody P with
      | Some Body =>
          FindControlFlow.Traverse SM (flow_Begin Body, flow_End Body) 0
            Body [flow_Begin P]
      | None =>
          match flow_Body P with
          | Some Body =>
              FindControlFlow.Traverse SM
                (root_bounds (findCaseBounds P (flow_Begin N) SM) Body) 0
                Body [flow_Loc P]
          | None => [flow_Loc P]
          end
      end
  end.

Lemma relatedControlFlow_root_skip SM Cursor Start Pre Rest Result :
  Cursor ≠ Cur_None →
  Forall (λ Q, ¬ cursor_binds Cursor Q) Pre →
  relatedControlFlow_root SM Cursor Start (Pre ++ Rest) Result
  = relatedControlFlow_root SM Cursor Start Rest Result.
Proof.
  intros HC. induction Pre as [|Q Pre IH]; intros HF; [done|].
  apply Forall_cons in HF as [HQ HF]. cbn [app relatedControlFlow_root].
  unfold cursor_binds in HQ.
  destruct (getFunctionBody Q) eqn:HFun; [destruct HQ; left; eauto|].
  rewrite (bool_decide_eq_false_2 (Cursor = Cur_None)) by done.
  destruct (decide (is_Some (getLoopBody Q))) as [HL|HL].
  - rewrite (bool_decide_eq_true_2 _ HL). cbn [andb].
    rewrite bool_decide_eq_false_2 by (intros [?|[?|?]]; [done|..]; apply HQ; auto).
    assert (flow_kind Q ≠ FK_Switch) as HS.
    { unfold getLoopBody in HL. destruct (flow_kind Q); try done;
        by destruct HL. }
    rewrite (bool_decide_eq_false_2 _ HS). cbn [andb]. by apply IH.
  - rewrite (bool_decide_eq_false_2 _ HL). cbn [andb].
    destruct (decide (flow_kind Q = FK_Switch)) as [HS|HS].
    + rewrite (bool_decide_eq_true_2 _ HS). cbn [andb].
      rewrite bool_decide_eq_false_2 by (intros ?; apply HQ; auto).
      by apply IH.
    + rewrite (bool_decide_eq_false_2 _ HS). cbn [andb]. by apply IH.
Qed.

Lemma flow_cursor_leaf N :
  flow_cursor N ≠ Cur_None → ¬ cursor_binds (flow_cursor N) N.
Proof.
  unfold flow_cursor, cursor_binds, getFunctionBody, getLoopBody.
  destruct (flow_kind N); try done; intros _ [[? ?]|[[[? ?] _]|[? _]]]; done.
Qed.

Lemma relatedControlFlow_leaf SM N Parents :
  flow_cursor N ≠ Cur_None →
  relatedControlFlow SM N Parents
  = let '(Root, Bounds, Result) :=
      relatedControlFlow_root SM (flow_cursor N) (flow_Begin N) Parents [] in
    match Root with
    | None => Result
    | Some Root =>
        FindControlFlow.Traverse SM (root_bounds Bounds Root) 0 Root Result
    end.
Proof.
  intros HC. unfold relatedControlFlow.
  assert ((match flow_kind N with
           | FK_Break => (Cur_Break, [])
           | FK_Continue => (Cur_Continue, [])
           | FK_Return => (Cur_Return, [])
           | FK_Throw => (Cur_Throw, [])
           | FK_SwitchCase => (Cur_Case, [])
           | FK_Goto =>
               (Cur_None,
                [flow_Loc N]
                ++ match flow_Label N with
                   | Some LD => [LD]
                   | None => []
                   end)
           | _ => (Cur_None, [])
           end) = (flow_cursor N, [])) as ->.
  { unfold flow_cursor in *. by destruct (flow_kind N). }
  rewrite (relatedControlFlow_root_skip SM _ _ [N] Parents); [done|done|].
  constructor; [by apply flow_cursor_leaf|done].
Qed.

(** X22. [relatedControlFlow] binds the statement under the cursor to the
    nearest ancestor that can hold it: [return] and [throw] to the
    nearest function, block, lambda or method that has a body; [break] to
    the nearest loop or switch; [continue] to the nearest loop; [case]
    and [default] to the nearest switch; and none of them beyond the
    nearest function with a body. The answer is then the keyword of that
    loop or switch followed by what the search reports under its body,
    within the range of the body or, for a switch, within the bounds of
    the case. Without such an ancestor the answer is empty. For any
    other node under the cursor the ancestors play no part. *)
Theorem relatedControlFlow_binds_to_nearest_ancestor
    (SM : SourceManager) (N : FlowNode) (Parents : list FlowNode) :
  (flow_cursor N = Cur_None →
   relatedControlFlow SM N Parents = relatedControlFlow SM N [])
  ∧ (flow_cursor N ≠ Cur_None →
     Forall (λ Q, ¬ cursor_binds (flow_cursor N) Q) Parents →
     relatedControlFlow SM N Parents = [])
  ∧ (∀ Pre P Rest,
       flow_cursor N ≠ Cur_None →
       Parents = Pre ++ P :: Rest →
       Forall (λ Q, ¬ cursor_binds (flow_cursor N) Q) Pre →
       cursor_binds (flow_cursor N) P →
       relatedControlFlow SM N Parents = related_at SM N P).
Proof.
  split; [|split].
  - intros HC. unfold relatedControlFlow.
    assert (∀ Result,
              relatedControlFlow_root SM Cur_None (flow_Begin N)
                (N :: Parents) Result
              = relatedControlFlow_root SM Cur_None (flow_Begin N) [N] Result)
      as Hroot.
    { intros Result. cbn [relatedControlFlow_root].
      destruct (getFunctionBody N); [done|].
      rewrite (bool_decide_eq_false_2 (Cur_None = Cur_Break ∨ _))
        by (intros [?|?]; done).
      rewrite andb_false_r.
      destruct (bool_decide (is_Some (getLoopBody N)) && _); done. }
    unfold flow_cursor in HC.
    destruct (flow_kind N); try done; by rewrite Hroot.
  - intros HC HF. rewrite relatedControlFlow_leaf by done.
    rewrite <- (app_nil_r Parents).
    by rewrite relatedControlFlow_root_skip.
  - intros Pre P Rest HC -> HF HP. rewrite relatedControlFlow_leaf by done.
    rewrite relatedControlFlow_root_skip by done.
    cbn [relatedControlFlow_root]. unfold related_at, root_bounds.
    destruct (getFunctionBody P) as [Body|] eqn:HFun.
    { case_bool_decide; done. }
    destruct HP as [[? ?]|[[HL HP]|[HS HP]]]; [congruence|..].
    + rewrite (bool_decide_eq_true_2 _ HL).
      rewrite bool_decide_eq_true_2 by tauto. cbn [andb].
      destruct HL as [Body HL]. by rewrite HL.
    + assert (getLoopBody P = None) as HL.
      { unfold getLoopBody. by rewrite HS. }
      rewrite HL.
      rewrite (bool_decide_eq_false_2 (is_Some None)) by (by intros [? ?]).
      cbn [andb].
      rewrite (bool_decide_eq_true_2 _ HS), (bool_decide_eq_true_2 _ HP).
      cbn [andb]. by destruct (flow_Body P).
Qed.

(** The function of [Fixture_Flow]. With the cursor on the [return] in
    the switch: that [return] and the [throw], not the [return] of the
    lambda. With the cursor on the [break] of the cases 1 and 2: the
    switch, the cases 1 and 2, the [break], and the keyword of case 3, at
    which the bounds end. With the cursor on the [continue]: the loop,
    the [return], the [continue] and the [break] outside the switch. *)
Example relatedControlFlow_on_return :
  relatedControlFlow Fixture_Flow.SM Fixture_Flow.return_100
    [Fixture_Flow.case_3; Fixture_Flow.switch_body; Fixture_Flow.switch;
     Fixture_Flow.loop_body; Fixture_Flow.loop; Fixture_Flow.function_body;
     Fixture_Flow.function]
  = [100; 300].
Proof. vm_compute. reflexivity. Qed.

Example relatedControlFlow_on_break_in_switch :
  relatedControlFlow Fixture_Flow.SM Fixture_Flow.break_80
    [Fixture_Flow.case_2; Fixture_Flow.case_1; Fixture_Flow.switch_body;
     Fixture_Flow.switch; Fixture_Flow.loop_body; Fixture_Flow.loop;
     Fixture_Flow.function_body; Fixture_Flow.function]
  = [50; 60; 70; 80; 90].
Proof. vm_compute. reflexivity. Qed.

Example relatedControlFlow_on_continue :
  relatedControlFlow Fixture_Flow.SM Fixture_Flow.continue_120
    [Fixture_Flow.default; Fixture_Flow.switch_body; Fixture_Flow.switch;
     Fixture_Flow.loop_body; Fixture_Flow.loop; Fixture_Flow.function_body;
     Fixture_Flow.function]
  = [30; 100; 120; 210].
Proof. vm_compute. reflexivity. Qed.

(** The theorem on the switch of [Fixture_Flow], at the [break] of the
    cases 1 and 2: the bounds run from [case 1] to [case 3]. *)
Lemma findCaseBounds_bounds_the_run_of_cases_witness :
  (findCaseBounds Fixture_Flow.switch 80 Fixture_Flow.SM).1 ≤ 80
  ∧ 80 < (findCaseBounds Fixture_Flow.switch 80 Fixture_Flow.SM).2
  ∧ findCaseBounds Fixture_Flow.switch 80 Fixture_Flow.SM = (60, 90).
Proof.
  destruct (findCaseBounds_bounds_the_run_of_cases Fixture_Flow.SM
              Fixture_Flow.switch 80 ltac:(intros; reflexivity))
    as (Before & Run & After & _ & _ & _ & _ & _ & _ & _ & _ & HB & HE).
  split; [apply HB; vm_compute; discriminate|].
  split; [apply HE; reflexivity|].
  vm_compute. reflexivity.
Defined.

(** ** Document highlights *)

(** The declarations a tree gives [findDocumentHighlights], and the
    related control flow of its node. *)
Definition highlight_targets (N : SelectionNode) : list Decl :=
  (filter (λ Entry,
             Z.land Entry.2
               (Z.lnot (Z.lor DeclRelation_TemplatePattern DeclRelation_Alias))
             = 0)
     (allTargetDecls N)).*1.

Definition highlight_flow (AST : HighlightAST) (N : SelectionNode)
  : list SourceLocation :=
  relatedControlFlow (getSourceManager AST) (node_ASTNode AST N)
    (node_ASTNode AST <$> node_Parents N).

Lemma findDocumentHighlights_trees_first (AST : HighlightAST)
    (Trees : list (option SelectionNode)) :
  (∃ pre N post,
     Trees = pre ++ Some N :: post
     ∧ (∀ M, Some M ∈ pre →
             highlight_targets M = [] ∧ highlight_flow AST M = [])
     ∧ ((highlight_targets N ≠ []
         ∧ findDocumentHighlights_trees AST Trees
           = (λ Ref, toHighlight Ref (getSourceManager AST))
             <$> findRefs (highlight_targets N) AST true)
        ∨ (highlight_targets N = [] ∧ highlight_flow AST N ≠ []
           ∧ findDocumentHighlights_trees AST Trees
             = omap (λ Loc, toHighlight_Loc Loc (getSourceManager AST)
                              (getTokens AST))
                 (highlight_flow AST N))))
  ∨ (findDocumentHighlights_trees AST Trees = []
     ∧ ∀ M, Some M ∈ Trees →
            highlight_targets M = [] ∧ highlight_flow AST M = []).
Proof.
  induction Trees as [|[N|] Trees IH]; cbn [findDocumentHighlights_trees].
  - right. split; [done|]. by intros M ?%elem_of_nil.
  - fold (highlight_targets N). fold (highlight_flow AST N).
    destruct (highlight_targets N) as [|D Ds] eqn:HT.
    2:{ left. exists [], N, Trees. split; [done|].
        split; [by intros M ?%elem_of_nil|]. left. by rewrite HT. }
    destruct (highlight_flow AST N) as [|Loc Locs] eqn:HF.
    2:{ left. exists [], N, Trees. split; [done|].
        split; [by intros M ?%elem_of_nil|]. right. by rewrite HT, HF. }
    destruct IH as [(pre & N' & post & -> & Hpre & Hres)|[Hres Hall]].
    + left. exists (Some N :: pre), N', post. split; [done|]. split; [|done].
      intros M [[= ->]|HM]%elem_of_cons; [done|by apply Hpre].
    + right. split; [done|].
      intros M [[= ->]|HM]%elem_of_cons; [done|by apply Hall].
  - destruct IH as [(pre & N' & post & -> & Hpre & Hres)|[Hres Hall]].
    + left. exists (None :: pre), N', post. split; [done|]. split; [|done].
      intros M [[=]|HM]%elem_of_cons. by apply Hpre.
    + right. split; [done|].
      intros M [[=]|HM]%elem_of_cons. by apply Hall.
Qed.

(** X23. [findDocumentHighlights] answers from one selection tree, the
    first at the cursor whose node has a declaration to refer to or, if
    it has none, a related control flow. With declarations the
    highlights are those of the references [findRefs] finds to them, one
    per token of a selector, and the control flow is not looked at: a
    highlight is a write when the reference has the write role, a read
    when it has the read role and not the write role, and text
    otherwise. Without declarations the highlights are the tokens at the
    locations of the related control flow, all of them text; a location
    without a spelled token gives none. The answer is empty when the
    position is not in the main file or no tree has either. *)
Theorem findDocumentHighlights_answers_from_first_tree
    (AST : HighlightAST) (Pos : Position) :
  let SM := getSourceManager AST in
  let Highlights := findDocumentHighlights AST Pos in
  ((∃ CurLoc pre N post,
      sourceLocationInMainFile SM Pos = Some CurLoc
      ∧ createEach AST (getDecomposedSpellingLoc AST CurLoc)
        = pre ++ Some N :: post
      ∧ (∀ M, Some M ∈ pre →
              highlight_targets M = [] ∧ highlight_flow AST M = [])
      ∧ ((highlight_targets N ≠ []
          ∧ Highlights
            = (λ Ref, toHighlight Ref SM)
              <$> findRefs (highlight_targets N) AST true)
         ∨ (highlight_targets N = [] ∧ highlight_flow AST N ≠ []
            ∧ Highlights
              = omap (λ Loc, toHighlight_Loc Loc SM (getTokens AST))
                  (highlight_flow AST N)
            ∧ Forall (λ H, dh_kind H = DHK_Text) Highlights)))
   ∨ (Highlights = []
      ∧ (sourceLocationInMainFile SM Pos = None
         ∨ ∃ CurLoc,
             sourceLocationInMainFile SM Pos = Some CurLoc
             ∧ ∀ M, Some M ∈ createEach AST
                               (getDecomposedSpellingLoc AST CurLoc) →
                    highlight_targets M = [] ∧ highlight_flow AST M = [])))
  ∧ (∀ Ref,
       (dh_kind (toHighlight Ref SM) = DHK_Write
        ↔ Z.land (ReferenceFinder.Role Ref) SymbolRole_Write ≠ 0)
       ∧ (dh_kind (toHighlight Ref SM) = DHK_Read
          ↔ Z.land (ReferenceFinder.Role Ref) SymbolRole_Write = 0
            ∧ Z.land (ReferenceFinder.Role Ref) SymbolRole_Read ≠ 0)).
Proof.
  intros SM Highlights. split.
  - unfold Highlights, findDocumentHighlights. fold SM.
    destruct (sourceLocationInMainFile SM Pos) as [CurLoc|];
      [|right; split; [done|by left]].
    destruct (findDocumentHighlights_trees_first AST
                (createEach AST (getDecomposedSpellingLoc AST CurLoc)))
      as [(pre & N & post & HTrees & Hpre & Hres)|[Hres Hall]].
    + left. exists CurLoc, pre, N, post. split; [done|]. split; [done|].
      split; [done|].
      destruct Hres as [[HT ->]|(HT & HF & ->)]; [by left|right].
      split; [done|]. split; [done|]. split; [done|].
      apply Forall_forall. intros H (Loc & _ & HH)%list_elem_of_omap.
      unfold toHighlight_Loc in HH.
      destruct (spelledTokenContaining _ _); [|done]. by injection HH as <-.
    + right. split; [done|]. right. by exists CurLoc.
  - intros Ref. unfold toHighlight. simpl.
    destruct (Z.land (ReferenceFinder.Role Ref) SymbolRole_Write =? 0) eqn:HW;
      [apply Z.eqb_eq in HW|apply Z.eqb_neq in HW]; simpl.
    2:{ split; [done|]. split; [done|]. by intros [? _]. }
    destruct (Z.land (ReferenceFinder.Role Ref) SymbolRole_Read =? 0) eqn:HR;
      [apply Z.eqb_eq in HR|apply Z.eqb_neq in HR]; simpl.
    + split; [done|]. split; [done|]. by intros [_ ?].
    + split; [done|]. split; [done|]. done.
Qed.

(** ** The type hierarchy at a position *)

Lemma fillSuperTypes_parents_keeps
    (rec : Decl → TypeHierarchyItem → RecursionProtectionSet
           → option (TypeHierarchyItem * RecursionProtectionSet))
    (declToItem : Decl → option TypeHierarchyItem) (Parents : list Decl) :
  ∀ Item RPSet Item' RPSet',
    is_Some (item_parents Item) →
    fillSuperTypes_parents rec declToItem Parents Item RPSet
    = Some (Item', RPSet') →
    is_Some (item_parents Item')
    ∧ item_name Item' = item_name Item
    ∧ data_symbolID (item_data Item') = data_symbolID (item_data Item).
Proof.
  induction Parents as [|P Parents IH]; intros Item RPSet Item' RPSet' HI;
    simpl.
  - by intros [= <- _].
  - destruct (declToItem P) as [PS|]; [|by apply IH].
    destruct (rec P PS RPSet) as [[PS' R1]|]; [|done].
    intros Hrest. apply IH in Hrest as (? & -> & ->).
    + split; [done|]. by destruct Item as [? ? ? ? ? [] ?].
    + destruct Item as [? ? ? ? ? [] [l|]]; simpl; [eauto|]. by destruct HI.
Qed.

Lemma fillSuperTypes_keeps S AST TUPath fuel CXXRD Item RPSet Item' RPSet' :
  fillSuperTypes fuel S AST TUPath CXXRD Item RPSet = Some (Item', RPSet') →
  is_Some (item_parents Item')
  ∧ item_name Item' = item_name Item
  ∧ data_symbolID (item_data Item') = data_symbolID (item_data Item).
Proof.
  destruct fuel as [|fuel]; simpl; [done|].
  assert (is_Some (item_parents (emplace_parents Item))
          ∧ item_name (emplace_parents Item) = item_name Item
          ∧ data_symbolID (item_data (emplace_parents Item))
            = data_symbolID (item_data Item)) as (HP & HN & HD).
  { destruct Item as [? ? ? ? ? [] ?]. simpl. eauto. }
  case_match.
  - by intros [= <- _].
  - match goal with
    | |- context [fillSuperTypes_parents ?r ?d ?ps ?i ?rp] =>
        destruct (fillSuperTypes_parents r d ps i rp) as [[Item1 RPSet1]|]
          eqn:Hloop; [|done]
    end.
    intros [= <- _].
    apply fillSuperTypes_parents_keeps in Hloop as (? & -> & ->); done.
Qed.

(** The record [getTypeHierarchy] makes the item of, for the record [D0]
    met at the cursor: the pattern a class template specialization was
    instantiated from when children are asked for, else [D0] itself. *)
Definition hierarchy_subject (AST : HierarchyAST)
    (Direction : TypeHierarchyDirection) (D0 : Decl) : option Decl :=
  if bool_decide (Direction ≠ Direction_Parents)
     && bool_decide (getKind (getASTContext AST) D0
                     = ClassTemplateSpecialization)
  then getTemplateInstantiationPattern AST D0
  else Some D0.

(** What [getTypeHierarchy] makes of the record [D0] met at the cursor:
    the item of its subject [D], consistent at every level, with its
    parents set, named as [D] and carrying its id, and with the children
    the request asked for. *)
Definition hierarchy_root (L : Library) (AST : HierarchyAST)
    (ResolveLevels : Z) (Direction : TypeHierarchyDirection)
    (Index : option SymbolIndex) (TUPath : string) (D0 : Decl)
    (E : TypeHierarchyEntry) : Prop :=
  ∃ D,
    hierarchy_subject AST Direction D0 = Some D
    ∧ (D = D0
       ∨ (Direction ≠ Direction_Parents
          ∧ getKind (getASTContext AST) D0 = ClassTemplateSpecialization
          ∧ getTemplateInstantiationPattern AST D0 = Some D))
    ∧ is_Some (declToTypeHierarchyItem L AST D (tuPath AST))
    ∧ item_consistent (entry_item E)
    ∧ is_Some (item_parents (entry_item E))
    ∧ item_name (entry_item E) = printName (getASTContext AST) D
    ∧ data_symbolID (item_data (entry_item E))
      = getSymbolID (getASTContext AST) D
    ∧ entry_detail E = ""
    ∧ entry_children E
      = if bool_decide (Direction ≠ Direction_Parents) && (0 <? ResolveLevels)
        then Some (match Index with
                   | Some Index =>
                       if SymbolID_isNull (getSymbolID (getASTContext AST) D)
                       then []
                       else fillSubTypes L (getSymbolID (getASTContext AST) D)
                              [] Index ResolveLevels TUPath
                   | None => []
                   end)
        else None.

(** The records at the cursor of which [getTypeHierarchy] makes an item:
    those whose subject [declToTypeHierarchyItem] has an item for. *)
Definition hierarchy_item_made (L : Library) (AST : HierarchyAST)
    (Direction : TypeHierarchyDirection) (D0 : Decl) : Prop :=
  is_Some (hierarchy_subject AST Direction D0
           ≫= λ D, declToTypeHierarchyItem L AST D (tuPath AST)).

#[global] Instance hierarchy_item_made_dec L AST Direction D0
  : Decision (hierarchy_item_made L AST Direction D0).
Proof. unfold hierarchy_item_made. apply _. Defined.

Section TypeHierarchy.
Context (L : Library) (AST : HierarchyAST) (ResolveLevels : Z).
Context (Direction : TypeHierarchyDirection) (Index : option SymbolIndex).
Context (TUPath : string) (Patterns : gset Decl) (rank : Decl → nat).
Hypothesis Patterns_spec :
  ∀ D, getDescribedTemplate (getASTContext AST) D = true → D ∈ Patterns.
Hypothesis rank_spec :
  ∀ D P, getDescribedTemplate (getASTContext AST) D = false →
         P ∈ typeParents (getASTContext AST) D →
         getDescribedTemplate (getASTContext AST) P = false →
         (rank P < rank D)%nat.

Lemma WantChildren_spec :
  bool_decide (Direction = Direction_Children)
  || bool_decide (Direction = Direction_Both)
  = bool_decide (Direction ≠ Direction_Parents).
Proof. by destruct Direction. Qed.

Lemma getTypeHierarchy_record_spec (D0 : Decl) :
  (Direction ≠ Direction_Parents →
   getKind (getASTContext AST) D0 = ClassTemplateSpecialization →
   is_Some (getTemplateInstantiationPattern AST D0)) →
  ∃ fuel New,
    (length New ≤ 1)%nat
    ∧ Forall (hierarchy_root L AST ResolveLevels Direction Index TUPath D0) New
    ∧ Forall2 (hierarchy_root L AST ResolveLevels Direction Index TUPath)
        (filter (hierarchy_item_made L AST Direction) [D0]) New
    ∧ ∀ fuel' Results, (fuel ≤ fuel')%nat →
        getTypeHierarchy_record fuel' L AST ResolveLevels Direction Index
          TUPath (Some Results) D0
        = Some (Results ++ New).
Proof.
  intros HPattern. unfold getTypeHierarchy_record. cbn [mbind option_bind].
  rewrite WantChildren_spec. unfold isa.
  rewrite filter_cons, filter_nil.
  assert (∃ D,
            hierarchy_subject AST Direction D0 = Some D
            ∧ (D = D0
               ∨ (Direction ≠ Direction_Parents
                  ∧ getKind (getASTContext AST) D0 = ClassTemplateSpecialization
                  ∧ getTemplateInstantiationPattern AST D0 = Some D)))
    as (D & HSubject & HD).
  { unfold hierarchy_subject.
    case_bool_decide as HDir; simpl; [|by exists D0; auto].
    case_bool_decide as HK; simpl; [|by exists D0; auto].
    destruct (HPattern HDir HK) as [D HD]. exists D. rewrite HD. auto. }
  pose proof HSubject as HSubject'. unfold hierarchy_subject in HSubject'.
  rewrite HSubject'. clear HSubject'.
  destruct (declToTypeHierarchyItem L AST D (tuPath AST)) as [Item|] eqn:HItem.
  2:{ exists 0%nat, []. split; [simpl; lia|]. split; [done|].
      rewrite decide_False.
      2:{ unfold hierarchy_item_made. rewrite HSubject. simpl.
          rewrite HItem. by intros [? ?]. }
      split; [constructor|].
      intros fuel' Results _. by rewrite app_nil_r. }
  rewrite decide_True.
  2:{ unfold hierarchy_item_made. rewrite HSubject. simpl.
      rewrite HItem. eauto. }
  destruct (fillSuperTypes_fills_all L AST (tuPath AST) Patterns rank
              Patterns_spec rank_spec _ ∅ eq_refl D Item)
    as (fuel & Item' & Hfuel).
  pose proof (Hfuel fuel (le_n _)) as Hrun.
  destruct (declToTypeHierarchyItem_range _ _ _ _ _ HItem) as (HR & HN & HID).
  assert (hierarchy_root L AST ResolveLevels Direction Index TUPath D0
            (mkTypeHierarchyEntry Item' ""
               (if bool_decide (Direction ≠ Direction_Parents)
                   && (0 <? ResolveLevels)
                then Some (match Index with
                           | Some Index =>
                               if SymbolID_isNull
                                    (getSymbolID (getASTContext AST) D)
                               then []
                               else fillSubTypes L
                                      (getSymbolID (getASTContext AST) D)
                                      [] Index ResolveLevels TUPath
                           | None => []
                           end)
                else None))) as HRoot.
  { exists D. split; [done|]. split; [done|]. split; [by rewrite HItem|].
    simpl. split; [by eapply fillSuperTypes_consistent|].
    apply fillSuperTypes_keeps in Hrun as (HP & HN' & HID').
    split; [done|]. split; [by rewrite HN'|]. split; [by rewrite HID'|].
    done. }
  eexists fuel, [_]. split; [done|].
  split; [constructor; [exact HRoot|done]|].
  split; [constructor; [exact HRoot|constructor]|].
  intros fuel' Results Hle.
  match goal with
  | |- context [fillSuperTypes ?a ?b ?c ?d ?e ?f ?g] =>
      replace (fillSuperTypes a b c d e f g) with (Some (Item', g))
        by (symmetry; by apply Hfuel)
  end.
  done.
Qed.

Lemma getTypeHierarchy_fold_spec (Records : list Decl) :
  (Direction ≠ Direction_Parents →
   ∀ D, D ∈ Records →
        getKind (getASTContext AST) D = ClassTemplateSpecialization →
        is_Some (getTemplateInstantiationPattern AST D)) →
  ∃ fuel New,
    (length New ≤ length Records)%nat
    ∧ Forall (λ E, ∃ D0, D0 ∈ Records
                         ∧ hierarchy_root L AST ResolveLevels Direction Index
                             TUPath D0 E) New
    ∧ Forall2 (hierarchy_root L AST ResolveLevels Direction Index TUPath)
        (filter (hierarchy_item_made L AST Direction) Records) New
    ∧ ∀ fuel' Results, (fuel ≤ fuel')%nat →
        foldl (getTypeHierarchy_record fuel' L AST ResolveLevels Direction
                 Index TUPath) (Some Results) Records
        = Some (Results ++ New).
Proof.
  induction Records as [|D0 Records IH]; intros HPattern.
  { exists 0%nat, []. split; [done|]. split; [done|]. split; [constructor|].
    intros fuel' Results _. by rewrite app_nil_r. }
  destruct (getTypeHierarchy_record_spec D0)
    as (f1 & New1 & Hlen1 & HF1 & HE1 & H1).
  { intros HDir. apply HPattern; [done|left]. }
  destruct IH as (f2 & New2 & Hlen2 & HF2 & HE2 & H2).
  { intros HDir D HD. apply HPattern; [done|by right]. }
  exists (f1 `max` f2)%nat, (New1 ++ New2).
  split; [rewrite length_app; simpl; lia|]. split; [|split].
  - apply Forall_app. split.
    + eapply Forall_impl; [exact HF1|]. intros E HE. exists D0.
      split; [left|done].
    + eapply Forall_impl; [exact HF2|]. intros E (D & HD & HE). exists D.
      split; [by right|done].
  - change (D0 :: Records) with ([D0] ++ Records). rewrite filter_app.
    by apply Forall2_app.
  - intros fuel' Results Hle. cbn [foldl].
    rewrite H1 by lia. rewrite H2 by lia. by rewrite app_assoc.
Qed.

End TypeHierarchy.

(** X24. [getTypeHierarchy] answers one item for each record
    [findRecordTypeAt] finds at the position of which an item can be
    made, in the order of the records, and no other; and each item is
    whole: it is the item of the record - of the pattern it was
    instantiated from, for a class template specialization when children
    are asked for -, its tree of parents is filled and consistent at
    every level (the range contains the selection range, [data.parents]
    lists the data of [parents]), it is named as the record and carries
    its id, and it has children exactly when children are asked for
    (direction [Children] or [Both]) with a positive number of levels -
    then the subtypes of the index down to that number of levels, none
    without an index or for a record without an id. The walk over the
    parents ends given finitely many template patterns and acyclic
    inheritance among the other records; a specialization met with
    children asked for is taken to have a pattern. *)
Theorem getTypeHierarchy_items_are_whole
    (L : Library) (AST : HierarchyAST) (Pos : Position) (ResolveLevels : Z)
    (Direction : TypeHierarchyDirection) (Index : option SymbolIndex)
    (TUPath : string) (Patterns : gset Decl) (rank : Decl → nat) :
  (∀ D, getDescribedTemplate (getASTContext AST) D = true → D ∈ Patterns) →
  (∀ D P, getDescribedTemplate (getASTContext AST) D = false →
          P ∈ typeParents (getASTContext AST) D →
          getDescribedTemplate (getASTContext AST) P = false →
          (rank P < rank D)%nat) →
  (Direction ≠ Direction_Parents →
   ∀ D, D ∈ findRecordTypeAt AST Pos →
        getKind (getASTContext AST) D = ClassTemplateSpecialization →
        is_Some (getTemplateInstantiationPattern AST D)) →
  ∃ fuel Results,
    (∀ fuel', (fuel ≤ fuel')%nat →
       getTypeHierarchy fuel' L AST Pos ResolveLevels Direction Index TUPath
       = Some Results)
    ∧ (length Results ≤ length (findRecordTypeAt AST Pos))%nat
    ∧ Forall (λ E, ∃ D0, D0 ∈ findRecordTypeAt AST Pos
                         ∧ hierarchy_root L AST ResolveLevels Direction Index
                             TUPath D0 E) Results
    ∧ Forall2 (hierarchy_root L AST ResolveLevels Direction Index TUPath)
        (filter (λ D0,
                   is_Some (hierarchy_subject AST Direction D0
                            ≫= λ D, declToTypeHierarchyItem L AST D
                                      (tuPath AST)))
           (findRecordTypeAt AST Pos))
        Results.
Proof.
  intros HPat Hrank HPattern.
  destruct (getTypeHierarchy_fold_spec L AST ResolveLevels Direction Index
              TUPath Patterns rank HPat Hrank (findRecordTypeAt AST Pos)
              HPattern) as (fuel & New & Hlen & HF & HE & Hrun).
  exists fuel, New. split; [|done].
  intros fuel' Hle. unfold getTypeHierarchy. by rewrite (Hrun fuel' [] Hle).
Qed.

(** The theorem on the reference to [S<0>] in [Fixture_TypeHierarchy],
    with children asked for: the answer is one item, that of the pattern
    [S] with its id, and its children are set and empty, the index
    holding no subtype of [S]. *)
Lemma getTypeHierarchy_items_are_whole_witness :
  ∃ fuel Results,
    (∀ fuel', (fuel ≤ fuel')%nat →
       getTypeHierarchy fuel' Fixture_Classes.library
         Fixture_TypeHierarchy.file (mkPosition 0 0) 1 Direction_Both
         (Some Fixture_Classes.index) Fixture.main_path
       = Some Results)
    ∧ ∃ E, Results = [E]
           ∧ item_name (entry_item E) = "S"
           ∧ data_symbolID (item_data (entry_item E)) = 101
           ∧ is_Some (item_parents (entry_item E))
           ∧ entry_children E = Some [].
Proof.
  destruct (getTypeHierarchy_items_are_whole Fixture_Classes.library
              Fixture_TypeHierarchy.file (mkPosition 0 0) 1 Direction_Both
              (Some Fixture_Classes.index) Fixture.main_path
              Fixture_Hierarchy.patterns Fixture_Hierarchy.rank)
    as (fuel & Results & Hrun & _ & _ & HE).
  - intros D HD. simpl in HD. apply bool_decide_eq_true in HD. subst D.
    unfold Fixture_Hierarchy.patterns. set_solver.
  - intros [|[|D]] P HD HP HPd; simpl in *.
    + apply list_elem_of_singleton in HP. subst P. done.
    + done.
    + by apply elem_of_nil in HP.
  - intros _ D HD _. apply list_elem_of_singleton in HD. subst D.
    simpl. eauto.
  - exists fuel, Results. split; [exact Hrun|].
    assert (filter (λ D0,
                      is_Some (hierarchy_subject Fixture_TypeHierarchy.file
                                 Direction_Both D0
                               ≫= λ D, declToTypeHierarchyItem
                                         Fixture_Classes.library
                                         Fixture_TypeHierarchy.file D
                                         (tuPath Fixture_TypeHierarchy.file)))
              (findRecordTypeAt Fixture_TypeHierarchy.file (mkPosition 0 0))
            = [0%nat]) as Hrecords by (vm_compute; reflexivity).
    rewrite Hrecords in HE.
    apply Forall2_cons_inv_l in HE as (E & Rest & HRoot & HRest & ->).
    apply Forall2_nil_inv_l in HRest as ->.
    exists E. split; [reflexivity|].
    destruct HRoot as (D & HD & _ & _ & _ & HP & HN & HID & _ & HC).
    vm_compute in HD. injection HD as <-.
    split; [exact HN|]. split; [exact HID|]. split; [exact HP|].
    rewrite HC. vm_compute. reflexivity.
Defined.

(** ** The relation findImplementations queries *)

(** The declarations whose implementations are looked for: virtual
    methods, records, Objective-C methods and interfaces. *)
Definition implementable (Ctx : ASTContext) (D : Decl) : Prop :=
  (getKind Ctx D = CXXMethod ∧ isVirtual Ctx D = true)
  ∨ isa_CXXRecordDecl (getKind Ctx D) = true
  ∨ getKind Ctx D = ObjCMethod
  ∨ getKind Ctx D = ObjCInterface.

#[local] Instance implementable_dec Ctx D : Decision (implementable Ctx D).
Proof. unfold implementable. apply _. Defined.

(** The relation that holds the implementations of a declaration. *)
Definition implementation_relation (Ctx : ASTContext) (D : Decl)
  : RelationKind :=
  if isa_CXXRecordDecl (getKind Ctx D) || isa (getKind Ctx D) ObjCInterface
  then BaseOf else OverriddenBy.

Lemma findImplementations_decl_spec (Ctx : ASTContext)
    (IDs : gset SymbolID) (QueryKind : RelationKind) (D : Decl) :
  findImplementations_decl Ctx (IDs, QueryKind) D
  = if decide (implementable Ctx D)
    then ({[getSymbolID Ctx D]} ∪ IDs, implementation_relation Ctx D)
    else (IDs, QueryKind).
Proof.
  destruct (decide (implementable Ctx D)) as [HD|HD];
    unfold implementable in HD;
    unfold findImplementations_decl, implementation_relation, isa;
    destruct (getKind Ctx D) eqn:HK, (isVirtual Ctx D) eqn:HV; simpl in *;
    try done; exfalso; naive_solver.
Qed.

Lemma findImplementations_fold (Ctx : ASTContext) (Decls : list Decl) :
  ∀ IDs QueryKind,
    foldl (findImplementations_decl Ctx) (IDs, QueryKind) Decls
    = (list_to_set (getSymbolID Ctx <$> filter (implementable Ctx) Decls)
       ∪ IDs,
       match last (filter (implementable Ctx) Decls) with
       | Some D => implementation_relation Ctx D
       | None => QueryKind
       end).
Proof.
  induction Decls as [|D Decls IH]; intros IDs QueryKind; cbn [foldl].
  { simpl. f_equal. set_solver. }
  rewrite findImplementations_decl_spec, filter_cons.
  destruct (decide (implementable Ctx D)) as [HD|HD]; rewrite IH; [|done].
  f_equal.
  - rewrite fmap_cons, list_to_set_cons. set_solver.
  - rewrite last_cons. by destruct (last (filter (implementable Ctx) Decls)).
Qed.

(** X25. [findImplementations] asks the index one question: the ids of
    the declarations at the cursor that are virtual methods, records,
    Objective-C methods or interfaces, under a single relation - the one
    of the last such declaration, [BaseOf] for a record or an interface
    and [OverriddenBy] for a method - also when the declarations are of
    both sorts. A method that is not virtual is not asked about. Every
    implementation in the answer is made of an answer of the index to
    that question: it has the name of the symbol, is at its declaration,
    has the definition the index holds if that resolves, and carries no
    symbol id. Without an index, outside the main file, and when no
    declaration at the cursor can have implementations, the answer is
    empty. *)
Theorem findImplementations_queries_one_relation
    (S : Support) (AST : ParsedAST) (Pos : Position)
    (Index : option SymbolIndex) :
  let Ctx := getASTContext AST in
  (∀ Idx CurLoc,
     Index = Some Idx →
     sourceLocationInMainFile (getSourceManager AST) Pos = Some CurLoc →
     let Decls :=
       filter (implementable Ctx)
         (getDeclAtPosition AST CurLoc
            (Z.lor DeclRelation_TemplatePattern DeclRelation_Alias)) in
     let IDs : gset SymbolID := list_to_set (getSymbolID Ctx <$> Decls) in
     let QueryKind :=
       match last Decls with
       | Some D => implementation_relation Ctx D
       | None => OverriddenBy
       end in
     (Decls = [] → findImplementations S AST Pos Index = [])
     ∧ Forall (λ R,
                 ID R = 0
                 ∧ ∃ Answer,
                     Answer ∈ relations Idx QueryKind IDs
                     ∧ Name R = sym_Name Answer.2
                     ∧ indexToLSPLocation S (sym_CanonicalDeclaration Answer.2)
                         (tuPath AST) = Some (PreferredDeclaration R)
                     ∧ Definition_ R
                       = indexToLSPLocation S (sym_Definition Answer.2)
                           (tuPath AST))
         (findImplementations S AST Pos Index))
  ∧ (Index = None
     ∨ sourceLocationInMainFile (getSourceManager AST) Pos = None →
     findImplementations S AST Pos Index = []).
Proof.
  intros Ctx. split.
  2:{ unfold findImplementations. intros [->|HP]; [done|].
      destruct Index; [|done]. by rewrite HP. }
  intros Idx CurLoc -> HCur Decls IDs QueryKind.
  unfold findImplementations. rewrite HCur.
  fold Ctx. rewrite findImplementations_fold. fold Decls.
  rewrite union_empty_r_L. fold IDs. fold QueryKind.
  unfold findImplementors. split.
  - intros HD. unfold IDs. rewrite HD. simpl.
    by rewrite bool_decide_eq_true_2.
  - case_bool_decide; [done|].
    apply (foldl_invariant
             (Forall (λ R,
                        ID R = 0
                        ∧ ∃ Answer,
                            Answer ∈ relations Idx QueryKind IDs
                            ∧ Name R = sym_Name Answer.2
                            ∧ indexToLSPLocation S
                                (sym_CanonicalDeclaration Answer.2)
                                (tuPath AST) = Some (PreferredDeclaration R)
                            ∧ Definition_ R
                              = indexToLSPLocation S (sym_Definition Answer.2)
                                  (tuPath AST)))); [done|].
    intros Results Answer HA HR. unfold findImplementors_callback.
    destruct (indexToLSPLocation S (sym_CanonicalDeclaration Answer.2)
                (tuPath AST)) as [DeclLoc|] eqn:HDecl; [|done].
    destruct (indexToLSPLocation S (sym_Definition Answer.2) (tuPath AST))
      as [DefLoc|] eqn:HDef; apply Forall_app; (split; [done|]);
      (constructor; [|done]); (split; [done|]); exists Answer;
      (split; [done|]); simpl; by rewrite ?HDecl, ?HDef.
Qed.

(** ** The types findType goes to *)

(** The type under the pointers, references, arrays, function types and
    lambdas around it. *)
Fixpoint core_type (T : FoundType) : FoundType :=
  match T with
  | FT_Pointer Pointee => core_type Pointee
  | FT_Reference Pointee => core_type Pointee
  | FT_Array Element => core_type Element
  | FT_Function Return => core_type Return
  | FT_Lambda Return => core_type Return
  | _ => T
  end.

(** A type worth going to: an alias or a type that is none of the
    wrappers. *)
Definition is_destination (T : FoundType) : Prop :=
  match T with
  | FT_Typedef _ | FT_Other _ _ => True
  | _ => False
  end.

Lemma unwrapFindType_spec (T : FoundType) (H : bool) :
  ∀ Out,
    ∃ New,
      unwrapFindType T H Out = Out ++ New
      ∧ Forall is_destination New
      ∧ last New = (if decide (core_type T = FT_Null) then None
                    else Some (core_type T))
      ∧ (H = false → (length New ≤ 1)%nat).
Proof.
  induction T as [|alias|P IH|P IH|E IH|R IH|R IH|type P IH]; intros Out;
    cbn [unwrapFindType core_type]; try apply IH.
  - exists []. rewrite app_nil_r, decide_True by done.
    repeat split; try done; try (by constructor); simpl; lia.
  - exists [FT_Typedef alias]. rewrite decide_False by done.
    repeat split; try done; try (by constructor); simpl; lia.
  - rewrite decide_False by done. destruct H.
    2:{ exists [FT_Other type P].
        repeat split; try done; try (by constructor); simpl; lia. }
    destruct (IH Out) as (New & HNew & HF & _ & _).
    assert (∃ New',
              match P with
              | FT_Null => Out ++ [FT_Other type P]
              | _ => unwrapFindType P true Out ++ [FT_Other type P]
              end = Out ++ New' ++ [FT_Other type P]
              ∧ Forall is_destination New') as (New' & -> & HF').
    { destruct P; try (exists New; by rewrite HNew, <- app_assoc).
      by exists []. }
    exists (New' ++ [FT_Other type P]). split; [done|]. split.
    { apply Forall_app. split; [done|]. by constructor. }
    split; [by rewrite last_snoc|done].
Qed.

Lemma unwrapFindType_app (T : FoundType) (H : bool) :
  ∀ Out, unwrapFindType T H Out = Out ++ unwrapFindType T H [].
Proof.
  induction T as [|alias|P IH|P IH|E IH|R IH|R IH|type P IH]; intros Out;
    cbn [unwrapFindType]; try apply IH.
  - by rewrite app_nil_r.
  - done.
  - destruct H; [|done]. rewrite (IH Out).
    destruct P; try done; by rewrite <- app_assoc.
Qed.

(** X26. [unwrapFindType] only adds to the types it is given, and what
    it adds is worth going to: aliases and types that are no wrappers -
    never a null type, a pointer, a reference, an array, a function type
    or the closure type of a lambda, which it looks through (a lambda to
    the return type of its call operator). An alias is kept as it is,
    not unwrapped. The type under the wrappers comes last, after the
    pointee types the heuristic resolver finds for it (a smart pointer
    to a smart pointer gives three types); nothing is added exactly when
    a null type is under the wrappers; without a resolver at most one
    type is added. *)
Theorem unwrapFindType_adds_destinations
    (T : FoundType) (H : bool) (Out : list FoundType) :
  ∃ New,
    unwrapFindType T H Out = Out ++ New
    ∧ unwrapFindType T H [] = New
    ∧ Forall is_destination New
    ∧ (New = [] ↔ core_type T = FT_Null)
    ∧ (core_type T ≠ FT_Null → last New = Some (core_type T))
    ∧ (H = false → (length New ≤ 1)%nat).
Proof.
  destruct (unwrapFindType_spec T H []) as (New & HNew & HF & HL & HH).
  simpl in HNew. exists New. split; [by rewrite unwrapFindType_app, HNew|].
  split; [done|]. split; [done|].
  destruct (decide (core_type T = FT_Null)) as [HN|HN].
  - split; [|split; [done|done]]. split; [done|]. intros _.
    destruct New as [|x New _] using rev_ind; [done|].
    by rewrite last_snoc in HL.
  - split; [|split; [done|done]]. split; [|done].
    intros ->. done.
Qed.
